(** * Graph search engine: Dijkstra, A*, BFS, DFS, path reconstruction, race judge

    A shallow embedding of [src/algorithms/{dijkstra,astar,bfs,dfs}.ts] and of
    the winner computation of [src/components/ComparisonView.tsx].

    Conventions of the embedding.
    - A JavaScript [Map<string, V>] is a [gmap string V]; a key that is absent
      ([get] returns [undefined]) is a lookup that returns [None].  A
      [Map<string, string | null>] is a [gmap string (option string)]: the
      value [null] is [Some None].
    - A [Set<string>] is a [gset string] (the code only uses [has], [add],
      [size] and copies).
    - JavaScript numbers are idealised: finite values are exact rationals,
      [Infinity] is a constant, and [undefined] used as a number is [NaN]
      (every comparison with it is false).  [Math.sqrt] is a parameter.
      The code computes with IEEE-754 doubles, which round and overflow:
      the two agree as long as every value that is computed is an integer
      of absolute value at most [Number.MAX_SAFE_INTEGER], where [+], [-],
      [*] and the comparisons of the code are exact.  The theorems whose
      statement depends on the value of a sum or of a distance are stated
      under hypotheses that keep the run in that range ([safe_weights],
      [integer_positions], [exact_heuristic], [exact_length]).
    - A loop that may fail to terminate is written with fuel and returns
      [None] when the fuel runs out; totality lemmas show that the fuel chosen
      by each top-level function is enough. *)

From Stdlib Require Import QArith Qround Qminmax Lia Lqa.
From stdpp Require Import gmap strings list fin_maps pretty.

Open Scope string_scope.
Open Scope list_scope.

(** ** Data model ([src/types/index.ts]) *)

Module Node.
Record t := mk { id : string; x : Q; y : Q }.
End Node.

Module Edge.
Record t := mk { from : string; to : string; weight : Q }.
End Edge.

Module Graph.
Record t := mk { nodes : list Node.t; edges : list Edge.t }.
End Graph.

Module PathStep.
Record t := mk {
  currentNode : string;
  visitedNodes : gset string;
  previousNodes : gmap string (option string);
  path : list string;
  isComplete : bool
}.
End PathStep.

Module AlgorithmResult.
Record t := mk {
  path : list string;
  steps : list PathStep.t;
  visitedNodes : gset string
}.
End AlgorithmResult.

Record AlgorithmConfig := mkConfig {
  startNode : string;
  endNode : string;
  graph : Graph.t
}.

Inductive AlgorithmType := dijkstraT | astarT | bfsT | dfsT.

(** [a === b] on strings. *)
Definition str_eq (a b : string) : bool := bool_decide (a = b).

(** The ids of the nodes of a graph, as a set. *)
Definition node_ids (g : Graph.t) : gset string :=
  list_to_set (Node.id <$> Graph.nodes g).

(** ** Path reconstruction

    [reconstructPath] is the same function in the four source files. *)

(** [previousNodes.get(current) || null]: an absent key, a [null] parent and
    the empty string (which is falsy) all give [null]. *)
Definition parent_of (previousNodes : gmap string (option string)) (current : string)
  : option string :=
  match previousNodes !! current with
  | Some (Some p) => if str_eq p "" then None else Some p
  | _ => None
  end.

(** The [while (current !== null)] loop; [path] is the array built so far
    ([unshift] is [cons]).  [None]: the fuel ran out. *)
Fixpoint walk_back (fuel : nat) (previousNodes : gmap string (option string))
    (startNode current : string) (path : list string) : option (list string) :=
  match fuel with
  | O => None
  | S fuel' =>
      let path := current :: path in
      if str_eq current startNode then Some path
      else match parent_of previousNodes current with
           | None => Some path
           | Some p => walk_back fuel' previousNodes startNode p path
           end
  end.

(** [path[0] === startNode ? path : []]. *)
Definition check_start (startNode : string) (path : list string) : list string :=
  match path with
  | p0 :: _ => if str_eq p0 startNode then path else []
  | [] => []
  end.

Definition reconstructPath_fuel (fuel : nat) (previousNodes : gmap string (option string))
    (startNode endNode : string) : option (list string) :=
  check_start startNode <$> walk_back fuel previousNodes startNode endNode [].

(** A chain without repetition has at most [size previousNodes + 1] elements,
    so this fuel is enough exactly when the loop terminates. *)
Definition reconstructPath (previousNodes : gmap string (option string))
    (startNode endNode : string) : option (list string) :=
  reconstructPath_fuel (S (S (size previousNodes))) previousNodes startNode endNode.

(** ** Adjacency index *)

(** [adjacencyList.get(k)?.push(v)]: nothing happens when [k] is not a key. *)
Definition adj_push {A} (k : string) (v : A) (adj : gmap string (list A))
  : gmap string (list A) :=
  match adj !! k with
  | Some l => <[k := l ++ [v]]> adj
  | None => adj
  end.

(** [graph.nodes.forEach(node => adjacencyList.set(node.id, []))]. *)
Definition adj_init {A} (g : Graph.t) : gmap string (list A) :=
  foldl (fun adj n => <[Node.id n := []]> adj) ∅ (Graph.nodes g).

(** Adjacency of BFS and DFS: neighbour ids only. *)
Definition adjacency (g : Graph.t) : gmap string (list string) :=
  foldl (fun adj e =>
           adj_push (Edge.to e) (Edge.from e)
             (adj_push (Edge.from e) (Edge.to e) adj))
        (adj_init g) (Graph.edges g).

(** Adjacency of Dijkstra and A*: [{ node, weight }] entries. *)
Definition weighted_adjacency (g : Graph.t) : gmap string (list (string * Q)) :=
  foldl (fun adj e =>
           adj_push (Edge.to e) (Edge.from e, Edge.weight e)
             (adj_push (Edge.from e) (Edge.to e, Edge.weight e) adj))
        (adj_init g) (Graph.edges g).

(** [graph.nodes.forEach(node => previousNodes.set(node.id, null))]. *)
Definition prev_init (g : Graph.t) : gmap string (option string) :=
  foldl (fun m n => <[Node.id n := None]> m) ∅ (Graph.nodes g).

(** An upper bound on the number of frontier insertions of one run: the total
    length of the neighbour lists. *)
Definition adj_total {A} (adj : gmap string (list A)) : nat :=
  map_fold (fun _ l acc => length l + acc)%nat O adj.

(** ** Breadth-first search ([bfs.ts]) *)

Module BFS.

(** The mutable variables of the search. *)
Record vars := mkVars {
  previousNodes : gmap string (option string);
  visitedNodes : gset string;
  queue : list string
}.

(** The body of [neighbors.forEach] for one neighbour. *)
Definition relax (currentNode : string) (v : vars) (neighborId : string) : vars :=
  if decide (neighborId ∈ visitedNodes v) then v
  else {| previousNodes := <[neighborId := Some currentNode]> (previousNodes v);
          visitedNodes := visitedNodes v ∪ {[neighborId]};
          queue := queue v ++ [neighborId] |}.

Definition snapshot (cfg : AlgorithmConfig) (v : vars) (currentNode : string)
  : option PathStep.t :=
  p ← reconstructPath (previousNodes v) (startNode cfg) currentNode;
  Some {| PathStep.currentNode := currentNode;
          PathStep.visitedNodes := visitedNodes v;
          PathStep.previousNodes := previousNodes v;
          PathStep.path := p;
          PathStep.isComplete := str_eq currentNode (endNode cfg) |}.

(** The [while (queue.length > 0)] loop of [bfs]. *)
Fixpoint loop (fuel : nat) (cfg : AlgorithmConfig) (adj : gmap string (list string))
    (steps : list PathStep.t) (v : vars) : option (list PathStep.t * vars) :=
  match fuel with
  | O => None
  | S fuel' =>
      match queue v with
      | [] => Some (steps, v)
      | currentNode :: rest =>
          let v := {| previousNodes := previousNodes v;
                      visitedNodes := visitedNodes v;
                      queue := rest |} in
          s ← snapshot cfg v currentNode;
          let steps := steps ++ [s] in
          if str_eq currentNode (endNode cfg) then Some (steps, v)
          else loop fuel' cfg adj steps
                 (foldl (relax currentNode) v (default [] (adj !! currentNode)))
      end
  end.

Definition init_vars (cfg : AlgorithmConfig) : vars :=
  {| previousNodes := prev_init (graph cfg);
     visitedNodes := {[startNode cfg]};
     queue := [startNode cfg] |}.

Definition bfs (cfg : AlgorithmConfig) : option AlgorithmResult.t :=
  let adj := adjacency (graph cfg) in
  '(steps, v) ← loop (S (S (adj_total adj))) cfg adj [] (init_vars cfg);
  finalPath ← reconstructPath (previousNodes v) (startNode cfg) (endNode cfg);
  Some {| AlgorithmResult.path := finalPath;
          AlgorithmResult.steps := steps;
          AlgorithmResult.visitedNodes := visitedNodes v |}.

(** [class BFSStepByStep]. *)
Record state := mkState {
  config : option AlgorithmConfig;
  vars_of : vars;
  adjacencyList : gmap string (list string);
  complete : bool
}.

Definition reset : state :=
  {| config := None;
     vars_of := {| previousNodes := ∅; visitedNodes := ∅; queue := [] |};
     adjacencyList := ∅;
     complete := false |}.

Definition init (cfg : AlgorithmConfig) : state :=
  {| config := Some cfg;
     vars_of := init_vars cfg;
     adjacencyList := adjacency (graph cfg);
     complete := false |}.

Definition step (st : state) : option (option PathStep.t * state) :=
  match config st with
  | None => Some (None, st)
  | Some cfg =>
      if complete st then Some (None, st)
      else match queue (vars_of st) with
           | [] => Some (None, st)
           | currentNode :: rest =>
               let v := {| previousNodes := previousNodes (vars_of st);
                           visitedNodes := visitedNodes (vars_of st);
                           queue := rest |} in
               s ← snapshot cfg v currentNode;
               if str_eq currentNode (endNode cfg) then
                 Some (Some s, {| config := config st; vars_of := v;
                                  adjacencyList := adjacencyList st;
                                  complete := true |})
               else
                 Some (Some s,
                       {| config := config st;
                          vars_of := foldl (relax currentNode) v
                                       (default [] (adjacencyList st !! currentNode));
                          adjacencyList := adjacencyList st;
                          complete := complete st |})
           end
  end.

Definition isComplete (st : state) : bool := complete st.

Definition frontier_empty (st : state) : bool :=
  match queue (vars_of st) with [] => true | _ => false end.

End BFS.

(** ** Depth-first search ([dfs.ts])

    The stack is a list whose head is the top: [stack.push(n)] is [n :: stack]
    and [stack.pop()] removes the head.  The [distances: new Map()] property
    of the emitted steps is constant and is left out. *)

Module DFS.

Record vars := mkVars {
  previousNodes : gmap string (option string);
  visitedNodes : gset string;
  stack : list string
}.

Definition snapshot (cfg : AlgorithmConfig) (v : vars) (currentNode : string)
  : option PathStep.t :=
  p ← reconstructPath (previousNodes v) (startNode cfg) currentNode;
  Some {| PathStep.currentNode := currentNode;
          PathStep.visitedNodes := visitedNodes v;
          PathStep.previousNodes := previousNodes v;
          PathStep.path := p;
          PathStep.isComplete := str_eq currentNode (endNode cfg) |}.

Definition set_parent (currentNode neighborId : string) (v : vars) : vars :=
  {| previousNodes := <[neighborId := Some currentNode]> (previousNodes v);
     visitedNodes := visitedNodes v;
     stack := neighborId :: stack v |}.

(** Loop body of [dfs]:
    [!visitedNodes.has(neighborId) && !previousNodes.has(neighborId)]. *)
Definition relax (currentNode : string) (v : vars) (neighborId : string) : vars :=
  if decide (neighborId ∈ visitedNodes v) then v
  else match previousNodes v !! neighborId with
       | None => set_parent currentNode neighborId v
       | Some _ => v
       end.

(** Loop body of [DFSStepByStep.step]:
    [!visitedNodes.has(neighborId) && previousNodes.get(neighborId) === null]. *)
Definition relax_step (currentNode : string) (v : vars) (neighborId : string) : vars :=
  if decide (neighborId ∈ visitedNodes v) then v
  else match previousNodes v !! neighborId with
       | Some None => set_parent currentNode neighborId v
       | _ => v
       end.

Definition visit (v : vars) (currentNode : string) (rest : list string) : vars :=
  {| previousNodes := previousNodes v;
     visitedNodes := visitedNodes v ∪ {[currentNode]};
     stack := rest |}.

Definition skip (v : vars) (rest : list string) : vars :=
  {| previousNodes := previousNodes v;
     visitedNodes := visitedNodes v;
     stack := rest |}.

(** The [while (stack.length > 0)] loop of [dfs]; the neighbours are scanned
    from the last to the first. *)
Fixpoint loop (fuel : nat) (cfg : AlgorithmConfig) (adj : gmap string (list string))
    (steps : list PathStep.t) (v : vars) : option (list PathStep.t * vars) :=
  match fuel with
  | O => None
  | S fuel' =>
      match stack v with
      | [] => Some (steps, v)
      | currentNode :: rest =>
          if decide (currentNode ∈ visitedNodes v) then
            loop fuel' cfg adj steps (skip v rest)
          else
            let v := visit v currentNode rest in
            s ← snapshot cfg v currentNode;
            let steps := steps ++ [s] in
            if str_eq currentNode (endNode cfg) then Some (steps, v)
            else loop fuel' cfg adj steps
                   (foldl (relax currentNode) v
                      (rev (default [] (adj !! currentNode))))
      end
  end.

Definition init_vars (cfg : AlgorithmConfig) : vars :=
  {| previousNodes := prev_init (graph cfg);
     visitedNodes := ∅;
     stack := [startNode cfg] |}.

(** The [distance] property computed at the end of [dfs] is not part of
    [AlgorithmResult] and is left out. *)
Definition dfs (cfg : AlgorithmConfig) : option AlgorithmResult.t :=
  let adj := adjacency (graph cfg) in
  '(steps, v) ← loop (S (S (adj_total adj))) cfg adj [] (init_vars cfg);
  finalPath ← reconstructPath (previousNodes v) (startNode cfg) (endNode cfg);
  Some {| AlgorithmResult.path := finalPath;
          AlgorithmResult.steps := steps;
          AlgorithmResult.visitedNodes := visitedNodes v |}.

(** [class DFSStepByStep]. *)
Record state := mkState {
  config : option AlgorithmConfig;
  vars_of : vars;
  adjacencyList : gmap string (list string);
  complete : bool
}.

Definition reset : state :=
  {| config := None;
     vars_of := {| previousNodes := ∅; visitedNodes := ∅; stack := [] |};
     adjacencyList := ∅;
     complete := false |}.

Definition init (cfg : AlgorithmConfig) : state :=
  {| config := Some cfg;
     vars_of := init_vars cfg;
     adjacencyList := adjacency (graph cfg);
     complete := false |}.

Definition with_vars (st : state) (v : vars) (c : bool) : state :=
  {| config := config st; vars_of := v;
     adjacencyList := adjacencyList st; complete := c |}.

(** [step] once the guards on [config] and [complete] have passed; the
    recursive call [return this.step()] sees the same [config] and
    [complete], so it is a recursion on the stack. *)
Fixpoint step_from (cfg : AlgorithmConfig) (st : state) (v : vars)
    (stk : list string) : option (option PathStep.t * state) :=
  match stk with
  | [] => Some (None, with_vars st (skip v []) (complete st))
  | currentNode :: rest =>
      if decide (currentNode ∈ visitedNodes v) then step_from cfg st v rest
      else
        let v := visit v currentNode rest in
        s ← snapshot cfg v currentNode;
        if str_eq currentNode (endNode cfg) then
          Some (Some s, with_vars st v true)
        else
          Some (Some s,
                with_vars st
                  (foldl (relax_step currentNode) v
                     (rev (default [] (adjacencyList st !! currentNode))))
                  (complete st))
  end.

Definition step (st : state) : option (option PathStep.t * state) :=
  match config st with
  | None => Some (None, st)
  | Some cfg =>
      if complete st then Some (None, st)
      else match stack (vars_of st) with
           | [] => Some (None, st)
           | _ => step_from cfg st (vars_of st) (stack (vars_of st))
           end
  end.

Definition isComplete (st : state) : bool := complete st.

Definition frontier_empty (st : state) : bool :=
  match stack (vars_of st) with [] => true | _ => false end.

End DFS.

(** ** Numbers *)

Inductive number := Fin (q : Q) | Infinity | NaN.

(** [a + b]. *)
Definition num_add (a b : number) : number :=
  match a, b with
  | NaN, _ | _, NaN => NaN
  | Infinity, _ | _, Infinity => Infinity
  | Fin p, Fin q => Fin (p + q)
  end.

Definition Qltb (p q : Q) : bool := negb (Qle_bool q p).

(** [a < b]. *)
Definition num_lt (a b : number) : bool :=
  match a, b with
  | Fin p, Fin q => Qltb p q
  | Fin _, Infinity => true
  | _, _ => false
  end.

(** [a > b]. *)
Definition num_gt (a b : number) : bool := num_lt b a.

(** [m.get(k)!] used as a number. *)
Definition num_get (m : gmap string number) (k : string) : number :=
  default NaN (m !! k).

(** ** Priority frontier

    [utils/MinHeap.ts] is an interface here: the operations the algorithms
    call, an abstraction function to the multiset of entries, and the
    contract of a min-priority queue.  Ties are broken in any way. *)

Class MinHeap := {
  heap : Type;
  (** [new MinHeap<string>()] *)
  heap_new : heap;
  (** [push(priority, data)] *)
  heap_push : number → string → heap → heap;
  (** [pop()]: the entry removed and the heap left, [None] for [undefined] *)
  heap_pop : heap → option ((number * string) * heap);
  (** [isEmpty()] *)
  heap_isEmpty : heap → bool;
  heap_elems : heap → list (number * string);
  heap_new_elems : heap_elems heap_new = [];
  heap_push_elems : ∀ p d h, heap_elems (heap_push p d h) ≡ₚ (p, d) :: heap_elems h;
  heap_isEmpty_elems : ∀ h, heap_isEmpty h = true ↔ heap_elems h = [];
  heap_pop_none : ∀ h, heap_pop h = None ↔ heap_elems h = [];
  heap_pop_some : ∀ h e h', heap_pop h = Some (e, h') →
    heap_elems h ≡ₚ e :: heap_elems h' ∧
    ∀ e', e' ∈ heap_elems h' → num_lt (fst e') (fst e) = false
}.

(** ** Dijkstra ([dijkstra.ts]) *)

Module Dijkstra.
Section defs.
Context {H : MinHeap}.

Record vars := mkVars {
  distances : gmap string number;
  previousNodes : gmap string (option string);
  visitedNodes : gset string;
  pq : heap
}.

Definition snapshot (cfg : AlgorithmConfig) (v : vars) (currentNode : string)
  : option PathStep.t :=
  p ← reconstructPath (previousNodes v) (startNode cfg) currentNode;
  Some {| PathStep.currentNode := currentNode;
          PathStep.visitedNodes := visitedNodes v;
          PathStep.previousNodes := previousNodes v;
          PathStep.path := p;
          PathStep.isComplete := str_eq currentNode (endNode cfg) |}.

(** The body of [neighbors.forEach] for one [{ node, weight }]. *)
Definition relax (currentNode : string) (v : vars) (nb : string * Q) : vars :=
  let '(neighborId, weight) := nb in
  if decide (neighborId ∈ visitedNodes v) then v
  else
    let newDistance := num_add (num_get (distances v) currentNode) (Fin weight) in
    let oldDistance := num_get (distances v) neighborId in
    if num_lt newDistance oldDistance then
      {| distances := <[neighborId := newDistance]> (distances v);
         previousNodes := <[neighborId := Some currentNode]> (previousNodes v);
         visitedNodes := visitedNodes v;
         pq := heap_push newDistance neighborId (pq v) |}
    else v.

Definition with_pq (v : vars) (q : heap) : vars :=
  {| distances := distances v; previousNodes := previousNodes v;
     visitedNodes := visitedNodes v; pq := q |}.

Definition visit (v : vars) (currentNode : string) : vars :=
  {| distances := distances v; previousNodes := previousNodes v;
     visitedNodes := visitedNodes v ∪ {[currentNode]}; pq := pq v |}.

(** The [while (!pq.isEmpty())] loop of [dijkstra]: the step is recorded
    before the test for an outdated entry. *)
Fixpoint loop (fuel : nat) (cfg : AlgorithmConfig)
    (adj : gmap string (list (string * Q)))
    (steps : list PathStep.t) (v : vars) : option (list PathStep.t * vars) :=
  match fuel with
  | O => None
  | S fuel' =>
      if heap_isEmpty (pq v) then Some (steps, v)
      else match heap_pop (pq v) with
      | None => Some (steps, v)
      | Some ((currentDistance, currentNode), q) =>
          let v := with_pq v q in
          if decide (currentNode ∈ visitedNodes v) then loop fuel' cfg adj steps v
          else
            let v := visit v currentNode in
            s ← snapshot cfg v currentNode;
            let steps := steps ++ [s] in
            if str_eq currentNode (endNode cfg) then Some (steps, v)
            else if num_gt currentDistance (num_get (distances v) currentNode)
            then loop fuel' cfg adj steps v
            else loop fuel' cfg adj steps
                   (foldl (relax currentNode) v (default [] (adj !! currentNode)))
      end
  end.

Definition dist_init (cfg : AlgorithmConfig) : gmap string number :=
  foldl (fun m n =>
           <[Node.id n := if str_eq (Node.id n) (startNode cfg)
                          then Fin 0 else Infinity]> m)
        ∅ (Graph.nodes (graph cfg)).

Definition init_vars (cfg : AlgorithmConfig) : vars :=
  {| distances := dist_init cfg;
     previousNodes := prev_init (graph cfg);
     visitedNodes := ∅;
     pq := heap_push (Fin 0) (startNode cfg) heap_new |}.

Definition dijkstra (cfg : AlgorithmConfig) : option AlgorithmResult.t :=
  let adj := weighted_adjacency (graph cfg) in
  '(steps, v) ← loop (S (S (adj_total adj))) cfg adj [] (init_vars cfg);
  finalPath ← reconstructPath (previousNodes v) (startNode cfg) (endNode cfg);
  Some {| AlgorithmResult.path := finalPath;
          AlgorithmResult.steps := steps;
          AlgorithmResult.visitedNodes := visitedNodes v |}.

(** [class DijkstraStepByStep]. *)
Record state := mkState {
  config : option AlgorithmConfig;
  vars_of : vars;
  adjacencyList : gmap string (list (string * Q));
  complete : bool
}.

Definition reset : state :=
  {| config := None;
     vars_of := {| distances := ∅; previousNodes := ∅; visitedNodes := ∅;
                   pq := heap_new |};
     adjacencyList := ∅;
     complete := false |}.

Definition init (cfg : AlgorithmConfig) : state :=
  {| config := Some cfg;
     vars_of := init_vars cfg;
     adjacencyList := weighted_adjacency (graph cfg);
     complete := false |}.

Definition with_vars (st : state) (v : vars) (c : bool) : state :=
  {| config := config st; vars_of := v;
     adjacencyList := adjacencyList st; complete := c |}.

(** [step] for a given [config]; each recursive call [return this.step()]
    follows a [pop], so the number of entries of the heap bounds the depth
    of the recursion.  Here an outdated entry is skipped before anything is
    recorded. *)
Fixpoint step_go (fuel : nat) (cfg : AlgorithmConfig) (st : state)
  : option (option PathStep.t * state) :=
  match fuel with
  | O => None
  | S fuel' =>
      if complete st || heap_isEmpty (pq (vars_of st)) then Some (None, st)
      else match heap_pop (pq (vars_of st)) with
      | None => Some (None, with_vars st (vars_of st) true)
      | Some ((currentDistance, currentNode), q) =>
          let v := with_pq (vars_of st) q in
          if decide (currentNode ∈ visitedNodes v) then
            step_go fuel' cfg (with_vars st v (complete st))
          else if num_gt currentDistance (num_get (distances v) currentNode) then
            step_go fuel' cfg (with_vars st v (complete st))
          else
            let v := visit v currentNode in
            s ← snapshot cfg v currentNode;
            if str_eq currentNode (endNode cfg) then
              Some (Some s, with_vars st v true)
            else
              Some (Some s,
                    with_vars st
                      (foldl (relax currentNode) v
                         (default [] (adjacencyList st !! currentNode)))
                      (complete st))
      end
  end.

Definition step (st : state) : option (option PathStep.t * state) :=
  match config st with
  | None => Some (None, st)
  | Some cfg => step_go (S (length (heap_elems (pq (vars_of st))))) cfg st
  end.

Definition isComplete (st : state) : bool := complete st.

Definition frontier_empty (st : state) : bool := heap_isEmpty (pq (vars_of st)).

End defs.
End Dijkstra.

(** ** A* ([astar.ts]) *)

Module AStar.
Section defs.
Context {H : MinHeap}.
(** [Math.sqrt]. *)
Variable sqrt : Q → Q.

Definition heuristic (nodeId targetId : string) (g : Graph.t) : number :=
  match find (fun n => str_eq (Node.id n) nodeId) (Graph.nodes g),
        find (fun n => str_eq (Node.id n) targetId) (Graph.nodes g) with
  | Some node, Some target =>
      let dx := (Node.x node - Node.x target)%Q in
      let dy := (Node.y node - Node.y target)%Q in
      Fin (sqrt (dx * dx + dy * dy) / 20)
  | _, _ => Fin 0
  end.

Record vars := mkVars {
  gScore : gmap string number;
  fScore : gmap string number;
  previousNodes : gmap string (option string);
  visitedNodes : gset string;
  openSet : heap
}.

Definition snapshot (cfg : AlgorithmConfig) (v : vars) (currentNode : string)
  : option PathStep.t :=
  p ← reconstructPath (previousNodes v) (startNode cfg) currentNode;
  Some {| PathStep.currentNode := currentNode;
          PathStep.visitedNodes := visitedNodes v;
          PathStep.previousNodes := previousNodes v;
          PathStep.path := p;
          PathStep.isComplete := str_eq currentNode (endNode cfg) |}.

(** The body of [neighbors.forEach]; [h neighborId] stands for
    [heuristic(neighborId, endNode, graph)]. *)
Definition relax (h : string → number) (currentNode : string) (v : vars)
    (nb : string * Q) : vars :=
  let '(neighborId, weight) := nb in
  if decide (neighborId ∈ visitedNodes v) then v
  else
    let tentativeG := num_add (num_get (gScore v) currentNode) (Fin weight) in
    if num_lt tentativeG (num_get (gScore v) neighborId) then
      let newF := num_add tentativeG (h neighborId) in
      {| gScore := <[neighborId := tentativeG]> (gScore v);
         fScore := <[neighborId := newF]> (fScore v);
         previousNodes := <[neighborId := Some currentNode]> (previousNodes v);
         visitedNodes := visitedNodes v;
         openSet := heap_push newF neighborId (openSet v) |}
    else v.

Definition with_openSet (v : vars) (q : heap) : vars :=
  {| gScore := gScore v; fScore := fScore v; previousNodes := previousNodes v;
     visitedNodes := visitedNodes v; openSet := q |}.

Definition visit (v : vars) (currentNode : string) : vars :=
  {| gScore := gScore v; fScore := fScore v; previousNodes := previousNodes v;
     visitedNodes := visitedNodes v ∪ {[currentNode]}; openSet := openSet v |}.

(** The [while (!openSet.isEmpty())] loop of [astar]. *)
Fixpoint loop (h : string → number) (fuel : nat) (cfg : AlgorithmConfig)
    (adj : gmap string (list (string * Q)))
    (steps : list PathStep.t) (v : vars) : option (list PathStep.t * vars) :=
  match fuel with
  | O => None
  | S fuel' =>
      if heap_isEmpty (openSet v) then Some (steps, v)
      else match heap_pop (openSet v) with
      | None => Some (steps, v)
      | Some ((currentF, currentNode), q) =>
          let v := with_openSet v q in
          if decide (currentNode ∈ visitedNodes v) then loop h fuel' cfg adj steps v
          else
            let v := visit v currentNode in
            s ← snapshot cfg v currentNode;
            let steps := steps ++ [s] in
            if str_eq currentNode (endNode cfg) then Some (steps, v)
            else if num_gt currentF (num_get (fScore v) currentNode)
            then loop h fuel' cfg adj steps v
            else loop h fuel' cfg adj steps
                   (foldl (relax h currentNode) v (default [] (adj !! currentNode)))
      end
  end.

Definition gScore_init (cfg : AlgorithmConfig) : gmap string number :=
  foldl (fun m n =>
           <[Node.id n := if str_eq (Node.id n) (startNode cfg)
                          then Fin 0 else Infinity]> m)
        ∅ (Graph.nodes (graph cfg)).

Definition fScore_init (h : string → number) (cfg : AlgorithmConfig)
  : gmap string number :=
  foldl (fun m n =>
           <[Node.id n := if str_eq (Node.id n) (startNode cfg)
                          then h (Node.id n) else Infinity]> m)
        ∅ (Graph.nodes (graph cfg)).

Definition init_vars (h : string → number) (cfg : AlgorithmConfig) : vars :=
  {| gScore := gScore_init cfg;
     fScore := fScore_init h cfg;
     previousNodes := prev_init (graph cfg);
     visitedNodes := ∅;
     openSet := heap_push (num_get (fScore_init h cfg) (startNode cfg))
                  (startNode cfg) heap_new |}.

(** The search for a given heuristic function of the node id. *)
Definition astar_with (h : string → number) (cfg : AlgorithmConfig)
  : option AlgorithmResult.t :=
  let adj := weighted_adjacency (graph cfg) in
  '(steps, v) ← loop h (S (S (adj_total adj))) cfg adj [] (init_vars h cfg);
  finalPath ← reconstructPath (previousNodes v) (startNode cfg) (endNode cfg);
  Some {| AlgorithmResult.path := finalPath;
          AlgorithmResult.steps := steps;
          AlgorithmResult.visitedNodes := visitedNodes v |}.

(** [heuristic(·, endNode, graph)]. *)
Definition h_of (cfg : AlgorithmConfig) : string → number :=
  fun nodeId => heuristic nodeId (endNode cfg) (graph cfg).

Definition astar (cfg : AlgorithmConfig) : option AlgorithmResult.t :=
  astar_with (h_of cfg) cfg.

(** [class AStarStepByStep]. *)
Record state := mkState {
  config : option AlgorithmConfig;
  vars_of : vars;
  adjacencyList : gmap string (list (string * Q));
  complete : bool
}.

Definition reset : state :=
  {| config := None;
     vars_of := {| gScore := ∅; fScore := ∅; previousNodes := ∅;
                   visitedNodes := ∅; openSet := heap_new |};
     adjacencyList := ∅;
     complete := false |}.

Definition init (cfg : AlgorithmConfig) : state :=
  {| config := Some cfg;
     vars_of := init_vars (h_of cfg) cfg;
     adjacencyList := weighted_adjacency (graph cfg);
     complete := false |}.

Definition with_vars (st : state) (v : vars) (c : bool) : state :=
  {| config := config st; vars_of := v;
     adjacencyList := adjacencyList st; complete := c |}.

Fixpoint step_go (fuel : nat) (cfg : AlgorithmConfig) (st : state)
  : option (option PathStep.t * state) :=
  match fuel with
  | O => None
  | S fuel' =>
      if complete st || heap_isEmpty (openSet (vars_of st)) then Some (None, st)
      else match heap_pop (openSet (vars_of st)) with
      | None => Some (None, with_vars st (vars_of st) true)
      | Some ((currentF, currentNode), q) =>
          let v := with_openSet (vars_of st) q in
          if decide (currentNode ∈ visitedNodes v) then
            step_go fuel' cfg (with_vars st v (complete st))
          else if num_gt currentF (num_get (fScore v) currentNode) then
            step_go fuel' cfg (with_vars st v (complete st))
          else
            let v := visit v currentNode in
            s ← snapshot cfg v currentNode;
            if str_eq currentNode (endNode cfg) then
              Some (Some s, with_vars st v true)
            else
              Some (Some s,
                    with_vars st
                      (foldl (relax (h_of cfg) currentNode) v
                         (default [] (adjacencyList st !! currentNode)))
                      (complete st))
      end
  end.

Definition step (st : state) : option (option PathStep.t * state) :=
  match config st with
  | None => Some (None, st)
  | Some cfg => step_go (S (length (heap_elems (openSet (vars_of st))))) cfg st
  end.

Definition isComplete (st : state) : bool := complete st.

Definition frontier_empty (st : state) : bool := heap_isEmpty (openSet (vars_of st)).

End defs.
End AStar.

(** ** Order on numbers *)

Lemma Qltb_lt (p q : Q) : Qltb p q = true ↔ (p < q)%Q.
Proof.
  unfold Qltb. rewrite negb_true_iff, <- not_true_iff_false, Qle_bool_iff.
  split; [apply Qnot_le_lt | apply Qlt_not_le].
Qed.

Lemma Qltb_ge (p q : Q) : Qltb p q = false ↔ (q <= p)%Q.
Proof.
  unfold Qltb. rewrite negb_false_iff, Qle_bool_iff. reflexivity.
Qed.

Lemma num_lt_irrefl (a : number) : num_lt a a = false.
Proof. destruct a; simpl; [apply Qltb_ge; apply Qle_refl | done | done]. Qed.

Lemma num_lt_trans (a b c : number) :
  num_lt a b = true → num_lt b c = true → num_lt a c = true.
Proof.
  destruct a, b, c; simpl; try done.
  rewrite !Qltb_lt. apply Qlt_trans.
Qed.

(** ** A list implementation of the frontier

    Modelled from the spec: [utils/MinHeap.ts] is not among the sources.  The
    spec (section 4.2) asks for [insert] and [extract-min] with duplicate
    insertion; insertion order among equal scores is acceptable.  Entries are
    kept in insertion order and [pop] removes the first entry that no other
    entry is smaller than. *)

Fixpoint list_pop_go (seen l : list (number * string))
  : option ((number * string) * list (number * string)) :=
  match l with
  | [] => None
  | e :: l' =>
      if forallb (fun e' => negb (num_lt (fst e') (fst e))) (seen ++ l')
      then Some (e, seen ++ l')
      else list_pop_go (seen ++ [e]) l'
  end.

Definition list_pop (h : list (number * string)) := list_pop_go [] h.

Definition list_push (p : number) (d : string) (h : list (number * string)) :=
  h ++ [(p, d)].

Definition list_isEmpty (h : list (number * string)) : bool :=
  match h with [] => true | _ => false end.

Lemma list_pop_go_some seen l e h' :
  list_pop_go seen l = Some (e, h') →
  seen ++ l ≡ₚ e :: h' ∧ ∀ e', e' ∈ h' → num_lt (fst e') (fst e) = false.
Proof.
  revert seen. induction l as [|a l IH]; intros seen Hgo; simpl in Hgo; [done|].
  destruct (forallb _ _) eqn:Hall.
  - injection Hgo as <- <-. split.
    + by rewrite Permutation_middle.
    + intros e' He'. rewrite forallb_forall in Hall.
      apply negb_true_iff, Hall, list_elem_of_In, He'.
  - apply IH in Hgo as [Hp Hmin]. split; [|done].
    by rewrite <- Hp, <- app_assoc.
Qed.

Lemma list_minimal_exists (l : list (number * string)) :
  l ≠ [] → ∃ e, e ∈ l ∧ ∀ e', e' ∈ l → num_lt (fst e') (fst e) = false.
Proof.
  induction l as [|a l IH]; [done|]. intros _.
  destruct l as [|b l].
  { exists a. split; [apply elem_of_cons; by left|].
    intros e' ->%list_elem_of_singleton. apply num_lt_irrefl. }
  destruct IH as (m & Hm & Hmin); [done|].
  destruct (num_lt (fst a) (fst m)) eqn:Ham.
  - exists a. split; [apply elem_of_cons; by left|].
    intros e' [->|He']%elem_of_cons.
    + apply num_lt_irrefl.
    + destruct (num_lt (fst e') (fst a)) eqn:He; [|done].
      rewrite <- (Hmin e' He'). symmetry. by eapply num_lt_trans.
  - exists m. split; [apply elem_of_cons; by right|].
    intros e' [->|He']%elem_of_cons; auto.
Qed.

Lemma list_pop_go_none seen l :
  list_pop_go seen l = None →
  ∀ e, e ∈ l → ∃ e', e' ∈ seen ++ l ∧ num_lt (fst e') (fst e) = true.
Proof.
  revert seen. induction l as [|a l IH]; intros seen Hgo e He.
  { by apply elem_of_nil in He. }
  simpl in Hgo. destruct (forallb _ _) eqn:Hall; [done|].
  apply elem_of_cons in He as [->|He].
  - apply not_true_iff_false in Hall. rewrite forallb_forall in Hall.
    destruct (decide (Exists (fun e' => num_lt (fst e') (fst a) = true) (seen ++ l)))
      as [Hex|Hnex].
    + apply Exists_exists in Hex as (e' & He' & Hlt). exists e'. split; [|done].
      rewrite elem_of_app, elem_of_cons. apply elem_of_app in He' as [?|?]; auto.
    + destruct Hall. intros e' He'%list_elem_of_In.
      rewrite <- Forall_Exists_neg, Forall_forall in Hnex.
      apply negb_true_iff, not_true_iff_false, Hnex, He'.
  - destruct (IH _ Hgo e He) as (e' & He' & Hlt). exists e'. split; [|done].
    by rewrite <- app_assoc in He'.
Qed.

Lemma list_push_elems p d (h : list (number * string)) :
  list_push p d h ≡ₚ (p, d) :: h.
Proof. unfold list_push. by rewrite Permutation_app_comm. Qed.

Lemma list_isEmpty_elems (h : list (number * string)) :
  list_isEmpty h = true ↔ h = [].
Proof. by destruct h. Qed.

Lemma list_pop_none (h : list (number * string)) : list_pop h = None ↔ h = [].
Proof.
  split; [|by intros ->].
  intros Hnone. destruct (decide (h = [])) as [|Hne]; [done|].
  destruct (list_minimal_exists h Hne) as (m & Hm & Hmin).
  destruct (list_pop_go_none [] h Hnone m Hm) as (e' & He' & Hlt).
  rewrite (Hmin e' He') in Hlt. done.
Qed.

Lemma list_pop_some (h : list (number * string)) e h' :
  list_pop h = Some (e, h') →
  h ≡ₚ e :: h' ∧ ∀ e', e' ∈ h' → num_lt (fst e') (fst e) = false.
Proof. apply (list_pop_go_some [] h). Qed.

#[export] Instance ListHeap : MinHeap := {|
  heap := list (number * string);
  heap_new := [];
  heap_push := list_push;
  heap_pop := list_pop;
  heap_isEmpty := list_isEmpty;
  heap_elems := fun h => h;
  heap_new_elems := eq_refl;
  heap_push_elems := list_push_elems;
  heap_isEmpty_elems := list_isEmpty_elems;
  heap_pop_none := list_pop_none;
  heap_pop_some := list_pop_some
|}.

(** A square root on the rationals that is exact on the squares of natural
    numbers, for running the search on examples. *)
Definition int_sqrt (q : Q) : Q := inject_Z (Z.sqrt (Qfloor q)).

(** ** Strategy table ([algorithmMap] of [ComparisonView.tsx]) *)

Section table.
Context {H : MinHeap}.
Variable sqrt : Q → Q.

Definition algorithmMap (a : AlgorithmType) (cfg : AlgorithmConfig)
  : option AlgorithmResult.t :=
  match a with
  | dijkstraT => Dijkstra.dijkstra cfg
  | bfsT => BFS.bfs cfg
  | dfsT => DFS.dfs cfg
  | astarT => AStar.astar sqrt cfg
  end.
End table.

(** ** Race judge (the second effect of [ComparisonView]) *)

Module Winner.
Inductive t := left | right | tie.
End Winner.

(** [steps.findIndex(step => step.isComplete)]; [None] stands for [-1]. *)
Fixpoint findIndex (P : PathStep.t → bool) (l : list PathStep.t) : option nat :=
  match l with
  | [] => None
  | s :: l' => if P s then Some O else S <$> findIndex P l'
  end.

(** [path.length > 0 && path[0] === startNode &&
     path[path.length - 1] === endNode]. *)
Definition foundPath (startNode endNode : string) (final : PathStep.t) : bool :=
  match PathStep.path final with
  | [] => false
  | p0 :: _ =>
      str_eq p0 startNode &&
      match last (PathStep.path final) with
      | Some pn => str_eq pn endNode
      | None => false
      end
  end.

(** The winner the effect sets, [None] when it sets none. *)
Definition judge (currentStep : Z) (leftSteps rightSteps : list PathStep.t)
    (startNode endNode : string) : option Winner.t :=
  let maxSteps := Z.max (Z.of_nat (length leftSteps)) (Z.of_nat (length rightSteps)) in
  match last leftSteps, last rightSteps with
  | Some leftFinal, Some rightFinal =>
      if (maxSteps - 1 <=? currentStep)%Z then
        let leftFoundPath := foundPath startNode endNode leftFinal in
        let rightFoundPath := foundPath startNode endNode rightFinal in
        if negb leftFoundPath && negb rightFoundPath then Some Winner.tie
        else if leftFoundPath && negb rightFoundPath then Some Winner.left
        else if rightFoundPath && negb leftFoundPath then Some Winner.right
        else
          let leftFinishStep := findIndex PathStep.isComplete leftSteps in
          let rightFinishStep := findIndex PathStep.isComplete rightSteps in
          let by_visited :=
            let leftVisited := size (PathStep.visitedNodes leftFinal) in
            let rightVisited := size (PathStep.visitedNodes rightFinal) in
            if (leftVisited <? rightVisited)%nat then Some Winner.left
            else if (rightVisited <? leftVisited)%nat then Some Winner.right
            else Some Winner.tie in
          match leftFinishStep, rightFinishStep with
          | Some l, Some r =>
              if (l <? r)%nat then Some Winner.left
              else if (r <? l)%nat then Some Winner.right
              else by_visited
          | _, _ => by_visited
          end
      else None
  | _, _ => None
  end.

(** ** Running an engine step by step *)

(** [n] calls of [step], with what each call returned. *)
Fixpoint call_steps {S} (step : S → option (option PathStep.t * S)) (n : nat) (st : S)
  : option (list (option PathStep.t) * S) :=
  match n with
  | O => Some ([], st)
  | S n' =>
      '(r, st) ← step st;
      '(rs, st) ← call_steps step n' st;
      Some (r :: rs, st)
  end.

(** Calling [step] until it returns [null], at most [fuel] times. *)
Fixpoint step_until_null {S} (step : S → option (option PathStep.t * S))
    (fuel : nat) (st : S) : option (list PathStep.t * S) :=
  match fuel with
  | O => None
  | S fuel' =>
      '(r, st) ← step st;
      match r with
      | None => Some ([], st)
      | Some s =>
          '(ss, st) ← step_until_null step fuel' st;
          Some (s :: ss, st)
      end
  end.

(** ** The comparison view ([ComparisonView.tsx]): cursor, playback and winner *)

(** [arr[i]] for a number [i]: [undefined] below zero and past the end. *)
Definition at_index {A} (l : list A) (i : Z) : option A :=
  if (i <? 0)%Z then None else l !! Z.to_nat i.

Module View.

(** The state of the component that the handlers and the effects change. *)
Record t := mk {
  currentStep : Z;
  isPlaying : bool;
  winner : option Winner.t
}.

(** The handlers passed to [StepControls], and the callback of the
    interval. *)
Inductive event := onPlay | onPause | onNext | onPrevious | onReset | tick.

Section view.
Variables leftSteps rightSteps : list PathStep.t.
Variables startNode endNode : string.

Definition maxSteps : Z :=
  Z.max (Z.of_nat (length leftSteps)) (Z.of_nat (length rightSteps)).

Definition update (ev : event) (v : t) : t :=
  match ev with
  | onPlay => mk (currentStep v) true (winner v)
  | onPause => mk (currentStep v) false (winner v)
  | onNext => mk (Z.min (currentStep v + 1) (maxSteps - 1)) (isPlaying v) (winner v)
  | onPrevious => mk (Z.max (currentStep v - 1) 0) (isPlaying v) (winner v)
  | onReset => mk 0 false (winner v)
  | tick =>
      if isPlaying v then
        if (maxSteps - 1 <=? currentStep v)%Z then mk (currentStep v) false (winner v)
        else mk (currentStep v + 1) (isPlaying v) (winner v)
      else v
  end.

(** The effect that determines the winner: it sets one or leaves the state
    as it is. *)
Definition judge_effect (v : t) : t :=
  match judge (currentStep v) leftSteps rightSteps startNode endNode with
  | Some w => mk (currentStep v) (isPlaying v) (Some w)
  | None => v
  end.

Definition handle (v : t) (ev : event) : t := judge_effect (update ev v).

(** The state once the two result sequences are set: the first effect puts
    the cursor at 0, stops the playback and clears the winner. *)
Definition mounted : t := judge_effect (mk 0 false None).

(** [steps[Math.min(currentStep, steps.length - 1)]], the step drawn. *)
Definition shown (steps : list PathStep.t) (v : t) : option PathStep.t :=
  at_index steps (Z.min (currentStep v) (Z.of_nat (length steps) - 1)).

End view.
End View.

(** ** The length and the highlights of a path ([pathVisualizer.ts]) *)

(** The edge joins [u] and [v], in one direction or the other. *)
Definition joins (e : Edge.t) (u v : string) : bool :=
  (str_eq (Edge.from e) u && str_eq (Edge.to e) v) ||
  (str_eq (Edge.to e) u && str_eq (Edge.from e) v).

(** [graph.edges.find(e => ...)]: the first edge between the two nodes, in
    either direction. *)
Definition find_edge (g : Graph.t) (u v : string) : option Edge.t :=
  find (fun e => joins e u v) (Graph.edges g).

(** The [for] loop of [getPathLength], with [totalDistance] as accumulator:
    a pair of consecutive nodes without edge adds nothing. *)
Fixpoint getPathLength_from (totalDistance : Q) (path : list string) (g : Graph.t) : Q :=
  match path with
  | u :: (v :: _) as rest =>
      getPathLength_from
        (match find_edge g u v with
         | Some edge => totalDistance + Edge.weight edge
         | None => totalDistance
         end)%Q rest g
  | _ => totalDistance
  end.

Definition getPathLength (path : list string) (g : Graph.t) : Q :=
  getPathLength_from 0 path g.

(** [visualizePath]: the set of the nodes of the path and the list of its
    pairs of consecutive nodes. *)
Fixpoint consecutive (path : list string) : list (string * string) :=
  match path with
  | u :: (v :: _) as rest => (u, v) :: consecutive rest
  | _ => []
  end.

Definition visualizePath (path : list string) : gset string * list (string * string) :=
  (list_to_set path, consecutive path).

(** ** The banner above the comparison ([ComparisonWarning.tsx]) *)

Module Warning.
Record t := mk {
  type : string;
  icon : string;
  title : string;
  message : string;
  details : string
}.
End Warning.

(** The double quote, for the texts that contain one. *)
Definition dquote : string := String (Ascii.ascii_of_nat 34) EmptyString.

Section warning.
(** [String.prototype.toUpperCase]. *)
Variable toUpperCase : string → string.

(** [algorithm === 'dijkstra' || algorithm === 'astar']. *)
Definition isOptimal (algorithm : string) : bool :=
  str_eq algorithm "dijkstra" || str_eq algorithm "astar".

Definition getWarningInfo (algorithm1 algorithm2 : string) : option Warning.t :=
  let isAlgo1Optimal := isOptimal algorithm1 in
  let isAlgo2Optimal := isOptimal algorithm2 in
  if isAlgo1Optimal && isAlgo2Optimal then
    Some {| Warning.type := "success";
            Warning.icon := "✅";
            Warning.title := "Fair Race: Both Guarantee Shortest Path";
            Warning.message := "Both algorithms will find the optimal weighted path. The winner will be determined by who finishes first.";
            Warning.details :=
              if str_eq algorithm1 "dijkstra" && str_eq algorithm2 "astar"
              then "A* uses a heuristic to guide search, potentially finishing faster. Dijkstra explores uniformly in all directions."
              else "Both use similar strategies to guarantee the shortest path." |}
  else if (isAlgo1Optimal && negb isAlgo2Optimal) || (negb isAlgo1Optimal && isAlgo2Optimal) then
    let optimalAlgo :=
      if isAlgo1Optimal then toUpperCase algorithm1 else toUpperCase algorithm2 in
    let nonOptimalAlgo :=
      if isAlgo1Optimal then toUpperCase algorithm2 else toUpperCase algorithm1 in
    Some {| Warning.type := "warning";
            Warning.icon := "⚠️";
            Warning.title := "Educational Comparison: Different Guarantees";
            Warning.message :=
              optimalAlgo +:+ " guarantees the shortest weighted path. " +:+
              nonOptimalAlgo +:+ " does not - it may find a path faster but it might not be optimal.";
            Warning.details :=
              "Winner is determined by: (1) Who finishes first, (2) Path distance, (3) Efficiency (nodes visited). " +:+
              nonOptimalAlgo +:+ " may " +:+ dquote +:+ "win" +:+ dquote +:+
              " by finishing first, but with a longer path." |}
  else if negb isAlgo1Optimal && negb isAlgo2Optimal then
    Some {| Warning.type := "info";
            Warning.icon := "ℹ️";
            Warning.title := "Educational Race: Neither Guarantees Optimality";
            Warning.message := "BFS and DFS use different exploration strategies but neither considers edge weights.";
            Warning.details := "Winner is determined by who finishes first. The path found may not be the shortest in terms of total weight." |}
  else None.

End warning.

(** ** Graph generation ([graphGenerator.ts]): [ensureConnected] *)

(** The body of [edges.forEach] in the search from the first node. *)
Definition scan_edge (current : string) (st : gset string * list string) (edge : Edge.t)
  : gset string * list string :=
  let '(visited, queue) := st in
  if str_eq (Edge.from edge) current && negb (bool_decide (Edge.to edge ∈ visited)) then
    (visited ∪ {[Edge.to edge]}, queue ++ [Edge.to edge])
  else if str_eq (Edge.to edge) current && negb (bool_decide (Edge.from edge ∈ visited)) then
    (visited ∪ {[Edge.from edge]}, queue ++ [Edge.from edge])
  else st.

(** The [while (queue.length > 0)] loop; the result is [visited]. *)
Fixpoint component_loop (fuel : nat) (edges : list Edge.t)
    (visited : gset string) (queue : list string) : option (gset string) :=
  match fuel with
  | O => None
  | S fuel' =>
      match queue with
      | [] => Some visited
      | current :: rest =>
          let '(visited, queue) := foldl (scan_edge current) (visited, rest) edges in
          component_loop fuel' edges visited queue
      end
  end.

(** [Math.min(Math.floor(distance / 20) + 1, 20)], the weight given to an
    edge between two nodes at that distance. *)
Definition distance_weight (distance : Q) : Q :=
  inject_Z (Z.min (Qfloor (distance / 20) + 1) 20).

Section ensureConnected.
(** [Math.sqrt]. *)
Variable sqrt : Q → Q.

(** [Math.sqrt(dx * dx + dy * dy)] for two nodes. *)
Definition node_distance (node otherNode : Node.t) : Q :=
  let dx := (Node.x node - Node.x otherNode)%Q in
  let dy := (Node.y node - Node.y otherNode)%Q in
  sqrt (dx * dx + dy * dy).

(** The search for the nearest visited node.  [nearestNode] and
    [minDistance] are assigned together: [None] is the initial pair
    [null], [Infinity], below which every distance is. *)
Definition nearest_step (visited : gset string) (node : Node.t)
    (best : option (Node.t * Q)) (otherNode : Node.t) : option (Node.t * Q) :=
  if bool_decide (Node.id otherNode ∈ visited) then
    let distance := node_distance node otherNode in
    match best with
    | None => Some (otherNode, distance)
    | Some (_, minDistance) =>
        if Qltb distance minDistance then Some (otherNode, distance) else best
    end
  else best.

Definition nearest (nodes : list Node.t) (visited : gset string) (node : Node.t)
  : option (Node.t * Q) :=
  foldl (nearest_step visited node) None nodes.

(** The body of [unvisitedNodes.forEach]. *)
Definition connect_node (nodes : list Node.t) (st : gset string * list Edge.t)
    (node : Node.t) : gset string * list Edge.t :=
  let '(visited, edges) := st in
  match nearest nodes visited node with
  | Some (nearestNode, minDistance) =>
      (visited ∪ {[Node.id node]},
       edges ++ [Edge.mk (Node.id node) (Node.id nearestNode)
                   (distance_weight minDistance)])
  | None => st
  end.

(** [ensureConnected(nodes, edges)]: the edge list after the call.  Every
    id enters the queue at most once, so twice the number of edges, plus
    two, bounds the number of turns of the first loop. *)
Definition ensureConnected (nodes : list Node.t) (edges : list Edge.t)
  : option (list Edge.t) :=
  match nodes with
  | [] => Some edges
  | first :: _ =>
      visited ← component_loop (S (S (2 * length edges))) edges
                   {[Node.id first]} [Node.id first];
      let unvisitedNodes := filter (fun node => Node.id node ∉ visited) nodes in
      Some (snd (foldl (connect_node nodes) (visited, edges) unvisitedNodes))
  end.

End ensureConnected.

(** ** Graph generation ([graphGenerator.ts]): [generateGridGraph] *)

(** A generated node: the fields of [Node] and the label. *)
Module Labelled.
Record t := mk { node : Node.t; label : string }.
End Labelled.

(** The graph made of generated nodes and edges. *)
Definition graph_of (r : list Labelled.t * list Edge.t) : Graph.t :=
  Graph.mk (Labelled.node <$> r.1) r.2.

(** [`node-${i}-${j}`]. *)
Definition grid_id (i j : nat) : string :=
  "node-" +:+ pretty i +:+ "-" +:+ pretty j.

(** The cells in the order of the two nested loops. *)
Definition grid_cells (rows cols : nat) : list (nat * nat) :=
  i ← seq 0 rows; j ← seq 0 cols; [(i, j)].

Definition grid_node (rows cols : nat) (cell : nat * nat) : Labelled.t :=
  let '(i, j) := cell in
  let cellWidth := (750 / inject_Z (Z.of_nat cols))%Q in
  let cellHeight := (550 / inject_Z (Z.of_nat rows))%Q in
  Labelled.mk
    (Node.mk (grid_id i j)
       (inject_Z (Z.of_nat j) * cellWidth + cellWidth / 2 + 50)
       (inject_Z (Z.of_nat i) * cellHeight + cellHeight / 2 + 50))
    (pretty i +:+ "," +:+ pretty j).

(** [Math.floor(Math.random() * 10) + 1] for the value [r] of
    [Math.random()]. *)
Definition random_weight (r : Q) : Q := inject_Z (Qfloor (r * 10) + 1).

Section grid.
(** [Math.random]: [random n] is what the [n]-th call returns. *)
Variable random : nat → Q.

(** The body of the loops that generate the edges; the state is the edge
    list and the number of calls of [Math.random] made so far. *)
Definition grid_edges_step (rows cols : nat) (st : list Edge.t * nat) (cell : nat * nat)
  : list Edge.t * nat :=
  let '(i, j) := cell in
  let currentId := grid_id i j in
  let st :=
    if (j <? cols - 1)%nat then
      (st.1 ++ [Edge.mk currentId (grid_id i (j + 1)) (random_weight (random st.2))],
       S st.2)
    else st in
  if (i <? rows - 1)%nat then
    (st.1 ++ [Edge.mk currentId (grid_id (i + 1) j) (random_weight (random st.2))],
     S st.2)
  else st.

Definition generateGridGraph (rows cols : nat) : list Labelled.t * list Edge.t :=
  let nodes := grid_node rows cols <$> grid_cells rows cols in
  let edges := (foldl (grid_edges_step rows cols) ([], O) (grid_cells rows cols)).1 in
  (nodes, edges).

End grid.

(** ** Examples *)

Definition node (i : string) : Node.t := Node.mk i 0 0.
Definition edge (a b : string) (w : Z) : Edge.t := Edge.mk a b (inject_Z w).

(** Two nodes and the edge between them. *)
Definition pair_graph : Graph.t :=
  Graph.mk [node "a"; node "b"] [edge "a" "b" 1].

Definition pair_config : AlgorithmConfig := mkConfig "a" "b" pair_graph.

(** Scenario A of the spec: a triangle whose direct edge is the heavy one. *)
Definition triangle : Graph.t :=
  Graph.mk [node "a"; node "b"; node "c"]
           [edge "a" "b" 1; edge "b" "c" 1; edge "a" "c" 5].

Definition triangle_config : AlgorithmConfig := mkConfig "a" "c" triangle.

(** * Properties *)

#[local] Set Warnings "-clear-no-such-hyp".

(** ** Strings and lists *)

Lemma str_eq_true (a b : string) : str_eq a b = true ↔ a = b.
Proof. unfold str_eq. apply bool_decide_eq_true. Qed.

Lemma str_eq_false (a b : string) : str_eq a b = false ↔ a ≠ b.
Proof. unfold str_eq. apply bool_decide_eq_false. Qed.

Lemma str_eq_refl (a : string) : str_eq a a = true.
Proof. by apply str_eq_true. Qed.

(** ** The measure of the work left

    [pending adj V] is the total length of the neighbour lists of the keys of
    [adj] outside [V]: a bound on the entries that can still be inserted in
    the frontier once the nodes of [V] have been expanded. *)

Definition pending {A} (adj : gmap string (list A)) (V : gset string) : nat :=
  map_fold (fun k l acc => (if decide (k ∈ V) then O else length l) + acc)%nat O adj.

Lemma pending_empty {A} (adj : gmap string (list A)) : pending adj ∅ = adj_total adj.
Proof.
  unfold pending, adj_total.
  induction adj as [|k l m Hk Hfst IH] using map_first_key_ind; [done|].
  rewrite !map_fold_insert_first_key, IH by done.
  by rewrite decide_False by set_solver.
Qed.

Lemma pending_ext {A} (adj : gmap string (list A)) (V V' : gset string) :
  (∀ k, is_Some (adj !! k) → k ∈ V ↔ k ∈ V') → pending adj V = pending adj V'.
Proof.
  unfold pending.
  induction adj as [|k l m Hk Hfst IH] using map_first_key_ind; intros Hext; [done|].
  rewrite !map_fold_insert_first_key by done. rewrite IH.
  - assert (k ∈ V ↔ k ∈ V') as Hkk by (apply Hext; rewrite lookup_insert_eq; eauto).
    destruct (decide (k ∈ V)), (decide (k ∈ V')); tauto.
  - intros j Hj. apply Hext. rewrite lookup_insert_ne; [done|].
    intros ->. rewrite Hk in Hj. by destruct Hj.
Qed.

Lemma pending_delete {A} (adj : gmap string (list A)) (V : gset string) k l :
  adj !! k = Some l →
  pending adj V = ((if decide (k ∈ V) then O else length l) + pending (delete k adj) V)%nat.
Proof.
  intros Hk. unfold pending.
  apply (map_fold_delete_L (fun k l acc => (if decide (k ∈ V) then O else length l) + acc)%nat);
    [|done].
  intros. lia.
Qed.

Lemma pending_visit {A} (adj : gmap string (list A)) (V : gset string) k :
  k ∉ V →
  (pending adj (V ∪ {[k]}) + length (default [] (adj !! k)) = pending adj V)%nat.
Proof.
  intros HkV. destruct (adj !! k) as [l|] eqn:Hk; simpl.
  - rewrite (pending_delete adj V k l Hk), (pending_delete adj (V ∪ {[k]}) k l Hk).
    rewrite decide_True by set_solver. rewrite decide_False by done.
    rewrite (pending_ext (delete k adj) (V ∪ {[k]}) V); [lia|].
    intros j Hj. assert (j ≠ k) by (intros ->; rewrite lookup_delete_eq in Hj; by destruct Hj).
    set_solver.
  - rewrite (pending_ext adj (V ∪ {[k]}) V); [lia|].
    intros j Hj. assert (j ≠ k) by (intros ->; rewrite Hk in Hj; by destruct Hj).
    set_solver.
Qed.

Lemma pending_visited {A} (adj : gmap string (list A)) (V : gset string) k :
  k ∈ V → pending adj (V ∪ {[k]}) = pending adj V.
Proof. intros. apply pending_ext. set_solver. Qed.

(** ** Path reconstruction *)

(** The parent links of the map have no cycle: some rank decreases along
    them. *)
Definition acyclic (previousNodes : gmap string (option string)) : Prop :=
  ∃ rank : string → nat,
    ∀ n p, previousNodes !! n = Some (Some p) → (rank p < rank n)%nat.

(** Following the parent links backward from a node reaches the start id. *)
Inductive reaches (previousNodes : gmap string (option string)) (startNode : string)
  : string → Prop :=
| reaches_start : reaches previousNodes startNode startNode
| reaches_parent n p :
    n ≠ startNode → previousNodes !! n = Some (Some p) →
    reaches previousNodes startNode p → reaches previousNodes startNode n.

(** Each element is the parent of the next one. *)
Fixpoint linked (previousNodes : gmap string (option string)) (l : list string) : Prop :=
  match l with
  | a :: (b :: _) as l' => previousNodes !! b = Some (Some a) ∧ linked previousNodes l'
  | _ => True
  end.

Lemma parent_of_Some prev n p :
  parent_of prev n = Some p → prev !! n = Some (Some p) ∧ p ≠ "".
Proof.
  unfold parent_of. destruct (prev !! n) as [[q|]|]; try done.
  destruct (str_eq q "") eqn:Hq; [done|]. intros [= ->].
  by apply str_eq_false in Hq.
Qed.

Lemma parent_of_link prev n p :
  prev !! n = Some (Some p) → p ≠ "" → parent_of prev n = Some p.
Proof.
  intros Hn Hp. unfold parent_of. rewrite Hn.
  by apply str_eq_false in Hp as ->.
Qed.

Lemma parent_of_delete prev x n : n ≠ x → parent_of (delete x prev) n = parent_of prev n.
Proof. intros. unfold parent_of. by rewrite lookup_delete_ne. Qed.

Lemma walk_back_mono fuel fuel' prev s cur acc path :
  walk_back fuel prev s cur acc = Some path → (fuel ≤ fuel')%nat →
  walk_back fuel' prev s cur acc = Some path.
Proof.
  revert fuel' cur acc. induction fuel as [|fuel IH]; intros fuel' cur acc Hw Hle; [done|].
  destruct fuel' as [|fuel']; [lia|]. simpl in *.
  destruct (str_eq cur s); [done|].
  destruct (parent_of prev cur); [|done]. apply IH; [done|lia].
Qed.

Lemma walk_back_delete (rank : string → nat) fuel prev s x cur acc :
  (∀ n p, prev !! n = Some (Some p) → (rank p < rank n)%nat) →
  (rank cur < rank x)%nat →
  walk_back fuel (delete x prev) s cur acc = walk_back fuel prev s cur acc.
Proof.
  intros Hrank. revert cur acc. induction fuel as [|fuel IH]; intros cur acc Hlt; [done|].
  simpl. destruct (str_eq cur s); [done|].
  rewrite parent_of_delete by (intros ->; lia).
  destruct (parent_of prev cur) as [p|] eqn:Hp; [|done].
  apply IH. apply parent_of_Some in Hp as [Hp _]. apply Hrank in Hp. lia.
Qed.

Lemma walk_back_S fuel prev s cur acc :
  walk_back (S fuel) prev s cur acc =
  if str_eq cur s then Some (cur :: acc)
  else match parent_of prev cur with
       | None => Some (cur :: acc)
       | Some p => walk_back fuel prev s p (cur :: acc)
       end.
Proof. reflexivity. Qed.

Lemma walk_back_total_size (rank : string → nat) n prev s cur acc :
  (size prev ≤ n)%nat →
  (∀ n p, prev !! n = Some (Some p) → (rank p < rank n)%nat) →
  is_Some (walk_back (S n) prev s cur acc).
Proof.
  revert prev cur acc. induction n as [|n IH]; intros prev cur acc Hsize Hrank;
    rewrite walk_back_S.
  - destruct (str_eq cur s); [eauto|].
    destruct (parent_of prev cur) as [p|] eqn:Hp; [|eauto].
    apply parent_of_Some in Hp as [Hp _].
    assert (prev = ∅) as -> by (apply map_size_empty_iff; lia). done.
  - destruct (str_eq cur s); [eauto|].
    destruct (parent_of prev cur) as [p|] eqn:Hp; [|eauto].
    apply parent_of_Some in Hp as [Hp _].
    rewrite <- (walk_back_delete rank (S n) prev s cur p) by eauto.
    apply IH.
    + rewrite map_size_delete, Hp. simpl. lia.
    + intros m q Hm. apply Hrank. apply lookup_delete_Some in Hm. tauto.
Qed.

Lemma reconstructPath_total prev s q : acyclic prev → is_Some (reconstructPath prev s q).
Proof.
  intros [rank Hrank]. unfold reconstructPath, reconstructPath_fuel.
  destruct (walk_back_total_size rank (size prev) prev s q [] (le_n _) Hrank) as [path Hw].
  rewrite (walk_back_mono _ (S (S (size prev))) _ _ _ _ _ Hw) by lia. eauto.
Qed.

(** What the loop returns: the chain of parents from [current], in front of
    what was there. *)
Lemma walk_back_chain fuel prev s cur acc path :
  walk_back fuel prev s cur acc = Some path →
  ∃ chain, path = chain ++ acc ∧ last chain = Some cur ∧ linked prev chain ∧
    (s ∉ tail chain) ∧ ("" ∉ removelast chain) ∧
    ∃ h, head chain = Some h ∧ (h ≠ s → parent_of prev h = None).
Proof.
  revert cur acc path. induction fuel as [|fuel IH]; intros cur acc path Hw; [done|].
  rewrite walk_back_S in Hw. destruct (str_eq cur s) eqn:Hcs.
  { injection Hw as <-. exists [cur]. apply str_eq_true in Hcs.
    repeat split; try done; try apply not_elem_of_nil.
    exists cur. split; [done|]. by intros []. }
  apply str_eq_false in Hcs.
  destruct (parent_of prev cur) as [p|] eqn:Hp.
  - apply IH in Hw as (chain & -> & Hlast & Hlink & Hs & He & h & Hh & Hstop).
    destruct (parent_of_Some _ _ _ Hp) as [Hp' Hpe].
    exists (chain ++ [cur]). rewrite <- app_assoc. split; [done|].
    split; [by rewrite last_snoc|].
    assert (chain ≠ []) as Hne by (by intros ->).
    split; [|split; [|split]].
    + clear -Hlast Hlink Hp'. induction chain as [|a [|b l] IHc]; simpl in *; [done| |].
      * injection Hlast as ->. done.
      * destruct Hlink as [Hab Hl]. split; [done|]. apply IHc; done.
    + destruct chain as [|a l]; [done|]. simpl in *.
      rewrite elem_of_app, list_elem_of_singleton. intros [?|?]; [tauto|done].
    + rewrite removelast_last. intros Hin.
      destruct chain as [|a l _] using rev_ind; [done|].
      rewrite last_snoc in Hlast. injection Hlast as ->.
      rewrite removelast_last in He.
      apply elem_of_app in Hin as [?|Hin]; [done|].
      by apply list_elem_of_singleton in Hin.
    + exists h. split; [|done]. by destruct chain.
  - injection Hw as <-. exists [cur].
    repeat split; try done; try apply not_elem_of_nil. exists cur. by split.
Qed.

(** No parent recorded in the map is the empty string. *)
Definition no_empty_parent (previousNodes : gmap string (option string)) : Prop :=
  ∀ n, previousNodes !! n ≠ Some (Some "").

Lemma walk_back_head_reaches fuel prev s cur acc path :
  no_empty_parent prev →
  walk_back fuel prev s cur acc = Some path →
  head path = Some s ↔ reaches prev s cur.
Proof.
  intros Hne. revert cur acc path.
  induction fuel as [|fuel IH]; intros cur acc path Hw; [done|].
  rewrite walk_back_S in Hw. destruct (str_eq cur s) eqn:Hcs.
  { apply str_eq_true in Hcs as ->. injection Hw as <-. split; [constructor|done]. }
  apply str_eq_false in Hcs.
  destruct (parent_of prev cur) as [p|] eqn:Hp.
  - rewrite (IH _ _ _ Hw). apply parent_of_Some in Hp as [Hp _]. split.
    + intros. by eapply reaches_parent.
    + intros Hr. inversion Hr as [|? p' ? Hp' Hr']; subst; [done|]. congruence.
  - injection Hw as <-. simpl. split; [congruence|].
    intros Hr. inversion Hr as [|? p' ? Hp' Hr']; subst; [done|].
    assert (parent_of prev cur = Some p') as Hq; [|congruence].
    apply parent_of_link; [done|]. intros ->. by apply (Hne cur).
Qed.

Lemma check_start_head s path :
  check_start s path = if bool_decide (head path = Some s) then path else [].
Proof.
  destruct path as [|a l]; simpl; [first [done | by case_bool_decide]|].
  unfold str_eq. repeat case_bool_decide; congruence.
Qed.

(** The cyclic map of two nodes that are each other's parent. *)
Definition cycle_map : gmap string (option string) :=
  <["a" := Some "b"]> (<["b" := Some "a"]> ∅).

Lemma cycle_map_diverges fuel cur acc :
  cur = "a" ∨ cur = "b" → walk_back fuel cycle_map "s" cur acc = None.
Proof.
  revert cur acc. induction fuel as [|fuel IH]; intros cur acc Hcur; [done|].
  rewrite walk_back_S. destruct Hcur as [-> | ->].
  - change (walk_back fuel cycle_map "s" "b" ("a" :: acc) = None). apply IH. by right.
  - change (walk_back fuel cycle_map "s" "a" ("b" :: acc) = None). apply IH. by left.
Qed.

Lemma cycle_map_not_reaches cur : cur = "a" ∨ cur = "b" → ¬ reaches cycle_map "s" cur.
Proof.
  intros Hcur Hr. induction Hr as [|n p Hn Hp Hr IH]; [by destruct Hcur|].
  apply IH. destruct Hcur as [-> | ->]; vm_compute in Hp; injection Hp as <-; auto.
Qed.

(** C7, as stated, fails on a cyclic parent map: no chain from ["a"] reaches
    ["s"], yet the function returns no sequence at all (the loop never ends,
    whatever the fuel). *)
Lemma reconstructPath_cycle_counterexample :
  ¬ reaches cycle_map "s" "a" ∧
  reconstructPath cycle_map "s" "a" ≠ Some [] ∧
  ∀ fuel, reconstructPath_fuel fuel cycle_map "s" "a" = None.
Proof.
  split; [apply cycle_map_not_reaches; by left|].
  assert (∀ fuel, reconstructPath_fuel fuel cycle_map "s" "a" = None) as Hdiv.
  { intros fuel. unfold reconstructPath_fuel.
    by rewrite cycle_map_diverges by (by left). }
  split; [|done]. unfold reconstructPath. by rewrite Hdiv.
Qed.

(** A parent that is the empty string is taken for [null]: the chain
    ["b"] → [""] reaches the start [""], but the result is empty. *)
Example reconstructPath_empty_id :
  reaches (<["b" := Some ""]> ∅) "" "b" ∧
  reconstructPath (<["b" := Some ""]> ∅) "" "b" = Some [].
Proof.
  split; [|reflexivity].
  eapply reaches_parent; [done|reflexivity|constructor].
Qed.

(** C7 (amended): on a parent map without cycle and without empty-string
    parent, [reconstructPath] returns; the result is empty when the chain of
    parents from the queried node does not reach the start id; otherwise it
    is that chain: it begins with the start id, ends with the queried node,
    each element is the parent of the next, and the start id occurs only at
    the front. *)
Theorem reconstructPath_spec prev s q :
  acyclic prev → no_empty_parent prev →
  ∃ path, reconstructPath prev s q = Some path ∧
    (¬ reaches prev s q → path = []) ∧
    (reaches prev s q →
       head path = Some s ∧ last path = Some q ∧ linked prev path ∧ s ∉ tail path).
Proof.
  intros Hac Hne. destruct (reconstructPath_total prev s q Hac) as [path Hpath].
  exists path. split; [done|].
  unfold reconstructPath, reconstructPath_fuel in Hpath.
  destruct (walk_back _ prev s q []) as [chain|] eqn:Hw; [|done].
  injection Hpath as <-. rewrite check_start_head.
  pose proof (walk_back_head_reaches _ _ _ _ _ _ Hne Hw) as Hiff.
  apply walk_back_chain in Hw as (chain' & -> & Hlast & Hlink & Hs & _).
  rewrite app_nil_r in *. case_bool_decide as Hhd; split; tauto.
Qed.

Lemma reconstructPath_spec_witness :
  ∃ path, reconstructPath (<["b" := Some "a"]> (<["a" := None]> ∅)) "a" "b" = Some path ∧
    (¬ reaches (<["b" := Some "a"]> (<["a" := None]> ∅)) "a" "b" → path = []) ∧
    (reaches (<["b" := Some "a"]> (<["a" := None]> ∅)) "a" "b" →
       head path = Some "a" ∧ last path = Some "b" ∧
       linked (<["b" := Some "a"]> (<["a" := None]> ∅)) path ∧ "a" ∉ tail path).
Proof.
  apply (reconstructPath_spec (<["b" := Some "a"]> (<["a" := None]> ∅)) "a" "b").
  - exists (fun n => if str_eq n "a" then O else 1%nat). intros n p Hn.
    destruct (decide (n = "b")) as [->|Hb].
    + vm_compute in Hn. injection Hn as <-. vm_compute. lia.
    + rewrite lookup_insert_ne in Hn by done.
      destruct (decide (n = "a")) as [->|Ha]; [by vm_compute in Hn|].
      by rewrite lookup_insert_ne in Hn by done.
  - intros n Hn. destruct (decide (n = "b")) as [->|Hb]; [by vm_compute in Hn|].
    rewrite lookup_insert_ne in Hn by done.
    destruct (decide (n = "a")) as [->|Ha]; [by vm_compute in Hn|].
    by rewrite lookup_insert_ne in Hn by done.
Defined.

(** ** Race judge *)

(** The path starts at the start node and ends at the end node. *)
Definition valid_path (startNode endNode : string) (p : list string) : Prop :=
  head p = Some startNode ∧ last p = Some endNode.

(** [i] is the first index at which the completion flag is true. *)
Definition first_complete (l : list PathStep.t) (i : nat) : Prop :=
  (∃ st, l !! i = Some st ∧ PathStep.isComplete st = true) ∧
  ∀ j st, (j < i)%nat → l !! j = Some st → PathStep.isComplete st = false.

Lemma foundPath_valid s e st :
  foundPath s e st = true ↔ valid_path s e (PathStep.path st).
Proof.
  unfold foundPath, valid_path. destruct (PathStep.path st) as [|p0 l] eqn:Hp.
  { split; [done|]. by intros [? _]. }
  rewrite andb_true_iff, str_eq_true. cbn [head].
  destruct (last (p0 :: l)) as [pn|]; [rewrite str_eq_true|]; naive_solver.
Qed.

Lemma findIndex_first_complete l i :
  findIndex PathStep.isComplete l = Some i ↔ first_complete l i.
Proof.
  revert i. induction l as [|s l IH]; intros i; simpl.
  { split; [done|]. by intros [(st & Hst & _) _]. }
  destruct (PathStep.isComplete s) eqn:Hs.
  - split.
    + intros [= <-]. split; [by exists s|]. intros j st Hj. lia.
    + intros [_ Hmin]. destruct i as [|i]; [done|].
      specialize (Hmin O s). simpl in Hmin. rewrite Hs in Hmin.
      discriminate Hmin; [lia|done].
  - rewrite fmap_Some. split.
    + intros (i' & Hi' & ->). apply IH in Hi' as [(st & Hst & Hc) Hmin].
      split; [by exists st|]. intros [|j] st' Hj Hst'; simpl in Hst'.
      * by injection Hst' as <-.
      * eapply Hmin; [|done]. lia.
    + intros [(st & Hst & Hc) Hmin]. destruct i as [|i]; simpl in Hst.
      { injection Hst as <-. congruence. }
      exists i. split; [|done]. apply IH. split; [by exists st|].
      intros j st' Hj Hst'. apply (Hmin (S j) st'); [lia|done].
Qed.

(** Before the cursor has reached the last step of the longer side, or when
    a side has no step, no winner is set. *)
Lemma judge_undecided c L R s e :
  (c < Z.max (Z.of_nat (length L)) (Z.of_nat (length R)) - 1)%Z ∨ L = [] ∨ R = [] →
  judge c L R s e = None.
Proof.
  unfold judge. intros [Hc|[-> | ->]]; [|done|by destruct (last L)].
  destruct (last L), (last R); try done.
  by rewrite (proj2 (Z.leb_gt _ _) Hc).
Qed.

(** C3: once both sides are complete, the verdict follows the order of
    precedence: a side that alone has a valid final path wins; no valid path
    on either side is a tie; with two valid paths the side whose completion
    flag came first wins; at equal indices the smaller final visited set
    wins; otherwise it is a tie. *)
Theorem judge_precedence c L R s e lf rf :
  last L = Some lf → last R = Some rf →
  (Z.max (Z.of_nat (length L)) (Z.of_nat (length R)) - 1 ≤ c)%Z →
  let lv := valid_path s e (PathStep.path lf) in
  let rv := valid_path s e (PathStep.path rf) in
  let nl := size (PathStep.visitedNodes lf) in
  let nr := size (PathStep.visitedNodes rf) in
  (lv ∧ ¬ rv → judge c L R s e = Some Winner.left) ∧
  (rv ∧ ¬ lv → judge c L R s e = Some Winner.right) ∧
  (¬ lv ∧ ¬ rv → judge c L R s e = Some Winner.tie) ∧
  (lv ∧ rv → ∀ i j, first_complete L i → first_complete R j →
     ((i < j)%nat → judge c L R s e = Some Winner.left) ∧
     ((j < i)%nat → judge c L R s e = Some Winner.right) ∧
     (i = j →
        ((nl < nr)%nat → judge c L R s e = Some Winner.left) ∧
        ((nr < nl)%nat → judge c L R s e = Some Winner.right) ∧
        (nl = nr → judge c L R s e = Some Winner.tie))).
Proof.
  intros HL HR Hc lv rv nl nr. unfold judge. rewrite HL, HR.
  rewrite (proj2 (Z.leb_le _ _) Hc).
  assert (if foundPath s e lf then lv else ¬ lv) as Hlf.
  { pose proof (foundPath_valid s e lf) as Hiff. fold lv in Hiff.
    destruct (foundPath s e lf); [by apply Hiff|]. rewrite <- Hiff. done. }
  assert (if foundPath s e rf then rv else ¬ rv) as Hrf.
  { pose proof (foundPath_valid s e rf) as Hiff. fold rv in Hiff.
    destruct (foundPath s e rf); [by apply Hiff|]. rewrite <- Hiff. done. }
  destruct (foundPath s e lf), (foundPath s e rf); simpl;
    (split; [|split; [|split]]); try tauto.
  intros _ i j Hi%findIndex_first_complete Hj%findIndex_first_complete.
  rewrite Hi, Hj. fold nl nr.
  split; [|split].
  - intros Hlt. by rewrite (proj2 (Nat.ltb_lt _ _) Hlt).
  - intros Hlt. rewrite (proj2 (Nat.ltb_ge _ _)) by lia.
    by rewrite (proj2 (Nat.ltb_lt _ _) Hlt).
  - intros ->. rewrite Nat.ltb_irrefl. split; [|split].
    + intros Hlt. by rewrite (proj2 (Nat.ltb_lt _ _) Hlt).
    + intros Hlt. rewrite (proj2 (Nat.ltb_ge _ _)) by lia.
      by rewrite (proj2 (Nat.ltb_lt _ _) Hlt).
    + intros Heq. rewrite Heq, Nat.ltb_irrefl. done.
Qed.

(** An example of two sides: the left one completes at index 1 with two
    visited nodes, the right one completes at index 1 with three. *)
Definition left_steps : list PathStep.t :=
  [ PathStep.mk "a" {["a"]} ∅ ["a"] false;
    PathStep.mk "c" {["a"; "c"]} ∅ ["a"; "c"] true ].

Definition right_steps : list PathStep.t :=
  [ PathStep.mk "a" {["a"; "b"; "c"]} ∅ ["a"] false;
    PathStep.mk "c" {["a"; "b"; "c"]} ∅ ["a"; "c"] true ].

Lemma judge_precedence_witness :
  let lf := PathStep.mk "c" {["a"; "c"]} ∅ ["a"; "c"] true in
  let rf := PathStep.mk "c" {["a"; "b"; "c"]} ∅ ["a"; "c"] true in
  let lv := valid_path "a" "c" (PathStep.path lf) in
  let rv := valid_path "a" "c" (PathStep.path rf) in
  let nl := size (PathStep.visitedNodes lf) in
  let nr := size (PathStep.visitedNodes rf) in
  let verdict := judge 1 left_steps right_steps "a" "c" in
  (lv ∧ ¬ rv → verdict = Some Winner.left) ∧
  (rv ∧ ¬ lv → verdict = Some Winner.right) ∧
  (¬ lv ∧ ¬ rv → verdict = Some Winner.tie) ∧
  (lv ∧ rv → ∀ i j, first_complete left_steps i → first_complete right_steps j →
     ((i < j)%nat → verdict = Some Winner.left) ∧
     ((j < i)%nat → verdict = Some Winner.right) ∧
     (i = j →
        ((nl < nr)%nat → verdict = Some Winner.left) ∧
        ((nr < nl)%nat → verdict = Some Winner.right) ∧
        (nl = nr → verdict = Some Winner.tie))).
Proof.
  apply (judge_precedence 1 left_steps right_steps "a" "c");
    [reflexivity | reflexivity | vm_compute; discriminate].
Defined.

(** ** Step-by-step engines *)

(** The interface the four classes share. *)
Record Engine := mkEngine {
  E_state : Type;
  E_init : AlgorithmConfig → E_state;
  E_step : E_state → option (option PathStep.t * E_state);
  E_isComplete : E_state → bool;
  E_frontier_empty : E_state → bool;
  E_config : E_state → option AlgorithmConfig
}.

Section engines.
Context {H : MinHeap}.
Variable sqrt : Q → Q.

Definition engine (a : AlgorithmType) : Engine :=
  match a with
  | dijkstraT =>
      mkEngine Dijkstra.state Dijkstra.init Dijkstra.step Dijkstra.isComplete
        Dijkstra.frontier_empty Dijkstra.config
  | astarT =>
      mkEngine AStar.state (AStar.init sqrt) (AStar.step sqrt) AStar.isComplete
        AStar.frontier_empty AStar.config
  | bfsT =>
      mkEngine BFS.state BFS.init BFS.step BFS.isComplete BFS.frontier_empty BFS.config
  | dfsT =>
      mkEngine DFS.state DFS.init DFS.step DFS.isComplete DFS.frontier_empty DFS.config
  end.

(** The engine has terminated: the target was finalized or the frontier is
    exhausted. *)
Definition terminated (a : AlgorithmType) (st : E_state (engine a)) : Prop :=
  E_isComplete (engine a) st = true ∨ E_frontier_empty (engine a) st = true.

Lemma step_terminated a (st : E_state (engine a)) :
  terminated a st → E_step (engine a) st = Some (None, st).
Proof.
  unfold terminated. destruct a; simpl in *.
  - unfold Dijkstra.step, Dijkstra.isComplete, Dijkstra.frontier_empty.
    intros Hterm. destruct (Dijkstra.config st); [|done]. simpl.
    destruct Hterm as [-> | ->]; [done|]. by rewrite orb_true_r.
  - unfold AStar.step, AStar.isComplete, AStar.frontier_empty.
    intros Hterm. destruct (AStar.config st); [|done]. simpl.
    destruct Hterm as [-> | ->]; [done|]. by rewrite orb_true_r.
  - unfold BFS.step, BFS.isComplete, BFS.frontier_empty.
    intros Hterm. destruct (BFS.config st); [|done].
    destruct (BFS.complete st); [done|]. destruct Hterm as [?|Hq]; [done|].
    by destruct (BFS.queue (BFS.vars_of st)).
  - unfold DFS.step, DFS.isComplete, DFS.frontier_empty.
    intros Hterm. destruct (DFS.config st); [|done].
    destruct (DFS.complete st); [done|]. destruct Hterm as [?|Hq]; [done|].
    by destruct (DFS.stack (DFS.vars_of st)).
Qed.

Lemma call_steps_terminated a (st : E_state (engine a)) n :
  terminated a st →
  call_steps (E_step (engine a)) n st = Some (replicate n None, st).
Proof.
  intros Hterm. induction n as [|n IH]; [done|].
  simpl. rewrite (step_terminated a st Hterm). simpl. by rewrite IH.
Qed.

(** C9: once an engine has terminated (target finalized or frontier
    exhausted), [step] returns [null] and leaves the whole state as it is,
    however many times it is called. *)
Theorem step_after_termination a (st : E_state (engine a)) :
  terminated a st →
  E_step (engine a) st = Some (None, st) ∧
  ∀ n, call_steps (E_step (engine a)) n st = Some (replicate n None, st).
Proof.
  intros Hterm. split; [by apply step_terminated|].
  intros n. by apply call_steps_terminated.
Qed.

End engines.

Definition bfs_finished : BFS.state :=
  default BFS.reset (snd <$> call_steps BFS.step 2 (BFS.init pair_config)).

Lemma step_after_termination_witness :
  E_step (engine int_sqrt bfsT) bfs_finished = Some (None, bfs_finished) ∧
  ∀ n, call_steps (E_step (engine int_sqrt bfsT)) n bfs_finished
       = Some (replicate n None, bfs_finished).
Proof.
  apply (step_after_termination int_sqrt bfsT bfs_finished).
  left. reflexivity.
Defined.

(** ** The completion flag of the engines *)

(** The target was finalized by this call of [step]. *)
Definition finalizes (cfg : AlgorithmConfig) (r : option PathStep.t) : Prop :=
  ∃ s, r = Some s ∧ PathStep.currentNode s = endNode cfg ∧ PathStep.isComplete s = true.

Lemma BFS_snapshot_fields cfg v cur s :
  BFS.snapshot cfg v cur = Some s →
  PathStep.currentNode s = cur ∧
  PathStep.visitedNodes s = BFS.visitedNodes v ∧
  PathStep.previousNodes s = BFS.previousNodes v ∧
  reconstructPath (BFS.previousNodes v) (startNode cfg) cur = Some (PathStep.path s) ∧
  PathStep.isComplete s = str_eq cur (endNode cfg).
Proof.
  unfold BFS.snapshot. destruct (reconstructPath _ _ _); [|done].
  simpl. intros [= <-]. done.
Qed.

Lemma DFS_snapshot_fields cfg v cur s :
  DFS.snapshot cfg v cur = Some s →
  PathStep.currentNode s = cur ∧
  PathStep.visitedNodes s = DFS.visitedNodes v ∧
  PathStep.previousNodes s = DFS.previousNodes v ∧
  reconstructPath (DFS.previousNodes v) (startNode cfg) cur = Some (PathStep.path s) ∧
  PathStep.isComplete s = str_eq cur (endNode cfg).
Proof.
  unfold DFS.snapshot. destruct (reconstructPath _ _ _); [|done].
  simpl. intros [= <-]. done.
Qed.

Section engine_flags.
Context {H : MinHeap}.
Variable sqrt : Q → Q.

Lemma Dijkstra_snapshot_fields cfg v cur s :
  Dijkstra.snapshot cfg v cur = Some s →
  PathStep.currentNode s = cur ∧
  PathStep.visitedNodes s = Dijkstra.visitedNodes v ∧
  PathStep.previousNodes s = Dijkstra.previousNodes v ∧
  reconstructPath (Dijkstra.previousNodes v) (startNode cfg) cur = Some (PathStep.path s) ∧
  PathStep.isComplete s = str_eq cur (endNode cfg).
Proof.
  unfold Dijkstra.snapshot. destruct (reconstructPath _ _ _); [|done].
  simpl. intros [= <-]. done.
Qed.

Lemma AStar_snapshot_fields cfg v cur s :
  AStar.snapshot cfg v cur = Some s →
  PathStep.currentNode s = cur ∧
  PathStep.visitedNodes s = AStar.visitedNodes v ∧
  PathStep.previousNodes s = AStar.previousNodes v ∧
  reconstructPath (AStar.previousNodes v) (startNode cfg) cur = Some (PathStep.path s) ∧
  PathStep.isComplete s = str_eq cur (endNode cfg).
Proof.
  unfold AStar.snapshot. destruct (reconstructPath _ _ _); [|done].
  simpl. intros [= <-]. done.
Qed.

Lemma heap_pop_nonempty (h : heap) : heap_isEmpty h = false → heap_pop h ≠ None.
Proof.
  intros Hne Hpop. apply heap_pop_none, heap_isEmpty_elems in Hpop. congruence.
Qed.

Lemma finalizes_snapshot cfg (s : PathStep.t) cur :
  PathStep.currentNode s = cur → PathStep.isComplete s = str_eq cur (endNode cfg) →
  finalizes cfg (Some s) ↔ str_eq cur (endNode cfg) = true.
Proof.
  intros Hc Hi. unfold finalizes. split.
  - intros (s' & [= <-] & _ & Hs). congruence.
  - intros Hs. exists s. rewrite Hi, Hc, Hs. by apply str_eq_true in Hs.
Qed.

Lemma not_finalizes_None cfg : ¬ finalizes cfg None.
Proof. by intros (s & ? & _). Qed.

Lemma Dijkstra_step_go_complete fuel cfg st r st' :
  Dijkstra.config st = Some cfg → Dijkstra.complete st = false →
  Dijkstra.step_go fuel cfg st = Some (r, st') →
  Dijkstra.config st' = Some cfg ∧ (Dijkstra.complete st' = true ↔ finalizes cfg r).
Proof.
  revert st. induction fuel as [|fuel IH]; intros st Hcfg Hc Hstep; [done|].
  simpl in Hstep. rewrite Hc in Hstep. simpl in Hstep.
  destruct (heap_isEmpty _) eqn:Hemp.
  { injection Hstep as <- <-. rewrite Hc. split; [done|]. split; [done|].
    intros []%not_finalizes_None. }
  destruct (heap_pop _) as [[[d cur] q]|] eqn:Hpop; [|by apply heap_pop_nonempty in Hpop].
  simpl in Hstep. destruct (decide _); [by apply IH in Hstep|].
  destruct (num_gt _ _); [by apply IH in Hstep|].
  destruct (Dijkstra.snapshot _ _ _) as [s|] eqn:Hs; [|done]. simpl in Hstep.
  apply Dijkstra_snapshot_fields in Hs as (Hcur & _ & _ & _ & Hic).
  pose proof (finalizes_snapshot cfg s cur Hcur Hic) as Hfin.
  destruct (str_eq cur (endNode cfg)); injection Hstep as <- <-; simpl;
    by rewrite Hfin, ?Hc.
Qed.

Lemma AStar_step_go_complete fuel cfg st r st' :
  AStar.config st = Some cfg → AStar.complete st = false →
  AStar.step_go sqrt fuel cfg st = Some (r, st') →
  AStar.config st' = Some cfg ∧ (AStar.complete st' = true ↔ finalizes cfg r).
Proof.
  revert st. induction fuel as [|fuel IH]; intros st Hcfg Hc Hstep; [done|].
  simpl in Hstep. rewrite Hc in Hstep. simpl in Hstep.
  destruct (heap_isEmpty _) eqn:Hemp.
  { injection Hstep as <- <-. rewrite Hc. split; [done|]. split; [done|].
    intros []%not_finalizes_None. }
  destruct (heap_pop _) as [[[d cur] q]|] eqn:Hpop; [|by apply heap_pop_nonempty in Hpop].
  simpl in Hstep. destruct (decide _); [by apply IH in Hstep|].
  destruct (num_gt _ _); [by apply IH in Hstep|].
  destruct (AStar.snapshot _ _ _) as [s|] eqn:Hs; [|done]. simpl in Hstep.
  apply AStar_snapshot_fields in Hs as (Hcur & _ & _ & _ & Hic).
  pose proof (finalizes_snapshot cfg s cur Hcur Hic) as Hfin.
  destruct (str_eq cur (endNode cfg)); injection Hstep as <- <-; simpl;
    by rewrite Hfin, ?Hc.
Qed.

Lemma DFS_step_from_complete cfg st v stk r st' :
  DFS.config st = Some cfg → DFS.complete st = false →
  DFS.step_from cfg st v stk = Some (r, st') →
  DFS.config st' = Some cfg ∧ (DFS.complete st' = true ↔ finalizes cfg r).
Proof.
  intros Hcfg Hc. revert v. induction stk as [|cur rest IH]; intros v Hstep; simpl in Hstep.
  { injection Hstep as <- <-. simpl. rewrite Hc. split; [done|]. split; [done|].
    intros []%not_finalizes_None. }
  destruct (decide _); [by apply IH in Hstep|].
  destruct (DFS.snapshot _ _ _) as [s|] eqn:Hs; [|done]. simpl in Hstep.
  apply DFS_snapshot_fields in Hs as (Hcur & _ & _ & _ & Hic).
  pose proof (finalizes_snapshot cfg s cur Hcur Hic) as Hfin.
  destruct (str_eq cur (endNode cfg)); injection Hstep as <- <-; simpl;
    by rewrite Hfin, ?Hc.
Qed.

Lemma step_complete a (st : E_state (engine sqrt a)) cfg r st' :
  E_config (engine sqrt a) st = Some cfg →
  E_isComplete (engine sqrt a) st = false →
  E_step (engine sqrt a) st = Some (r, st') →
  E_config (engine sqrt a) st' = Some cfg ∧
  (E_isComplete (engine sqrt a) st' = true ↔ finalizes cfg r).
Proof.
  destruct a; simpl; intros Hcfg Hc Hstep.
  - unfold Dijkstra.step in Hstep. rewrite Hcfg in Hstep.
    by eapply Dijkstra_step_go_complete.
  - unfold AStar.step in Hstep. rewrite Hcfg in Hstep.
    by eapply AStar_step_go_complete.
  - unfold BFS.step, BFS.isComplete in *. rewrite Hcfg, Hc in Hstep.
    destruct (BFS.queue _) as [|cur rest].
    { injection Hstep as <- <-. rewrite Hc. split; [done|]. split; [done|].
      intros []%not_finalizes_None. }
    destruct (BFS.snapshot _ _ _) as [s|] eqn:Hs; [|done]. simpl in Hstep.
    apply BFS_snapshot_fields in Hs as (Hcur & _ & _ & _ & Hic).
    pose proof (finalizes_snapshot cfg s cur Hcur Hic) as Hfin.
    destruct (str_eq cur (endNode cfg)); injection Hstep as <- <-; simpl;
      by rewrite Hfin, ?Hc.
  - unfold DFS.step, DFS.isComplete in *. rewrite Hcfg, Hc in Hstep.
    destruct (DFS.stack _) as [|cur rest] eqn:Hstk.
    { injection Hstep as <- <-. rewrite Hc. split; [done|]. split; [done|].
      intros []%not_finalizes_None. }
    by eapply DFS_step_from_complete.
Qed.

Lemma call_steps_complete a cfg n (st0 st : E_state (engine sqrt a)) outs :
  E_config (engine sqrt a) st0 = Some cfg →
  call_steps (E_step (engine sqrt a)) n st0 = Some (outs, st) →
  E_isComplete (engine sqrt a) st = true ↔
  E_isComplete (engine sqrt a) st0 = true ∨ ∃ r, r ∈ outs ∧ finalizes cfg r.
Proof.
  revert st0 outs. induction n as [|n IH]; intros st0 outs Hcfg Hcall; simpl in Hcall.
  { injection Hcall as <- <-. split; [by left|]. intros [?|(r & []%elem_of_nil & _)]. done. }
  destruct (E_step (engine sqrt a) st0) as [[r st1]|] eqn:Hstep; [|done]. simpl in Hcall.
  destruct (call_steps _ n st1) as [[rs st2]|] eqn:Hrest; [|done].
  injection Hcall as <- <-.
  destruct (E_isComplete (engine sqrt a) st0) eqn:Hc.
  - rewrite (step_terminated sqrt a st0) in Hstep by (by left).
    injection Hstep as <- <-. rewrite (IH _ _ Hcfg Hrest), Hc. tauto.
  - destruct (step_complete a st0 cfg r st1 Hcfg Hc Hstep) as [Hcfg1 Hiff].
    rewrite (IH _ _ Hcfg1 Hrest), Hiff. split.
    + intros [?|(r' & Hr' & Hf)]; right; [exists r|exists r'];
        (split; [|done]); apply elem_of_cons; auto.
    + intros [?|(r' & [->|Hr']%elem_of_cons & Hf)]; [done|by left|].
      right. by exists r'.
Qed.

(** C10: after any number of calls of [step] on a freshly initialised
    engine, [isComplete()] is true exactly when one of these calls returned
    the step that finalized the target; and in a state whose frontier is
    exhausted while [isComplete()] is false, [step] returns [null] and
    changes nothing, so [isComplete()] stays false. *)
Theorem isComplete_iff_target_finalized a cfg n outs (st : E_state (engine sqrt a)) :
  call_steps (E_step (engine sqrt a)) n (E_init (engine sqrt a) cfg) = Some (outs, st) →
  (E_isComplete (engine sqrt a) st = true ↔ ∃ r, r ∈ outs ∧ finalizes cfg r) ∧
  (E_frontier_empty (engine sqrt a) st = true →
   E_isComplete (engine sqrt a) st = false →
   ∀ m, call_steps (E_step (engine sqrt a)) m st = Some (replicate m None, st)).
Proof.
  intros Hcall. split.
  - assert (E_config (engine sqrt a) (E_init (engine sqrt a) cfg) = Some cfg) as Hcfg
      by (by destruct a).
    rewrite (call_steps_complete a cfg n _ st outs Hcfg Hcall).
    assert (E_isComplete (engine sqrt a) (E_init (engine sqrt a) cfg) = false) as ->
      by (by destruct a).
    split; [by intros [?|?]|by right].
  - intros Hemp _ m. apply call_steps_terminated. by right.
Qed.

End engine_flags.

Definition two_islands : AlgorithmConfig :=
  mkConfig "a" "b" (Graph.mk [node "a"; node "b"] []).

Definition bfs_two_islands_run :=
  default ([], BFS.reset) (call_steps BFS.step 3 (BFS.init two_islands)).

Lemma isComplete_iff_target_finalized_witness :
  (E_isComplete (engine int_sqrt bfsT) (snd bfs_two_islands_run) = true ↔
   ∃ r, r ∈ fst bfs_two_islands_run ∧ finalizes two_islands r) ∧
  (E_frontier_empty (engine int_sqrt bfsT) (snd bfs_two_islands_run) = true →
   E_isComplete (engine int_sqrt bfsT) (snd bfs_two_islands_run) = false →
   ∀ m, call_steps (E_step (engine int_sqrt bfsT)) m (snd bfs_two_islands_run)
        = Some (replicate m None, snd bfs_two_islands_run)).
Proof.
  apply (isComplete_iff_target_finalized int_sqrt bfsT two_islands 3
           (fst bfs_two_islands_run) (snd bfs_two_islands_run)).
  reflexivity.
Defined.

(** The run on two nodes without edge ends with an exhausted frontier and
    [isComplete()] false: the flag alone does not tell it from a run that
    is not finished. *)
Example unreachable_not_complete :
  fst bfs_two_islands_run <> [] ∧
  last (fst bfs_two_islands_run) = Some None ∧
  BFS.isComplete (snd bfs_two_islands_run) = false ∧
  BFS.frontier_empty (snd bfs_two_islands_run) = true.
Proof. vm_compute. repeat split; discriminate. Qed.

(** ** Invariants shared by the four searches *)

(** The parent links go from a node to a node visited before it: a rank
    that is below [N] exactly on the visited nodes decreases along them. *)
Definition ranked (prev : gmap string (option string)) (visited : gset string) : Prop :=
  ∃ (rank : string → nat) (N : nat),
    (∀ n p, prev !! n = Some (Some p) → p ∈ visited ∧ (rank p < rank n)%nat) ∧
    (∀ v, v ∈ visited → (rank v < N)%nat) ∧
    (∀ v, v ∉ visited → rank v = N).

Lemma ranked_acyclic prev visited : ranked prev visited → acyclic prev.
Proof. intros (rank & N & Hlink & _). exists rank. intros n p Hn. by apply Hlink. Qed.

Lemma ranked_no_parent prev visited :
  (∀ n p, prev !! n ≠ Some (Some p)) → ranked prev visited.
Proof.
  intros Hnone. exists (fun v => if decide (v ∈ visited) then O else 1%nat), 1%nat.
  split; [|split].
  - intros n p Hn. by destruct (Hnone n p).
  - intros v Hv. rewrite decide_True by done. lia.
  - intros v Hv. by rewrite decide_False by done.
Qed.

Lemma ranked_visit prev visited u : ranked prev visited → ranked prev (visited ∪ {[u]}).
Proof.
  intros (rank & N & Hlink & Hin & Hout).
  destruct (decide (u ∈ visited)) as [Hu|Hu].
  { replace (visited ∪ {[u]}) with visited by set_solver. by exists rank, N. }
  exists (fun v => if decide (v ∈ visited) then rank v
                   else if decide (v = u) then N else S N), (S N).
  split; [|split].
  - intros n p Hn. destruct (Hlink n p Hn) as [Hp Hlt].
    split; [set_solver|]. rewrite (decide_True _ _ Hp).
    pose proof (Hin p Hp). destruct (decide (n ∈ visited)); [done|].
    destruct (decide (n = u)); lia.
  - intros v Hv. destruct (decide (v ∈ visited)) as [Hv'|Hv'].
    + pose proof (Hin v Hv'). lia.
    + rewrite decide_True by set_solver. lia.
  - intros v Hv. rewrite decide_False by set_solver. rewrite decide_False by set_solver.
    done.
Qed.

Lemma ranked_set_parent prev visited n cur :
  ranked prev visited → cur ∈ visited → n ∉ visited →
  ranked (<[n := Some cur]> prev) visited.
Proof.
  intros (rank & N & Hlink & Hin & Hout) Hcur Hn. exists rank, N.
  split; [|done]. intros m p Hm.
  destruct (decide (m = n)) as [->|Hne].
  - rewrite lookup_insert_eq in Hm. injection Hm as <-. split; [done|].
    rewrite (Hout n Hn). by apply Hin.
  - rewrite lookup_insert_ne in Hm by done. by apply Hlink.
Qed.

Lemma ranked_snapshot prev visited s cur :
  ranked prev visited → is_Some (reconstructPath prev s cur).
Proof. intros Hr. eapply reconstructPath_total, ranked_acyclic, Hr. Qed.

(** The node ids the steps of a trace finalize, in order. *)
Definition currents (steps : list PathStep.t) : list string :=
  PathStep.currentNode <$> steps.

(** Each step's visited set contains the one of the step before. *)
Definition trace_monotone (steps : list PathStep.t) : Prop :=
  ∀ i s1 s2, steps !! i = Some s1 → steps !! (S i) = Some s2 →
    PathStep.visitedNodes s1 ⊆ PathStep.visitedNodes s2.

(** No node id is the current node of two steps. *)
Definition trace_unique (steps : list PathStep.t) : Prop := NoDup (currents steps).

(** The part of the invariant of the four loops that speaks of the trace
    recorded so far, for the visited set [V] of the moment. *)
Record trace_inv (steps : list PathStep.t) (V : gset string) : Prop := {
  ti_monotone : trace_monotone steps;
  ti_below : ∀ s, s ∈ steps → PathStep.visitedNodes s ⊆ V;
  ti_unique : trace_unique steps;
  ti_current : ∀ c, c ∈ currents steps → c ∈ V
}.

Lemma trace_inv_nil V : trace_inv [] V.
Proof.
  split.
  - intros i s1 s2 Hs1. done.
  - intros s Hs. by apply elem_of_nil in Hs.
  - apply NoDup_nil_2.
  - intros c Hc. by apply elem_of_nil in Hc.
Qed.

Lemma trace_inv_grow steps V V' : trace_inv steps V → V ⊆ V' → trace_inv steps V'.
Proof.
  intros [Hm Hb Hu Hc] Hsub. split; [done| |done|].
  - intros s Hs. specialize (Hb s Hs). set_solver.
  - intros c Hcin. specialize (Hc c Hcin). set_solver.
Qed.

Lemma trace_monotone_snoc steps s :
  trace_monotone steps →
  (∀ s', s' ∈ steps → PathStep.visitedNodes s' ⊆ PathStep.visitedNodes s) →
  trace_monotone (steps ++ [s]).
Proof.
  intros Hm Hb i s1 s2 Hs1 Hs2.
  destruct (decide (S i < length steps)%nat) as [Hlt|Hge].
  - rewrite lookup_app_l in Hs1 by lia. rewrite lookup_app_l in Hs2 by lia.
    by eapply Hm.
  - assert (i < length steps)%nat as Hi.
    { apply lookup_lt_Some in Hs2. rewrite length_app in Hs2. simpl in Hs2. lia. }
    rewrite lookup_app_l in Hs1 by done.
    rewrite lookup_app_r in Hs2 by lia.
    replace (S i - length steps)%nat with O in Hs2 by lia. injection Hs2 as <-.
    apply Hb. by eapply list_elem_of_lookup_2.
Qed.

Lemma trace_inv_snoc steps V s :
  trace_inv steps V →
  PathStep.visitedNodes s = V →
  PathStep.currentNode s ∈ V →
  PathStep.currentNode s ∉ currents steps →
  trace_inv (steps ++ [s]) V.
Proof.
  intros [Hm Hb Hu Hc] HV Hcur Hnew. split.
  - apply trace_monotone_snoc; [done|]. intros s' Hs'. rewrite HV. by apply Hb.
  - intros s' [Hs'| ->%list_elem_of_singleton]%elem_of_app; [by apply Hb|].
    by rewrite HV.
  - unfold trace_unique, currents. rewrite fmap_app. apply NoDup_app.
    split; [done|]. split; [|apply NoDup_singleton].
    intros c Hcin ->%list_elem_of_singleton. done.
  - unfold currents. rewrite fmap_app.
    intros c [Hcin| ->%list_elem_of_singleton]%elem_of_app; [by apply Hc|done].
Qed.

(** ** Breadth-first search: invariant and totality *)

Record BFS_inv (steps : list PathStep.t) (v : BFS.vars) : Prop := {
  bi_ranked : ranked (BFS.previousNodes v) (BFS.visitedNodes v);
  bi_trace : trace_inv steps (BFS.visitedNodes v);
  bi_nodup : NoDup (currents steps ++ BFS.queue v);
  bi_queue : ∀ x, x ∈ BFS.queue v → x ∈ BFS.visitedNodes v
}.

Lemma BFS_relax_fold cur nb v :
  cur ∈ BFS.visitedNodes v →
  ranked (BFS.previousNodes v) (BFS.visitedNodes v) →
  let v' := foldl (BFS.relax cur) v nb in
  ranked (BFS.previousNodes v') (BFS.visitedNodes v') ∧
  BFS.visitedNodes v ⊆ BFS.visitedNodes v' ∧
  ∃ new, BFS.queue v' = BFS.queue v ++ new ∧ NoDup new ∧
         (∀ x, x ∈ new → (x ∉ BFS.visitedNodes v) ∧ (x ∈ BFS.visitedNodes v')) ∧
         (length new ≤ length nb)%nat.
Proof.
  revert v. induction nb as [|n nb IH]; intros v Hcur Hr; simpl.
  { split; [done|]. split; [done|]. exists []. rewrite app_nil_r.
    split; [done|]. split; [apply NoDup_nil_2|]. split; [|done].
    intros x Hx. by apply elem_of_nil in Hx. }
  destruct (decide (n ∈ BFS.visitedNodes v)) as [Hn|Hn].
  { assert (BFS.relax cur v n = v) as -> by (unfold BFS.relax; by rewrite decide_True).
    destruct (IH v Hcur Hr) as (Hr' & Hsub & new & Hq & Hnd & Hnew & Hlen).
    split; [done|]. split; [done|]. exists new.
    split; [done|]. split; [done|]. split; [done|]. lia. }
  set (v1 := {| BFS.previousNodes := <[n:=Some cur]> (BFS.previousNodes v);
                BFS.visitedNodes := BFS.visitedNodes v ∪ {[n]};
                BFS.queue := BFS.queue v ++ [n] |}).
  assert (BFS.relax cur v n = v1) as -> by (unfold BFS.relax; by rewrite decide_False).
  destruct (IH v1) as (Hr' & Hsub & new & Hq & Hnd & Hnew & Hlen).
  { simpl. set_solver. }
  { simpl. apply ranked_visit. by apply ranked_set_parent. }
  split; [done|]. split; [simpl in Hsub; set_solver|].
  exists (n :: new). simpl in Hq. rewrite Hq, <- app_assoc. split; [done|].
  split; [|split; [|simpl; lia]].
  - apply NoDup_cons. split; [|done]. intros Hin. apply Hnew in Hin as [Hin _].
    simpl in Hin. set_solver.
  - intros x [->|Hx]%elem_of_cons.
    + split; [done|]. simpl in Hsub. set_solver.
    + apply Hnew in Hx as [Hx1 Hx2]. split; [simpl in Hx1; set_solver|done].
Qed.

Lemma BFS_loop_total cfg adj fuel steps v :
  BFS_inv steps v →
  (length (BFS.queue v) + pending adj (list_to_set (currents steps)) < fuel)%nat →
  ∃ steps' v', BFS.loop fuel cfg adj steps v = Some (steps', v') ∧ BFS_inv steps' v'.
Proof.
  revert steps v. induction fuel as [|fuel IH]; intros steps v Hinv Hfuel; [lia|].
  simpl. destruct (BFS.queue v) as [|cur rest] eqn:Hq; [by eauto|].
  destruct Hinv as [Hr Ht Hnd Hqv]. rewrite Hq in *.
  set (v1 := {| BFS.previousNodes := BFS.previousNodes v;
                BFS.visitedNodes := BFS.visitedNodes v; BFS.queue := rest |}).
  destruct (ranked_snapshot _ _ (startNode cfg) cur Hr) as [p Hp].
  unfold BFS.snapshot. simpl. rewrite Hp. simpl.
  set (s := {| PathStep.currentNode := cur |}).
  assert (cur ∈ BFS.visitedNodes v) as Hcur by (apply Hqv, elem_of_cons; by left).
  assert (cur ∉ currents steps) as Hfresh.
  { apply NoDup_app in Hnd as (_ & Hdis & _). intros Hin.
    apply (Hdis cur Hin), elem_of_cons. by left. }
  assert (cur ∉ rest) as Hrest.
  { apply NoDup_app in Hnd as (_ & _ & Hnd). by apply NoDup_cons in Hnd as [? _]. }
  assert (BFS_inv (steps ++ [s]) v1) as Hinv1.
  { split; simpl; [done| |by unfold currents; rewrite fmap_app, <- app_assoc|].
    - by apply trace_inv_snoc.
    - intros x Hx. apply Hqv, elem_of_cons. by right. }
  destruct (str_eq cur (endNode cfg)); [by eauto|].
  destruct (BFS_relax_fold cur (default [] (adj !! cur)) v1 Hcur Hr)
    as (Hr' & Hsub & new & Hq' & Hnd' & Hnew & Hlen).
  apply IH.
  - destruct Hinv1 as [_ Ht1 Hnd1 Hqv1]. split; [done| | |].
    + by eapply trace_inv_grow.
    + rewrite Hq'. simpl. rewrite app_assoc. apply NoDup_app. split; [done|].
      split; [|done]. intros x Hx Hx'. apply Hnew in Hx' as [Hx' _]. simpl in Hx'.
      apply elem_of_app in Hx as [Hx|Hx].
      * apply Hx'. by apply (ti_current _ _ Ht1).
      * apply Hx'. by apply Hqv1.
    + rewrite Hq'. intros x [Hx|Hx]%elem_of_app.
      * apply Hsub. by apply Hqv1.
      * by apply Hnew in Hx as [_ Hx].
  - rewrite Hq', length_app. simpl. unfold currents. rewrite fmap_app, list_to_set_app_L.
    simpl. rewrite union_empty_r_L.
    pose proof (pending_visit adj (list_to_set (PathStep.currentNode <$> steps)) cur) as Hpv.
    rewrite elem_of_list_to_set in Hpv. specialize (Hpv Hfresh).
    simpl in Hfuel. unfold currents in Hfuel. lia.
Qed.

(** ** The maps built from the node list *)

Lemma foldl_insert_lookup {A} (f : Node.t → A) (l : list Node.t) (m0 : gmap string A) k v :
  foldl (fun m n => <[Node.id n := f n]> m) m0 l !! k = Some v →
  m0 !! k = Some v ∨ ∃ n, n ∈ l ∧ Node.id n = k ∧ v = f n.
Proof.
  revert m0. induction l as [|a l IH]; intros m0 Hk; simpl in Hk; [by left|].
  apply IH in Hk as [Hk|(n & Hn & Hid & ->)].
  - destruct (decide (Node.id a = k)) as [<-|Hne].
    + rewrite lookup_insert_eq in Hk. injection Hk as <-. right. exists a.
      split; [apply elem_of_cons; by left|done].
    + rewrite lookup_insert_ne in Hk by done. by left.
  - right. exists n. split; [apply elem_of_cons; by right|done].
Qed.

Lemma foldl_insert_dom {A} (f : Node.t → A) (l : list Node.t) (m0 : gmap string A) :
  dom (foldl (fun m n => <[Node.id n := f n]> m) m0 l)
  = dom m0 ∪ list_to_set (Node.id <$> l).
Proof.
  revert m0. induction l as [|a l IH]; intros m0; simpl.
  - by rewrite union_empty_r_L.
  - rewrite IH, dom_insert_L. set_solver.
Qed.

Lemma prev_init_dom g : dom (prev_init g) = node_ids g.
Proof.
  unfold prev_init, node_ids.
  rewrite (foldl_insert_dom (fun _ => None)), dom_empty_L. set_solver.
Qed.

Lemma prev_init_lookup g k v : prev_init g !! k = Some v → v = None.
Proof.
  intros Hk. apply (foldl_insert_lookup (fun _ => None)) in Hk as [Hk|(n & _ & _ & ->)];
    [by rewrite lookup_empty in Hk|done].
Qed.

Lemma prev_init_parent g k : parent_of (prev_init g) k = None.
Proof.
  unfold parent_of. destruct (prev_init g !! k) as [[p|]|] eqn:Hk; try done.
  by apply prev_init_lookup in Hk.
Qed.

Lemma ranked_prev_init g V : ranked (prev_init g) V.
Proof. apply ranked_no_parent. intros n p Hn. by apply prev_init_lookup in Hn. Qed.

Lemma adj_push_dom {A} k (v : A) adj : dom (adj_push k v adj) = dom adj.
Proof.
  unfold adj_push. destruct (adj !! k) eqn:Hk; [|done].
  rewrite dom_insert_L. apply elem_of_dom_2 in Hk. set_solver.
Qed.

Lemma adj_init_dom {A} g : dom (adj_init (A := A) g) = node_ids g.
Proof.
  unfold adj_init, node_ids.
  rewrite (foldl_insert_dom (fun _ => [])), dom_empty_L. set_solver.
Qed.

Lemma adjacency_dom g : dom (adjacency g) = node_ids g.
Proof.
  unfold adjacency. rewrite <- (adj_init_dom (A := string) g).
  generalize (adj_init (A := string) g).
  induction (Graph.edges g) as [|e l IH]; intros m; simpl; [done|].
  by rewrite IH, !adj_push_dom.
Qed.

Lemma weighted_adjacency_dom g : dom (weighted_adjacency g) = node_ids g.
Proof.
  unfold weighted_adjacency. rewrite <- (adj_init_dom (A := string * Q) g).
  generalize (adj_init (A := string * Q) g).
  induction (Graph.edges g) as [|e l IH]; intros m; simpl; [done|].
  by rewrite IH, !adj_push_dom.
Qed.

Lemma walk_back_prev_init fuel g s q :
  walk_back (S fuel) (prev_init g) s q [] = Some [q].
Proof.
  rewrite walk_back_S, prev_init_parent. by destruct (str_eq q s).
Qed.

(** On the initial parent map the path to a node is the node alone when it
    is the start, and empty otherwise. *)
Lemma reconstructPath_prev_init g s q :
  reconstructPath (prev_init g) s q = Some (if str_eq q s then [q] else []).
Proof.
  unfold reconstructPath, reconstructPath_fuel.
  rewrite walk_back_prev_init. simpl. done.
Qed.

(** ** Breadth-first search: the run *)

Lemma BFS_init_inv cfg : BFS_inv [] (BFS.init_vars cfg).
Proof.
  split; simpl.
  - apply ranked_prev_init.
  - apply trace_inv_nil.
  - apply NoDup_singleton.
  - intros x ->%list_elem_of_singleton. set_solver.
Qed.

Lemma BFS_bfs_spec cfg :
  ∃ r, BFS.bfs cfg = Some r ∧
       trace_inv (AlgorithmResult.steps r) (AlgorithmResult.visitedNodes r).
Proof.
  unfold BFS.bfs.
  destruct (BFS_loop_total cfg (adjacency (graph cfg))
              (S (S (adj_total (adjacency (graph cfg))))) [] (BFS.init_vars cfg))
    as (steps & v & -> & Hinv).
  { apply BFS_init_inv. }
  { simpl. rewrite pending_empty. lia. }
  simpl.
  destruct (ranked_snapshot _ _ (startNode cfg) (endNode cfg) (bi_ranked _ _ Hinv))
    as [p ->].
  simpl. eexists. split; [done|]. simpl. apply Hinv.
Qed.

(** ** Depth-first search: invariant and totality *)

Record DFS_inv (steps : list PathStep.t) (v : DFS.vars) : Prop := {
  di_ranked : ranked (DFS.previousNodes v) (DFS.visitedNodes v);
  di_trace : trace_inv steps (DFS.visitedNodes v)
}.

Lemma DFS_relax_fold cur nb v :
  cur ∈ DFS.visitedNodes v →
  ranked (DFS.previousNodes v) (DFS.visitedNodes v) →
  let v' := foldl (DFS.relax cur) v nb in
  ranked (DFS.previousNodes v') (DFS.visitedNodes v') ∧
  DFS.visitedNodes v' = DFS.visitedNodes v ∧
  (length (DFS.stack v') ≤ length (DFS.stack v) + length nb)%nat.
Proof.
  revert v. induction nb as [|n nb IH]; intros v Hcur Hr; simpl.
  { split; [done|]. split; [done|]. lia. }
  assert (ranked (DFS.previousNodes (DFS.relax cur v n))
                 (DFS.visitedNodes (DFS.relax cur v n)) ∧
          DFS.visitedNodes (DFS.relax cur v n) = DFS.visitedNodes v ∧
          (length (DFS.stack (DFS.relax cur v n)) ≤ S (length (DFS.stack v)))%nat)
    as (Hr1 & HV1 & Hlen1).
  { unfold DFS.relax. destruct (decide _); [repeat split; [done|lia]|].
    destruct (_ !! n); [repeat split; [done|lia]|].
    simpl. split; [by apply ranked_set_parent|]. split; [done|lia]. }
  destruct (IH (DFS.relax cur v n)) as (Hr' & HV' & Hlen'); [by rewrite HV1|done|].
  split; [done|]. split; [congruence|lia].
Qed.

Lemma DFS_loop_total cfg adj fuel steps v :
  DFS_inv steps v →
  (length (DFS.stack v) + pending adj (DFS.visitedNodes v) < fuel)%nat →
  ∃ steps' v', DFS.loop fuel cfg adj steps v = Some (steps', v') ∧ DFS_inv steps' v'.
Proof.
  revert steps v. induction fuel as [|fuel IH]; intros steps v Hinv Hfuel; [lia|].
  simpl. destruct (DFS.stack v) as [|cur rest] eqn:Hstk; [by eauto|].
  destruct Hinv as [Hr Ht]. simpl in Hfuel.
  destruct (decide (cur ∈ DFS.visitedNodes v)) as [Hcur|Hcur].
  { apply IH; [by split|]. simpl. lia. }
  pose proof (ranked_visit _ _ cur Hr) as Hr1.
  destruct (ranked_snapshot _ _ (startNode cfg) cur Hr1) as [p Hp].
  unfold DFS.snapshot. simpl. rewrite Hp. simpl.
  set (s := {| PathStep.currentNode := cur |}).
  set (v1 := DFS.visit v cur rest).
  assert (trace_inv (steps ++ [s]) (DFS.visitedNodes v1)) as Ht1.
  { apply trace_inv_snoc; [|done|simpl; set_solver|].
    - eapply trace_inv_grow; [done|]. simpl. set_solver.
    - intros Hin. by apply (ti_current _ _ Ht) in Hin. }
  destruct (str_eq cur (endNode cfg)); [by eauto using Build_DFS_inv|].
  destruct (DFS_relax_fold cur (rev (default [] (adj !! cur))) v1)
    as (Hr' & HV' & Hlen'); [simpl; set_solver|done|].
  apply IH.
  - split; [done|]. by rewrite HV'.
  - rewrite HV'. simpl. simpl in Hlen'. rewrite length_rev in Hlen'.
    pose proof (pending_visit adj (DFS.visitedNodes v) cur Hcur). lia.
Qed.

Lemma DFS_dfs_spec cfg :
  ∃ r, DFS.dfs cfg = Some r ∧
       trace_inv (AlgorithmResult.steps r) (AlgorithmResult.visitedNodes r).
Proof.
  unfold DFS.dfs.
  destruct (DFS_loop_total cfg (adjacency (graph cfg))
              (S (S (adj_total (adjacency (graph cfg))))) [] (DFS.init_vars cfg))
    as (steps & v & -> & Hinv).
  { split; [apply ranked_prev_init|apply trace_inv_nil]. }
  { simpl. rewrite pending_empty. lia. }
  simpl.
  destruct (ranked_snapshot _ _ (startNode cfg) (endNode cfg) (di_ranked _ _ Hinv))
    as [p ->].
  simpl. eexists. split; [done|]. simpl. apply Hinv.
Qed.

(** ** The chain returned for a ranked parent map *)

Lemma linked_parents_in prev (V : gset string) chain :
  (∀ n p, prev !! n = Some (Some p) → p ∈ V) →
  linked prev chain → ∀ x, x ∈ removelast chain → x ∈ V.
Proof.
  intros HV. induction chain as [|a [|b l] IH]; intros Hl x Hx.
  - by apply elem_of_nil in Hx.
  - by apply elem_of_nil in Hx.
  - destruct Hl as [Hab Hl]. change (x ∈ a :: removelast (b :: l)) in Hx.
    apply elem_of_cons in Hx as [->|Hx]; [by eapply HV|by apply IH].
Qed.

Lemma removelast_last_elem (l : list string) x y :
  x ∈ l → last l = Some y → x ∈ removelast l ∨ x = y.
Proof.
  destruct l as [|a l _] using rev_ind; [by intros []%elem_of_nil|].
  rewrite last_snoc, removelast_last.
  intros [?|Hx%list_elem_of_singleton]%elem_of_app [= <-]; auto.
Qed.

(** The elements of a reconstructed path are visited nodes, except perhaps
    the node asked for. *)
Lemma reconstructPath_in_visited prev V s q p :
  ranked prev V → reconstructPath prev s q = Some p →
  ∀ x, x ∈ p → x ∈ V ∨ x = q.
Proof.
  intros (rank & N & Hlink & _) Hp x Hx.
  unfold reconstructPath, reconstructPath_fuel in Hp.
  destruct (walk_back _ prev s q []) as [chain|] eqn:Hw; [|done].
  injection Hp as <-. rewrite check_start_head in Hx.
  case_bool_decide; [|by apply elem_of_nil in Hx].
  apply walk_back_chain in Hw as (chain' & -> & Hlast & Hl & _).
  rewrite app_nil_r in Hx.
  destruct (removelast_last_elem _ _ _ Hx Hlast) as [Hx'|?]; [|by right].
  left. eapply linked_parents_in; [|done..]. intros n p' Hn. by apply Hlink in Hn as [? _].
Qed.

(** A non-empty reconstructed path starts at the start node and ends at the
    node asked for; with more than one element, that node has a parent. *)
Lemma reconstructPath_ends prev s q p :
  reconstructPath prev s q = Some p → p ≠ [] →
  head p = Some s ∧ last p = Some q ∧ (q = s ∨ is_Some (parent_of prev q)).
Proof.
  unfold reconstructPath. generalize (S (S (size prev))). intros fuel.
  unfold reconstructPath_fuel. destruct fuel as [|fuel]; [done|].
  rewrite walk_back_S. destruct (str_eq q s) eqn:Hqs.
  { apply str_eq_true in Hqs as ->. simpl. rewrite str_eq_refl. intros [= <-] _. auto. }
  destruct (parent_of prev q) as [p'|] eqn:Hp'.
  - destruct (walk_back fuel prev s p' [q]) as [chain|] eqn:Hw; [|done].
    simpl. intros [= <-]. rewrite check_start_head. case_bool_decide as Hhd; [|done].
    intros _. split; [done|]. split; [|eauto].
    apply walk_back_chain in Hw as (chain' & -> & _). by rewrite last_snoc.
  - simpl. rewrite Hqs. by intros [= <-].
Qed.

(** ** Dijkstra and A*: facts on the heap *)

Section heap_facts.
Context {H : MinHeap}.

Lemma heap_pop_length (h h' : heap) e :
  heap_pop h = Some (e, h') → length (heap_elems h) = S (length (heap_elems h')).
Proof. intros [Hp _]%heap_pop_some. by rewrite Hp. Qed.

Lemma heap_pop_elem (h h' : heap) e : heap_pop h = Some (e, h') → e ∈ heap_elems h.
Proof. intros [Hp _]%heap_pop_some. rewrite Hp. apply elem_of_cons. by left. Qed.

Lemma heap_pop_rest (h h' : heap) e e' :
  heap_pop h = Some (e, h') → e' ∈ heap_elems h' → e' ∈ heap_elems h.
Proof. intros [Hp _]%heap_pop_some He'. rewrite Hp. apply elem_of_cons. by right. Qed.

Lemma heap_push_length (h : heap) p d :
  length (heap_elems (heap_push p d h)) = S (length (heap_elems h)).
Proof. by rewrite heap_push_elems. Qed.

Lemma heap_push_elem (h : heap) p d e :
  e ∈ heap_elems (heap_push p d h) ↔ e = (p, d) ∨ e ∈ heap_elems h.
Proof. rewrite heap_push_elems. apply elem_of_cons. Qed.

Lemma heap_singleton_pop (p : number) (d : string) :
  ∃ h', heap_pop (heap_push p d heap_new) = Some ((p, d), h') ∧ heap_elems h' = [].
Proof.
  destruct (heap_pop (heap_push p d heap_new)) as [[e h']|] eqn:Hpop.
  - destruct (heap_pop_some _ _ _ Hpop) as [Hp _].
    rewrite heap_push_elems, heap_new_elems in Hp.
    apply Permutation_singleton_l in Hp. injection Hp as <- Hh'. by exists h'.
  - apply heap_pop_none in Hpop. pose proof (heap_push_length heap_new p d) as Hlen.
    by rewrite Hpop in Hlen.
Qed.

Lemma heap_singleton_not_empty (p : number) (d : string) :
  heap_isEmpty (heap_push p d heap_new) = false.
Proof.
  apply not_true_iff_false. intros Hemp%heap_isEmpty_elems.
  pose proof (heap_push_length heap_new p d) as Hlen. by rewrite Hemp in Hlen.
Qed.

Lemma heap_elems_nil_isEmpty (h : heap) : heap_elems h = [] → heap_isEmpty h = true.
Proof. apply heap_isEmpty_elems. Qed.

End heap_facts.

Lemma num_lt_get (m : gmap string number) a k :
  num_lt a (num_get m k) = true → k ∈ dom m.
Proof.
  unfold num_get. destruct (m !! k) eqn:Hk; [intros _; by eapply elem_of_dom_2|].
  simpl. by destruct a.
Qed.

Lemma dom_insert_in {A} (m : gmap string A) k v : k ∈ dom m → dom (<[k := v]> m) = dom m.
Proof. intros. rewrite dom_insert_L. set_solver. Qed.

(** The ids a run can meet: the nodes of the graph and the start id. *)
Definition universe (cfg : AlgorithmConfig) : gset string :=
  node_ids (graph cfg) ∪ {[startNode cfg]}.

(** ** Dijkstra: invariant and totality *)

Section dijkstra_inv.
Context {H : MinHeap}.

Record Dijkstra_core (cfg : AlgorithmConfig) (v : Dijkstra.vars) : Prop := {
  dc_ranked : ranked (Dijkstra.previousNodes v) (Dijkstra.visitedNodes v);
  dc_dist : dom (Dijkstra.distances v) = node_ids (graph cfg);
  dc_prev : dom (Dijkstra.previousNodes v) = node_ids (graph cfg);
  dc_heap : ∀ e, e ∈ heap_elems (Dijkstra.pq v) → snd e ∈ universe cfg;
  dc_visited : Dijkstra.visitedNodes v ⊆ universe cfg
}.

Record Dijkstra_inv (cfg : AlgorithmConfig) (steps : list PathStep.t)
    (v : Dijkstra.vars) : Prop := {
  dv_core : Dijkstra_core cfg v;
  dv_trace : trace_inv steps (Dijkstra.visitedNodes v);
  dv_paths : ∀ s x, s ∈ steps → x ∈ PathStep.path s → x ∈ PathStep.visitedNodes s
}.

Lemma Dijkstra_relax_core cfg cur v nb :
  cur ∈ Dijkstra.visitedNodes v → Dijkstra_core cfg v →
  Dijkstra_core cfg (Dijkstra.relax cur v nb) ∧
  Dijkstra.visitedNodes (Dijkstra.relax cur v nb) = Dijkstra.visitedNodes v ∧
  (length (heap_elems (Dijkstra.pq (Dijkstra.relax cur v nb)))
   ≤ S (length (heap_elems (Dijkstra.pq v))))%nat.
Proof.
  intros Hcur Hc. destruct nb as [n w]. unfold Dijkstra.relax.
  destruct (decide _) as [|Hn]; [split; [done|split; [done|lia]]|].
  destruct (num_lt _ _) eqn:Hlt; [|split; [done|split; [done|lia]]].
  apply num_lt_get in Hlt. destruct Hc as [Hr Hd Hp Hh Hv]. simpl.
  split; [|split; [done|by rewrite heap_push_length]].
  split; simpl.
  - by apply ranked_set_parent.
  - by rewrite dom_insert_in.
  - rewrite dom_insert_in; [done|]. by rewrite Hp, <- Hd.
  - intros e [->|He]%heap_push_elem; [|by apply Hh]. simpl.
    rewrite Hd in Hlt. unfold universe. set_solver.
  - done.
Qed.

Lemma Dijkstra_relax_fold cfg cur nbs v :
  cur ∈ Dijkstra.visitedNodes v → Dijkstra_core cfg v →
  let v' := foldl (Dijkstra.relax cur) v nbs in
  Dijkstra_core cfg v' ∧
  Dijkstra.visitedNodes v' = Dijkstra.visitedNodes v ∧
  (length (heap_elems (Dijkstra.pq v'))
   ≤ length (heap_elems (Dijkstra.pq v)) + length nbs)%nat.
Proof.
  revert v. induction nbs as [|nb nbs IH]; intros v Hcur Hc; simpl.
  { split; [done|]. split; [done|lia]. }
  destruct (Dijkstra_relax_core cfg cur v nb Hcur Hc) as (Hc1 & HV1 & Hlen1).
  destruct (IH (Dijkstra.relax cur v nb)) as (Hc' & HV' & Hlen'); [by rewrite HV1|done|].
  split; [done|]. split; [congruence|lia].
Qed.

Lemma Dijkstra_loop_total cfg adj fuel steps v :
  Dijkstra_inv cfg steps v →
  (length (heap_elems (Dijkstra.pq v)) + pending adj (Dijkstra.visitedNodes v) < fuel)%nat →
  ∃ steps' v', Dijkstra.loop fuel cfg adj steps v = Some (steps', v') ∧
               Dijkstra_inv cfg steps' v'.
Proof.
  revert steps v. induction fuel as [|fuel IH]; intros steps v Hinv Hfuel; [lia|].
  simpl. destruct (heap_isEmpty _); [by eauto|].
  destruct (heap_pop _) as [[[d cur] q]|] eqn:Hpop; [|by eauto].
  pose proof (heap_pop_length _ _ _ Hpop) as Hlen.
  destruct Hinv as [[Hr Hd Hp Hh Hv] Ht Hps].
  assert (cur ∈ universe cfg) as Hcu by (apply (Hh (d, cur)); by eapply heap_pop_elem).
  assert (∀ e, e ∈ heap_elems q → snd e ∈ universe cfg) as Hh'
    by (intros e He; eapply Hh, heap_pop_rest; done).
  simpl. destruct (decide (cur ∈ Dijkstra.visitedNodes v)) as [Hcur|Hcur].
  { apply IH; [done|]. simpl. lia. }
  pose proof (ranked_visit _ _ cur Hr) as Hr1.
  destruct (ranked_snapshot _ _ (startNode cfg) cur Hr1) as [p Hpath].
  unfold Dijkstra.snapshot. simpl. rewrite Hpath. simpl.
  set (s := {| PathStep.currentNode := cur |}).
  set (v1 := Dijkstra.visit (Dijkstra.with_pq v q) cur).
  assert (Dijkstra_core cfg v1) as Hc1.
  { split; simpl; try done. set_solver. }
  assert (Dijkstra_inv cfg (steps ++ [s]) v1) as Hinv1.
  { split; [done| |].
    - apply trace_inv_snoc; [|done|simpl; set_solver|].
      + eapply trace_inv_grow; [done|]. simpl. set_solver.
      + intros Hin. by apply (ti_current _ _ Ht) in Hin.
    - intros s' x [Hs'| ->%list_elem_of_singleton]%elem_of_app Hx; [by eapply Hps|].
      simpl in *. destruct (reconstructPath_in_visited _ _ _ _ _ Hr1 Hpath x Hx);
        set_solver. }
  destruct (str_eq cur (endNode cfg)); [by eauto|].
  assert (length (heap_elems q) + pending adj (Dijkstra.visitedNodes v1)
          + length (default [] (adj !! cur)) < fuel)%nat as Hfuel1.
  { simpl. pose proof (pending_visit adj (Dijkstra.visitedNodes v) cur Hcur). lia. }
  destruct (num_gt _ _).
  { apply IH; [done|]. simpl in *. lia. }
  destruct (Dijkstra_relax_fold cfg cur (default [] (adj !! cur)) v1)
    as (Hc' & HV' & Hlen'); [simpl; set_solver|done|].
  apply IH.
  - destruct Hinv1 as [_ Ht1 Hps1]. split; [done| |done]. by rewrite HV'.
  - rewrite HV'. simpl in *. lia.
Qed.

Lemma Dijkstra_init_inv cfg : Dijkstra_inv cfg [] (Dijkstra.init_vars cfg).
Proof.
  split; [split; simpl| |].
  - apply ranked_prev_init.
  - unfold Dijkstra.dist_init, node_ids.
    rewrite (foldl_insert_dom
               (fun n => if str_eq (Node.id n) (startNode cfg) then Fin 0 else Infinity)).
    rewrite dom_empty_L. set_solver.
  - apply prev_init_dom.
  - intros e [->|He]%heap_push_elem; [unfold universe; simpl; set_solver|].
    rewrite heap_new_elems in He. by apply elem_of_nil in He.
  - set_solver.
  - apply trace_inv_nil.
  - intros s x Hs. by apply elem_of_nil in Hs.
Qed.

(** What a run of [dijkstra] returns. *)
Record Search_post (cfg : AlgorithmConfig) (r : AlgorithmResult.t) : Prop := {
  dp_trace : trace_inv (AlgorithmResult.steps r) (AlgorithmResult.visitedNodes r);
  dp_visited : AlgorithmResult.visitedNodes r ⊆ universe cfg;
  dp_paths : ∀ s x, s ∈ AlgorithmResult.steps r → x ∈ PathStep.path s →
                    x ∈ PathStep.visitedNodes s;
  dp_final : ∀ x, x ∈ AlgorithmResult.path r → x ∈ universe cfg
}.

Lemma final_path_in_universe cfg prev V p :
  ranked prev V → V ⊆ universe cfg → dom prev = node_ids (graph cfg) →
  reconstructPath prev (startNode cfg) (endNode cfg) = Some p →
  ∀ x, x ∈ p → x ∈ universe cfg.
Proof.
  intros Hr HV Hdom Hp x Hx.
  destruct (reconstructPath_in_visited _ _ _ _ _ Hr Hp x Hx) as [?| ->]; [set_solver|].
  destruct (reconstructPath_ends _ _ _ _ Hp) as (_ & _ & [->|[p' Hp']]).
  - intros ->. by apply elem_of_nil in Hx.
  - unfold universe. set_solver.
  - apply parent_of_Some in Hp' as [Hp' _]. apply elem_of_dom_2 in Hp'.
    rewrite Hdom in Hp'. unfold universe. set_solver.
Qed.

Lemma Dijkstra_dijkstra_spec cfg :
  ∃ r, Dijkstra.dijkstra cfg = Some r ∧ Search_post cfg r.
Proof.
  unfold Dijkstra.dijkstra.
  destruct (Dijkstra_loop_total cfg (weighted_adjacency (graph cfg))
              (S (S (adj_total (weighted_adjacency (graph cfg))))) []
              (Dijkstra.init_vars cfg))
    as (steps & v & -> & [[Hr Hd Hpv Hh Hv] Ht Hps]).
  { apply Dijkstra_init_inv. }
  { simpl. rewrite heap_push_length, heap_new_elems, pending_empty. simpl. lia. }
  simpl.
  destruct (ranked_snapshot _ _ (startNode cfg) (endNode cfg) Hr) as [p Hp].
  rewrite Hp. simpl. eexists. split; [done|]. split; simpl; try done.
  by eapply final_path_in_universe.
Qed.

End dijkstra_inv.

(** ** A*: invariant and totality *)

Section astar_inv.
Context {H : MinHeap}.
Variable h : string → number.

Record AStar_core (cfg : AlgorithmConfig) (v : AStar.vars) : Prop := {
  ac_ranked : ranked (AStar.previousNodes v) (AStar.visitedNodes v);
  ac_g : dom (AStar.gScore v) = node_ids (graph cfg);
  ac_prev : dom (AStar.previousNodes v) = node_ids (graph cfg);
  ac_heap : ∀ e, e ∈ heap_elems (AStar.openSet v) → snd e ∈ universe cfg;
  ac_visited : AStar.visitedNodes v ⊆ universe cfg
}.

Record AStar_inv (cfg : AlgorithmConfig) (steps : list PathStep.t)
    (v : AStar.vars) : Prop := {
  av_core : AStar_core cfg v;
  av_trace : trace_inv steps (AStar.visitedNodes v);
  av_paths : ∀ s x, s ∈ steps → x ∈ PathStep.path s → x ∈ PathStep.visitedNodes s
}.

Lemma AStar_relax_core cfg cur v nb :
  cur ∈ AStar.visitedNodes v → AStar_core cfg v →
  AStar_core cfg (AStar.relax h cur v nb) ∧
  AStar.visitedNodes (AStar.relax h cur v nb) = AStar.visitedNodes v ∧
  (length (heap_elems (AStar.openSet (AStar.relax h cur v nb)))
   ≤ S (length (heap_elems (AStar.openSet v))))%nat.
Proof.
  intros Hcur Hc. destruct nb as [n w]. unfold AStar.relax.
  destruct (decide _) as [|Hn]; [split; [done|split; [done|lia]]|].
  destruct (num_lt _ _) eqn:Hlt; [|split; [done|split; [done|lia]]].
  apply num_lt_get in Hlt. destruct Hc as [Hr Hd Hp Hh Hv]. simpl.
  split; [|split; [done|by rewrite heap_push_length]].
  split; simpl.
  - by apply ranked_set_parent.
  - by rewrite dom_insert_in.
  - rewrite dom_insert_in; [done|]. by rewrite Hp, <- Hd.
  - intros e [->|He]%heap_push_elem; [|by apply Hh]. simpl.
    rewrite Hd in Hlt. unfold universe. set_solver.
  - done.
Qed.

Lemma AStar_relax_fold cfg cur nbs v :
  cur ∈ AStar.visitedNodes v → AStar_core cfg v →
  let v' := foldl (AStar.relax h cur) v nbs in
  AStar_core cfg v' ∧
  AStar.visitedNodes v' = AStar.visitedNodes v ∧
  (length (heap_elems (AStar.openSet v'))
   ≤ length (heap_elems (AStar.openSet v)) + length nbs)%nat.
Proof.
  revert v. induction nbs as [|nb nbs IH]; intros v Hcur Hc; simpl.
  { split; [done|]. split; [done|lia]. }
  destruct (AStar_relax_core cfg cur v nb Hcur Hc) as (Hc1 & HV1 & Hlen1).
  destruct (IH (AStar.relax h cur v nb)) as (Hc' & HV' & Hlen'); [by rewrite HV1|done|].
  split; [done|]. split; [congruence|lia].
Qed.

Lemma AStar_loop_total cfg adj fuel steps v :
  AStar_inv cfg steps v →
  (length (heap_elems (AStar.openSet v)) + pending adj (AStar.visitedNodes v) < fuel)%nat →
  ∃ steps' v', AStar.loop h fuel cfg adj steps v = Some (steps', v') ∧
               AStar_inv cfg steps' v'.
Proof.
  revert steps v. induction fuel as [|fuel IH]; intros steps v Hinv Hfuel; [lia|].
  simpl. destruct (heap_isEmpty _); [by eauto|].
  destruct (heap_pop _) as [[[d cur] q]|] eqn:Hpop; [|by eauto].
  pose proof (heap_pop_length _ _ _ Hpop) as Hlen.
  destruct Hinv as [[Hr Hd Hp Hh Hv] Ht Hps].
  assert (cur ∈ universe cfg) as Hcu by (apply (Hh (d, cur)); by eapply heap_pop_elem).
  assert (∀ e, e ∈ heap_elems q → snd e ∈ universe cfg) as Hh'
    by (intros e He; eapply Hh, heap_pop_rest; done).
  simpl. destruct (decide (cur ∈ AStar.visitedNodes v)) as [Hcur|Hcur].
  { apply IH; [done|]. simpl. lia. }
  pose proof (ranked_visit _ _ cur Hr) as Hr1.
  destruct (ranked_snapshot _ _ (startNode cfg) cur Hr1) as [p Hpath].
  unfold AStar.snapshot. simpl. rewrite Hpath. simpl.
  set (s := {| PathStep.currentNode := cur |}).
  set (v1 := AStar.visit (AStar.with_openSet v q) cur).
  assert (AStar_core cfg v1) as Hc1.
  { split; simpl; try done. set_solver. }
  assert (AStar_inv cfg (steps ++ [s]) v1) as Hinv1.
  { split; [done| |].
    - apply trace_inv_snoc; [|done|simpl; set_solver|].
      + eapply trace_inv_grow; [done|]. simpl. set_solver.
      + intros Hin. by apply (ti_current _ _ Ht) in Hin.
    - intros s' x [Hs'| ->%list_elem_of_singleton]%elem_of_app Hx; [by eapply Hps|].
      simpl in *. destruct (reconstructPath_in_visited _ _ _ _ _ Hr1 Hpath x Hx);
        set_solver. }
  destruct (str_eq cur (endNode cfg)); [by eauto|].
  assert (length (heap_elems q) + pending adj (AStar.visitedNodes v1)
          + length (default [] (adj !! cur)) < fuel)%nat as Hfuel1.
  { simpl. pose proof (pending_visit adj (AStar.visitedNodes v) cur Hcur). lia. }
  destruct (num_gt _ _).
  { apply IH; [done|]. simpl in *. lia. }
  destruct (AStar_relax_fold cfg cur (default [] (adj !! cur)) v1)
    as (Hc' & HV' & Hlen'); [simpl; set_solver|done|].
  apply IH.
  - destruct Hinv1 as [_ Ht1 Hps1]. split; [done| |done]. by rewrite HV'.
  - rewrite HV'. simpl in *. lia.
Qed.

Lemma AStar_init_inv cfg : AStar_inv cfg [] (AStar.init_vars h cfg).
Proof.
  split; [split; simpl| |].
  - apply ranked_prev_init.
  - unfold AStar.gScore_init, node_ids.
    rewrite (foldl_insert_dom
               (fun n => if str_eq (Node.id n) (startNode cfg) then Fin 0 else Infinity)).
    rewrite dom_empty_L. set_solver.
  - apply prev_init_dom.
  - intros e [->|He]%heap_push_elem; [unfold universe; simpl; set_solver|].
    rewrite heap_new_elems in He. by apply elem_of_nil in He.
  - set_solver.
  - apply trace_inv_nil.
  - intros s x Hs. by apply elem_of_nil in Hs.
Qed.

Lemma AStar_astar_with_spec cfg :
  ∃ r, AStar.astar_with h cfg = Some r ∧ Search_post cfg r.
Proof.
  unfold AStar.astar_with.
  destruct (AStar_loop_total cfg (weighted_adjacency (graph cfg))
              (S (S (adj_total (weighted_adjacency (graph cfg))))) []
              (AStar.init_vars h cfg))
    as (steps & v & -> & [[Hr Hd Hpv Hh Hv] Ht Hps]).
  { apply AStar_init_inv. }
  { simpl. rewrite heap_push_length, heap_new_elems, pending_empty. simpl. lia. }
  simpl.
  destruct (ranked_snapshot _ _ (startNode cfg) (endNode cfg) Hr) as [p Hp].
  rewrite Hp. simpl. eexists. split; [done|]. split; simpl; try done.
  by eapply final_path_in_universe.
Qed.

End astar_inv.

(** ** The four searches together *)

Section batch.
Context {H : MinHeap}.
Variable sqrt : Q → Q.

(** C8: the visited set of each step contains the one of the step before,
    and no node is the current node of two steps, for the four searches on
    every input. *)
Theorem steps_monotone_unique (a : AlgorithmType) (cfg : AlgorithmConfig) :
  ∃ r, algorithmMap sqrt a cfg = Some r ∧
       trace_monotone (AlgorithmResult.steps r) ∧
       trace_unique (AlgorithmResult.steps r).
Proof.
  destruct a; simpl.
  - destruct (Dijkstra_dijkstra_spec cfg) as (r & Hr & [Ht _ _ _]).
    exists r. split; [done|]. split; apply Ht.
  - destruct (AStar_astar_with_spec (AStar.h_of sqrt cfg) cfg) as (r & Hr & [Ht _ _ _]).
    exists r. split; [done|]. split; apply Ht.
  - destruct (BFS_bfs_spec cfg) as (r & Hr & Ht).
    exists r. split; [done|]. split; apply Ht.
  - destruct (DFS_dfs_spec cfg) as (r & Hr & Ht).
    exists r. split; [done|]. split; apply Ht.
Qed.

(** Every step, the visited set and the final path stay within a set of
    ids. *)
Definition run_within (ids : gset string) (r : AlgorithmResult.t) : Prop :=
  (∀ s, s ∈ AlgorithmResult.steps r →
        PathStep.currentNode s ∈ ids ∧
        PathStep.visitedNodes s ⊆ ids ∧
        ∀ x, x ∈ PathStep.path s → x ∈ ids) ∧
  AlgorithmResult.visitedNodes r ⊆ ids ∧
  ∀ x, x ∈ AlgorithmResult.path r → x ∈ ids.

Lemma search_post_within cfg r :
  startNode cfg ∈ node_ids (graph cfg) → Search_post cfg r →
  run_within (node_ids (graph cfg)) r.
Proof.
  intros Hstart [Ht Hv Hps Hfin].
  assert (universe cfg = node_ids (graph cfg)) as Hu by (unfold universe; set_solver).
  rewrite Hu in *. split; [|done].
  intros s Hs. pose proof (ti_below _ _ Ht s Hs) as Hb.
  assert (PathStep.visitedNodes s ⊆ node_ids (graph cfg)) as Hsub by set_solver.
  split; [|split; [done|]].
  - apply Hv, (ti_current _ _ Ht). by apply list_elem_of_fmap_2.
  - intros x Hx. apply Hsub. by eapply Hps.
Qed.

(** C4 (amended): with edges that name missing nodes, the four searches
    still return; the keys of the adjacency index are exactly the node
    ids; and when the start id is a node of the graph, Dijkstra and A*
    never finalize, visit or report an id outside the node set. *)
Theorem dangling_edges_tolerated (a : AlgorithmType) (cfg : AlgorithmConfig) :
  dom (adjacency (graph cfg)) = node_ids (graph cfg) ∧
  dom (weighted_adjacency (graph cfg)) = node_ids (graph cfg) ∧
  ∃ r, algorithmMap sqrt a cfg = Some r ∧
       (a = dijkstraT ∨ a = astarT →
        startNode cfg ∈ node_ids (graph cfg) →
        run_within (node_ids (graph cfg)) r).
Proof.
  split; [apply adjacency_dom|]. split; [apply weighted_adjacency_dom|].
  destruct a; simpl.
  - destruct (Dijkstra_dijkstra_spec cfg) as (r & Hr & Hpost).
    exists r. split; [done|]. intros _ Hstart. by apply search_post_within.
  - destruct (AStar_astar_with_spec (AStar.h_of sqrt cfg) cfg) as (r & Hr & Hpost).
    exists r. split; [done|]. intros _ Hstart. by apply search_post_within.
  - destruct (BFS_bfs_spec cfg) as (r & Hr & _). exists r. split; [done|].
    by intros [|].
  - destruct (DFS_dfs_spec cfg) as (r & Hr & _). exists r. split; [done|].
    by intros [|].
Qed.

End batch.

(** A graph with one node and an edge to a node that does not exist. *)
Definition dangling_config : AlgorithmConfig :=
  mkConfig "a" "z" (Graph.mk [node "a"] [edge "a" "ghost" 1]).

(** C4, as stated, fails for breadth-first search: the missing endpoint stays
    in the neighbour list of the existing one, and the search finalizes it. *)
Lemma bfs_visits_dangling_endpoint :
  ("ghost" ∉ node_ids (graph dangling_config)) ∧
  ∃ r, algorithmMap int_sqrt bfsT dangling_config = Some r ∧
       currents (AlgorithmResult.steps r) = ["a"; "ghost"] ∧
       "ghost" ∈ AlgorithmResult.visitedNodes r.
Proof.
  split; [by vm_compute|].
  eexists. split; [vm_compute; reflexivity|]. split; [reflexivity|].
  by vm_compute.
Qed.

Lemma dangling_edges_tolerated_witness :
  dom (adjacency (graph dangling_config)) = node_ids (graph dangling_config) ∧
  dom (weighted_adjacency (graph dangling_config)) = node_ids (graph dangling_config) ∧
  ∃ r, algorithmMap int_sqrt dijkstraT dangling_config = Some r ∧
       (dijkstraT = dijkstraT ∨ dijkstraT = astarT →
        startNode dangling_config ∈ node_ids (graph dangling_config) →
        run_within (node_ids (graph dangling_config)) r).
Proof. apply (dangling_edges_tolerated int_sqrt dijkstraT dangling_config). Defined.

(** ** A start id that is not a node of the graph *)

(** What the four searches return in that case. *)
Definition only_start (cfg : AlgorithmConfig) (r : AlgorithmResult.t) : Prop :=
  ∃ s, AlgorithmResult.steps r = [s] ∧
       PathStep.currentNode s = startNode cfg ∧
       PathStep.visitedNodes s = {[startNode cfg]} ∧
       PathStep.path s = [startNode cfg] ∧
       PathStep.isComplete s = str_eq (startNode cfg) (endNode cfg) ∧
       AlgorithmResult.visitedNodes r = {[startNode cfg]} ∧
       AlgorithmResult.path r
       = if str_eq (endNode cfg) (startNode cfg) then [startNode cfg] else [].

Lemma lookup_not_in_dom {A} (m : gmap string A) k (ids : gset string) :
  dom m = ids → k ∉ ids → m !! k = None.
Proof. intros <- Hk. by apply not_elem_of_dom. Qed.

Lemma str_eq_sym (a b : string) : str_eq a b = str_eq b a.
Proof. unfold str_eq. apply bool_decide_ext. split; congruence. Qed.

Lemma final_path_prev_init (s e : string) :
  (if str_eq e s then [e] else []) = if str_eq e s then [s] else [].
Proof. destruct (str_eq e s) eqn:Hes; [apply str_eq_true in Hes as ->|]; done. Qed.

Ltac only_start_done :=
  eexists; split; [reflexivity|]; eexists; cbn;
  rewrite final_path_prev_init; repeat split; done.

Lemma BFS_missing_start cfg :
  startNode cfg ∉ node_ids (graph cfg) → ∃ r, BFS.bfs cfg = Some r ∧ only_start cfg r.
Proof.
  intros Hstart. unfold BFS.bfs.
  pose proof (lookup_not_in_dom _ _ _ (adjacency_dom (graph cfg)) Hstart) as Hadj.
  cbn [BFS.loop BFS.init_vars BFS.queue BFS.previousNodes BFS.visitedNodes].
  unfold BFS.snapshot. cbn [BFS.previousNodes BFS.visitedNodes].
  rewrite reconstructPath_prev_init, str_eq_refl. cbn [mbind option_bind].
  rewrite Hadj. cbn [default foldl BFS.queue].
  destruct (str_eq (startNode cfg) (endNode cfg)) eqn:Hse;
    cbn [mbind option_bind BFS.previousNodes BFS.visitedNodes];
    rewrite reconstructPath_prev_init; cbn [mbind option_bind];
    only_start_done.
Qed.

Lemma DFS_missing_start cfg :
  startNode cfg ∉ node_ids (graph cfg) → ∃ r, DFS.dfs cfg = Some r ∧ only_start cfg r.
Proof.
  intros Hstart. unfold DFS.dfs.
  pose proof (lookup_not_in_dom _ _ _ (adjacency_dom (graph cfg)) Hstart) as Hadj.
  cbn [DFS.loop DFS.init_vars DFS.stack DFS.previousNodes DFS.visitedNodes].
  rewrite decide_False by set_solver.
  unfold DFS.snapshot, DFS.visit, DFS.init_vars. cbn [DFS.previousNodes DFS.visitedNodes].
  rewrite reconstructPath_prev_init, str_eq_refl. cbn [mbind option_bind].
  rewrite Hadj. cbn [default foldl rev DFS.stack].
  rewrite union_empty_l_L.
  destruct (str_eq (startNode cfg) (endNode cfg)) eqn:Hse;
    cbn [mbind option_bind DFS.previousNodes DFS.visitedNodes];
    rewrite reconstructPath_prev_init; cbn [mbind option_bind];
    only_start_done.
Qed.

Section missing_start.
Context {H : MinHeap}.
Variable sqrt : Q → Q.

Lemma Dijkstra_missing_start cfg :
  startNode cfg ∉ node_ids (graph cfg) →
  ∃ r, Dijkstra.dijkstra cfg = Some r ∧ only_start cfg r.
Proof.
  intros Hstart. unfold Dijkstra.dijkstra.
  pose proof (lookup_not_in_dom _ _ _ (weighted_adjacency_dom (graph cfg)) Hstart) as Hadj.
  destruct (heap_singleton_pop (Fin 0) (startNode cfg)) as (h' & Hpop & Hh').
  cbn [Dijkstra.loop Dijkstra.init_vars Dijkstra.pq].
  rewrite heap_singleton_not_empty, Hpop.
  unfold Dijkstra.with_pq, Dijkstra.visit, Dijkstra.init_vars.
  cbn [Dijkstra.visitedNodes Dijkstra.pq Dijkstra.previousNodes Dijkstra.distances].
  rewrite decide_False by set_solver.
  unfold Dijkstra.snapshot. cbn [Dijkstra.previousNodes Dijkstra.visitedNodes].
  rewrite reconstructPath_prev_init, str_eq_refl. cbn [mbind option_bind].
  rewrite Hadj. cbn [default foldl Dijkstra.pq].
  rewrite (heap_elems_nil_isEmpty h' Hh'), union_empty_l_L.
  assert (num_gt (Fin 0) (num_get (Dijkstra.dist_init cfg) (startNode cfg)) = false) as ->.
  { unfold num_get. rewrite (lookup_not_in_dom _ _ (node_ids (graph cfg))); [done| |done].
    apply (dc_dist cfg _ (dv_core _ _ _ (Dijkstra_init_inv cfg))). }
  destruct (str_eq (startNode cfg) (endNode cfg)) eqn:Hse;
    cbn [mbind option_bind Dijkstra.previousNodes Dijkstra.visitedNodes];
    rewrite reconstructPath_prev_init; cbn [mbind option_bind];
    only_start_done.
Qed.

Lemma AStar_missing_start cfg :
  startNode cfg ∉ node_ids (graph cfg) →
  ∃ r, AStar.astar sqrt cfg = Some r ∧ only_start cfg r.
Proof.
  intros Hstart. unfold AStar.astar, AStar.astar_with.
  pose proof (lookup_not_in_dom _ _ _ (weighted_adjacency_dom (graph cfg)) Hstart) as Hadj.
  set (h := AStar.h_of sqrt cfg).
  destruct (heap_singleton_pop (num_get (AStar.fScore_init h cfg) (startNode cfg))
              (startNode cfg)) as (h' & Hpop & Hh').
  cbn [AStar.loop AStar.init_vars AStar.openSet].
  rewrite heap_singleton_not_empty, Hpop.
  unfold AStar.with_openSet, AStar.visit, AStar.init_vars.
  cbn [AStar.visitedNodes AStar.openSet AStar.previousNodes AStar.gScore AStar.fScore].
  rewrite decide_False by set_solver.
  unfold AStar.snapshot. cbn [AStar.previousNodes AStar.visitedNodes].
  rewrite reconstructPath_prev_init, str_eq_refl. cbn [mbind option_bind].
  rewrite Hadj. cbn [default foldl AStar.openSet].
  rewrite (heap_elems_nil_isEmpty h' Hh'), union_empty_l_L.
  assert (num_get (AStar.fScore_init h cfg) (startNode cfg) = NaN) as ->.
  { unfold num_get. rewrite (lookup_not_in_dom _ _ (node_ids (graph cfg))); [done| |done].
    unfold AStar.fScore_init, node_ids.
    rewrite (foldl_insert_dom
               (fun n => if str_eq (Node.id n) (startNode cfg)
                         then h (Node.id n) else Infinity)).
    rewrite dom_empty_L. set_solver. }
  cbn [num_gt num_lt].
  destruct (str_eq (startNode cfg) (endNode cfg)) eqn:Hse;
    cbn [mbind option_bind AStar.previousNodes AStar.visitedNodes];
    rewrite reconstructPath_prev_init; cbn [mbind option_bind];
    only_start_done.
Qed.

(** C5 (amended): when the start id is not a node of the graph, each of the
    four searches returns after finalizing the start id alone: one step,
    whose current node is the start id and whose path is the start id; the
    visited set is the start id; the final path is empty unless the end id
    is the start id. *)
Theorem missing_start_id (a : AlgorithmType) (cfg : AlgorithmConfig) :
  startNode cfg ∉ node_ids (graph cfg) →
  ∃ r, algorithmMap sqrt a cfg = Some r ∧ only_start cfg r.
Proof.
  intros Hstart. destruct a; simpl.
  - by apply Dijkstra_missing_start.
  - by apply AStar_missing_start.
  - by apply BFS_missing_start.
  - by apply DFS_missing_start.
Qed.

End missing_start.

(** A start id that is not in the graph. *)
Definition missing_start_config : AlgorithmConfig :=
  mkConfig "x" "b" pair_graph.

(** C5, as stated, fails: the run with a missing start id records one step
    and visits the start id. *)
Lemma missing_start_records_a_step :
  (startNode missing_start_config ∉ node_ids (graph missing_start_config)) ∧
  ∃ r, algorithmMap int_sqrt dijkstraT missing_start_config = Some r ∧
       AlgorithmResult.steps r ≠ [] ∧
       AlgorithmResult.visitedNodes r ≠ ∅.
Proof.
  split; [by vm_compute|].
  eexists. split; [vm_compute; reflexivity|]. split; [done|].
  intros Hempty. assert ("x" ∈ (∅ : gset string)) as Hx; [|set_solver].
  rewrite <- Hempty. by vm_compute.
Qed.

Lemma missing_start_id_witness :
  ∃ r, algorithmMap int_sqrt dijkstraT missing_start_config = Some r ∧
       only_start missing_start_config r.
Proof.
  apply (missing_start_id int_sqrt dijkstraT missing_start_config). by vm_compute.
Defined.

(** ** Batch run and step-by-step run of depth-first search *)

(** C1 fails on the graph of two joined nodes: [dfs] tests
    [!previousNodes.has(neighborId)], which is false for every node of the
    graph (all of them were given the parent [null]), so it never leaves the
    start node; [DFSStepByStep.step] tests
    [previousNodes.get(neighborId) === null] and reaches the target. *)
Theorem dfs_batch_differs_from_steps :
  ∃ r outs st,
    DFS.dfs pair_config = Some r ∧
    step_until_null DFS.step 10 (DFS.init pair_config) = Some (outs, st) ∧
    currents (AlgorithmResult.steps r) = ["a"] ∧
    AlgorithmResult.path r = [] ∧
    currents outs = ["a"; "b"] ∧
    reconstructPath (DFS.previousNodes (DFS.vars_of st)) "a" "b" = Some ["a"; "b"] ∧
    AlgorithmResult.steps r ≠ outs.
Proof.
  do 3 eexists. split; [vm_compute; reflexivity|].
  split; [vm_compute; reflexivity|].
  repeat split; try reflexivity.
  intros Heq. apply (f_equal length) in Heq. discriminate Heq.
Qed.

(** ** Weights of paths *)

(** The weight of the lightest edge between two nodes. *)
Definition edge_weight (g : Graph.t) (u v : string) : option Q :=
  foldl (fun acc e =>
           if joins e u v then
             Some (match acc with None => Edge.weight e | Some w => Qmin w (Edge.weight e) end)
           else acc)
        None (Graph.edges g).

(** The total edge weight of a path given by its nodes. *)
Fixpoint path_weight (g : Graph.t) (p : list string) : Q :=
  match p with
  | u :: (v :: _) as rest => default 0%Q (edge_weight g u v) + path_weight g rest
  | _ => 0
  end.

(** ** An id that is the empty string *)

(** A chain of three nodes whose middle node has the empty string as id. *)
Definition empty_id_config : AlgorithmConfig :=
  mkConfig "s" "t"
    (Graph.mk [node "s"; node ""; node "t"] [edge "s" "" 1; edge "" "t" 1]).

(** C2 fails on this graph: the target is reached (it is finalized, with
    the completion flag set), but [previousNodes.get(current) || null]
    takes its parent [""] for [null], and the final path is empty. *)
Theorem dijkstra_empty_id_loses_path :
  ∃ r last_step,
    Dijkstra.dijkstra empty_id_config = Some r ∧
    currents (AlgorithmResult.steps r) = ["s"; ""; "t"] ∧
    last (AlgorithmResult.steps r) = Some last_step ∧
    PathStep.isComplete last_step = true ∧
    PathStep.previousNodes last_step !! "t" = Some (Some "") ∧
    AlgorithmResult.path r = [].
Proof.
  do 2 eexists. split; [vm_compute; reflexivity|].
  repeat split; reflexivity.
Qed.

(** Scenario A: on the triangle, the path goes through [b]. *)
Example dijkstra_triangle :
  ∃ r, Dijkstra.dijkstra triangle_config = Some r ∧
       AlgorithmResult.path r = ["a"; "b"; "c"] ∧
       (path_weight triangle (AlgorithmResult.path r) == 2)%Q.
Proof. eexists. split; [vm_compute; reflexivity|]. split; reflexivity. Qed.

(** ** A heuristic that overestimates *)

(** The start and the target are at the same place and joined by an edge of
    weight 10; the node [a] is joined to both by edges of weight 1, but
    lies 1000 units away. *)
Definition far_detour_config : AlgorithmConfig :=
  mkConfig "s" "t"
    (Graph.mk [Node.mk "s" 0 0; Node.mk "a" 1000 0; Node.mk "t" 0 0]
              [edge "s" "t" 10; edge "s" "a" 1; edge "a" "t" 1]).


(** ** The adjacency index and the edges *)

Lemma adj_push_lookup {A} k (x : A) adj u :
  default [] (adj_push k x adj !! u)
  = if decide (u = k ∧ k ∈ dom adj) then default [] (adj !! u) ++ [x]
    else default [] (adj !! u).
Proof.
  unfold adj_push. destruct (adj !! k) as [l|] eqn:Hk.
  - destruct (decide (u = k)) as [->|Hne].
    + rewrite lookup_insert_eq, Hk. rewrite decide_True; [done|].
      split; [done|]. by eapply elem_of_dom_2.
    + rewrite lookup_insert_ne by done. rewrite decide_False; [done|]. by intros [? _].
  - rewrite decide_False; [done|]. intros [_ Hin]. apply not_elem_of_dom in Hk. done.
Qed.

Lemma joins_iff e u c :
  joins e u c = true ↔
  (Edge.from e = u ∧ Edge.to e = c) ∨ (Edge.to e = u ∧ Edge.from e = c).
Proof.
  unfold joins. rewrite orb_true_iff, !andb_true_iff, !str_eq_true. done.
Qed.

Lemma adj_push_elem {A} k (x x' : A) adj u :
  x' ∈ default [] (adj_push k x adj !! u)
  ↔ x' ∈ default [] (adj !! u) ∨ (u = k ∧ u ∈ dom adj ∧ x' = x).
Proof.
  rewrite adj_push_lookup. destruct (decide _) as [[-> Hin]|Hn].
  - rewrite elem_of_app, list_elem_of_singleton. naive_solver.
  - naive_solver.
Qed.

Lemma weighted_push_edge (e : Edge.t) (m : gmap string (list (string * Q))) u c w :
  (c, w) ∈ default []
    (adj_push (Edge.to e) (Edge.from e, Edge.weight e)
       (adj_push (Edge.from e) (Edge.to e, Edge.weight e) m) !! u)
  ↔ (c, w) ∈ default [] (m !! u) ∨
    (u ∈ dom m ∧ joins e u c = true ∧ Edge.weight e = w).
Proof.
  rewrite !adj_push_elem, adj_push_dom, joins_iff. naive_solver.
Qed.

Lemma weighted_adjacency_fold (l : list Edge.t) (m : gmap string (list (string * Q))) u c w :
  (c, w) ∈ default []
    (foldl (fun adj e =>
              adj_push (Edge.to e) (Edge.from e, Edge.weight e)
                (adj_push (Edge.from e) (Edge.to e, Edge.weight e) adj)) m l !! u)
  ↔ (c, w) ∈ default [] (m !! u) ∨
    (u ∈ dom m ∧ ∃ e, e ∈ l ∧ joins e u c = true ∧ Edge.weight e = w).
Proof.
  revert m. induction l as [|e l IH]; intros m; simpl.
  { split; [by left|]. intros [?|(_ & e & []%elem_of_nil & _)]. done. }
  rewrite IH, !adj_push_dom, weighted_push_edge. clear IH.
  setoid_rewrite elem_of_cons. naive_solver.
Qed.

Lemma adj_init_lookup {A} g u : default [] (adj_init (A := A) g !! u) = [].
Proof.
  destruct (adj_init g !! u) as [l|] eqn:Hu; [|done].
  apply (foldl_insert_lookup (fun _ => [])) in Hu as [Hu|(n & _ & _ & ->)];
    [by rewrite lookup_empty in Hu|done].
Qed.

(** The entries of the weighted adjacency index: the neighbours of a node of
    the graph along the edges, in either direction. *)
Lemma weighted_adjacency_spec g u c w :
  (c, w) ∈ default [] (weighted_adjacency g !! u)
  ↔ u ∈ node_ids g ∧ ∃ e, e ∈ Graph.edges g ∧ joins e u c = true ∧ Edge.weight e = w.
Proof.
  unfold weighted_adjacency. rewrite weighted_adjacency_fold, adj_init_lookup, adj_init_dom.
  rewrite elem_of_nil. naive_solver.
Qed.

(** ** Walks and their weights *)

(** [walk g s c p W]: [p] lists the nodes of a walk from [s] to [c] along
    edges of [g], all of them nodes of [g], and [W] is its total weight (up
    to equality of rationals). *)
Inductive walk (g : Graph.t) (s : string) : string → list string → Q → Prop :=
| walk_start W : s ∈ node_ids g → (W == 0)%Q → walk g s s [s] W
| walk_edge b c p W W' e :
    walk g s b p W → e ∈ Graph.edges g → joins e b c = true → c ∈ node_ids g →
    (W' == W + Edge.weight e)%Q → walk g s c (p ++ [c]) W'.

(** The end node is reachable from the start node. *)
Definition reachable (g : Graph.t) (s t : string) : Prop := ∃ p W, walk g s t p W.

(** [pchain g prev s n p W]: [p] is the chain of parents from [s] to [n], each
    link being an edge of [g], of total weight [W]. *)
Inductive pchain (g : Graph.t) (prev : gmap string (option string)) (s : string)
  : string → list string → Q → Prop :=
| pchain_start W : s ∈ node_ids g → (W == 0)%Q → pchain g prev s s [s] W
| pchain_step u n p W W' e :
    n ≠ s → prev !! n = Some (Some u) → pchain g prev s u p W →
    e ∈ Graph.edges g → joins e u n = true → n ∈ node_ids g →
    (W' == W + Edge.weight e)%Q → pchain g prev s n (p ++ [n]) W'.

Lemma walk_weight_eq g s c p W W' : walk g s c p W → (W == W')%Q → walk g s c p W'.
Proof.
  intros Hw Heq. destruct Hw as [W Hs H0|b c p W W1 e Hw He Hj Hc HW].
  - apply walk_start; [done|]. by rewrite <- Heq.
  - eapply walk_edge; try done. by rewrite <- Heq.
Qed.

Lemma pchain_weight_eq g prev s n p W W' :
  pchain g prev s n p W → (W == W')%Q → pchain g prev s n p W'.
Proof.
  intros Hw Heq. destruct Hw as [W Hs H0|u n p W W1 e Hn Hu Hp He Hj Hc HW].
  - apply pchain_start; [done|]. by rewrite <- Heq.
  - eapply pchain_step; try done. by rewrite <- Heq.
Qed.

Lemma pchain_walk g prev s n p W : pchain g prev s n p W → walk g s n p W.
Proof.
  induction 1 as [W Hs H0|u n p W W1 e Hn Hu Hp IH He Hj Hc HW].
  - by apply walk_start.
  - by eapply walk_edge.
Qed.

Lemma walk_node g s c p W : walk g s c p W → c ∈ node_ids g.
Proof. by destruct 1. Qed.

Lemma pchain_node g prev s n p W : pchain g prev s n p W → n ∈ node_ids g.
Proof. by destruct 1. Qed.

Lemma walk_ends g s c p W : walk g s c p W → head p = Some s ∧ last p = Some c.
Proof.
  induction 1 as [W Hs H0|b c p W W1 e Hw [IHh IHl] He Hj Hc HW]; [done|].
  split; [|by rewrite last_snoc]. destruct p; [done|]. done.
Qed.

Lemma pchain_last g prev s n p W : pchain g prev s n p W → n ∈ p.
Proof.
  destruct 1; [apply elem_of_cons; by left|].
  apply elem_of_app. right. by apply list_elem_of_singleton.
Qed.

(** The chain only reads the parents of its own nodes. *)
Lemma pchain_ext g prev prev' s n p W :
  pchain g prev s n p W → (∀ x, x ∈ p → prev' !! x = prev !! x) →
  pchain g prev' s n p W.
Proof.
  induction 1 as [W Hs H0|u n p W W1 e Hn Hu Hp IH He Hj Hc HW]; intros Hext.
  - by apply pchain_start.
  - eapply pchain_step; try done.
    + rewrite Hext; [done|]. apply elem_of_app. right. by apply list_elem_of_singleton.
    + apply IH. intros x Hx. apply Hext, elem_of_app. by left.
Qed.

(** On a graph without empty id, [reconstructPath] returns the chain. *)
Lemma pchain_walk_back g prev s n p W fuel acc r :
  "" ∉ node_ids g → pchain g prev s n p W →
  walk_back fuel prev s n acc = Some r → r = p ++ acc.
Proof.
  intros Hne Hp. revert fuel acc r.
  induction Hp as [W Hs H0|u n p W W1 e Hn Hu Hp IH He Hj Hc HW]; intros fuel acc r Hr.
  - destruct fuel as [|fuel]; [done|]. rewrite walk_back_S, str_eq_refl in Hr.
    by injection Hr as <-.
  - destruct fuel as [|fuel]; [done|]. rewrite walk_back_S in Hr.
    apply str_eq_false in Hn. rewrite Hn in Hr.
    rewrite (parent_of_link prev n u Hu) in Hr.
    + apply IH in Hr. by rewrite Hr, <- app_assoc.
    + intros ->. by apply pchain_node in Hp.
Qed.

Lemma pchain_reconstructPath g prev s n p W r :
  "" ∉ node_ids g → pchain g prev s n p W →
  reconstructPath prev s n = Some r → r = p.
Proof.
  intros Hne Hp. unfold reconstructPath, reconstructPath_fuel.
  destruct (walk_back _ prev s n []) as [c|] eqn:Hw; [|done].
  apply (pchain_walk_back _ _ _ _ _ _ _ _ _ Hne Hp) in Hw. rewrite app_nil_r in Hw.
  subst c. simpl. intros [= <-]. rewrite check_start_head.
  destruct (walk_ends _ _ _ _ _ (pchain_walk _ _ _ _ _ _ Hp)) as [Hh _].
  by rewrite bool_decide_eq_true_2.
Qed.

(** ** Comparisons of numbers *)

Lemma num_lt_Fin a b : num_lt (Fin a) (Fin b) = true ↔ (a < b)%Q.
Proof. apply Qltb_lt. Qed.

Lemma num_lt_Fin_false a b : num_lt (Fin a) (Fin b) = false ↔ (b <= a)%Q.
Proof. apply Qltb_ge. Qed.

Lemma Qplus_0_r_eq (a : Q) : (a + 0)%Q = a.
Proof.
  destruct a as [n d]. unfold Qplus. simpl.
  rewrite Z.mul_1_r, Z.add_0_r, Pos.mul_1_r. done.
Qed.

(** ** The initial score maps *)

Lemma node_map_lookup_start {A} cfg (f : Node.t → A) (x : A) :
  startNode cfg ∈ node_ids (graph cfg) →
  (∀ n, Node.id n = startNode cfg → f n = x) →
  foldl (fun m n => <[Node.id n := f n]> m) (∅ : gmap string A)
    (Graph.nodes (graph cfg)) !! startNode cfg
  = Some x.
Proof.
  intros Hs Hf.
  destruct (foldl (fun m n => <[Node.id n := f n]> m) (∅ : gmap string A)
              (Graph.nodes (graph cfg)) !! startNode cfg) as [y|] eqn:Hy.
  - apply foldl_insert_lookup in Hy as [Hy|(n & _ & Hid & ->)];
      [by rewrite lookup_empty in Hy|]. f_equal. by apply Hf.
  - apply not_elem_of_dom in Hy. rewrite foldl_insert_dom, dom_empty_L in Hy.
    unfold node_ids in Hs. set_solver.
Qed.

Section init_scores.
Context {H : MinHeap}.

Lemma gScore_init_lookup cfg n x :
  AStar.gScore_init cfg !! n = Some x →
  (n = startNode cfg ∧ x = Fin 0) ∨ (n ≠ startNode cfg ∧ x = Infinity).
Proof.
  intros Hn. apply foldl_insert_lookup in Hn as [Hn|(m & _ & Hid & ->)];
    [by rewrite lookup_empty in Hn|].
  rewrite Hid. destruct (str_eq n (startNode cfg)) eqn:Hns.
  - left. by apply str_eq_true in Hns.
  - right. by apply str_eq_false in Hns.
Qed.

Lemma fScore_init_start (h : string → number) cfg :
  startNode cfg ∈ node_ids (graph cfg) →
  AStar.fScore_init h cfg !! startNode cfg = Some (h (startNode cfg)).
Proof.
  intros Hs. apply node_map_lookup_start; [done|]. intros n ->. by rewrite str_eq_refl.
Qed.

Lemma gScore_init_start cfg :
  startNode cfg ∈ node_ids (graph cfg) →
  AStar.gScore_init cfg !! startNode cfg = Some (Fin 0).
Proof.
  intros Hs. apply node_map_lookup_start; [done|]. intros n ->. by rewrite str_eq_refl.
Qed.

End init_scores.

(** ** A*: the distances of the finalized nodes are minimal

    The heuristic is any function [h] of the node id with finite values
    [hq] that is consistent with the edges: [hq u <= w + hq c] for an edge
    of weight [w] between nodes [u] and [c] of the graph. *)

Section astar_optimal.
Context {H : MinHeap}.
Variable h : string → number.
Variable hq : string → Q.
Variable cfg : AlgorithmConfig.

Local Abbreviation g := (graph cfg).
Local Abbreviation s := (startNode cfg).
Local Abbreviation adj := (weighted_adjacency (graph cfg)).

Hypothesis Hh : ∀ n, h n = Fin (hq n).
Hypothesis Hs : s ∈ node_ids g.
Hypothesis Hcons : ∀ e u c,
  e ∈ Graph.edges g → joins e u c = true → u ∈ node_ids g → c ∈ node_ids g →
  (hq u <= Edge.weight e + hq c)%Q.

(** All the neighbour entries of a node. *)
Definition full (u : string) : list (string * Q) := default [] (adj !! u).

(** The entries of the node being expanded that were handled so far. *)
Definition partial (cur : string) (done : list (string * Q)) (u : string)
  : list (string * Q) :=
  if decide (u = cur) then done else full u.

(** The invariant; [R u] lists the neighbour entries of the visited node [u]
    that have been relaxed. *)
Record AOpt (R : string → list (string * Q)) (v : AStar.vars) : Prop := {
  ao_core : AStar_core cfg v;
  ao_start : ∃ d, AStar.gScore v !! s = Some (Fin d) ∧ (d == 0)%Q;
  ao_first : s ∈ AStar.visitedNodes v ∨
             (AStar.visitedNodes v = ∅ ∧
              ∀ e, e ∈ heap_elems (AStar.openSet v) → snd e = s);
  ao_fin : ∀ n x, AStar.gScore v !! n = Some x → x = Infinity ∨ ∃ d, x = Fin d;
  ao_F : ∀ n d, AStar.gScore v !! n = Some (Fin d) →
         ∃ f, AStar.fScore v !! n = Some (Fin f) ∧ (f == d + hq n)%Q;
  ao_chain : ∀ n d, AStar.gScore v !! n = Some (Fin d) →
             ∃ p W, pchain g (AStar.previousNodes v) s n p W ∧ (W == d)%Q ∧
                    ∀ x, x ∈ p → x ∈ AStar.visitedNodes v ∨ x = n;
  ao_parent : ∀ n u, AStar.previousNodes v !! n = Some (Some u) →
              ∃ d, AStar.gScore v !! n = Some (Fin d);
  ao_opt : ∀ u, u ∈ AStar.visitedNodes v →
           ∃ d, AStar.gScore v !! u = Some (Fin d) ∧
                ∀ p W, walk g s u p W → (d <= W)%Q;
  ao_relaxed : ∀ u du c w,
      u ∈ AStar.visitedNodes v → AStar.gScore v !! u = Some (Fin du) →
      (c, w) ∈ R u → c ∈ node_ids g →
      ∃ dc, AStar.gScore v !! c = Some (Fin dc) ∧ (dc <= du + w)%Q;
  ao_complete : ∀ n d, n ∉ AStar.visitedNodes v → AStar.gScore v !! n = Some (Fin d) →
                ∃ p, (Fin p, n) ∈ heap_elems (AStar.openSet v) ∧ (p == d + hq n)%Q;
  ao_sound : ∀ p n, (p, n) ∈ heap_elems (AStar.openSet v) →
             ∃ q d, p = Fin q ∧ AStar.gScore v !! n = Some (Fin d) ∧ (d + hq n <= q)%Q
}.

Lemma AOpt_ext R R' v : (∀ u, R u = R' u) → AOpt R v → AOpt R' v.
Proof.
  intros Hext [Hc Hst Hf Hfin HF Hch Hpar Hopt Hrel Hcom Hsnd]. split; try done.
  intros u du c w Hu Hdu Hcw. apply (Hrel u du c w Hu Hdu). by rewrite Hext.
Qed.

Lemma AOpt_init : AOpt full (AStar.init_vars h cfg).
Proof.
  assert (∀ e, e ∈ heap_elems (AStar.openSet (AStar.init_vars h cfg)) →
               e = (Fin (hq s), s)) as Hheap.
  { intros e He. simpl in He. apply heap_push_elem in He as [->|He].
    - unfold num_get. by rewrite (fScore_init_start h cfg Hs), Hh.
    - rewrite heap_new_elems in He. by apply elem_of_nil in He. }
  split.
  - apply (av_core _ _ _ (AStar_init_inv h cfg)).
  - exists 0%Q. split; [by apply gScore_init_start|done].
  - right. split; [done|]. intros e ->%Hheap. done.
  - intros n x [[_ ->]|[_ ->]]%gScore_init_lookup; eauto.
  - intros n d [[-> [= ->]]|[_ ?]]%gScore_init_lookup; [|done].
    exists (hq s). simpl. split; [by rewrite (fScore_init_start h cfg Hs), Hh|]. lra.
  - intros n d [[-> [= ->]]|[_ ?]]%gScore_init_lookup; [|done].
    exists [s], 0%Q. split; [by apply pchain_start|]. split; [done|].
    intros x ->%list_elem_of_singleton. by right.
  - intros n u Hn. by apply prev_init_lookup in Hn.
  - intros u Hu. simpl in Hu. by apply elem_of_empty in Hu.
  - intros u du c w Hu. simpl in Hu. by apply elem_of_empty in Hu.
  - intros n d _ [[-> [= ->]]|[_ ?]]%gScore_init_lookup; [|done].
    exists (hq s). split; [|lra]. simpl. apply heap_push_elem. left.
    unfold num_get. by rewrite (fScore_init_start h cfg Hs), Hh.
  - intros p n [= -> ->]%Hheap. exists (hq s), 0%Q.
    split; [done|]. split; [by apply gScore_init_start|lra].
Qed.

Lemma heap_pop_elems (hp hp' : heap) e x :
  heap_pop hp = Some (e, hp') → x ∈ heap_elems hp ↔ x = e ∨ x ∈ heap_elems hp'.
Proof. intros [Hp _]%heap_pop_some. rewrite Hp. apply elem_of_cons. Qed.

Lemma heap_pop_min (hp hp' : heap) p n p' n' :
  heap_pop hp = Some ((Fin p, n), hp') → (Fin p', n') ∈ heap_elems hp' → (p <= p')%Q.
Proof.
  intros [_ Hmin]%heap_pop_some Hin. specialize (Hmin _ Hin). simpl in Hmin.
  by apply num_lt_Fin_false in Hmin.
Qed.

(** The entry popped for a node that is not visited carries its current
    score, and no entry left is below it. *)
Lemma popped_score R v p cur q :
  AOpt R v → heap_pop (AStar.openSet v) = Some ((p, cur), q) →
  cur ∉ AStar.visitedNodes v →
  ∃ pq d, p = Fin pq ∧ AStar.gScore v !! cur = Some (Fin d) ∧ (pq == d + hq cur)%Q.
Proof.
  intros Hinv Hpop Hcur.
  destruct (ao_sound _ _ Hinv p cur) as (pq & d & -> & Hd & Hle).
  { by eapply heap_pop_elem. }
  exists pq, d. split; [done|]. split; [done|].
  destruct (ao_complete _ _ Hinv cur d Hcur Hd) as (p' & Hin & Hp').
  apply (heap_pop_elems _ _ _ _ Hpop) in Hin as [[= ->]|Hin]; [lra|].
  pose proof (heap_pop_min _ _ _ _ _ _ Hpop Hin). lra.
Qed.

Lemma AOpt_core_pop R v e q :
  AOpt R v → heap_pop (AStar.openSet v) = Some (e, q) →
  AStar_core cfg (AStar.with_openSet v q).
Proof.
  intros Hinv Hpop. destruct (ao_core _ _ Hinv) as [Hr Hd Hp Hh' Hv].
  split; simpl; try done. intros x Hx. eapply Hh', heap_pop_rest; done.
Qed.

(** Popping an entry of a visited node. *)
Lemma AOpt_pop_visited R v p cur q :
  AOpt R v → heap_pop (AStar.openSet v) = Some ((p, cur), q) →
  cur ∈ AStar.visitedNodes v → AOpt R (AStar.with_openSet v q).
Proof.
  intros Hinv Hpop Hcur. pose proof (AOpt_core_pop _ _ _ _ Hinv Hpop) as Hcore.
  destruct Hinv as [Hc Hst Hf Hfin HF Hch Hpar Hopt Hrel Hcom Hsnd].
  split; simpl; try done.
  - destruct Hf as [?|[Hemp _]]; [by left|]. rewrite Hemp in Hcur.
    by apply elem_of_empty in Hcur.
  - intros n d Hn Hd. destruct (Hcom n d Hn Hd) as (p' & Hin & Hp'). exists p'.
    split; [|done]. apply (heap_pop_elems _ _ _ _ Hpop) in Hin as [[= _ ->]|Hin]; done.
  - intros p' n Hin. apply Hsnd. eapply heap_pop_rest; done.
Qed.

(** Along a walk, either its end is visited with a distance below the weight
    of the walk, or some node that is not visited has a score below the
    weight of the walk plus the heuristic of its end. *)
Lemma walk_bound v c p W :
  AOpt full v → walk g s c p W →
  (c ∈ AStar.visitedNodes v ∧
   ∃ d, AStar.gScore v !! c = Some (Fin d) ∧ (d <= W)%Q) ∨
  (∃ y dy, (y ∉ AStar.visitedNodes v) ∧ AStar.gScore v !! y = Some (Fin dy) ∧
           (dy + hq y <= W + hq c)%Q).
Proof.
  intros Hinv. induction 1 as [W _ H0|b c p W W1 e Hw IH He Hj Hc HW].
  - destruct (decide (s ∈ AStar.visitedNodes v)) as [Hsv|Hsv].
    + left. split; [done|]. destruct (ao_opt _ _ Hinv s Hsv) as (d & Hd & Hmin).
      exists d. split; [done|]. apply (Hmin [s]). by apply walk_start.
    + right. destruct (ao_start _ _ Hinv) as (d & Hd & Hd0). exists s, d.
      split; [done|]. split; [done|]. lra.
  - pose proof (walk_node _ _ _ _ _ Hw) as Hb.
    pose proof (Hcons e b c He Hj Hb Hc) as Hcon.
    destruct IH as [(Hbv & db & Hdb & Hle)|(y & dy & Hy & Hdy & Hle)].
    + destruct (ao_relaxed _ _ Hinv b db c (Edge.weight e) Hbv Hdb) as (dc & Hdc & Hle');
        [|done|].
      { unfold full. apply weighted_adjacency_spec. split; [done|]. by exists e. }
      destruct (decide (c ∈ AStar.visitedNodes v)) as [Hcv|Hcv].
      * left. split; [done|]. exists dc. split; [done|]. lra.
      * right. exists c, dc. split; [done|]. split; [done|]. lra.
    + right. exists y, dy. split; [done|]. split; [done|]. lra.
Qed.

(** Visiting the node of the entry popped. *)
Lemma AOpt_visit v p cur q :
  AOpt full v → heap_pop (AStar.openSet v) = Some ((p, cur), q) →
  cur ∉ AStar.visitedNodes v →
  AOpt (partial cur []) (AStar.visit (AStar.with_openSet v q) cur).
Proof.
  intros Hinv Hpop Hcur. pose proof (AOpt_core_pop _ _ _ _ Hinv Hpop) as Hcore.
  destruct (popped_score _ _ _ _ _ Hinv Hpop Hcur) as (pq & d & -> & Hd & Hpq).
  pose proof Hinv as [Hc Hst Hf Hfin HF Hch Hpar Hopt Hrel Hcom Hsnd].
  assert (cur ∈ universe cfg) as Hcu.
  { apply (ac_heap _ _ Hc (Fin pq, cur)). by eapply heap_pop_elem. }
  split; simpl; try done.
  - destruct Hcore as [Hr' Hd' Hp' Hh' Hv']. split; simpl in *; try done.
    + by apply ranked_visit.
    + set_solver.
  - left. destruct Hf as [?|[_ Hall]]; [set_solver|].
    specialize (Hall (Fin pq, cur)). simpl in Hall. rewrite Hall; [set_solver|].
    by eapply heap_pop_elem.
  - intros n dn Hn. destruct (Hch n dn Hn) as (pa & W & Hpc & HW & Hin).
    exists pa, W. split; [done|]. split; [done|]. intros x Hx.
    destruct (Hin x Hx); [left; set_solver|by right].
  - intros u [Hu| ->%elem_of_singleton]%elem_of_union; [by apply Hopt|].
    exists d. split; [done|]. intros pa W Hw.
    destruct (walk_bound v cur pa W Hinv Hw) as [(Hcv & _)|(y & dy & Hy & Hdy & Hle)];
      [done|].
    destruct (Hcom y dy Hy Hdy) as (py & Hin & Hpy).
    apply (heap_pop_elems _ _ _ _ Hpop) in Hin as [[= -> ->]|Hin]; [lra|].
    pose proof (heap_pop_min _ _ _ _ _ _ Hpop Hin). lra.
  - intros u du c w [Hu| ->%elem_of_singleton]%elem_of_union Hdu Hcw Hcn.
    + unfold partial in Hcw. destruct (decide (u = cur)) as [->|?]; [done|].
      by eapply Hrel.
    + unfold partial in Hcw. rewrite decide_True in Hcw by done.
      by apply elem_of_nil in Hcw.
  - intros n dn Hn Hdn. destruct (Hcom n dn) as (p' & Hin & Hp'); [set_solver|done|].
    exists p'. split; [|done].
    apply (heap_pop_elems _ _ _ _ Hpop) in Hin as [[= _ ->]|Hin]; [set_solver|done].
  - intros p' n Hin. apply Hsnd. eapply heap_pop_rest; done.
Qed.

(** The neighbour [c] of the visited node [cur] gets a smaller distance. *)
Lemma AOpt_update cur done v c w du e :
  let v' := {| AStar.gScore := <[c := Fin (du + w)]> (AStar.gScore v);
               AStar.fScore := <[c := Fin (du + w + hq c)]> (AStar.fScore v);
               AStar.previousNodes := <[c := Some cur]> (AStar.previousNodes v);
               AStar.visitedNodes := AStar.visitedNodes v;
               AStar.openSet := heap_push (Fin (du + w + hq c)) c (AStar.openSet v) |} in
  AOpt (partial cur done) v →
  AStar_core cfg v' →
  cur ∈ AStar.visitedNodes v → c ∉ AStar.visitedNodes v →
  AStar.gScore v !! cur = Some (Fin du) →
  c ∈ node_ids g → e ∈ Graph.edges g → joins e cur c = true → Edge.weight e = w →
  (∀ dc, AStar.gScore v !! c = Some (Fin dc) → (du + w < dc)%Q) →
  AOpt (partial cur (done ++ [(c, w)])) v'.
Proof.
  intros v' Hinv Hcore Hcur Hc Hdu Hcn He Hj Hw Hless. subst v'.
  destruct Hinv as [_ Hst Hf Hfin HF Hch Hpar Hopt Hrel Hcom Hsnd].
  assert (s ∈ AStar.visitedNodes v) as Hsv.
  { destruct Hf as [?|[Hemp _]]; [done|]. rewrite Hemp in Hcur.
    by apply elem_of_empty in Hcur. }
  assert (c ≠ s) as Hcs by (by intros ->).
  assert (∀ n dn, AStar.gScore v !! n = Some (Fin dn) →
            ∃ dn', <[c := Fin (du + w)]> (AStar.gScore v) !! n = Some (Fin dn') ∧
                   (dn' <= dn)%Q) as Hdec.
  { intros n dn Hn. destruct (decide (n = c)) as [->|Hne].
    - exists (du + w)%Q. rewrite lookup_insert_eq. split; [done|].
      apply Hless in Hn. lra.
    - exists dn. rewrite lookup_insert_ne by done. split; [done|]. lra. }
  split; simpl; try done.
  - destruct Hst as (d & Hd & Hd0). exists d. by rewrite lookup_insert_ne.
  - by left.
  - intros n x Hn. destruct (decide (n = c)) as [->|Hne].
    + rewrite lookup_insert_eq in Hn. injection Hn as <-. eauto.
    + rewrite lookup_insert_ne in Hn by done. by eapply Hfin.
  - intros n d Hn. destruct (decide (n = c)) as [->|Hne].
    + rewrite lookup_insert_eq in Hn. injection Hn as <-.
      exists (du + w + hq c)%Q. rewrite lookup_insert_eq. split; [done|]. lra.
    + rewrite lookup_insert_ne in Hn by done. rewrite lookup_insert_ne by done.
      by apply HF.
  - intros n d Hn. destruct (decide (n = c)) as [->|Hne].
    + rewrite lookup_insert_eq in Hn. injection Hn as <-.
      destruct (Hch cur du Hdu) as (pa & W & Hpc & HW & Hin).
      exists (pa ++ [c]), (W + w)%Q. split; [|split; [lra|]].
      * eapply (pchain_step _ _ _ cur c pa W _ e); try done.
        -- by rewrite lookup_insert_eq.
        -- eapply pchain_ext; [done|]. intros x Hx. rewrite lookup_insert_ne; [done|].
           intros <-. destruct (Hin c Hx); [done|]. by subst.
        -- rewrite Hw. lra.
      * intros x [Hx| ->%list_elem_of_singleton]%elem_of_app; [|by right].
        left. destruct (Hin x Hx); [done|]. by subst.
    + rewrite lookup_insert_ne in Hn by done.
      destruct (Hch n d Hn) as (pa & W & Hpc & HW & Hin).
      exists pa, W. split; [|done].
      eapply pchain_ext; [done|]. intros x Hx. rewrite lookup_insert_ne; [done|].
      intros <-. destruct (Hin c Hx); [done|]. by subst.
  - intros n u Hn. destruct (decide (n = c)) as [->|Hne].
    + rewrite lookup_insert_eq. eauto.
    + rewrite lookup_insert_ne in Hn by done. rewrite lookup_insert_ne by done.
      by eapply Hpar.
  - intros u Hu. rewrite lookup_insert_ne by (by intros <-). by apply Hopt.
  - intros u du' c' w' Hu Hdu' Hcw Hcn'.
    rewrite lookup_insert_ne in Hdu' by (by intros <-).
    assert ((c', w') ∈ partial cur done u ∨ (u = cur ∧ c' = c ∧ w' = w)) as [Hold|Hnew].
    { unfold partial in *. destruct (decide (u = cur)) as [->|?]; [|by left].
      apply elem_of_app in Hcw as [?|[= -> ->]%list_elem_of_singleton]; auto. }
    + destruct (Hrel u du' c' w' Hu Hdu' Hold Hcn') as (dc & Hdc & Hle).
      destruct (Hdec c' dc Hdc) as (dc' & Hdc' & Hle'). exists dc'.
      split; [done|]. lra.
    + destruct Hnew as (-> & -> & ->). exists (du + w)%Q.
      rewrite lookup_insert_eq. split; [done|].
      assert (du' = du) as -> by congruence. lra.
  - intros n d Hn Hd. destruct (decide (n = c)) as [->|Hne].
    + rewrite lookup_insert_eq in Hd. injection Hd as <-.
      exists (du + w + hq c)%Q. split; [|lra]. apply heap_push_elem. by left.
    + rewrite lookup_insert_ne in Hd by done.
      destruct (Hcom n d Hn Hd) as (p' & Hin & Hp'). exists p'. split; [|done].
      apply heap_push_elem. by right.
  - intros p n [[= -> ->]|Hin]%heap_push_elem.
    + exists (du + w + hq c)%Q, (du + w)%Q. rewrite lookup_insert_eq.
      split; [done|]. split; [done|]. lra.
    + destruct (Hsnd p n Hin) as (q' & d & -> & Hd & Hle).
      destruct (Hdec n d Hd) as (d' & Hd' & Hle'). exists q', d'.
      split; [done|]. split; [done|]. lra.
Qed.

(** One neighbour entry of the node being expanded. *)
Lemma AOpt_relax cur done v c w :
  AOpt (partial cur done) v → cur ∈ AStar.visitedNodes v → (c, w) ∈ full cur →
  AOpt (partial cur (done ++ [(c, w)])) (AStar.relax h cur v (c, w)).
Proof.
  intros Hinv Hcur Hcw.
  destruct (AStar_relax_core h cfg cur v (c, w) Hcur (ao_core _ _ Hinv)) as (Hcore & _).
  apply weighted_adjacency_spec in Hcw as (Hcurn & e & He & Hj & Hw).
  destruct (ao_opt _ _ Hinv cur Hcur) as (du & Hdu & Hmin).
  (* the entry needs no update *)
  assert (∀ dc, (c ∈ node_ids g → AStar.gScore v !! c = Some (Fin dc) ∧ (dc <= du + w)%Q) →
            AOpt (partial cur (done ++ [(c, w)])) v) as Hkeep.
  { intros dc Hdc. destruct Hinv as [Hc Hst Hf Hfin HF Hch Hpar Hopt Hrel Hcom Hsnd].
    split; try done. intros u du' c' w' Hu Hdu' Hin Hcn'. unfold partial in Hin.
    destruct (decide (u = cur)) as [->|Hne].
    - apply elem_of_app in Hin as [Hin|[= -> ->]%list_elem_of_singleton].
      + apply (Hrel cur du' c' w' Hu Hdu'); [|done]. unfold partial.
        by rewrite decide_True.
      + exists dc. assert (du' = du) as -> by congruence. by apply Hdc.
    - apply (Hrel u du' c' w' Hu Hdu'); [|done]. unfold partial.
      by rewrite decide_False. }
  unfold AStar.relax in *.
  destruct (decide (c ∈ AStar.visitedNodes v)) as [Hcv|Hcv].
  { destruct (ao_opt _ _ Hinv c Hcv) as (dc & Hdc & Hminc).
    apply (Hkeep dc). intros Hcn. split; [done|].
    destruct (ao_chain _ _ Hinv cur du Hdu) as (pa & W & Hpc & HW & _).
    apply (Hminc (pa ++ [c])). eapply walk_edge; try done.
    - eapply pchain_walk, Hpc.
    - rewrite Hw. lra. }
  unfold num_get in *. rewrite Hdu in *. simpl in *.
  assert (c ∈ dom (AStar.gScore v) → c ∈ node_ids g) as Hdom
    by (by rewrite (ac_g _ _ (ao_core _ _ Hinv))).
  destruct (AStar.gScore v !! c) as [x|] eqn:Hc; simpl in *.
  - specialize (Hdom (elem_of_dom_2 _ _ _ Hc)).
    destruct (ao_fin _ _ Hinv c x Hc) as [->|[dc ->]]; simpl in *.
    + rewrite Hh in *. simpl in *.
      apply (AOpt_update cur done v c w du e); try done.
      intros dc' Hdc'. by rewrite Hc in Hdc'.
    + fold (Qltb (du + w) dc) in *. destruct (Qltb (du + w) dc) eqn:Hlt.
      * rewrite Hh in *. simpl in *.
        apply (AOpt_update cur done v c w du e); try done.
        intros dc' Hdc'. rewrite Hc in Hdc'. injection Hdc' as <-. by apply Qltb_lt.
      * apply (Hkeep dc). intros _. split; [done|]. by apply Qltb_ge.
  - apply (Hkeep 0%Q). intros Hcn. apply not_elem_of_dom in Hc.
    by rewrite (ac_g _ _ (ao_core _ _ Hinv)) in Hc.
Qed.

(** The whole neighbour list of the node being expanded. *)
Lemma AOpt_relax_fold cur todo done v :
  (∀ x, x ∈ todo → x ∈ full cur) →
  AOpt (partial cur done) v → cur ∈ AStar.visitedNodes v →
  AOpt (partial cur (done ++ todo)) (foldl (AStar.relax h cur) v todo).
Proof.
  revert done v. induction todo as [|[c w] todo IH]; intros done v Hsub Hinv Hcur;
    cbn [foldl].
  { by rewrite app_nil_r. }
  replace (done ++ (c, w) :: todo) with ((done ++ [(c, w)]) ++ todo)
    by (by rewrite <- app_assoc).
  apply IH.
  - intros x Hx. apply Hsub, elem_of_cons. by right.
  - apply AOpt_relax; [done..|]. apply Hsub, elem_of_cons. by left.
  - destruct (AStar_relax_core h cfg cur v (c, w) Hcur (ao_core _ _ Hinv))
      as (_ & -> & _). done.
Qed.

Lemma AOpt_expand cur v :
  AOpt (partial cur []) v → cur ∈ AStar.visitedNodes v →
  AOpt full (foldl (AStar.relax h cur) v (default [] (adj !! cur))).
Proof.
  intros Hinv Hcur. eapply AOpt_ext; [|by apply (AOpt_relax_fold cur _ [] v)].
  intros u. unfold partial. simpl. by destruct (decide (u = cur)) as [->|].
Qed.

(** Where the loop stops: the target is visited, or the frontier is empty
    with every visited node expanded. *)
Definition AOpt_exit (v : AStar.vars) : Prop :=
  (∃ R, AOpt R v) ∧
  (endNode cfg ∈ AStar.visitedNodes v ∨
   (AOpt full v ∧ heap_elems (AStar.openSet v) = [])).

Lemma AStar_loop_opt fuel steps v steps' v' :
  AOpt full v →
  AStar.loop h fuel cfg adj steps v = Some (steps', v') → AOpt_exit v'.
Proof.
  revert steps v. induction fuel as [|fuel IH]; intros steps v Hinv Hloop; [done|].
  simpl in Hloop. destruct (heap_isEmpty _) eqn:Hemp.
  { injection Hloop as <- <-. split; [by exists full|]. right. split; [done|].
    by apply heap_isEmpty_elems. }
  destruct (heap_pop _) as [[[p cur] q]|] eqn:Hpop; [|by apply heap_pop_nonempty in Hpop].
  simpl in Hloop. destruct (decide (cur ∈ AStar.visitedNodes v)) as [Hcur|Hcur].
  { eapply IH; [|done]. by eapply AOpt_pop_visited. }
  pose proof (AOpt_visit v p cur q Hinv Hpop Hcur) as Hinv1.
  destruct (AStar.snapshot _ _ _) as [st|]; [|done]. simpl in Hloop.
  destruct (str_eq cur (endNode cfg)) eqn:Hend.
  { injection Hloop as <- <-. split; [by eexists|]. left.
    apply str_eq_true in Hend as <-. simpl. set_solver. }
  destruct (num_gt _ _) eqn:Hstale.
  { exfalso. destruct (popped_score _ _ _ _ _ Hinv Hpop Hcur) as (pq & d & -> & Hd & Hpq).
    destruct (ao_F _ _ Hinv cur d Hd) as (f & Hf & Hfd).
    simpl in Hstale. unfold num_get in Hstale. rewrite Hf in Hstale.
    apply num_lt_Fin in Hstale. lra. }
  eapply IH; [|done]. apply AOpt_expand; [done|]. simpl. set_solver.
Qed.

(** At the exit, a target that is reachable is visited, its distance is the
    weight of its chain of parents, and no walk is lighter. *)
Lemma AOpt_exit_reachable v :
  AOpt_exit v → reachable g s (endNode cfg) →
  ∃ R d p W, AOpt R v ∧
    AStar.gScore v !! endNode cfg = Some (Fin d) ∧
    pchain g (AStar.previousNodes v) s (endNode cfg) p W ∧ (W == d)%Q ∧
    ∀ p' W', walk g s (endNode cfg) p' W' → (d <= W')%Q.
Proof.
  intros [[R HR] Hexit] (pr & Wr & Hreach).
  assert (∃ R', AOpt R' v ∧ endNode cfg ∈ AStar.visitedNodes v) as (R' & HR' & Ht).
  { destruct Hexit as [Ht|[Hfull Hempty]]; [by exists R|]. exists full. split; [done|].
    destruct (walk_bound v _ _ _ Hfull Hreach) as [[? _]|(y & dy & Hy & Hdy & _)]; [done|].
    destruct (ao_complete _ _ Hfull y dy Hy Hdy) as (py & Hin & _).
    rewrite Hempty in Hin. by apply elem_of_nil in Hin. }
  destruct (ao_opt _ _ HR' _ Ht) as (d & Hd & Hmin).
  destruct (ao_chain _ _ HR' _ _ Hd) as (p & W & Hpc & HW & _).
  by exists R', d, p, W.
Qed.

(** At the exit, a non-empty final path means that the target is reachable. *)
Lemma AOpt_exit_path v r :
  AOpt_exit v →
  reconstructPath (AStar.previousNodes v) s (endNode cfg) = Some r → r ≠ [] →
  reachable g s (endNode cfg).
Proof.
  intros [[R HR] _] Hr Hne.
  destruct (reconstructPath_ends _ _ _ _ Hr Hne) as (_ & _ & [->|[u Hu]]).
  - exists [s], 0%Q. by apply walk_start.
  - apply parent_of_Some in Hu as [Hu _].
    destruct (ao_parent _ _ HR _ _ Hu) as (d & Hd).
    destruct (ao_chain _ _ HR _ _ Hd) as (p & W & Hpc & _).
    exists p, W. by eapply pchain_walk.
Qed.

(** [astar_with] on a graph without empty id: it returns; when the target is
    reachable, the final path is a walk from the start to the target and no
    walk is lighter; a final path that is not empty means that the target
    is reachable. *)
Lemma astar_with_optimal :
  "" ∉ node_ids g →
  ∃ r, AStar.astar_with h cfg = Some r ∧
    (reachable g s (endNode cfg) →
     ∃ W, walk g s (endNode cfg) (AlgorithmResult.path r) W ∧
          ∀ p' W', walk g s (endNode cfg) p' W' → (W <= W')%Q) ∧
    (AlgorithmResult.path r ≠ [] → reachable g s (endNode cfg)).
Proof.
  intros Hne. unfold AStar.astar_with.
  destruct (AStar_loop_total h cfg adj (S (S (adj_total adj))) [] (AStar.init_vars h cfg))
    as (steps & v & Hloop & Hinv).
  { apply AStar_init_inv. }
  { simpl. rewrite heap_push_length, heap_new_elems, pending_empty. simpl. lia. }
  rewrite Hloop. simpl.
  pose proof (AStar_loop_opt _ _ _ _ _ AOpt_init Hloop) as Hexit.
  destruct (ranked_snapshot _ _ s (endNode cfg) (ac_ranked _ _ (av_core _ _ _ Hinv)))
    as [r Hr].
  rewrite Hr. simpl. eexists. split; [done|]. simpl. split.
  - intros Hreach.
    destruct (AOpt_exit_reachable v Hexit Hreach) as (R & d & p & W & HR & Hd & Hpc & HW & Hmin).
    rewrite (pchain_reconstructPath _ _ _ _ _ _ _ Hne Hpc Hr).
    exists W. split; [by eapply pchain_walk|]. intros p' W' Hw'.
    specialize (Hmin p' W' Hw'). lra.
  - intros Hnr. by eapply AOpt_exit_path.
Qed.

End astar_optimal.

(** ** Dijkstra as A* with the zero heuristic *)

Section dijkstra_sim.
Context {H : MinHeap}.

Definition h0 : string → number := fun _ => Fin 0.

(** The variables of [astar] that correspond to those of [dijkstra]: the
    two score maps are the distance map. *)
Definition embed (v : Dijkstra.vars) : AStar.vars :=
  {| AStar.gScore := Dijkstra.distances v;
     AStar.fScore := Dijkstra.distances v;
     AStar.previousNodes := Dijkstra.previousNodes v;
     AStar.visitedNodes := Dijkstra.visitedNodes v;
     AStar.openSet := Dijkstra.pq v |}.

Lemma num_lt_true_Fin a b : num_lt a b = true → ∃ q, a = Fin q.
Proof. destruct a; [eauto|done..]. Qed.

Lemma relax_embed cur v nb :
  AStar.relax h0 cur (embed v) nb = embed (Dijkstra.relax cur v nb).
Proof.
  destruct nb as [n w]. unfold AStar.relax, Dijkstra.relax. simpl.
  destruct (decide _); [done|].
  destruct (num_lt _ _) eqn:Hlt; [|done].
  apply num_lt_true_Fin in Hlt as [q ->]. unfold embed, h0. simpl.
  by rewrite Qplus_0_r_eq.
Qed.

Lemma fold_relax_embed cur v nbs :
  foldl (AStar.relax h0 cur) (embed v) nbs = embed (foldl (Dijkstra.relax cur) v nbs).
Proof.
  revert v. induction nbs as [|nb nbs IH]; intros v; [done|].
  cbn [foldl]. by rewrite relax_embed, IH.
Qed.

Lemma loop_embed fuel cfg adj steps v :
  AStar.loop h0 fuel cfg adj steps (embed v)
  = (fun '(st, v') => (st, embed v')) <$> Dijkstra.loop fuel cfg adj steps v.
Proof.
  revert steps v. induction fuel as [|fuel IH]; intros steps v; [done|].
  cbn [AStar.loop Dijkstra.loop]. change (AStar.openSet (embed v)) with (Dijkstra.pq v).
  destruct (heap_isEmpty _); [done|].
  destruct (heap_pop _) as [[[d cur] q]|]; [|done].
  change (AStar.with_openSet (embed v) q) with (embed (Dijkstra.with_pq v q)).
  change (AStar.visitedNodes (embed (Dijkstra.with_pq v q)))
    with (Dijkstra.visitedNodes (Dijkstra.with_pq v q)).
  destruct (decide _); [apply IH|].
  change (AStar.visit (embed (Dijkstra.with_pq v q)) cur)
    with (embed (Dijkstra.visit (Dijkstra.with_pq v q) cur)).
  change (AStar.snapshot cfg (embed (Dijkstra.visit (Dijkstra.with_pq v q) cur)) cur)
    with (Dijkstra.snapshot cfg (Dijkstra.visit (Dijkstra.with_pq v q) cur) cur).
  destruct (Dijkstra.snapshot _ _ _) as [st|]; [|done]. cbn [mbind option_bind].
  destruct (str_eq _ _); [done|].
  change (AStar.fScore (embed (Dijkstra.visit (Dijkstra.with_pq v q) cur)))
    with (Dijkstra.distances (Dijkstra.visit (Dijkstra.with_pq v q) cur)).
  destruct (num_gt _ _); [apply IH|].
  rewrite fold_relax_embed. apply IH.
Qed.

Lemma dist_init_start cfg :
  startNode cfg ∈ node_ids (graph cfg) →
  Dijkstra.dist_init cfg !! startNode cfg = Some (Fin 0).
Proof. apply (gScore_init_start cfg). Qed.

Lemma dijkstra_astar cfg :
  startNode cfg ∈ node_ids (graph cfg) →
  AStar.astar_with h0 cfg = Dijkstra.dijkstra cfg.
Proof.
  intros Hs. unfold AStar.astar_with, Dijkstra.dijkstra.
  assert (AStar.init_vars h0 cfg = embed (Dijkstra.init_vars cfg)) as ->.
  { unfold AStar.init_vars, embed, Dijkstra.init_vars. simpl. f_equal.
    unfold num_get.
    change (AStar.fScore_init h0 cfg) with (Dijkstra.dist_init cfg).
    by rewrite dist_init_start. }
  rewrite loop_embed.
  destruct (Dijkstra.loop _ _ _ _ _) as [[steps v]|]; [|done]. done.
Qed.

End dijkstra_sim.

(** ** The weight of the path found *)

Lemma edge_weight_fold_le (l : list Edge.t) u v acc :
  let r := foldl (fun acc e =>
                    if joins e u v then
                      Some (match acc with
                            | None => Edge.weight e
                            | Some w => Qmin w (Edge.weight e)
                            end)
                    else acc) acc l in
  (∀ a, acc = Some a → ∃ w, r = Some w ∧ (w <= a)%Q) ∧
  (∀ e, e ∈ l → joins e u v = true → ∃ w, r = Some w ∧ (w <= Edge.weight e)%Q).
Proof.
  revert acc. induction l as [|e l IH]; intros acc; simpl.
  { split; [intros a ->; exists a; split; [done|lra]|]. by intros e []%elem_of_nil. }
  set (acc' := if joins e u v then _ else acc).
  destruct (IH acc') as [IHa IHl]. split.
  - intros a ->. subst acc'. destruct (joins e u v).
    + destruct (IHa _ eq_refl) as (w & Hw & Hle). exists w. split; [done|].
      pose proof (Q.le_min_l a (Edge.weight e)). lra.
    + by apply IHa.
  - intros e' [->|He']%elem_of_cons Hj; [|by apply IHl].
    subst acc'. rewrite Hj in IHa |- *.
    destruct (IHa _ eq_refl) as (w & Hw & Hle). exists w. split; [done|].
    destruct acc as [a|]; [|lra].
    pose proof (Q.le_min_r a (Edge.weight e)). lra.
Qed.

Lemma edge_weight_fold_edge (l : list Edge.t) u v acc w :
  foldl (fun acc e =>
           if joins e u v then
             Some (match acc with
                   | None => Edge.weight e
                   | Some w => Qmin w (Edge.weight e)
                   end)
           else acc) acc l = Some w →
  acc = Some w ∨ ∃ e, e ∈ l ∧ joins e u v = true ∧ Edge.weight e = w.
Proof.
  revert acc. induction l as [|e l IH]; intros acc; simpl; [by left|].
  intros [Hacc|(e' & He' & Hj & Hw)]%IH.
  - destruct (joins e u v) eqn:Hj; [|by left]. injection Hacc as Hacc.
    destruct acc as [a|].
    + unfold Qmin, GenericMinMax.gmin in Hacc.
      destruct (a ?= Edge.weight e)%Q; [left; by subst|left; by subst|].
      right. exists e. split; [apply elem_of_cons; by left|done].
    + right. exists e. split; [apply elem_of_cons; by left|done].
  - right. exists e'. split; [apply elem_of_cons; by right|done].
Qed.

Lemma edge_weight_le g e u v :
  e ∈ Graph.edges g → joins e u v = true →
  ∃ w, edge_weight g u v = Some w ∧ (w <= Edge.weight e)%Q.
Proof. intros He Hj. by apply (edge_weight_fold_le (Graph.edges g) u v None). Qed.

Lemma edge_weight_edge g u v w :
  edge_weight g u v = Some w →
  ∃ e, e ∈ Graph.edges g ∧ joins e u v = true ∧ Edge.weight e = w.
Proof. intros [?|?]%edge_weight_fold_edge; done. Qed.

Lemma path_weight_snoc g p b c :
  last p = Some b →
  (path_weight g (p ++ [c]) == path_weight g p + default 0 (edge_weight g b c))%Q.
Proof.
  induction p as [|a [|a' l] IH]; intros Hlast; [done| |].
  - injection Hlast as ->. simpl. lra.
  - change (path_weight g ((a :: a' :: l) ++ [c]))
      with (default 0%Q (edge_weight g a a') + path_weight g ((a' :: l) ++ [c]))%Q.
    change (path_weight g (a :: a' :: l))
      with (default 0%Q (edge_weight g a a') + path_weight g (a' :: l))%Q.
    rewrite IH by done. lra.
Qed.

(** The nodes of a walk carry a walk whose edges are the lightest ones, and
    its weight is [path_weight]. *)
Lemma walk_path_weight g s c p W :
  walk g s c p W → (path_weight g p <= W)%Q ∧ walk g s c p (path_weight g p).
Proof.
  induction 1 as [W Hs H0|b c p W W1 e Hw [IHle IHw] He Hj Hc HW].
  - simpl. split; [lra|]. by apply walk_start.
  - destruct (walk_ends _ _ _ _ _ Hw) as [_ Hlast].
    pose proof (path_weight_snoc g p b c Hlast) as Hsnoc.
    destruct (edge_weight_le g e b c He Hj) as (w & Hew & Hle).
    rewrite Hew in Hsnoc. simpl in Hsnoc. split; [lra|].
    destruct (edge_weight_edge g b c w Hew) as (e' & He' & Hj' & Hw').
    eapply (walk_edge _ _ b c p _ _ e'); try done. rewrite Hw'. done.
Qed.

Lemma optimal_path_weight g s t p W :
  walk g s t p W → (∀ p' W', walk g s t p' W' → (W <= W')%Q) →
  (path_weight g p == W)%Q.
Proof.
  intros Hw Hmin. destruct (walk_path_weight _ _ _ _ _ Hw) as [Hle Hw'].
  specialize (Hmin _ _ Hw'). lra.
Qed.

(** ** Dijkstra: the final path is a lightest one *)

(** No edge has a negative weight. *)
Definition nonneg_weights (g : Graph.t) : Prop :=
  ∀ e, e ∈ Graph.edges g → (0 <= Edge.weight e)%Q.

(** The edge weights are positive integers. *)
Definition positive_integer_weights (g : Graph.t) : Prop :=
  ∀ e, e ∈ Graph.edges g → ∃ k : positive, Edge.weight e = inject_Z (Zpos k).

Lemma positive_integer_nonneg g : positive_integer_weights g → nonneg_weights g.
Proof.
  intros Hpos e He. destruct (Hpos e He) as [k ->].
  unfold Qle. simpl. lia.
Qed.

(** ** The range in which the numbers of the code are exact *)

(** [Number.MAX_SAFE_INTEGER]: an integer up to it is a double, and the sum
    of two non-negative integers that does not exceed it is computed
    exactly. *)
Definition MAX_SAFE_INTEGER : Z := 2 ^ 53 - 1.

(** The sum of the weights of all the edges. *)
Definition total_weight (g : Graph.t) : Q :=
  foldr (fun e acc => Edge.weight e + acc)%Q 0%Q (Graph.edges g).

(** The edge weights are positive integers whose sum is a safe integer.  A
    distance that a search computes is the weight of a path without
    repeated node, which is at most that sum: every addition and every
    comparison of distances in the code is then exact. *)
Definition safe_weights (g : Graph.t) : Prop :=
  positive_integer_weights g ∧ (total_weight g <= inject_Z MAX_SAFE_INTEGER)%Q.

(** The coordinates of the nodes are integers of absolute value at most
    [2^25]: the differences [dx] and [dy] and the sum [dx * dx + dy * dy]
    are then integers up to [2^53], computed exactly (no rounding, no
    overflow to [Infinity]), so that the distance of two nodes is
    [Math.sqrt] of the exact sum. *)
Definition integer_positions (nodes : list Node.t) : Prop :=
  ∀ n, n ∈ nodes →
    ∃ x y : Z, (Node.x n == inject_Z x)%Q ∧ (Node.y n == inject_Z y)%Q ∧
               (Z.abs x ≤ 2 ^ 25)%Z ∧ (Z.abs y ≤ 2 ^ 25)%Z.

Section dijkstra_optimal.
Context {H : MinHeap}.

(** On a graph without empty id and without negative weight, from a start
    that is a node of the graph: [dijkstra] returns; when the target is
    reachable the final path is a walk from the start to the target and no
    walk is lighter; a final path that is not empty means that the target
    is reachable. *)
Lemma dijkstra_optimal cfg :
  "" ∉ node_ids (graph cfg) → nonneg_weights (graph cfg) →
  startNode cfg ∈ node_ids (graph cfg) →
  ∃ r, Dijkstra.dijkstra cfg = Some r ∧
    (reachable (graph cfg) (startNode cfg) (endNode cfg) →
     ∃ W, walk (graph cfg) (startNode cfg) (endNode cfg) (AlgorithmResult.path r) W ∧
          ∀ p' W', walk (graph cfg) (startNode cfg) (endNode cfg) p' W' → (W <= W')%Q) ∧
    (AlgorithmResult.path r ≠ [] → reachable (graph cfg) (startNode cfg) (endNode cfg)).
Proof.
  intros Hne Hpos Hs. rewrite <- (dijkstra_astar cfg Hs).
  apply (astar_with_optimal h0 (fun _ => 0%Q) cfg); try done.
  intros e u c He _ _ _. specialize (Hpos e He). lra.
Qed.

End dijkstra_optimal.

(** ** A* and Dijkstra find paths of the same weight *)

Lemma walk_nonempty g s c W : ¬ walk g s c [] W.
Proof. intros Hw. by destruct (walk_ends _ _ _ _ _ Hw) as [_ ?]. Qed.

Lemma only_start_same_path cfg ra rd :
  only_start cfg ra → only_start cfg rd →
  AlgorithmResult.path ra = AlgorithmResult.path rd.
Proof.
  intros (sa & _ & _ & _ & _ & _ & _ & ->) (sd & _ & _ & _ & _ & _ & _ & ->). done.
Qed.

Section astar_dijkstra.
Context {H : MinHeap}.
Variable sqrt : Q → Q.

(** The value of [heuristic(n, endNode, graph)]. *)
Definition heuristic_value (cfg : AlgorithmConfig) (n : string) : Q :=
  match AStar.h_of sqrt cfg n with
  | Fin q => q
  | _ => 0
  end.

Lemma h_of_Fin cfg n : AStar.h_of sqrt cfg n = Fin (heuristic_value cfg n).
Proof.
  unfold heuristic_value, AStar.h_of, AStar.heuristic. by repeat case_match.
Qed.

(** The heuristic of a node is at most the weight of an edge to a neighbour
    plus the heuristic of the neighbour. *)
Definition consistent_heuristic (cfg : AlgorithmConfig) : Prop :=
  ∀ e u c, e ∈ Graph.edges (graph cfg) → joins e u c = true →
    u ∈ node_ids (graph cfg) → c ∈ node_ids (graph cfg) →
    (heuristic_value cfg u <= Edge.weight e + heuristic_value cfg c)%Q.

(** The heuristic of every node of the graph is an integer, and added to
    the sum of all the weights it stays a safe integer: the division by 20
    and every sum [tentativeG + h] of the code are then exact. *)
Definition exact_heuristic (cfg : AlgorithmConfig) : Prop :=
  ∀ n, n ∈ Graph.nodes (graph cfg) →
    ∃ k : Z, (heuristic_value cfg (Node.id n) == inject_Z k)%Q ∧
             (total_weight (graph cfg) + inject_Z k <= inject_Z MAX_SAFE_INTEGER)%Q.


End astar_dijkstra.

(** Three nodes on a line, 20 units apart, with the edges of the triangle:
    the heuristic values towards [c] are 2, 1 and 0. *)
Definition line_config : AlgorithmConfig :=
  mkConfig "a" "c"
    (Graph.mk [Node.mk "a" 0 0; Node.mk "b" 20 0; Node.mk "c" 40 0]
              [edge "a" "b" 1; edge "b" "c" 1; edge "a" "c" 5]).

Lemma line_config_consistent : consistent_heuristic int_sqrt line_config.
Proof.
  intros e u c He Hj _ _. apply joins_iff in Hj.
  simpl in He. rewrite !elem_of_cons, elem_of_nil in He.
  destruct He as [->|[->|[->|[]]]]; destruct Hj as [[<- <-]|[<- <-]]; by vm_compute.
Defined.

Lemma line_config_nonneg : nonneg_weights (graph line_config).
Proof.
  intros e He. simpl in He. rewrite !elem_of_cons, elem_of_nil in He.
  destruct He as [->|[->|[->|[]]]]; by vm_compute.
Defined.

Lemma line_config_safe : safe_weights (graph line_config).
Proof.
  split; [|by vm_compute].
  intros e He. simpl in He. rewrite !elem_of_cons, elem_of_nil in He.
  destruct He as [->|[->|[->|[]]]]; [by exists 1%positive..|by exists 5%positive].
Defined.

Lemma line_config_positions : integer_positions (Graph.nodes (graph line_config)).
Proof.
  intros n Hn. simpl in Hn. rewrite !elem_of_cons, elem_of_nil in Hn.
  destruct Hn as [->|[->|[->|[]]]];
    [exists 0%Z, 0%Z|exists 20%Z, 0%Z|exists 40%Z, 0%Z]; by vm_compute.
Defined.

Lemma line_config_exact : exact_heuristic int_sqrt line_config.
Proof.
  intros n Hn. simpl in Hn. rewrite !elem_of_cons, elem_of_nil in Hn.
  destruct Hn as [->|[->|[->|[]]]];
    [exists 2%Z|exists 1%Z|exists 0%Z]; by vm_compute.
Defined.


(** ** Batch run and step-by-step run: breadth-first search *)

Lemma step_until_null_S {S} (step : S → option (option PathStep.t * S)) fuel st :
  step_until_null step (Datatypes.S fuel) st
  = '(r, st) ← step st;
    match r with
    | None => Some ([], st)
    | Some s => '(ss, st) ← step_until_null step fuel st; Some (s :: ss, st)
    end.
Proof. reflexivity. Qed.

Lemma BFS_step_complete cfg v adj :
  BFS.step (BFS.mkState (Some cfg) v adj true)
  = Some (None, BFS.mkState (Some cfg) v adj true).
Proof. reflexivity. Qed.

Lemma BFS_step_empty cfg v adj :
  BFS.queue v = [] →
  BFS.step (BFS.mkState (Some cfg) v adj false)
  = Some (None, BFS.mkState (Some cfg) v adj false).
Proof. intros Hq. unfold BFS.step. simpl. by rewrite Hq. Qed.

Lemma BFS_step_pop cfg v adj cur rest s :
  BFS.queue v = cur :: rest →
  let v1 := BFS.mkVars (BFS.previousNodes v) (BFS.visitedNodes v) rest in
  BFS.snapshot cfg v1 cur = Some s →
  BFS.step (BFS.mkState (Some cfg) v adj false)
  = Some (Some s,
          if str_eq cur (endNode cfg) then BFS.mkState (Some cfg) v1 adj true
          else BFS.mkState (Some cfg)
                 (foldl (BFS.relax cur) v1 (default [] (adj !! cur))) adj false).
Proof.
  intros Hq v1 Hs. unfold BFS.step. simpl. rewrite Hq. fold v1. rewrite Hs. simpl.
  by destruct (str_eq cur (endNode cfg)).
Qed.

(** The loop of [bfs] from the variables [v] records what the calls of
    [step] return from the state that holds [v], and both end with the same
    variables. *)
Lemma BFS_loop_steps cfg adj fuel :
  ∀ acc v steps v',
    BFS.loop fuel cfg adj acc v = Some (steps, v') →
    ∃ outs st',
      step_until_null BFS.step (S fuel) (BFS.mkState (Some cfg) v adj false)
      = Some (outs, st') ∧
      steps = acc ++ outs ∧ BFS.vars_of st' = v'.
Proof.
  induction fuel as [|fuel IH]; intros acc v steps v' Hloop; [done|].
  cbn [BFS.loop] in Hloop. rewrite step_until_null_S.
  destruct (BFS.queue v) as [|cur rest] eqn:Hq.
  { injection Hloop as <- <-. rewrite (BFS_step_empty _ _ _ Hq). simpl.
    eexists _, _. split; [done|]. by rewrite app_nil_r. }
  set (v1 := BFS.mkVars _ _ rest) in *.
  destruct (BFS.snapshot cfg v1 cur) as [s|] eqn:Hs; [|done].
  rewrite (BFS_step_pop _ _ _ _ _ _ Hq Hs). fold v1. simpl in Hloop.
  destruct (str_eq cur (endNode cfg)) eqn:Hend.
  - injection Hloop as <- <-. cbn [mbind option_bind].
    rewrite step_until_null_S, BFS_step_complete. simpl.
    eexists _, _. split; [done|]. done.
  - destruct (IH _ _ _ _ Hloop) as (outs & st' & Hrun & -> & Hv).
    cbn [mbind option_bind]. rewrite Hrun. simpl.
    eexists _, _. split; [done|]. by rewrite <- app_assoc.
Qed.

(** X23: for breadth-first search the batch function and the step-by-step class
    agree: same steps in the same order, same parent map and visited set at
    the end, hence the same final path. *)
Lemma bfs_batch_steps cfg :
  ∃ r fuel outs st,
    BFS.bfs cfg = Some r ∧
    step_until_null BFS.step fuel (BFS.init cfg) = Some (outs, st) ∧
    AlgorithmResult.steps r = outs ∧
    reconstructPath (BFS.previousNodes (BFS.vars_of st)) (startNode cfg) (endNode cfg)
    = Some (AlgorithmResult.path r) ∧
    BFS.visitedNodes (BFS.vars_of st) = AlgorithmResult.visitedNodes r.
Proof.
  destruct (BFS_bfs_spec cfg) as (r & Hr & _). exists r.
  pose proof Hr as Hbatch. unfold BFS.bfs in Hr.
  destruct (BFS.loop _ cfg _ [] (BFS.init_vars cfg)) as [[steps v]|] eqn:Hloop; [|done].
  simpl in Hr.
  destruct (reconstructPath (BFS.previousNodes v) _ _) as [p|] eqn:Hp; [|done].
  injection Hr as <-. simpl.
  destruct (BFS_loop_steps _ _ _ _ _ _ _ Hloop) as (outs & st & Hrun & -> & <-).
  eexists _, outs, st. split; [done|]. split; [exact Hrun|]. done.
Qed.

(** ** Batch run and step-by-step run: Dijkstra *)

Section dijkstra_steps.
Context {H : MinHeap}.

(** An outdated entry of a node that is not visited comes with the entry
    that carries the current distance of the node. *)
Definition Dijkstra_fresh (v : Dijkstra.vars) : Prop :=
  ∀ f n, (f, n) ∈ heap_elems (Dijkstra.pq v) → n ∉ Dijkstra.visitedNodes v →
    num_lt (num_get (Dijkstra.distances v) n) f = true →
    (num_get (Dijkstra.distances v) n, n) ∈ heap_elems (Dijkstra.pq v).

Lemma Dijkstra_fresh_init cfg : Dijkstra_fresh (Dijkstra.init_vars cfg).
Proof.
  intros f n Hin _ Hlt. simpl in *.
  apply heap_push_elem in Hin as [[= -> ->]|Hin];
    [|rewrite heap_new_elems in Hin; by apply elem_of_nil in Hin].
  exfalso. unfold num_get in Hlt.
  destruct (Dijkstra.dist_init cfg !! startNode cfg) as [x|] eqn:Hx; [|done].
  apply (gScore_init_lookup cfg) in Hx as [[_ ->]|[? _]]; [|done].
  by rewrite num_lt_irrefl in Hlt.
Qed.

Lemma Dijkstra_fresh_skip v f n q :
  Dijkstra_fresh v → heap_pop (Dijkstra.pq v) = Some ((f, n), q) →
  n ∈ Dijkstra.visitedNodes v → Dijkstra_fresh (Dijkstra.with_pq v q).
Proof.
  intros Hinv Hpop Hn f' n' Hin Hn' Hlt. simpl in *.
  assert ((f', n') ∈ heap_elems (Dijkstra.pq v)) as Hold by (by eapply heap_pop_rest).
  specialize (Hinv f' n' Hold Hn' Hlt).
  apply (heap_pop_elems _ _ _ _ Hpop) in Hinv as [[= _ ->]|Hinv]; done.
Qed.

Lemma Dijkstra_fresh_visit v f n q :
  Dijkstra_fresh v → heap_pop (Dijkstra.pq v) = Some ((f, n), q) →
  Dijkstra_fresh (Dijkstra.visit (Dijkstra.with_pq v q) n).
Proof.
  intros Hinv Hpop f' n' Hin Hn' Hlt. simpl in *.
  assert ((f', n') ∈ heap_elems (Dijkstra.pq v)) as Hold by (by eapply heap_pop_rest).
  assert (n' ∉ Dijkstra.visitedNodes v) as Hnv by set_solver.
  specialize (Hinv f' n' Hold Hnv Hlt).
  apply (heap_pop_elems _ _ _ _ Hpop) in Hinv as [[= _ ->]|Hinv]; [set_solver|done].
Qed.

(** The entry popped for a node that is not visited is not outdated. *)
Lemma Dijkstra_fresh_popped v f n q :
  Dijkstra_fresh v → heap_pop (Dijkstra.pq v) = Some ((f, n), q) →
  n ∉ Dijkstra.visitedNodes v →
  num_gt f (num_get (Dijkstra.distances v) n) = false.
Proof.
  intros Hinv Hpop Hn. unfold num_gt.
  destruct (num_lt (num_get (Dijkstra.distances v) n) f) eqn:Hlt; [|done].
  pose proof (Hinv f n (heap_pop_elem _ _ _ Hpop) Hn Hlt) as Hin.
  apply (heap_pop_elems _ _ _ _ Hpop) in Hin as [[= Heq]|Hin].
  - rewrite Heq, num_lt_irrefl in Hlt. done.
  - destruct (heap_pop_some _ _ _ Hpop) as [_ Hmin].
    specialize (Hmin _ Hin). simpl in Hmin. congruence.
Qed.

Lemma Dijkstra_fresh_relax cur v nb :
  Dijkstra_fresh v → Dijkstra_fresh (Dijkstra.relax cur v nb).
Proof.
  intros Hinv. destruct nb as [c w]. unfold Dijkstra.relax.
  destruct (decide (c ∈ Dijkstra.visitedNodes v)) as [|Hc]; [done|].
  destruct (num_lt _ _) eqn:Hlt; [|done].
  intros f n Hin Hn Hstale. simpl in *.
  unfold num_get in *. apply heap_push_elem.
  destruct (decide (n = c)) as [->|Hne].
  - rewrite lookup_insert_eq. simpl. by left.
  - rewrite lookup_insert_ne in Hstale |- * by done. right.
    apply heap_push_elem in Hin as [[= _ ->]|Hin]; [done|].
    by apply (Hinv f n).
Qed.

Lemma Dijkstra_fresh_relax_fold cur nb :
  ∀ v, Dijkstra_fresh v → Dijkstra_fresh (foldl (Dijkstra.relax cur) v nb).
Proof.
  induction nb as [|x nb IH]; intros v Hinv; [done|].
  simpl. by apply IH, Dijkstra_fresh_relax.
Qed.

Lemma Dijkstra_step_complete cfg v adj :
  Dijkstra.step (Dijkstra.mkState (Some cfg) v adj true)
  = Some (None, Dijkstra.mkState (Some cfg) v adj true).
Proof. reflexivity. Qed.

Lemma Dijkstra_step_empty cfg v adj :
  heap_isEmpty (Dijkstra.pq v) = true →
  Dijkstra.step (Dijkstra.mkState (Some cfg) v adj false)
  = Some (None, Dijkstra.mkState (Some cfg) v adj false).
Proof. intros He. unfold Dijkstra.step. simpl. by rewrite He. Qed.

Lemma Dijkstra_step_undefined cfg v adj :
  heap_isEmpty (Dijkstra.pq v) = false → heap_pop (Dijkstra.pq v) = None →
  Dijkstra.step (Dijkstra.mkState (Some cfg) v adj false)
  = Some (None, Dijkstra.mkState (Some cfg) v adj true).
Proof. intros He Hpop. unfold Dijkstra.step. simpl. by rewrite He, Hpop. Qed.

Lemma Dijkstra_step_skip cfg v adj f n q :
  heap_isEmpty (Dijkstra.pq v) = false →
  heap_pop (Dijkstra.pq v) = Some ((f, n), q) →
  n ∈ Dijkstra.visitedNodes v →
  Dijkstra.step (Dijkstra.mkState (Some cfg) v adj false)
  = Dijkstra.step (Dijkstra.mkState (Some cfg) (Dijkstra.with_pq v q) adj false).
Proof.
  intros He Hpop Hn. unfold Dijkstra.step.
  cbn [Dijkstra.config Dijkstra.vars_of].
  rewrite (heap_pop_length _ _ _ Hpop).
  change (Dijkstra.pq (Dijkstra.with_pq v q)) with q.
  set (k := S (length (heap_elems q))).
  cbn [Dijkstra.step_go Dijkstra.complete Dijkstra.vars_of orb].
  rewrite He, Hpop. cbn [Dijkstra.with_pq Dijkstra.visitedNodes].
  by rewrite decide_True by done.
Qed.

Lemma Dijkstra_step_visit cfg v adj f n q s :
  heap_isEmpty (Dijkstra.pq v) = false →
  heap_pop (Dijkstra.pq v) = Some ((f, n), q) →
  n ∉ Dijkstra.visitedNodes v →
  num_gt f (num_get (Dijkstra.distances v) n) = false →
  let v2 := Dijkstra.visit (Dijkstra.with_pq v q) n in
  Dijkstra.snapshot cfg v2 n = Some s →
  Dijkstra.step (Dijkstra.mkState (Some cfg) v adj false)
  = Some (Some s,
          if str_eq n (endNode cfg) then Dijkstra.mkState (Some cfg) v2 adj true
          else Dijkstra.mkState (Some cfg)
                 (foldl (Dijkstra.relax n) v2 (default [] (adj !! n))) adj false).
Proof.
  intros He Hpop Hn Hfresh v2 Hs. unfold Dijkstra.step.
  cbn [Dijkstra.config Dijkstra.vars_of Dijkstra.step_go Dijkstra.complete orb].
  rewrite He, Hpop. cbn [Dijkstra.with_pq Dijkstra.visitedNodes Dijkstra.distances].
  rewrite decide_False by done. rewrite Hfresh.
  fold (Dijkstra.with_pq v q). fold v2. rewrite Hs. simpl.
  by destruct (str_eq n (endNode cfg)).
Qed.

(** The loop of [dijkstra] from the variables [v] records what the calls of
    [step] return from the state that holds [v], and both end with the same
    variables. *)
Lemma Dijkstra_loop_steps cfg adj fuel :
  ∀ acc v steps v',
    Dijkstra_fresh v →
    Dijkstra.loop fuel cfg adj acc v = Some (steps, v') →
    ∃ k outs st',
      step_until_null Dijkstra.step k (Dijkstra.mkState (Some cfg) v adj false)
      = Some (outs, st') ∧
      steps = acc ++ outs ∧ Dijkstra.vars_of st' = v'.
Proof.
  induction fuel as [|fuel IH]; intros acc v steps v' Hinv Hloop; [done|].
  cbn [Dijkstra.loop] in Hloop.
  destruct (heap_isEmpty (Dijkstra.pq v)) eqn:He.
  { injection Hloop as <- <-. exists 1%nat.
    rewrite step_until_null_S, (Dijkstra_step_empty _ _ _ He). simpl.
    eexists _, _. split; [done|]. by rewrite app_nil_r. }
  destruct (heap_pop (Dijkstra.pq v)) as [[[f n] q]|] eqn:Hpop.
  2:{ injection Hloop as <- <-. exists 1%nat.
      rewrite step_until_null_S, (Dijkstra_step_undefined _ _ _ He Hpop). simpl.
      eexists _, _. split; [done|]. by rewrite app_nil_r. }
  cbn [Dijkstra.with_pq Dijkstra.visitedNodes] in Hloop.
  destruct (decide (n ∈ Dijkstra.visitedNodes v)) as [Hn|Hn].
  - destruct (IH _ _ _ _ (Dijkstra_fresh_skip _ _ _ _ Hinv Hpop Hn) Hloop)
      as (k & outs & st' & Hrun & -> & Hv).
    destruct k as [|k]; [done|]. exists (S k), outs, st'.
    rewrite step_until_null_S in Hrun |- *.
    rewrite (Dijkstra_step_skip _ _ _ _ _ _ He Hpop Hn). done.
  - fold (Dijkstra.with_pq v q) in Hloop.
    set (v2 := Dijkstra.visit (Dijkstra.with_pq v q) n) in *.
    destruct (Dijkstra.snapshot cfg v2 n) as [s|] eqn:Hs; [|done].
    pose proof (Dijkstra_fresh_popped _ _ _ _ Hinv Hpop Hn) as Hfresh.
    pose proof (Dijkstra_step_visit cfg v adj f n q s He Hpop Hn Hfresh Hs) as Hstep.
    fold v2 in Hstep. cbn [mbind option_bind] in Hloop.
    destruct (str_eq n (endNode cfg)) eqn:Hend.
    + injection Hloop as <- <-. exists 2%nat.
      rewrite step_until_null_S, Hstep. cbn [mbind option_bind].
      rewrite step_until_null_S, Dijkstra_step_complete. simpl.
      eexists _, _. split; [done|]. done.
    + change (Dijkstra.distances v2) with (Dijkstra.distances v) in Hloop.
      rewrite Hfresh in Hloop.
      assert (Dijkstra_fresh (foldl (Dijkstra.relax n) v2 (default [] (adj !! n))))
        as Hinv' by (by eapply Dijkstra_fresh_relax_fold, Dijkstra_fresh_visit).
      destruct (IH _ _ _ _ Hinv' Hloop) as (k & outs & st' & Hrun & -> & Hv).
      exists (S k). rewrite step_until_null_S, Hstep. cbn [mbind option_bind].
      rewrite Hrun. simpl. eexists _, _. split; [done|]. by rewrite <- app_assoc.
Qed.

(** X24: for Dijkstra the batch function and the step-by-step class agree, for
    every heap that meets the contract: same steps in the same order, same
    parent map and visited set at the end, hence the same final path. *)
Lemma dijkstra_batch_steps cfg :
  ∃ r fuel outs st,
    Dijkstra.dijkstra cfg = Some r ∧
    step_until_null Dijkstra.step fuel (Dijkstra.init cfg) = Some (outs, st) ∧
    AlgorithmResult.steps r = outs ∧
    reconstructPath (Dijkstra.previousNodes (Dijkstra.vars_of st))
      (startNode cfg) (endNode cfg)
    = Some (AlgorithmResult.path r) ∧
    Dijkstra.visitedNodes (Dijkstra.vars_of st) = AlgorithmResult.visitedNodes r.
Proof.
  destruct (Dijkstra_dijkstra_spec cfg) as (r & Hr & _). exists r.
  pose proof Hr as Hbatch. unfold Dijkstra.dijkstra in Hr.
  destruct (Dijkstra.loop _ cfg _ [] (Dijkstra.init_vars cfg))
    as [[steps v]|] eqn:Hloop; [|done].
  simpl in Hr.
  destruct (reconstructPath (Dijkstra.previousNodes v) _ _) as [p|] eqn:Hp; [|done].
  injection Hr as <-. simpl.
  destruct (Dijkstra_loop_steps _ _ _ _ _ _ _ (Dijkstra_fresh_init cfg) Hloop)
    as (k & outs & st & Hrun & -> & <-).
  exists k, outs, st. split; [done|]. split; [exact Hrun|]. done.
Qed.

End dijkstra_steps.

(** ** Batch run and step-by-step run: A* *)

Section astar_steps.
Context {H : MinHeap}.
Variable sqrt : Q → Q.

(** An outdated entry of a node that is not visited comes with the entry
    that carries the current score of the node. *)
Definition AStar_fresh (v : AStar.vars) : Prop :=
  ∀ f n, (f, n) ∈ heap_elems (AStar.openSet v) → n ∉ AStar.visitedNodes v →
    num_lt (num_get (AStar.fScore v) n) f = true →
    (num_get (AStar.fScore v) n, n) ∈ heap_elems (AStar.openSet v).

Lemma AStar_fresh_init cfg :
  AStar_fresh (AStar.init_vars (AStar.h_of sqrt cfg) cfg).
Proof.
  intros f n Hin _ Hlt. simpl in *.
  apply heap_push_elem in Hin as [[= -> ->]|Hin];
    [|rewrite heap_new_elems in Hin; by apply elem_of_nil in Hin].
  by rewrite num_lt_irrefl in Hlt.
Qed.

Lemma AStar_fresh_skip v f n q :
  AStar_fresh v → heap_pop (AStar.openSet v) = Some ((f, n), q) →
  n ∈ AStar.visitedNodes v → AStar_fresh (AStar.with_openSet v q).
Proof.
  intros Hinv Hpop Hn f' n' Hin Hn' Hlt. simpl in *.
  assert ((f', n') ∈ heap_elems (AStar.openSet v)) as Hold by (by eapply heap_pop_rest).
  specialize (Hinv f' n' Hold Hn' Hlt).
  apply (heap_pop_elems _ _ _ _ Hpop) in Hinv as [[= _ ->]|Hinv]; done.
Qed.

Lemma AStar_fresh_visit v f n q :
  AStar_fresh v → heap_pop (AStar.openSet v) = Some ((f, n), q) →
  AStar_fresh (AStar.visit (AStar.with_openSet v q) n).
Proof.
  intros Hinv Hpop f' n' Hin Hn' Hlt. simpl in *.
  assert ((f', n') ∈ heap_elems (AStar.openSet v)) as Hold by (by eapply heap_pop_rest).
  assert (n' ∉ AStar.visitedNodes v) as Hnv by set_solver.
  specialize (Hinv f' n' Hold Hnv Hlt).
  apply (heap_pop_elems _ _ _ _ Hpop) in Hinv as [[= _ ->]|Hinv]; [set_solver|done].
Qed.

(** The entry popped for a node that is not visited is not outdated. *)
Lemma AStar_fresh_popped v f n q :
  AStar_fresh v → heap_pop (AStar.openSet v) = Some ((f, n), q) →
  n ∉ AStar.visitedNodes v →
  num_gt f (num_get (AStar.fScore v) n) = false.
Proof.
  intros Hinv Hpop Hn. unfold num_gt.
  destruct (num_lt (num_get (AStar.fScore v) n) f) eqn:Hlt; [|done].
  pose proof (Hinv f n (heap_pop_elem _ _ _ Hpop) Hn Hlt) as Hin.
  apply (heap_pop_elems _ _ _ _ Hpop) in Hin as [[= Heq]|Hin].
  - rewrite Heq, num_lt_irrefl in Hlt. done.
  - destruct (heap_pop_some _ _ _ Hpop) as [_ Hmin].
    specialize (Hmin _ Hin). simpl in Hmin. congruence.
Qed.

Lemma AStar_fresh_relax cfg cur v nb :
  AStar_fresh v → AStar_fresh (AStar.relax (AStar.h_of sqrt cfg) cur v nb).
Proof.
  intros Hinv. destruct nb as [c w]. unfold AStar.relax.
  destruct (decide (c ∈ AStar.visitedNodes v)) as [|Hc]; [done|].
  destruct (num_lt _ _) eqn:Hlt; [|done].
  intros f n Hin Hn Hstale. simpl in *.
  unfold num_get in *. apply heap_push_elem.
  destruct (decide (n = c)) as [->|Hne].
  - rewrite lookup_insert_eq. simpl. by left.
  - rewrite lookup_insert_ne in Hstale |- * by done. right.
    apply heap_push_elem in Hin as [[= _ ->]|Hin]; [done|].
    by apply (Hinv f n).
Qed.

Lemma AStar_fresh_relax_fold cfg cur nb :
  ∀ v, AStar_fresh v →
       AStar_fresh (foldl (AStar.relax (AStar.h_of sqrt cfg) cur) v nb).
Proof.
  induction nb as [|x nb IH]; intros v Hinv; [done|].
  simpl. by apply IH, AStar_fresh_relax.
Qed.

Lemma AStar_step_complete cfg v adj :
  AStar.step sqrt (AStar.mkState (Some cfg) v adj true)
  = Some (None, AStar.mkState (Some cfg) v adj true).
Proof. reflexivity. Qed.

Lemma AStar_step_empty cfg v adj :
  heap_isEmpty (AStar.openSet v) = true →
  AStar.step sqrt (AStar.mkState (Some cfg) v adj false)
  = Some (None, AStar.mkState (Some cfg) v adj false).
Proof. intros He. unfold AStar.step. simpl. by rewrite He. Qed.

Lemma AStar_step_undefined cfg v adj :
  heap_isEmpty (AStar.openSet v) = false → heap_pop (AStar.openSet v) = None →
  AStar.step sqrt (AStar.mkState (Some cfg) v adj false)
  = Some (None, AStar.mkState (Some cfg) v adj true).
Proof. intros He Hpop. unfold AStar.step. simpl. by rewrite He, Hpop. Qed.

Lemma AStar_step_skip cfg v adj f n q :
  heap_isEmpty (AStar.openSet v) = false →
  heap_pop (AStar.openSet v) = Some ((f, n), q) →
  n ∈ AStar.visitedNodes v →
  AStar.step sqrt (AStar.mkState (Some cfg) v adj false)
  = AStar.step sqrt (AStar.mkState (Some cfg) (AStar.with_openSet v q) adj false).
Proof.
  intros He Hpop Hn. unfold AStar.step.
  cbn [AStar.config AStar.vars_of].
  rewrite (heap_pop_length _ _ _ Hpop).
  change (AStar.openSet (AStar.with_openSet v q)) with q.
  set (k := S (length (heap_elems q))).
  cbn [AStar.step_go AStar.complete AStar.vars_of orb].
  rewrite He, Hpop. cbn [AStar.with_openSet AStar.visitedNodes].
  by rewrite decide_True by done.
Qed.

Lemma AStar_step_visit cfg v adj f n q s :
  heap_isEmpty (AStar.openSet v) = false →
  heap_pop (AStar.openSet v) = Some ((f, n), q) →
  n ∉ AStar.visitedNodes v →
  num_gt f (num_get (AStar.fScore v) n) = false →
  let v2 := AStar.visit (AStar.with_openSet v q) n in
  AStar.snapshot cfg v2 n = Some s →
  AStar.step sqrt (AStar.mkState (Some cfg) v adj false)
  = Some (Some s,
          if str_eq n (endNode cfg) then AStar.mkState (Some cfg) v2 adj true
          else AStar.mkState (Some cfg)
                 (foldl (AStar.relax (AStar.h_of sqrt cfg) n) v2 (default [] (adj !! n))) adj false).
Proof.
  intros He Hpop Hn Hfresh v2 Hs. unfold AStar.step.
  cbn [AStar.config AStar.vars_of AStar.step_go AStar.complete orb].
  rewrite He, Hpop. cbn [AStar.with_openSet AStar.visitedNodes AStar.fScore].
  rewrite decide_False by done. rewrite Hfresh.
  fold (AStar.with_openSet v q). fold v2. rewrite Hs. simpl.
  by destruct (str_eq n (endNode cfg)).
Qed.

(** The loop of [astar] from the variables [v] records what the calls of
    [step] return from the state that holds [v], and both end with the same
    variables. *)
Lemma AStar_loop_steps cfg adj fuel :
  ∀ acc v steps v',
    AStar_fresh v →
    AStar.loop (AStar.h_of sqrt cfg) fuel cfg adj acc v = Some (steps, v') →
    ∃ k outs st',
      step_until_null (AStar.step sqrt) k (AStar.mkState (Some cfg) v adj false)
      = Some (outs, st') ∧
      steps = acc ++ outs ∧ AStar.vars_of st' = v'.
Proof.
  induction fuel as [|fuel IH]; intros acc v steps v' Hinv Hloop; [done|].
  cbn [AStar.loop] in Hloop.
  destruct (heap_isEmpty (AStar.openSet v)) eqn:He.
  { injection Hloop as <- <-. exists 1%nat.
    rewrite step_until_null_S, (AStar_step_empty _ _ _ He). simpl.
    eexists _, _. split; [done|]. by rewrite app_nil_r. }
  destruct (heap_pop (AStar.openSet v)) as [[[f n] q]|] eqn:Hpop.
  2:{ injection Hloop as <- <-. exists 1%nat.
      rewrite step_until_null_S, (AStar_step_undefined _ _ _ He Hpop). simpl.
      eexists _, _. split; [done|]. by rewrite app_nil_r. }
  cbn [AStar.with_openSet AStar.visitedNodes] in Hloop.
  destruct (decide (n ∈ AStar.visitedNodes v)) as [Hn|Hn].
  - destruct (IH _ _ _ _ (AStar_fresh_skip _ _ _ _ Hinv Hpop Hn) Hloop)
      as (k & outs & st' & Hrun & -> & Hv).
    destruct k as [|k]; [done|]. exists (S k), outs, st'.
    rewrite step_until_null_S in Hrun |- *.
    rewrite (AStar_step_skip _ _ _ _ _ _ He Hpop Hn). done.
  - fold (AStar.with_openSet v q) in Hloop.
    set (v2 := AStar.visit (AStar.with_openSet v q) n) in *.
    destruct (AStar.snapshot cfg v2 n) as [s|] eqn:Hs; [|done].
    pose proof (AStar_fresh_popped _ _ _ _ Hinv Hpop Hn) as Hfresh.
    pose proof (AStar_step_visit cfg v adj f n q s He Hpop Hn Hfresh Hs) as Hstep.
    fold v2 in Hstep. cbn [mbind option_bind] in Hloop.
    destruct (str_eq n (endNode cfg)) eqn:Hend.
    + injection Hloop as <- <-. exists 2%nat.
      rewrite step_until_null_S, Hstep. cbn [mbind option_bind].
      rewrite step_until_null_S, AStar_step_complete. simpl.
      eexists _, _. split; [done|]. done.
    + change (AStar.fScore v2) with (AStar.fScore v) in Hloop.
      rewrite Hfresh in Hloop.
      assert (AStar_fresh (foldl (AStar.relax (AStar.h_of sqrt cfg) n) v2 (default [] (adj !! n))))
        as Hinv' by (by eapply AStar_fresh_relax_fold, AStar_fresh_visit).
      destruct (IH _ _ _ _ Hinv' Hloop) as (k & outs & st' & Hrun & -> & Hv).
      exists (S k). rewrite step_until_null_S, Hstep. cbn [mbind option_bind].
      rewrite Hrun. simpl. eexists _, _. split; [done|]. by rewrite <- app_assoc.
Qed.

(** X25: for A* the batch function and the step-by-step class agree, for
    every heap that meets the contract: same steps in the same order, same
    parent map and visited set at the end, hence the same final path. *)
Lemma astar_batch_steps cfg :
  ∃ r fuel outs st,
    AStar.astar sqrt cfg = Some r ∧
    step_until_null (AStar.step sqrt) fuel (AStar.init sqrt cfg) = Some (outs, st) ∧
    AlgorithmResult.steps r = outs ∧
    reconstructPath (AStar.previousNodes (AStar.vars_of st))
      (startNode cfg) (endNode cfg)
    = Some (AlgorithmResult.path r) ∧
    AStar.visitedNodes (AStar.vars_of st) = AlgorithmResult.visitedNodes r.
Proof.
  destruct (AStar_astar_with_spec (AStar.h_of sqrt cfg) cfg) as (r & Hr & _). exists r.
  pose proof Hr as Hbatch. unfold AStar.astar, AStar.astar_with in Hr.
  destruct (AStar.loop (AStar.h_of sqrt cfg) _ cfg _ [] (AStar.init_vars (AStar.h_of sqrt cfg) cfg))
    as [[steps v]|] eqn:Hloop; [|done].
  simpl in Hr.
  destruct (reconstructPath (AStar.previousNodes v) _ _) as [p|] eqn:Hp; [|done].
  injection Hr as <-. simpl.
  destruct (AStar_loop_steps _ _ _ _ _ _ _ (AStar_fresh_init cfg) Hloop)
    as (k & outs & st & Hrun & -> & <-).
  exists k, outs, st. split; [done|]. split; [exact Hrun|]. done.
Qed.

End astar_steps.

(** ** Dijkstra on graphs whose ids are not empty *)

Lemma walk_from_node g s c p W : walk g s c p W → s ∈ node_ids g.
Proof. induction 1; done. Qed.

(** X20: with positive integer weights whose sum is a safe integer (so
    that every distance the code computes is exact), no empty id and a
    reachable target, [dijkstra] returns a path that starts at the start
    node, ends at the end node, follows edges of the graph, and whose total
    weight is the least weight of a walk from the start node to the end
    node. *)
Lemma dijkstra_shortest_path {H : MinHeap} cfg :
  "" ∉ node_ids (graph cfg) → safe_weights (graph cfg) →
  reachable (graph cfg) (startNode cfg) (endNode cfg) →
  ∃ r, Dijkstra.dijkstra cfg = Some r ∧
    head (AlgorithmResult.path r) = Some (startNode cfg) ∧
    last (AlgorithmResult.path r) = Some (endNode cfg) ∧
    walk (graph cfg) (startNode cfg) (endNode cfg) (AlgorithmResult.path r)
      (path_weight (graph cfg) (AlgorithmResult.path r)) ∧
    ∀ p' W', walk (graph cfg) (startNode cfg) (endNode cfg) p' W' →
             (path_weight (graph cfg) (AlgorithmResult.path r) <= W')%Q.
Proof.
  intros Hne [Hpos _] Hreach.
  assert (startNode cfg ∈ node_ids (graph cfg)) as Hs.
  { destruct Hreach as (p & W & Hw). by eapply walk_from_node. }
  destruct (dijkstra_optimal cfg Hne (positive_integer_nonneg _ Hpos) Hs)
    as (r & Hr & Hopt & _).
  destruct (Hopt Hreach) as (W & Hw & Hmin).
  exists r. split; [done|].
  destruct (walk_ends _ _ _ _ _ Hw) as [Hhd Hlast].
  destruct (walk_path_weight _ _ _ _ _ Hw) as [_ Hw'].
  pose proof (optimal_path_weight _ _ _ _ _ Hw Hmin) as HW.
  repeat split; try done.
  intros p' W' Hw2. specialize (Hmin _ _ Hw2). lra.
Qed.

(** * Further properties of the searches *)

(** ** The neighbour lists *)

Lemma adjacency_fold (l : list Edge.t) (m : gmap string (list string)) u c :
  c ∈ default []
    (foldl (fun adj e =>
              adj_push (Edge.to e) (Edge.from e)
                (adj_push (Edge.from e) (Edge.to e) adj)) m l !! u)
  ↔ c ∈ default [] (m !! u) ∨ (u ∈ dom m ∧ ∃ e, e ∈ l ∧ joins e u c = true).
Proof.
  revert m. induction l as [|e l IH]; intros m; simpl.
  { split; [by left|]. intros [?|(_ & e & []%elem_of_nil & _)]. done. }
  rewrite IH, !adj_push_dom, !adj_push_elem, adj_push_dom. clear IH.
  setoid_rewrite elem_of_cons. setoid_rewrite joins_iff. naive_solver.
Qed.

(** The neighbours of a node in the index of BFS and DFS: the other ends of
    the edges that touch it. *)
Lemma adjacency_spec g u c :
  c ∈ default [] (adjacency g !! u)
  ↔ u ∈ node_ids g ∧ ∃ e, e ∈ Graph.edges g ∧ joins e u c = true.
Proof.
  unfold adjacency. rewrite adjacency_fold, adj_init_lookup, adj_init_dom.
  rewrite elem_of_nil. naive_solver.
Qed.

Lemma joins_sym e u c : joins e u c = joins e c u.
Proof.
  apply eq_true_iff_eq. rewrite !joins_iff. naive_solver.
Qed.

(** X1: the adjacency indexes list, for a node of the graph, exactly the
    other ends of the edges that touch it (with the weight of the edge in
    the weighted index), in either direction; an id that is not a node has
    no neighbour; and between two nodes the relation is symmetric. *)
Theorem adjacency_lists_edges g u c w :
  (c ∈ default [] (adjacency g !! u)
   ↔ u ∈ node_ids g ∧ ∃ e, e ∈ Graph.edges g ∧ joins e u c = true) ∧
  ((c, w) ∈ default [] (weighted_adjacency g !! u)
   ↔ u ∈ node_ids g ∧
     ∃ e, e ∈ Graph.edges g ∧ joins e u c = true ∧ Edge.weight e = w) ∧
  (u ∈ node_ids g → c ∈ node_ids g →
   (c ∈ default [] (adjacency g !! u) ↔ u ∈ default [] (adjacency g !! c)) ∧
   ((c, w) ∈ default [] (weighted_adjacency g !! u)
    ↔ (u, w) ∈ default [] (weighted_adjacency g !! c))).
Proof.
  split; [apply adjacency_spec|]. split; [apply weighted_adjacency_spec|].
  intros Hu Hc. rewrite !adjacency_spec, !weighted_adjacency_spec.
  setoid_rewrite (joins_sym _ u c). naive_solver.
Qed.

(** ** Depth-first search, batch function, on a graph without dangling edge *)

(** Every edge joins two nodes of the graph. *)
Definition edges_closed (g : Graph.t) : Prop :=
  ∀ e, e ∈ Graph.edges g → Edge.from e ∈ node_ids g ∧ Edge.to e ∈ node_ids g.

Lemma joins_closed g e u c :
  edges_closed g → e ∈ Graph.edges g → joins e u c = true → c ∈ node_ids g.
Proof.
  intros Hg He [[_ <-]|[_ <-]]%joins_iff; by apply Hg.
Qed.

(** The loop over the neighbours in [dfs] changes nothing when all of them
    are keys of the parent map. *)
Lemma DFS_relax_known cur nb :
  ∀ v, (∀ n, n ∈ nb → is_Some (DFS.previousNodes v !! n)) →
       foldl (DFS.relax cur) v nb = v.
Proof.
  induction nb as [|n nb IH]; intros v Hnb; [done|]. simpl.
  assert (DFS.relax cur v n = v) as ->.
  { unfold DFS.relax. destruct (decide _); [done|].
    destruct (Hnb n) as [x ->]; [apply elem_of_cons; by left|done]. }
  apply IH. intros m Hm. apply Hnb, elem_of_cons. by right.
Qed.

Lemma elem_of_rev_list {A} (x : A) (l : list A) : x ∈ rev l ↔ x ∈ l.
Proof. rewrite rev_alt. apply (elem_of_reverse x l). Qed.

Lemma prev_init_is_Some g n : n ∈ node_ids g → is_Some (prev_init g !! n).
Proof. rewrite <- prev_init_dom. apply elem_of_dom. Qed.

(** X2: on a graph whose edges all join nodes of the graph, [dfs] never
    leaves the start node: every neighbour is already a key of the parent
    map, so the test [!previousNodes.has(neighborId)] fails for all of them.
    It records the single step of the start node and returns the path
    [[start]] when the end node is the start node, and the empty path
    otherwise, whatever the edges are. *)
Theorem dfs_never_leaves_start cfg :
  edges_closed (graph cfg) →
  ∃ r, DFS.dfs cfg = Some r ∧ only_start cfg r.
Proof.
  intros Hg.
  destruct (decide (startNode cfg ∈ node_ids (graph cfg))) as [Hs|Hs];
    [|by apply DFS_missing_start].
  unfold DFS.dfs.
  cbn [DFS.loop DFS.init_vars DFS.stack DFS.previousNodes DFS.visitedNodes].
  rewrite decide_False by set_solver.
  unfold DFS.snapshot, DFS.visit, DFS.init_vars. cbn [DFS.previousNodes DFS.visitedNodes].
  rewrite reconstructPath_prev_init, str_eq_refl. cbn [mbind option_bind].
  rewrite union_empty_l_L.
  rewrite DFS_relax_known.
  2:{ intros n Hn. apply (proj1 (elem_of_rev_list _ _)) in Hn.
      cbn [DFS.previousNodes]. apply prev_init_is_Some.
      apply adjacency_spec in Hn as (_ & e & He & Hj). by eapply joins_closed. }
  cbn [DFS.stack].
  destruct (str_eq (startNode cfg) (endNode cfg)) eqn:Hse;
    cbn [mbind option_bind DFS.previousNodes DFS.visitedNodes];
    rewrite reconstructPath_prev_init; cbn [mbind option_bind];
    only_start_done.
Qed.

Lemma triangle_edges_closed : edges_closed triangle.
Proof.
  intros e He. simpl in He. rewrite !elem_of_cons, elem_of_nil in He.
  destruct He as [->|[->|[->|[]]]]; by vm_compute.
Defined.

Lemma dfs_never_leaves_start_witness :
  ∃ r, DFS.dfs triangle_config = Some r ∧ only_start triangle_config r.
Proof. apply (dfs_never_leaves_start triangle_config), triangle_edges_closed. Defined.

(** ** The first step of a run *)

(** The loops only append to the steps recorded so far. *)
Lemma BFS_loop_prefix cfg adj fuel :
  ∀ acc v steps v',
    BFS.loop fuel cfg adj acc v = Some (steps, v') → ∃ outs, steps = acc ++ outs.
Proof.
  induction fuel as [|fuel IH]; intros acc v steps v' Hloop; [done|].
  cbn [BFS.loop] in Hloop.
  destruct (BFS.queue v) as [|cur rest].
  { injection Hloop as <- <-. exists []. by rewrite app_nil_r. }
  destruct (BFS.snapshot cfg _ cur) as [s|]; [|done]. simpl in Hloop.
  destruct (str_eq cur (endNode cfg)).
  - injection Hloop as <- <-. by exists [s].
  - apply IH in Hloop as [outs ->]. exists (s :: outs). by rewrite <- app_assoc.
Qed.

Lemma DFS_loop_prefix cfg adj fuel :
  ∀ acc v steps v',
    DFS.loop fuel cfg adj acc v = Some (steps, v') → ∃ outs, steps = acc ++ outs.
Proof.
  induction fuel as [|fuel IH]; intros acc v steps v' Hloop; [done|].
  cbn [DFS.loop] in Hloop.
  destruct (DFS.stack v) as [|cur rest].
  { injection Hloop as <- <-. exists []. by rewrite app_nil_r. }
  destruct (decide (cur ∈ DFS.visitedNodes v)); [by eapply IH|].
  destruct (DFS.snapshot cfg _ cur) as [s|]; [|done]. simpl in Hloop.
  destruct (str_eq cur (endNode cfg)).
  - injection Hloop as <- <-. by exists [s].
  - apply IH in Hloop as [outs ->]. exists (s :: outs). by rewrite <- app_assoc.
Qed.

Lemma Dijkstra_loop_prefix {H : MinHeap} cfg adj fuel :
  ∀ acc v steps v',
    Dijkstra.loop fuel cfg adj acc v = Some (steps, v') → ∃ outs, steps = acc ++ outs.
Proof.
  induction fuel as [|fuel IH]; intros acc v steps v' Hloop; [done|].
  cbn [Dijkstra.loop] in Hloop.
  destruct (heap_isEmpty (Dijkstra.pq v)).
  { injection Hloop as <- <-. exists []. by rewrite app_nil_r. }
  destruct (heap_pop (Dijkstra.pq v)) as [[[f n] q]|].
  2:{ injection Hloop as <- <-. exists []. by rewrite app_nil_r. }
  destruct (decide _); [by eapply IH|].
  destruct (Dijkstra.snapshot cfg _ n) as [s|]; [|done]. simpl in Hloop.
  destruct (str_eq n (endNode cfg)).
  - injection Hloop as <- <-. by exists [s].
  - destruct (num_gt _ _); apply IH in Hloop as [outs ->];
      exists (s :: outs); by rewrite <- app_assoc.
Qed.

Lemma AStar_loop_prefix {H : MinHeap} h cfg adj fuel :
  ∀ acc v steps v',
    AStar.loop h fuel cfg adj acc v = Some (steps, v') → ∃ outs, steps = acc ++ outs.
Proof.
  induction fuel as [|fuel IH]; intros acc v steps v' Hloop; [done|].
  cbn [AStar.loop] in Hloop.
  destruct (heap_isEmpty (AStar.openSet v)).
  { injection Hloop as <- <-. exists []. by rewrite app_nil_r. }
  destruct (heap_pop (AStar.openSet v)) as [[[f n] q]|].
  2:{ injection Hloop as <- <-. exists []. by rewrite app_nil_r. }
  destruct (decide _); [by eapply IH|].
  destruct (AStar.snapshot cfg _ n) as [s|]; [|done]. simpl in Hloop.
  destruct (str_eq n (endNode cfg)).
  - injection Hloop as <- <-. by exists [s].
  - destruct (num_gt _ _); apply IH in Hloop as [outs ->];
      exists (s :: outs); by rewrite <- app_assoc.
Qed.

(** The step recorded for the start node at the beginning of a run. *)
Definition start_step (cfg : AlgorithmConfig) : PathStep.t :=
  {| PathStep.currentNode := startNode cfg;
     PathStep.visitedNodes := {[startNode cfg]};
     PathStep.previousNodes := prev_init (graph cfg);
     PathStep.path := [startNode cfg];
     PathStep.isComplete := str_eq (startNode cfg) (endNode cfg) |}.

Lemma BFS_first_step cfg fuel steps v :
  BFS.loop fuel cfg (adjacency (graph cfg)) [] (BFS.init_vars cfg) = Some (steps, v) →
  ∃ rest, steps = start_step cfg :: rest.
Proof.
  destruct fuel as [|fuel]; [done|].
  cbn [BFS.loop BFS.init_vars BFS.queue BFS.previousNodes BFS.visitedNodes].
  unfold BFS.snapshot. cbn [BFS.previousNodes BFS.visitedNodes].
  rewrite reconstructPath_prev_init, str_eq_refl. cbn [mbind option_bind app].
  fold (start_step cfg).
  destruct (str_eq (startNode cfg) (endNode cfg)).
  - intros [= <- <-]. by exists [].
  - intros [outs ->]%BFS_loop_prefix. by exists outs.
Qed.

Lemma DFS_first_step cfg fuel steps v :
  DFS.loop fuel cfg (adjacency (graph cfg)) [] (DFS.init_vars cfg) = Some (steps, v) →
  ∃ rest, steps = start_step cfg :: rest.
Proof.
  destruct fuel as [|fuel]; [done|].
  cbn [DFS.loop DFS.init_vars DFS.stack DFS.previousNodes DFS.visitedNodes].
  rewrite decide_False by set_solver.
  unfold DFS.snapshot, DFS.visit, DFS.init_vars. cbn [DFS.previousNodes DFS.visitedNodes].
  rewrite reconstructPath_prev_init, str_eq_refl, union_empty_l_L.
  cbn [mbind option_bind app]. fold (start_step cfg).
  destruct (str_eq (startNode cfg) (endNode cfg)).
  - intros [= <- <-]. by exists [].
  - intros [outs ->]%DFS_loop_prefix. by exists outs.
Qed.

Section first_step.
Context {H : MinHeap}.
Variable sqrt : Q → Q.

Lemma Dijkstra_first_step cfg adj fuel steps v :
  Dijkstra.loop fuel cfg adj [] (Dijkstra.init_vars cfg) = Some (steps, v) →
  ∃ rest, steps = start_step cfg :: rest.
Proof.
  destruct fuel as [|fuel]; [done|].
  destruct (heap_singleton_pop (Fin 0) (startNode cfg)) as (h' & Hpop & Hh').
  cbn [Dijkstra.loop Dijkstra.init_vars Dijkstra.pq].
  rewrite heap_singleton_not_empty, Hpop.
  unfold Dijkstra.with_pq, Dijkstra.visit, Dijkstra.init_vars.
  cbn [Dijkstra.visitedNodes Dijkstra.pq Dijkstra.previousNodes Dijkstra.distances].
  rewrite decide_False by set_solver.
  unfold Dijkstra.snapshot. cbn [Dijkstra.previousNodes Dijkstra.visitedNodes].
  rewrite reconstructPath_prev_init, str_eq_refl, union_empty_l_L.
  cbn [mbind option_bind app]. fold (start_step cfg).
  destruct (str_eq (startNode cfg) (endNode cfg)).
  - intros [= <- <-]. by exists [].
  - destruct (num_gt _ _); intros [outs ->]%Dijkstra_loop_prefix; by exists outs.
Qed.

Lemma AStar_first_step h cfg adj fuel steps v :
  AStar.loop h fuel cfg adj [] (AStar.init_vars h cfg) = Some (steps, v) →
  ∃ rest, steps = start_step cfg :: rest.
Proof.
  destruct fuel as [|fuel]; [done|].
  destruct (heap_singleton_pop (num_get (AStar.fScore_init h cfg) (startNode cfg))
              (startNode cfg)) as (h' & Hpop & Hh').
  cbn [AStar.loop AStar.init_vars AStar.openSet].
  rewrite heap_singleton_not_empty, Hpop.
  unfold AStar.with_openSet, AStar.visit, AStar.init_vars.
  cbn [AStar.visitedNodes AStar.openSet AStar.previousNodes AStar.gScore AStar.fScore].
  rewrite decide_False by set_solver.
  unfold AStar.snapshot. cbn [AStar.previousNodes AStar.visitedNodes].
  rewrite reconstructPath_prev_init, str_eq_refl, union_empty_l_L.
  cbn [mbind option_bind app]. fold (start_step cfg).
  destruct (str_eq (startNode cfg) (endNode cfg)).
  - intros [= <- <-]. by exists [].
  - destruct (num_gt _ _); intros [outs ->]%AStar_loop_prefix; by exists outs.
Qed.

(** The four batch functions return, and the first step of the result is
    the step of the start node. *)
Lemma algorithmMap_first_step a cfg :
  ∃ r rest, algorithmMap sqrt a cfg = Some r ∧
            AlgorithmResult.steps r = start_step cfg :: rest.
Proof.
  destruct a; simpl.
  - destruct (Dijkstra_dijkstra_spec cfg) as (r & Hr & _). exists r.
    pose proof Hr as Hr'. unfold Dijkstra.dijkstra in Hr'.
    destruct (Dijkstra.loop _ _ _ _ _) as [[steps v]|] eqn:Hloop; [|done].
    simpl in Hr'. destruct (reconstructPath _ _ _); [|done]. injection Hr' as <-.
    apply Dijkstra_first_step in Hloop as [rest ->]. by exists rest.
  - destruct (AStar_astar_with_spec (AStar.h_of sqrt cfg) cfg) as (r & Hr & _). exists r.
    pose proof Hr as Hr'. unfold AStar.astar_with in Hr'.
    destruct (AStar.loop _ _ _ _ _ _) as [[steps v]|] eqn:Hloop; [|done].
    simpl in Hr'. destruct (reconstructPath _ _ _); [|done]. injection Hr' as <-.
    apply AStar_first_step in Hloop as [rest ->]. by exists rest.
  - destruct (BFS_bfs_spec cfg) as (r & Hr & _). exists r.
    pose proof Hr as Hr'. unfold BFS.bfs in Hr'.
    destruct (BFS.loop _ _ _ _ _) as [[steps v]|] eqn:Hloop; [|done].
    simpl in Hr'. destruct (reconstructPath _ _ _); [|done]. injection Hr' as <-.
    apply BFS_first_step in Hloop as [rest ->]. by exists rest.
  - destruct (DFS_dfs_spec cfg) as (r & Hr & _). exists r.
    pose proof Hr as Hr'. unfold DFS.dfs in Hr'.
    destruct (DFS.loop _ _ _ _ _) as [[steps v]|] eqn:Hloop; [|done].
    simpl in Hr'. destruct (reconstructPath _ _ _); [|done]. injection Hr' as <-.
    apply DFS_first_step in Hloop as [rest ->]. by exists rest.
Qed.

(** X3: each of the four batch functions, on every graph, start id and end
    id (a start id that is not a node included), returns a result with at
    least one step, and the first step is the one of the start node: its
    current node is the start id, its visited set holds the start id alone,
    its path is [[start]] and its parent map gives every node the parent
    [null]. *)
Theorem first_step_is_start a cfg :
  ∃ r s rest,
    algorithmMap sqrt a cfg = Some r ∧
    AlgorithmResult.steps r = s :: rest ∧
    PathStep.currentNode s = startNode cfg ∧
    PathStep.visitedNodes s = {[startNode cfg]} ∧
    PathStep.path s = [startNode cfg] ∧
    PathStep.isComplete s = str_eq (startNode cfg) (endNode cfg) ∧
    (∀ k p, PathStep.previousNodes s !! k = Some p → p = None) ∧
    dom (PathStep.previousNodes s) = node_ids (graph cfg).
Proof.
  destruct (algorithmMap_first_step a cfg) as (r & rest & Hr & Hsteps).
  exists r, (start_step cfg), rest. repeat split; try done.
  - intros k p. apply prev_init_lookup.
  - apply prev_init_dom.
Qed.

End first_step.

(** * The comparison view ([ComparisonView.tsx]) *)

(** ** The judge on the two sides *)

Definition mirror (w : Winner.t) : Winner.t :=
  match w with
  | Winner.left => Winner.right
  | Winner.right => Winner.left
  | Winner.tie => Winner.tie
  end.

(** X4: the judge does not favour a side: exchanging the step sequences of
    the two sides exchanges the verdicts [left] and [right], keeps [tie],
    and sets a winner in the same situations. *)
Theorem judge_mirror c L R s e :
  judge c R L s e = mirror <$> judge c L R s e.
Proof.
  unfold judge. rewrite (Z.max_comm (Z.of_nat (length R))).
  destruct (last L) as [lf|], (last R) as [rf|]; try done.
  destruct (_ <=? c)%Z; [|done].
  destruct (foundPath s e lf), (foundPath s e rf); try done. simpl.
  assert (∀ a b : nat, (if (a <? b)%nat then Some Winner.left
                        else if (b <? a)%nat then Some Winner.right
                        else Some Winner.tie)
                       = mirror <$> (if (b <? a)%nat then Some Winner.left
                                     else if (a <? b)%nat then Some Winner.right
                                     else Some Winner.tie)) as Hsize.
  { intros a b. destruct (a <? b)%nat eqn:Hab, (b <? a)%nat eqn:Hba; try done.
    apply Nat.ltb_lt in Hab, Hba. lia. }
  destruct (findIndex PathStep.isComplete L) as [l|],
           (findIndex PathStep.isComplete R) as [r|]; try apply Hsize.
  destruct (l <? r)%nat eqn:Hlr, (r <? l)%nat eqn:Hrl; try done; try apply Hsize.
  apply Nat.ltb_lt in Hlr, Hrl. lia.
Qed.

Lemma last_is_Some {A} (l : list A) : l ≠ [] → is_Some (last l).
Proof.
  destruct l as [|x l] using rev_ind; [done|]. intros _. rewrite last_snoc. by eexists.
Qed.

(** Once the cursor has reached the last step of the longer side, and both
    sides have a step, a winner is set. *)
Lemma judge_decides c L R s e :
  L ≠ [] → R ≠ [] →
  (Z.max (Z.of_nat (length L)) (Z.of_nat (length R)) - 1 <= c)%Z →
  is_Some (judge c L R s e).
Proof.
  intros [lf Hl]%last_is_Some [rf Hr]%last_is_Some Hc.
  unfold judge. rewrite Hl, Hr, (proj2 (Z.leb_le _ _) Hc).
  destruct (foundPath s e lf), (foundPath s e rf); simpl; try by eexists.
  destruct (findIndex PathStep.isComplete L) as [l|],
           (findIndex PathStep.isComplete R) as [r|];
    repeat (destruct (_ <? _)%nat); by eexists.
Qed.

(** The verdict does not depend on the cursor, once a winner is set. *)
Lemma judge_cursor c c' L R s e w w' :
  judge c L R s e = Some w → judge c' L R s e = Some w' → w = w'.
Proof.
  unfold judge. destruct (last L), (last R); try done.
  destruct (_ <=? c)%Z; [|done]. destruct (_ <=? c')%Z; [|done]. congruence.
Qed.

(** ** Cursor, playback and winner *)

Section view_facts.
Variables L R : list PathStep.t.
Variables s e : string.
Hypothesis HL : L ≠ [].
Hypothesis HR : R ≠ [].

Local Abbreviation m := (View.maxSteps L R).

Lemma maxSteps_pos : (1 <= m)%Z.
Proof. unfold View.maxSteps. destruct L; [done|]. simpl length. lia. Qed.

(** What holds of the state of the view at any time. *)
Record view_inv (verdict : Winner.t) (v : View.t) : Prop := {
  vi_cursor : (0 <= View.currentStep v <= m - 1)%Z;
  vi_winner : View.winner v = None ∨ View.winner v = Some verdict;
  vi_at_end : View.currentStep v = (m - 1)%Z → View.winner v = Some verdict
}.

Lemma view_inv_effect verdict v :
  judge (m - 1) L R s e = Some verdict →
  (0 <= View.currentStep v <= m - 1)%Z →
  View.winner v = None ∨ View.winner v = Some verdict →
  view_inv verdict (View.judge_effect L R s e v).
Proof.
  intros Hv Hc Hw. unfold View.judge_effect.
  destruct (judge (View.currentStep v) L R s e) as [w|] eqn:Hj.
  - rewrite (judge_cursor _ _ _ _ _ _ _ _ Hj Hv). split; simpl; [done|by right|done].
  - split; [done|done|]. intros Heq. rewrite Heq in Hj. congruence.
Qed.

Lemma view_inv_handle verdict v ev :
  judge (m - 1) L R s e = Some verdict →
  view_inv verdict v → view_inv verdict (View.handle L R s e v ev).
Proof.
  intros Hv [Hc Hw _]. pose proof maxSteps_pos as Hm.
  apply view_inv_effect; [done| |].
  - destruct ev; simpl; try lia.
    destruct (View.isPlaying v); [|done].
    destruct (_ <=? _)%Z eqn:Hle; simpl; [done|]. apply Z.leb_gt in Hle. lia.
  - destruct ev; simpl; try done.
    destruct (View.isPlaying v); [|done]. by destruct (_ <=? _)%Z.
Qed.

Lemma view_inv_run verdict evs :
  judge (m - 1) L R s e = Some verdict →
  view_inv verdict (foldl (View.handle L R s e) (View.mounted L R s e) evs).
Proof.
  intros Hv. pose proof maxSteps_pos as Hm.
  assert (view_inv verdict (View.mounted L R s e)) as Hinit.
  { apply view_inv_effect; simpl; [done|lia|by left]. }
  revert Hinit. generalize (View.mounted L R s e).
  induction evs as [|ev evs IH]; intros v Hinv; [done|].
  simpl. by apply IH, view_inv_handle.
Qed.

Lemma shown_is_Some (steps : list PathStep.t) v :
  steps ≠ [] → (0 <= View.currentStep v)%Z → is_Some (View.shown steps v).
Proof.
  intros Hne Hc. unfold View.shown, at_index.
  destruct steps as [|x steps]; [done|]. simpl length.
  rewrite (proj2 (Z.ltb_ge _ _)) by lia.
  apply lookup_lt_is_Some. simpl length. lia.
Qed.

End view_facts.

Section race.
Context {H : MinHeap}.
Variable sqrt : Q → Q.

(** X5: for any two of the four algorithms on any graph, start id and end
    id, and after any sequence of clicks on the controls and ticks of the
    interval: the cursor stays between 0 and [maxSteps - 1], each side has
    a step to draw at [Math.min(currentStep, steps.length - 1)], the winner
    is either not set or is the verdict given at the last step, and it is
    set whenever the cursor is on the last step. *)
Theorem view_run a1 a2 cfg (evs : list View.event) :
  ∃ r1 r2 verdict,
    algorithmMap sqrt a1 cfg = Some r1 ∧
    algorithmMap sqrt a2 cfg = Some r2 ∧
    let left := AlgorithmResult.steps r1 in
    let right := AlgorithmResult.steps r2 in
    let last_step := (View.maxSteps left right - 1)%Z in
    let v := foldl (View.handle left right (startNode cfg) (endNode cfg))
               (View.mounted left right (startNode cfg) (endNode cfg)) evs in
    judge last_step left right (startNode cfg) (endNode cfg) = Some verdict ∧
    (0 <= View.currentStep v <= last_step)%Z ∧
    is_Some (View.shown left v) ∧ is_Some (View.shown right v) ∧
    (View.winner v = None ∨ View.winner v = Some verdict) ∧
    (View.currentStep v = last_step → View.winner v = Some verdict).
Proof.
  destruct (algorithmMap_first_step sqrt a1 cfg) as (r1 & rest1 & Hr1 & Hs1).
  destruct (algorithmMap_first_step sqrt a2 cfg) as (r2 & rest2 & Hr2 & Hs2).
  assert (AlgorithmResult.steps r1 ≠ []) as HL by (by rewrite Hs1).
  assert (AlgorithmResult.steps r2 ≠ []) as HR by (by rewrite Hs2).
  destruct (judge_decides (View.maxSteps (AlgorithmResult.steps r1)
                             (AlgorithmResult.steps r2) - 1)
              _ _ (startNode cfg) (endNode cfg) HL HR) as [verdict Hv]; [done|].
  exists r1, r2, verdict. split; [done|]. split; [done|]. cbv zeta.
  destruct (view_inv_run _ _ (startNode cfg) (endNode cfg) HL verdict evs Hv)
    as [Hc Hw Hend].
  split; [done|]. split; [done|].
  split; [apply shown_is_Some; [done|lia]|].
  split; [apply shown_is_Some; [done|lia]|]. done.
Qed.

End race.

(** * The length of a path ([pathVisualizer.ts]) *)

(** The weight that a pair of nodes adds. *)
Definition step_length (g : Graph.t) (u v : string) : Q :=
  match find_edge g u v with
  | Some edge => Edge.weight edge
  | None => 0
  end.

Lemma find_edge_sym g u v : find_edge g u v = find_edge g v u.
Proof.
  unfold find_edge. induction (Graph.edges g) as [|e l IH]; [done|].
  simpl. by rewrite (joins_sym e u v), IH.
Qed.

Lemma find_edge_Some g u v e :
  find_edge g u v = Some e → e ∈ Graph.edges g ∧ joins e u v = true.
Proof.
  unfold find_edge. induction (Graph.edges g) as [|x l IH]; [done|]. simpl.
  destruct (joins x u v) eqn:Hj.
  - intros [= ->]. split; [apply elem_of_cons; by left|done].
  - intros [He Hj']%IH. split; [apply elem_of_cons; by right|done].
Qed.

Lemma find_edge_None g u v e :
  find_edge g u v = None → e ∈ Graph.edges g → joins e u v = false.
Proof.
  unfold find_edge. induction (Graph.edges g) as [|x l IH]; [by intros _ []%elem_of_nil|].
  simpl. destruct (joins x u v) eqn:Hj; [done|].
  intros Hn [->|He]%elem_of_cons; [done|by apply IH].
Qed.

Lemma getPathLength_from_acc total path g :
  (getPathLength_from total path g == total + getPathLength path g)%Q.
Proof.
  unfold getPathLength. revert total.
  induction path as [|u [|v rest] IH]; intros total; simpl; try lra.
  rewrite (IH (match find_edge g u v with Some edge => total + Edge.weight edge
                                    | None => total end)%Q).
  rewrite (IH (match find_edge g u v with Some edge => 0 + Edge.weight edge
                                    | None => 0 end)%Q).
  destruct (find_edge g u v); lra.
Qed.

Lemma getPathLength_cons g u v rest :
  (getPathLength (u :: v :: rest) g == step_length g u v + getPathLength (v :: rest) g)%Q.
Proof.
  unfold getPathLength at 1.
  change (getPathLength_from 0 (u :: v :: rest) g)
    with (getPathLength_from
            (match find_edge g u v with Some edge => 0 + Edge.weight edge
                                   | None => 0 end)%Q (v :: rest) g).
  rewrite getPathLength_from_acc.
  unfold step_length. destruct (find_edge g u v); lra.
Qed.

Lemma getPathLength_snoc g p b c :
  last p = Some b →
  (getPathLength (p ++ [c]) g == getPathLength p g + step_length g b c)%Q.
Proof.
  induction p as [|a [|a' l] IH]; intros Hlast; [done| |].
  - injection Hlast as ->. change ([b] ++ [c]) with [b; c].
    rewrite getPathLength_cons. unfold getPathLength. simpl. lra.
  - change ((a :: a' :: l) ++ [c]) with (a :: a' :: (l ++ [c])).
    rewrite !getPathLength_cons.
    change (a' :: l ++ [c]) with ((a' :: l) ++ [c]). rewrite IH by done. lra.
Qed.

Lemma step_length_sym g u v : step_length g u v = step_length g v u.
Proof. unfold step_length. by rewrite find_edge_sym. Qed.

(** The weights are positive integers and the length of the path is a safe
    integer: every partial sum of [getPathLength], in either direction, is
    then an integer up to the length, and is computed exactly. *)
Definition exact_length (path : list string) (g : Graph.t) : Prop :=
  positive_integer_weights g ∧
  (getPathLength path g <= inject_Z MAX_SAFE_INTEGER)%Q.

(** X6: the length of a path does not depend on the direction in which it
    is walked: when the weights are positive integers and the length of the
    path is a safe integer, [getPathLength] gives the same total for the
    path and for the reversed path (pairs of nodes without edge count for
    nothing in both directions). *)
Theorem getPathLength_rev path g :
  exact_length path g →
  (getPathLength (rev path) g == getPathLength path g)%Q.
Proof.
  intros _.
  induction path as [|u [|v rest] IH]; [reflexivity|reflexivity|].
  change (rev (u :: v :: rest)) with (rev (v :: rest) ++ [u]).
  rewrite (getPathLength_snoc g _ v u).
  - rewrite IH, getPathLength_cons, (step_length_sym g v u). lra.
  - change (rev (v :: rest)) with (rev rest ++ [v]). apply last_snoc.
Qed.

(** Two edges between the same pair of nodes have the same weight. *)
Definition parallel_edges_agree (g : Graph.t) : Prop :=
  ∀ e1 e2 u v, e1 ∈ Graph.edges g → e2 ∈ Graph.edges g →
    joins e1 u v = true → joins e2 u v = true →
    (Edge.weight e1 == Edge.weight e2)%Q.

(** Along a walk every pair of consecutive nodes has an edge, so the total
    of [getPathLength] is the weight of a walk on the same nodes; it is at
    least the total of the lightest edges, and equal to it when parallel
    edges agree. *)
Lemma getPathLength_walk g s c p W :
  walk g s c p W →
  walk g s c p (getPathLength p g) ∧
  (path_weight g p <= getPathLength p g)%Q ∧
  (parallel_edges_agree g → (getPathLength p g == path_weight g p)%Q).
Proof.
  induction 1 as [W Hs H0|b c p W W1 e Hw (IHw & IHle & IHeq) He Hj Hc HW].
  - split; [by apply walk_start|]. unfold getPathLength. simpl.
    split; [lra|]. intros _. lra.
  - destruct (walk_ends _ _ _ _ _ Hw) as [_ Hlast].
    pose proof (getPathLength_snoc g p b c Hlast) as Hsnoc.
    pose proof (path_weight_snoc g p b c Hlast) as Hpw.
    unfold step_length in Hsnoc.
    destruct (find_edge g b c) as [e'|] eqn:Hfind.
    2:{ pose proof (find_edge_None _ _ _ e Hfind He). congruence. }
    destruct (find_edge_Some _ _ _ _ Hfind) as [He' Hj'].
    destruct (edge_weight_le g e' b c He' Hj') as (w & Hew & Hle).
    rewrite Hew in Hpw. simpl in Hpw.
    split; [by eapply (walk_edge _ _ b c p _ _ e')|].
    split; [lra|]. intros Hpar. specialize (IHeq Hpar).
    destruct (edge_weight_edge g b c w Hew) as (e2 & He2 & Hj2 & Hw2).
    pose proof (Hpar e' e2 b c He' He2 Hj' Hj2). subst w. lra.
Qed.

(** X7: on a graph without empty id, with positive integer weights whose
    sum is a safe integer (so that the sums of the code are exact), when
    the end node is reachable, the total that [getPathLength] computes for
    the path returned by [dijkstra] is the weight of a walk from the start
    node to the end node along that path, and, when parallel edges agree on
    their weight, no walk from the start node to the end node is lighter. *)
Theorem dijkstra_path_length {H : MinHeap} cfg :
  "" ∉ node_ids (graph cfg) → safe_weights (graph cfg) →
  reachable (graph cfg) (startNode cfg) (endNode cfg) →
  ∃ r, Dijkstra.dijkstra cfg = Some r ∧
    walk (graph cfg) (startNode cfg) (endNode cfg) (AlgorithmResult.path r)
      (getPathLength (AlgorithmResult.path r) (graph cfg)) ∧
    (parallel_edges_agree (graph cfg) →
     ∀ p' W', walk (graph cfg) (startNode cfg) (endNode cfg) p' W' →
              (getPathLength (AlgorithmResult.path r) (graph cfg) <= W')%Q).
Proof.
  intros Hne [Hpos _] Hreach.
  assert (startNode cfg ∈ node_ids (graph cfg)) as Hs.
  { destruct Hreach as (p & W & Hw). by eapply walk_from_node. }
  destruct (dijkstra_optimal cfg Hne (positive_integer_nonneg _ Hpos) Hs)
    as (r & Hr & Hopt & _).
  destruct (Hopt Hreach) as (W & Hw & Hmin).
  exists r. split; [done|].
  destruct (getPathLength_walk _ _ _ _ _ Hw) as (Hw' & _ & Heq).
  split; [done|]. intros Hpar p' W' Hw2.
  rewrite (Heq Hpar), (optimal_path_weight _ _ _ _ _ Hw Hmin). by eapply Hmin.
Qed.

Lemma triangle_positive : positive_integer_weights triangle.
Proof.
  intros e He. simpl in He. rewrite !elem_of_cons, elem_of_nil in He.
  destruct He as [->|[->|[->|[]]]]; [by exists 1%positive..|by exists 5%positive].
Defined.

Lemma triangle_safe : safe_weights triangle.
Proof. split; [apply triangle_positive|by vm_compute]. Defined.

Lemma getPathLength_rev_witness :
  (getPathLength (rev ["a"; "b"; "c"]) triangle
   == getPathLength ["a"; "b"; "c"] triangle)%Q.
Proof.
  apply (getPathLength_rev ["a"; "b"; "c"] triangle).
  split; [apply triangle_positive|by vm_compute].
Defined.

Lemma triangle_reachable : reachable triangle "a" "c".
Proof.
  exists (["a"] ++ ["c"]), 5%Q.
  apply (walk_edge triangle "a" "a" "c" ["a"] 0 5 (edge "a" "c" 5)).
  - apply walk_start; [by vm_compute|reflexivity].
  - simpl. rewrite !elem_of_cons. tauto.
  - reflexivity.
  - by vm_compute.
  - reflexivity.
Defined.

Lemma dijkstra_path_length_witness :
  ∃ r, Dijkstra.dijkstra triangle_config = Some r ∧
    walk triangle "a" "c" (AlgorithmResult.path r)
      (getPathLength (AlgorithmResult.path r) triangle) ∧
    (parallel_edges_agree triangle →
     ∀ p' W', walk triangle "a" "c" p' W' →
              (getPathLength (AlgorithmResult.path r) triangle <= W')%Q).
Proof.
  apply (dijkstra_path_length triangle_config).
  - by vm_compute.
  - apply triangle_safe.
  - apply triangle_reachable.
Defined.

Lemma consecutive_length path : length (consecutive path) = (length path - 1)%nat.
Proof.
  induction path as [|u [|v rest] IH]; [done|done|].
  change (consecutive (u :: v :: rest)) with ((u, v) :: consecutive (v :: rest)).
  simpl length in *. lia.
Qed.

Lemma consecutive_fst path : (consecutive path).*1 = removelast path.
Proof.
  induction path as [|u [|v rest] IH]; [done|done|].
  change (consecutive (u :: v :: rest)) with ((u, v) :: consecutive (v :: rest)).
  change (removelast (u :: v :: rest)) with (u :: removelast (v :: rest)).
  by rewrite fmap_cons, IH.
Qed.

Lemma consecutive_snd path : (consecutive path).*2 = tail path.
Proof.
  induction path as [|u [|v rest] IH]; [done|done|].
  change (consecutive (u :: v :: rest)) with ((u, v) :: consecutive (v :: rest)).
  by rewrite fmap_cons, IH.
Qed.

Lemma elem_of_removelast {A} (x : A) (l : list A) : x ∈ removelast l → x ∈ l.
Proof.
  destruct l as [|a l _] using rev_ind; [done|].
  rewrite removelast_last. intros Hx. apply elem_of_app. by left.
Qed.

(** X8: [visualizePath] returns one highlighted edge per pair of
    consecutive nodes of the path, in the order of the path (none for a
    path of fewer than two nodes): the edges start at the nodes of the path
    but the last and end at the nodes of the path but the first, and both
    ends of every highlighted edge are highlighted nodes. *)
Theorem visualizePath_edges path :
  let '(highlightedNodes, highlightedEdges) := visualizePath path in
  length highlightedEdges = (length path - 1)%nat ∧
  highlightedEdges.*1 = removelast path ∧
  highlightedEdges.*2 = tail path ∧
  (∀ n, n ∈ highlightedNodes ↔ n ∈ path) ∧
  ∀ u v, (u, v) ∈ highlightedEdges → u ∈ highlightedNodes ∧ v ∈ highlightedNodes.
Proof.
  unfold visualizePath.
  split; [apply consecutive_length|]. split; [apply consecutive_fst|].
  split; [apply consecutive_snd|]. split; [intros n; apply elem_of_list_to_set|].
  intros u v Huv. rewrite !elem_of_list_to_set. split.
  - assert (u ∈ (consecutive path).*1) as Hu.
    { apply list_elem_of_fmap. by exists (u, v). }
    rewrite consecutive_fst in Hu. by apply elem_of_removelast.
  - assert (v ∈ (consecutive path).*2) as Hv.
    { apply list_elem_of_fmap. by exists (u, v). }
    rewrite consecutive_snd in Hv. destruct path; [done|]. apply elem_of_cons. by right.
Qed.

(** * The banner above the comparison ([ComparisonWarning.tsx]) *)

Section warning_banner.
Variable toUpperCase : string → string.

(** X9: [getWarningInfo] never returns [null], whatever the two names are;
    the kind of the banner is [success] exactly when both names are
    [dijkstra] or [astar], [info] exactly when neither is, and [warning]
    otherwise; exchanging the two names keeps the kind, the icon, the title
    and the message, and keeps the details too, except for the pair
    [dijkstra], [astar], whose details depend on the order. *)
Theorem getWarningInfo_banner algorithm1 algorithm2 :
  ∃ w w',
    getWarningInfo toUpperCase algorithm1 algorithm2 = Some w ∧
    getWarningInfo toUpperCase algorithm2 algorithm1 = Some w' ∧
    (Warning.type w = "success"
     ↔ isOptimal algorithm1 = true ∧ isOptimal algorithm2 = true) ∧
    (Warning.type w = "info"
     ↔ isOptimal algorithm1 = false ∧ isOptimal algorithm2 = false) ∧
    (Warning.type w = "warning"
     ↔ isOptimal algorithm1 ≠ isOptimal algorithm2) ∧
    Warning.type w' = Warning.type w ∧
    Warning.icon w' = Warning.icon w ∧
    Warning.title w' = Warning.title w ∧
    Warning.message w' = Warning.message w ∧
    (Warning.details w' ≠ Warning.details w
     ↔ (algorithm1 = "dijkstra" ∧ algorithm2 = "astar") ∨
       (algorithm1 = "astar" ∧ algorithm2 = "dijkstra")).
Proof.
  unfold getWarningInfo, isOptimal.
  destruct (str_eq algorithm1 "dijkstra") eqn:H1d;
    destruct (str_eq algorithm1 "astar") eqn:H1a;
    destruct (str_eq algorithm2 "dijkstra") eqn:H2d;
    destruct (str_eq algorithm2 "astar") eqn:H2a;
    repeat match goal with
           | H : str_eq _ _ = true |- _ => apply str_eq_true in H
           | H : str_eq _ _ = false |- _ => apply str_eq_false in H
           end;
    subst; try discriminate; simpl; eexists _, _;
    (split; [reflexivity|]); (split; [reflexivity|]); simpl;
    repeat split; try done; try (intros [? ?]; done); try (intros [[? ?]|[? ?]]; done);
    try (intros ?; exfalso; done); try (intros _; by left); try (intros _; by right).
Qed.

End warning_banner.

(** * Graph generation ([graphGenerator.ts]) *)

(** ** Reachability as a relation *)

Lemma reachable_refl g u : u ∈ node_ids g → reachable g u u.
Proof. intros Hu. exists [u], 0%Q. by apply walk_start. Qed.

Lemma reachable_step g s b c e :
  reachable g s b → e ∈ Graph.edges g → joins e b c = true → c ∈ node_ids g →
  reachable g s c.
Proof.
  intros (p & W & Hw) He Hj Hc. exists (p ++ [c]), (W + Edge.weight e)%Q.
  by eapply walk_edge.
Qed.

Lemma reachable_trans g s b c : reachable g s b → reachable g b c → reachable g s c.
Proof.
  intros Hsb (p & W & Hw).
  induction Hw as [W Hs H0|b' c p W W1 e Hw IH He Hj Hc HW]; [done|].
  by eapply reachable_step.
Qed.

Lemma reachable_sym g s c : reachable g s c → reachable g c s.
Proof.
  intros (p & W & Hw).
  induction Hw as [W Hs H0|b c p W W1 e Hw IH He Hj Hc HW]; [by apply reachable_refl|].
  apply (reachable_trans g c b s); [|done].
  apply (reachable_step g c c b e); [by apply reachable_refl|done| |by eapply walk_node].
  by rewrite joins_sym.
Qed.

(** More edges on the same nodes keep what was reachable. *)
Lemma reachable_mono nodes edges edges' s c :
  (∀ e, e ∈ edges → e ∈ edges') →
  reachable (Graph.mk nodes edges) s c → reachable (Graph.mk nodes edges') s c.
Proof.
  intros Hsub (p & W & Hw).
  induction Hw as [W Hs H0|b c p W W1 e Hw IH He Hj Hc HW]; [by apply reachable_refl|].
  apply (reachable_step _ s b c e); [done|by apply Hsub|done|done].
Qed.

(** ** [ensureConnected] *)

(** *** The search from the first node *)

(** One edge: the other end of an edge at [current] is visited afterwards;
    what is added was not visited and is the other end of the edge. *)
Lemma scan_edge_spec current visited queue edge :
  current ∈ visited →
  ∃ added,
    scan_edge current (visited, queue) edge
    = (visited ∪ list_to_set added, queue ++ added) ∧
    NoDup added ∧
    (∀ x, x ∈ added → (x ∉ visited) ∧ joins edge current x = true) ∧
    (∀ x, joins edge current x = true → x ∈ visited ∪ list_to_set added).
Proof.
  intros Hcur. unfold scan_edge.
  destruct (str_eq (Edge.from edge) current) eqn:Hf;
    [apply str_eq_true in Hf|apply str_eq_false in Hf].
  - destruct (bool_decide (Edge.to edge ∈ visited)) eqn:Ht;
      [apply bool_decide_eq_true in Ht|apply bool_decide_eq_false in Ht]; simpl.
    + assert ((str_eq (Edge.to edge) current
               && negb (bool_decide (Edge.from edge ∈ visited))) = false) as ->.
      { rewrite Hf, (bool_decide_eq_true_2 _ Hcur). apply andb_false_r. }
      exists []. simpl. rewrite union_empty_r_L, app_nil_r.
      split; [done|]. split; [constructor|]. split; [by intros x ?%elem_of_nil|].
      intros x [[_ <-]|[_ <-]]%joins_iff; set_solver.
    + exists [Edge.to edge]. simpl. rewrite union_empty_r_L.
      split; [done|]. split; [apply NoDup_singleton|]. split.
      * intros x ->%list_elem_of_singleton. split; [done|]. apply joins_iff. by left.
      * intros x [[_ <-]|[_ <-]]%joins_iff; set_solver.
  - simpl. destruct (str_eq (Edge.to edge) current) eqn:Ht;
      [apply str_eq_true in Ht|apply str_eq_false in Ht]; simpl.
    + destruct (bool_decide (Edge.from edge ∈ visited)) eqn:Hv;
        [apply bool_decide_eq_true in Hv|apply bool_decide_eq_false in Hv]; simpl.
      * exists []. simpl. rewrite union_empty_r_L, app_nil_r.
        split; [done|]. split; [constructor|]. split; [by intros x ?%elem_of_nil|].
        intros x [[? _]|[_ <-]]%joins_iff; [done|set_solver].
      * exists [Edge.from edge]. simpl. rewrite union_empty_r_L.
        split; [done|]. split; [apply NoDup_singleton|]. split.
        -- intros x ->%list_elem_of_singleton. split; [done|]. apply joins_iff. by right.
        -- intros x [[? _]|[_ <-]]%joins_iff; [done|set_solver].
    + exists []. simpl. rewrite union_empty_r_L, app_nil_r.
      split; [done|]. split; [constructor|]. split; [by intros x ?%elem_of_nil|].
      intros x [[? _]|[? _]]%joins_iff; done.
Qed.

(** All the edges: the ids added are distinct, were not visited, and are
    the other ends of edges at [current]; every other end of an edge at
    [current] is visited afterwards. *)
Lemma scan_edges_spec current edges :
  ∀ visited queue, current ∈ visited →
  ∃ added,
    foldl (scan_edge current) (visited, queue) edges
    = (visited ∪ list_to_set added, queue ++ added) ∧
    NoDup added ∧
    (∀ x, x ∈ added → (x ∉ visited) ∧ ∃ e, e ∈ edges ∧ joins e current x = true) ∧
    (∀ e x, e ∈ edges → joins e current x = true → x ∈ visited ∪ list_to_set added).
Proof.
  induction edges as [|e edges IH]; intros visited queue Hcur.
  { exists []. simpl. rewrite union_empty_r_L, app_nil_r.
    split; [done|]. split; [constructor|].
    split; [by intros x ?%elem_of_nil|]. by intros e x ?%elem_of_nil. }
  destruct (scan_edge_spec current visited queue e Hcur) as (a1 & Heq1 & Hnd1 & Hnew1 & Hall1).
  cbn [foldl]. rewrite Heq1.
  destruct (IH (visited ∪ list_to_set a1) (queue ++ a1)) as (a2 & Heq2 & Hnd2 & Hnew2 & Hall2);
    [set_solver|].
  exists (a1 ++ a2). rewrite Heq2, list_to_set_app_L, <- app_assoc, (assoc_L (∪)).
  split; [done|]. split.
  { apply NoDup_app. split; [done|]. split; [|done].
    intros x Hx1 Hx2. destruct (Hnew2 x Hx2) as [Hn _]. set_solver. }
  split.
  - intros x [Hx|Hx]%elem_of_app.
    + destruct (Hnew1 x Hx) as [? ?]. split; [done|]. exists e.
      split; [apply elem_of_cons; by left|done].
    + destruct (Hnew2 x Hx) as (Hn & e' & He' & Hj). split; [set_solver|].
      exists e'. split; [apply elem_of_cons; by right|done].
  - intros e' x [->|He']%elem_of_cons Hj.
    + specialize (Hall1 x Hj). set_solver.
    + specialize (Hall2 e' x He' Hj). set_solver.
Qed.

(** The ends of the edges. *)
Definition edge_ids (edges : list Edge.t) : gset string :=
  list_to_set ((Edge.from <$> edges) ++ (Edge.to <$> edges)).

Lemma size_list_to_set_le (l : list string) :
  (size (list_to_set l : gset string) ≤ length l)%nat.
Proof.
  induction l as [|x l IH]; [by rewrite list_to_set_nil, size_empty|].
  rewrite list_to_set_cons, size_union_alt, size_singleton. simpl length.
  assert (list_to_set l ∖ {[x]} ⊆ (list_to_set l : gset string)) as Hsub by set_solver.
  apply subseteq_size in Hsub. lia.
Qed.

Lemma edge_ids_size edges : (size (edge_ids edges) ≤ 2 * length edges)%nat.
Proof.
  unfold edge_ids. etrans; [apply size_list_to_set_le|].
  rewrite length_app, !length_fmap. lia.
Qed.

Lemma joins_edge_ids edges e u x :
  e ∈ edges → joins e u x = true → x ∈ edge_ids edges.
Proof.
  intros He Hj. unfold edge_ids. rewrite elem_of_list_to_set, elem_of_app, !list_elem_of_fmap.
  apply joins_iff in Hj as [[_ <-]|[_ <-]]; [right|left]; by exists e.
Qed.

Lemma size_difference_added (U visited : gset string) (added : list string) :
  NoDup added → (∀ x, x ∈ added → (x ∉ visited) ∧ x ∈ U) →
  (size (U ∖ (visited ∪ list_to_set added)) + length added = size (U ∖ visited))%nat.
Proof.
  intros Hnd Hadd.
  assert (U ∖ visited = list_to_set added ∪ (U ∖ (visited ∪ list_to_set added))) as ->.
  { apply set_eq. intros x. rewrite !elem_of_union, !elem_of_difference, elem_of_union,
      elem_of_list_to_set.
    destruct (decide (x ∈ added)) as [Hx|Hx]; [|tauto].
    destruct (Hadd x Hx). tauto. }
  rewrite (size_union (C := gset string) (list_to_set added)
             (U ∖ (visited ∪ list_to_set added))) by set_solver.
  rewrite (size_list_to_set (C := gset string) added Hnd). lia.
Qed.

Section component.
Variable edges : list Edge.t.
Variable U : gset string.
Hypothesis HU : edge_ids edges ⊆ U.
(** A property of ids that the edges carry from one end to the other. *)
Variable P : string → Prop.
Hypothesis HP : ∀ e u x, e ∈ edges → joins e u x = true → P u → P x.

(** The state of the search: what is visited has the property; what is
    visited and is not in the queue has all its neighbours visited. *)
Record component_inv (visited : gset string) (queue : list string) : Prop := {
  ci_queue : ∀ x, x ∈ queue → x ∈ visited;
  ci_universe : visited ⊆ U;
  ci_sound : ∀ x, x ∈ visited → P x;
  ci_done : ∀ u, u ∈ visited → u ∈ queue ∨
              ∀ e x, e ∈ edges → joins e u x = true → x ∈ visited
}.

(** The loop returns when the fuel exceeds the number of ids in the queue
    or not yet visited; the set returned has the property and is closed
    under the edges. *)
Lemma component_loop_spec fuel :
  ∀ visited queue,
    component_inv visited queue →
    (length queue + size (U ∖ visited) < fuel)%nat →
    ∃ V, component_loop fuel edges visited queue = Some V ∧
         visited ⊆ V ∧ V ⊆ U ∧ (∀ x, x ∈ V → P x) ∧
         ∀ e u x, e ∈ edges → joins e u x = true → u ∈ V → x ∈ V.
Proof.
  induction fuel as [|fuel IH]; intros visited queue [Hq Hu Hs Hd] Hfuel; [lia|].
  cbn [component_loop]. destruct queue as [|current rest].
  { exists visited. split; [done|]. split; [done|]. split; [done|]. split; [done|].
    intros e u x He Hj Hin. destruct (Hd u Hin) as [[]%elem_of_nil|Hall]. by eapply Hall. }
  assert (current ∈ visited) as Hcur by (apply Hq, elem_of_cons; by left).
  destruct (scan_edges_spec current edges visited rest Hcur)
    as (added & -> & Hnd & Hnew & Hall).
  assert (∀ x, x ∈ added → (x ∉ visited) ∧ x ∈ U) as HaddU.
  { intros x Hx. destruct (Hnew x Hx) as (Hn & e & He & Hj). split; [done|].
    apply HU. by eapply joins_edge_ids. }
  destruct (IH (visited ∪ list_to_set added) (rest ++ added)) as (V & HV & Hsub & HVU & HVP & Hcl).
  - split.
    + intros x [Hx|Hx]%elem_of_app; [|set_solver].
      apply elem_of_union. left. apply Hq, elem_of_cons. by right.
    + intros x [Hx|Hx%elem_of_list_to_set]%elem_of_union; [by apply Hu|by apply HaddU].
    + intros x [Hx|Hx%elem_of_list_to_set]%elem_of_union; [by apply Hs|].
      destruct (Hnew x Hx) as (_ & e & He & Hj). eapply HP; [done..|]. by apply Hs.
    + intros u [Hu'|Hu'%elem_of_list_to_set]%elem_of_union.
      * destruct (Hd u Hu') as [[->|Hin]%elem_of_cons|Hdone].
        -- right. intros e x He Hj. by eapply Hall.
        -- left. apply elem_of_app. by left.
        -- right. intros e x He Hj. apply elem_of_union. left. by eapply Hdone.
      * left. apply elem_of_app. by right.
  - pose proof (size_difference_added U visited added Hnd HaddU).
    rewrite length_app. simpl length in Hfuel. lia.
  - exists V. split; [done|]. split; [set_solver|]. done.
Qed.

End component.

(** *** The nearest visited node *)

Section nearest.
Variable sqrt : Q → Q.
Variables (nodes : list Node.t) (visited : gset string) (node : Node.t).

(** What holds of the pair kept while the nodes [seen] are scanned. *)
Definition nearest_inv (seen : list Node.t) (best : option (Node.t * Q)) : Prop :=
  match best with
  | None => ∀ o, o ∈ seen → Node.id o ∉ visited
  | Some (o, d) =>
      o ∈ seen ∧ Node.id o ∈ visited ∧ d = node_distance sqrt node o ∧
      ∀ o', o' ∈ seen → Node.id o' ∈ visited → (d <= node_distance sqrt node o')%Q
  end.

Lemma nearest_step_inv seen best o :
  nearest_inv seen best →
  nearest_inv (seen ++ [o]) (nearest_step sqrt visited node best o).
Proof.
  unfold nearest_step, nearest_inv. intros Hinv.
  assert (∀ o', o' ∈ seen ++ [o] ↔ o' ∈ seen ∨ o' = o) as Hsnoc.
  { intros o'. by rewrite elem_of_app, list_elem_of_singleton. }
  destruct (bool_decide (Node.id o ∈ visited)) eqn:Ho;
    [apply bool_decide_eq_true in Ho|apply bool_decide_eq_false in Ho].
  - destruct best as [[b d]|].
    + destruct Hinv as (Hb & Hbv & -> & Hmin).
      destruct (Qltb (node_distance sqrt node o) (node_distance sqrt node b)) eqn:Hlt.
      * apply Qltb_lt in Hlt.
        split; [apply Hsnoc; by right|]. split; [done|]. split; [done|].
        intros o' [Ho'| ->]%Hsnoc Hv; [|lra].
        specialize (Hmin o' Ho' Hv). lra.
      * apply Qltb_ge in Hlt.
        split; [apply Hsnoc; by left|]. split; [done|]. split; [done|].
        intros o' [Ho'| ->]%Hsnoc Hv; [by apply Hmin|done].
    + split; [apply Hsnoc; by right|]. split; [done|]. split; [done|].
      intros o' [Ho'| ->]%Hsnoc Hv; [|lra].
      by destruct (Hinv o' Ho').
  - destruct best as [[b d]|].
    + destruct Hinv as (Hb & Hbv & -> & Hmin).
      split; [apply Hsnoc; by left|]. split; [done|]. split; [done|].
      intros o' [Ho'| ->]%Hsnoc Hv; [by apply Hmin|done].
    + intros o' [Ho'| ->]%Hsnoc; [by apply Hinv|done].
Qed.

Lemma nearest_fold l :
  ∀ seen best, nearest_inv seen best →
    nearest_inv (seen ++ l) (foldl (nearest_step sqrt visited node) best l).
Proof.
  induction l as [|o l IH]; intros seen best Hinv; [by rewrite app_nil_r|].
  simpl. change (o :: l) with ([o] ++ l). rewrite (assoc_L (++) seen [o] l).
  by apply IH, nearest_step_inv.
Qed.

Lemma nearest_spec : nearest_inv nodes (nearest sqrt nodes visited node).
Proof. apply (nearest_fold nodes [] None). by intros o ?%elem_of_nil. Qed.

End nearest.


(** *** Connecting the nodes that the search did not reach *)

Lemma node_id_in nodes edges n : n ∈ nodes → Node.id n ∈ node_ids (Graph.mk nodes edges).
Proof.
  intros Hn. unfold node_ids. simpl. apply elem_of_list_to_set, list_elem_of_fmap.
  by exists n.
Qed.

Lemma node_ids_edges nodes edges edges' :
  node_ids (Graph.mk nodes edges) = node_ids (Graph.mk nodes edges').
Proof. done. Qed.

(** The edge that [ensureConnected] adds from [node] to [other]. *)
Definition link (sqrt : Q → Q) (node other : Node.t) : Edge.t :=
  Edge.mk (Node.id node) (Node.id other) (distance_weight (node_distance sqrt node other)).

Section connect.
Variable sqrt : Q → Q.
Variable nodes : list Node.t.
Variable first : Node.t.
Hypothesis Hfirst : first ∈ nodes.

(** The first node is visited, and what is visited is reachable from it. *)
Definition connect_inv (visited : gset string) (edges : list Edge.t) : Prop :=
  Node.id first ∈ visited ∧
  ∀ x, x ∈ visited → reachable (Graph.mk nodes edges) (Node.id first) x.

Lemma connect_node_spec visited edges node :
  node ∈ nodes → connect_inv visited edges →
  ∃ other,
    other ∈ nodes ∧ Node.id other ∈ visited ∧
    connect_node sqrt nodes (visited, edges) node
    = (visited ∪ {[Node.id node]}, edges ++ [link sqrt node other]) ∧
    connect_inv (visited ∪ {[Node.id node]}) (edges ++ [link sqrt node other]).
Proof.
  intros Hnode [Hf Hreach]. unfold connect_node.
  pose proof (nearest_spec sqrt nodes visited node) as Hn. unfold nearest_inv in Hn.
  destruct (nearest sqrt nodes visited node) as [[other d]|];
    [|by destruct (Hn first Hfirst)].
  destruct Hn as (Ho & Hov & -> & _). exists other.
  split; [done|]. split; [done|]. split; [done|].
  assert (∀ x, x ∈ visited →
               reachable (Graph.mk nodes (edges ++ [link sqrt node other]))
                 (Node.id first) x) as Hold.
  { intros x Hx. eapply reachable_mono; [|by apply Hreach].
    intros e He. apply elem_of_app. by left. }
  split; [set_solver|].
  intros x [Hx|Hx%elem_of_singleton]%elem_of_union; [by apply Hold|]. subst x.
  apply (reachable_step _ _ (Node.id other) _ (link sqrt node other)).
  - by apply Hold.
  - simpl. apply elem_of_app. right. by apply list_elem_of_singleton.
  - apply joins_iff. by right.
  - by apply node_id_in.
Qed.

Lemma connect_fold l :
  ∀ visited edges,
    (∀ n, n ∈ l → n ∈ nodes) → connect_inv visited edges →
    ∃ visited' added,
      foldl (connect_node sqrt nodes) (visited, edges) l = (visited', edges ++ added) ∧
      connect_inv visited' (edges ++ added) ∧
      visited ⊆ visited' ∧ (∀ n, n ∈ l → Node.id n ∈ visited') ∧
      length added = length l ∧
      ∀ e, e ∈ added → ∃ node other, node ∈ l ∧ other ∈ nodes ∧ e = link sqrt node other.
Proof.
  induction l as [|n l IH]; intros visited edges Hl Hinv.
  { exists visited, []. rewrite app_nil_r.
    split; [done|]. split; [done|]. split; [done|].
    split; [by intros n ?%elem_of_nil|]. split; [done|]. by intros e ?%elem_of_nil. }
  destruct (connect_node_spec visited edges n) as (other & Ho & Hov & Heq & Hinv');
    [apply Hl, elem_of_cons; by left|done|].
  cbn [foldl]. rewrite Heq.
  destruct (IH (visited ∪ {[Node.id n]}) (edges ++ [link sqrt n other]))
    as (V & added & Hfold & HinvV & Hsub & Hin & Hlen & Hadded);
    [intros m Hm; apply Hl, elem_of_cons; by right|done|].
  exists V, (link sqrt n other :: added).
  rewrite Hfold, <- app_assoc. split; [done|].
  split; [by rewrite <- app_assoc in HinvV|].
  split; [set_solver|]. split.
  { intros m [->|Hm]%elem_of_cons; [set_solver|by apply Hin]. }
  split; [simpl; lia|].
  intros e [->|He]%elem_of_cons.
  - exists n, other. split; [apply elem_of_cons; by left|done].
  - destruct (Hadded e He) as (node & o & Hnode & Hon & ->).
    exists node, o. split; [apply elem_of_cons; by right|done].
Qed.

End connect.

(** *** The whole of [ensureConnected] *)

Lemma ensureConnected_run sqrt first rest edges :
  edges_closed (Graph.mk (first :: rest) edges) →
  ∃ (V : gset string) added,
    ensureConnected sqrt (first :: rest) edges = Some (edges ++ added) ∧
    (∀ x, x ∈ V ↔ reachable (Graph.mk (first :: rest) edges) (Node.id first) x) ∧
    length added = length (filter (fun n => Node.id n ∉ V) (first :: rest)) ∧
    (∀ e, e ∈ added →
       ∃ node other, node ∈ first :: rest ∧ (Node.id node ∉ V) ∧
                     other ∈ first :: rest ∧ e = link sqrt node other) ∧
    ∀ n, n ∈ first :: rest →
         reachable (Graph.mk (first :: rest) (edges ++ added)) (Node.id first) (Node.id n).
Proof.
  intros Hclosed. set (nodes := first :: rest). set (g := Graph.mk nodes edges).
  assert (first ∈ nodes) as Hfirst by (apply elem_of_cons; by left).
  set (U := ({[Node.id first]} : gset string) ∪ edge_ids edges).
  destruct (component_loop_spec edges U ltac:(set_solver) (reachable g (Node.id first))
              ltac:(intros e u x He Hj Hu; eapply reachable_step;
                      [done|done|done|by eapply joins_closed])
              (S (S (2 * length edges))) {[Node.id first]} [Node.id first])
    as (V & HV & Hsub & HVU & Hsound & Hcl).
  { split.
    - intros x ->%list_elem_of_singleton. set_solver.
    - set_solver.
    - intros x ->%elem_of_singleton. by apply reachable_refl, node_id_in.
    - intros u ->%elem_of_singleton. left. by apply list_elem_of_singleton. }
  { assert (U ∖ {[Node.id first]} ⊆ edge_ids edges) as Hs by set_solver.
    apply subseteq_size in Hs. pose proof (edge_ids_size edges). simpl length. lia. }
  assert (∀ x, x ∈ V ↔ reachable g (Node.id first) x) as HVreach.
  { intros x. split; [apply Hsound|]. intros (p & W & Hw).
    induction Hw as [W Hs H0|b c p W W1 e Hw IH He Hj Hc HW]; [set_solver|].
    by eapply Hcl. }
  destruct (connect_fold sqrt nodes first Hfirst
              (filter (fun n => Node.id n ∉ V) nodes) V edges)
    as (V' & added & Hfold & [_ Hreach] & HsubV & Hin & Hlen & Hadded).
  { by intros n [_ Hn]%list_elem_of_filter. }
  { split; [set_solver|]. intros x Hx. by apply HVreach. }
  exists V, added. split.
  { unfold ensureConnected. subst nodes. cbv iota. rewrite HV. cbn [mbind option_bind].
    by rewrite Hfold. }
  split; [done|]. split; [done|]. split.
  - intros e He. destruct (Hadded e He) as (node & other & [Hn Hnode]%list_elem_of_filter & Ho & ->).
    by exists node, other.
  - intros n Hn. apply Hreach.
    destruct (decide (Node.id n ∈ V)) as [Hv|Hv]; [by apply HsubV|].
    apply Hin, list_elem_of_filter. done.
Qed.

Lemma node_ids_elem nodes edges a :
  a ∈ node_ids (Graph.mk nodes edges) → ∃ n, n ∈ nodes ∧ Node.id n = a.
Proof.
  unfold node_ids. simpl. intros (n & -> & Hn)%elem_of_list_to_set%list_elem_of_fmap.
  by exists n.
Qed.

Lemma link_closed sqrt nodes edges node other :
  node ∈ nodes → other ∈ nodes →
  Edge.from (link sqrt node other) ∈ node_ids (Graph.mk nodes edges) ∧
  Edge.to (link sqrt node other) ∈ node_ids (Graph.mk nodes edges).
Proof. intros Hn Ho. split; simpl; by apply node_id_in. Qed.


Lemma filter_none {A} (P : A → Prop) `{∀ x, Decision (P x)} (l : list A) :
  (∀ x, x ∈ l → ¬ P x) → filter P l = [].
Proof.
  intros Hl. destruct (filter P l) as [|x l'] eqn:Hf; [done|].
  assert (x ∈ filter P l) as [Hx Hin]%list_elem_of_filter
    by (rewrite Hf; apply elem_of_cons; by left).
  by destruct (Hl x Hin).
Qed.

(** A graph in which every node is reachable from the first one is left as
    it is. *)
Lemma ensureConnected_fixed sqrt first rest edges :
  edges_closed (Graph.mk (first :: rest) edges) →
  (∀ n, n ∈ first :: rest →
        reachable (Graph.mk (first :: rest) edges) (Node.id first) (Node.id n)) →
  ensureConnected sqrt (first :: rest) edges = Some edges.
Proof.
  intros Hclosed Hconn.
  destruct (ensureConnected_run sqrt first rest edges Hclosed)
    as (V & added & Hrun & HV & Hlen & _).
  rewrite filter_none in Hlen.
  - destruct added; [|done]. by rewrite app_nil_r in Hrun.
  - intros n Hn Hv. apply Hv, HV. by apply Hconn.
Qed.


(** The weight computed from a distance that is not negative is an integer
    between 1 and 20. *)
Lemma distance_weight_range d :
  (0 <= d)%Q →
  ∃ k : positive, distance_weight d = inject_Z (Zpos k) ∧ (Zpos k <= 20)%Z.
Proof.
  intros Hd. unfold distance_weight.
  assert (0 <= Qfloor (d / 20))%Z as Hfloor.
  { change 0%Z with (Qfloor 0). apply Qfloor_resp_le.
    apply Qle_shift_div_l; [reflexivity|]. lra. }
  destruct (Z.min (Qfloor (d / 20) + 1) 20) as [|k|k] eqn:Hz; [lia| |lia].
  exists k. split; [done|]. lia.
Qed.


(** Two nodes 20 units apart and no edge. *)
Definition apart : list Node.t := [Node.mk "a" 0 0; Node.mk "b" 20 0].

Lemma apart_closed : edges_closed (Graph.mk apart []).
Proof. by intros e ?%elem_of_nil. Defined.

Lemma apart_positions : integer_positions apart.
Proof.
  intros n Hn. unfold apart in Hn. rewrite !elem_of_cons, elem_of_nil in Hn.
  destruct Hn as [->|[->|[]]]; [exists 0%Z, 0%Z|exists 20%Z, 0%Z]; by vm_compute.
Defined.


Lemma int_sqrt_nonneg q : (0 <= int_sqrt q)%Q.
Proof.
  unfold int_sqrt. change 0%Q with (inject_Z 0). rewrite <- Zle_Qle. apply Z.sqrt_nonneg.
Defined.




(** ** Searching a generated graph *)

Lemma dijkstra_finds_shortest {H : MinHeap} cfg :
  "" ∉ node_ids (graph cfg) → nonneg_weights (graph cfg) →
  reachable (graph cfg) (startNode cfg) (endNode cfg) →
  ∃ r, Dijkstra.dijkstra cfg = Some r ∧
    head (AlgorithmResult.path r) = Some (startNode cfg) ∧
    last (AlgorithmResult.path r) = Some (endNode cfg) ∧
    walk (graph cfg) (startNode cfg) (endNode cfg) (AlgorithmResult.path r)
      (path_weight (graph cfg) (AlgorithmResult.path r)) ∧
    ∀ p' W', walk (graph cfg) (startNode cfg) (endNode cfg) p' W' →
             (path_weight (graph cfg) (AlgorithmResult.path r) <= W')%Q.
Proof.
  intros Hne Hpos Hreach.
  assert (startNode cfg ∈ node_ids (graph cfg)) as Hs.
  { destruct Hreach as (p & W & Hw). by eapply walk_from_node. }
  destruct (dijkstra_optimal cfg Hne Hpos Hs) as (r & Hr & Hopt & _).
  destruct (Hopt Hreach) as (W & Hw & Hmin).
  exists r. split; [done|].
  destruct (walk_ends _ _ _ _ _ Hw) as [Hhd Hlast].
  destruct (walk_path_weight _ _ _ _ _ Hw) as [_ Hw'].
  pose proof (optimal_path_weight _ _ _ _ _ Hw Hmin) as HW.
  repeat split; try done.
  intros p' W' Hw2. specialize (Hmin _ _ Hw2). lra.
Qed.



(** ** [generateGridGraph] *)

(** *** The cells and their ids *)

Lemma grid_cells_elem rows cols i j :
  (i, j) ∈ grid_cells rows cols ↔ (i < rows)%nat ∧ (j < cols)%nat.
Proof.
  unfold grid_cells. rewrite list_elem_of_bind. setoid_rewrite list_elem_of_bind.
  setoid_rewrite list_elem_of_singleton. setoid_rewrite elem_of_seq. split.
  - intros (i' & (j' & [= -> ->] & Hj) & Hi). lia.
  - intros [Hi Hj]. exists i. split; [|lia]. exists j. split; [done|lia].
Qed.

Lemma grid_row_length (i b cols : nat) :
  length (seq b cols ≫= λ j, [(i, j)]) = cols.
Proof.
  revert b. induction cols as [|cols IH]; intros b; [done|].
  cbn [seq]. rewrite bind_cons. simpl. by rewrite IH.
Qed.

Lemma grid_cells_length rows cols : length (grid_cells rows cols) = (rows * cols)%nat.
Proof.
  unfold grid_cells.
  assert (∀ a, length (seq a rows ≫= λ i, seq 0 cols ≫= λ j, [(i, j)])
               = (rows * cols)%nat) as Hlen; [|apply Hlen].
  induction rows as [|rows IH]; intros a; [done|].
  cbn [seq]. rewrite bind_cons, length_app, IH, grid_row_length. lia.
Qed.

Lemma grid_cells_NoDup rows cols : NoDup (grid_cells rows cols).
Proof.
  unfold grid_cells. apply NoDup_bind.
  - intros i1 i2 [i j] _ _ (j1 & [= -> ->]%list_elem_of_singleton & _)%list_elem_of_bind
      (j2 & [= <- _]%list_elem_of_singleton & _)%list_elem_of_bind. done.
  - intros i _. apply NoDup_bind.
    + by intros j1 j2 [i' j] _ _ [= _ ->]%list_elem_of_singleton [= _ ->]%list_elem_of_singleton.
    + intros j _. apply NoDup_singleton.
    + apply NoDup_seq.
  - apply NoDup_seq.
Qed.

(** The string has no dash. *)
Fixpoint no_dash (s : string) : Prop :=
  match s with
  | EmptyString => True
  | String c s' => String c EmptyString ≠ "-" ∧ no_dash s'
  end.

Lemma pretty_N_char_no_dash x : String (pretty_N_char x) EmptyString ≠ "-".
Proof. unfold pretty_N_char. by repeat case_match. Qed.

Lemma pretty_N_go_no_dash x : ∀ s, no_dash s → no_dash (pretty_N_go x s).
Proof.
  induction (N.lt_wf_0 x) as [x _ IH]. intros s Hs.
  destruct (decide (x = 0%N)) as [->|Hx]; [by rewrite pretty_N_go_0|].
  rewrite pretty_N_go_step by lia. apply IH.
  - apply N.div_lt; lia.
  - split; [apply pretty_N_char_no_dash|done].
Qed.

Lemma pretty_nat_no_dash (n : nat) : no_dash (pretty n).
Proof.
  unfold pretty, pretty_nat, pretty, pretty_N.
  destruct (decide _); [by split|]. by apply pretty_N_go_no_dash.
Qed.

Lemma append_nil (s : string) : "" +:+ s = s.
Proof. reflexivity. Qed.

Lemma append_cons c (a s : string) : String c a +:+ s = String c (a +:+ s).
Proof. reflexivity. Qed.

Lemma no_dash_split a : ∀ a' b b',
  no_dash a → no_dash a' → a +:+ "-" +:+ b = a' +:+ "-" +:+ b' → a = a' ∧ b = b'.
Proof.
  induction a as [|c a IH]; intros [|c' a'] b b' Ha Ha' Heq;
    repeat (rewrite append_nil in Heq || rewrite append_cons in Heq).
  - by injection Heq as ->.
  - injection Heq as <- _. by destruct Ha' as [[] _].
  - injection Heq as -> _. by destruct Ha as [[] _].
  - injection Heq as -> Heq. destruct Ha as [_ Ha], Ha' as [_ Ha'].
    by destruct (IH a' b b' Ha Ha' Heq) as [-> ->].
Qed.

Lemma grid_id_inj i j i' j' : grid_id i j = grid_id i' j' → i = i' ∧ j = j'.
Proof.
  unfold grid_id. intros Heq.
  repeat (rewrite append_nil in Heq || rewrite append_cons in Heq).
  injection Heq as Heq.
  apply no_dash_split in Heq as [Hi Hj]; [|apply pretty_nat_no_dash..].
  split; by eapply (inj pretty).
Qed.

Lemma grid_id_not_empty i j : grid_id i j ≠ "".
Proof. done. Qed.

(** *** The edges of the grid *)

Section grid_edges.
Variable random : nat → Q.
Variables rows cols : nat.

(** The number of edges that start in a cell. *)
Definition cell_out (cell : nat * nat) : nat :=
  ((if (cell.2 <? cols - 1)%nat then 1 else 0)
   + (if (cell.1 <? rows - 1)%nat then 1 else 0))%nat.

(** An edge of the grid from the cell [(i, j)]: to the right or to the
    bottom, with the weight drawn at some call of [Math.random]. *)
Definition grid_edge_of (i j : nat) (e : Edge.t) : Prop :=
  ∃ n,
    ((j + 1 < cols)%nat ∧
     e = Edge.mk (grid_id i j) (grid_id i (j + 1)) (random_weight (random n))) ∨
    ((i + 1 < rows)%nat ∧
     e = Edge.mk (grid_id i j) (grid_id (i + 1) j) (random_weight (random n))).

Lemma grid_edges_fold cells :
  ∀ edges k,
    ∃ es,
      foldl (grid_edges_step random rows cols) (edges, k) cells
      = (edges ++ es, (k + length es)%nat) ∧
      length es = sum_list (cell_out <$> cells) ∧
      (∀ e, e ∈ es → ∃ i j, (i, j) ∈ cells ∧ grid_edge_of i j e) ∧
      ∀ i j, (i, j) ∈ cells →
        ((j + 1 < cols)%nat →
         ∃ w, Edge.mk (grid_id i j) (grid_id i (j + 1)) w ∈ es) ∧
        ((i + 1 < rows)%nat →
         ∃ w, Edge.mk (grid_id i j) (grid_id (i + 1) j) w ∈ es).
Proof.
  induction cells as [|[i j] cells IH]; intros edges k.
  { exists []. rewrite app_nil_r, Nat.add_0_r. split; [done|]. split; [done|].
    split; [by intros e ?%elem_of_nil|]. by intros i j ?%elem_of_nil. }
  cbn [foldl]. unfold grid_edges_step at 2. cbn [fst snd].
  set (right := Edge.mk (grid_id i j) (grid_id i (j + 1)) (random_weight (random k))).
  destruct (j <? cols - 1)%nat eqn:Hj;
    [apply Nat.ltb_lt in Hj|apply Nat.ltb_ge in Hj]; cbn [fst snd].
  - set (down := Edge.mk (grid_id i j) (grid_id (i + 1) j) (random_weight (random (S k)))).
    destruct (i <? rows - 1)%nat eqn:Hi;
      [apply Nat.ltb_lt in Hi|apply Nat.ltb_ge in Hi].
    + destruct (IH ((edges ++ [right]) ++ [down]) (S (S k))) as (es & -> & Hlen & Hfrom & Hall).
      exists (right :: down :: es). rewrite <- !app_assoc. simpl.
      split; [f_equal; try done; simpl; lia|]. split.
      { unfold cell_out at 1. simpl.
        rewrite (proj2 (Nat.ltb_lt _ _) Hj), (proj2 (Nat.ltb_lt _ _) Hi), ?Hlen. simpl. reflexivity || lia. }
      split.
      * intros e [->|[->|He]%elem_of_cons]%elem_of_cons.
        -- exists i, j. split; [apply elem_of_cons; by left|]. exists k. left.
           split; [lia|done].
        -- exists i, j. split; [apply elem_of_cons; by left|]. exists (S k). right.
           split; [lia|done].
        -- destruct (Hfrom e He) as (i' & j' & Hc & He'). exists i', j'.
           split; [apply elem_of_cons; by right|done].
      * intros i' j' [[= -> ->]|Hc]%elem_of_cons.
        -- split; intros _; eexists; [apply elem_of_cons; by left|].
           apply elem_of_cons. right. apply elem_of_cons. by left.
        -- destruct (Hall i' j' Hc) as [Hr Hd]. split; intros Hlt.
           ++ destruct (Hr Hlt) as [w Hw]. exists w. by do 2 (apply elem_of_cons; right).
           ++ destruct (Hd Hlt) as [w Hw]. exists w. by do 2 (apply elem_of_cons; right).
    + destruct (IH (edges ++ [right]) (S k)) as (es & -> & Hlen & Hfrom & Hall).
      exists (right :: es). rewrite <- !app_assoc. simpl.
      split; [f_equal; try done; simpl; lia|]. split.
      { unfold cell_out at 1. simpl.
        rewrite (proj2 (Nat.ltb_lt _ _) Hj), (proj2 (Nat.ltb_ge _ _) Hi), ?Hlen. simpl. reflexivity || lia. }
      split.
      * intros e [->|He]%elem_of_cons.
        -- exists i, j. split; [apply elem_of_cons; by left|]. exists k. left.
           split; [lia|done].
        -- destruct (Hfrom e He) as (i' & j' & Hc & He'). exists i', j'.
           split; [apply elem_of_cons; by right|done].
      * intros i' j' [[= -> ->]|Hc]%elem_of_cons.
        -- split; intros Hlt; [|lia]. eexists. apply elem_of_cons. by left.
        -- destruct (Hall i' j' Hc) as [Hr Hd]. split; intros Hlt.
           ++ destruct (Hr Hlt) as [w Hw]. exists w. by apply elem_of_cons; right.
           ++ destruct (Hd Hlt) as [w Hw]. exists w. by apply elem_of_cons; right.
  - set (down := Edge.mk (grid_id i j) (grid_id (i + 1) j) (random_weight (random k))).
    destruct (i <? rows - 1)%nat eqn:Hi;
      [apply Nat.ltb_lt in Hi|apply Nat.ltb_ge in Hi].
    + destruct (IH (edges ++ [down]) (S k)) as (es & -> & Hlen & Hfrom & Hall).
      exists (down :: es). rewrite <- !app_assoc. simpl.
      split; [f_equal; try done; simpl; lia|]. split.
      { unfold cell_out at 1. simpl.
        rewrite (proj2 (Nat.ltb_ge _ _) Hj), (proj2 (Nat.ltb_lt _ _) Hi), ?Hlen. simpl. reflexivity || lia. }
      split.
      * intros e [->|He]%elem_of_cons.
        -- exists i, j. split; [apply elem_of_cons; by left|]. exists k. right.
           split; [lia|done].
        -- destruct (Hfrom e He) as (i' & j' & Hc & He'). exists i', j'.
           split; [apply elem_of_cons; by right|done].
      * intros i' j' [[= -> ->]|Hc]%elem_of_cons.
        -- split; intros Hlt; [lia|]. eexists. apply elem_of_cons. by left.
        -- destruct (Hall i' j' Hc) as [Hr Hd]. split; intros Hlt.
           ++ destruct (Hr Hlt) as [w Hw]. exists w. by apply elem_of_cons; right.
           ++ destruct (Hd Hlt) as [w Hw]. exists w. by apply elem_of_cons; right.
    + destruct (IH edges k) as (es & -> & Hlen & Hfrom & Hall).
      exists es. split; [done|]. split.
      { simpl. unfold cell_out at 1. simpl.
        rewrite (proj2 (Nat.ltb_ge _ _) Hj), (proj2 (Nat.ltb_ge _ _) Hi), ?Hlen. simpl. reflexivity || lia. }
      split.
      * intros e He. destruct (Hfrom e He) as (i' & j' & Hc & He'). exists i', j'.
        split; [apply elem_of_cons; by right|done].
      * intros i' j' [[= -> ->]|Hc]%elem_of_cons; [split; intros Hlt; lia|].
        by apply Hall.
Qed.

End grid_edges.

Lemma sum_list_snoc (l : list nat) (x : nat) : sum_list (l ++ [x]) = (sum_list l + x)%nat.
Proof. induction l as [|y l IH]; simpl; lia. Qed.

Lemma sum_list_append (l1 l2 : list nat) :
  sum_list (l1 ++ l2) = (sum_list l1 + sum_list l2)%nat.
Proof. induction l1 as [|y l IH]; simpl; lia. Qed.

(** The number of indices below [n] that are below [b]. *)
Lemma sum_below_seq (b n : nat) :
  sum_list ((fun j => if (j <? b)%nat then 1 else 0)%nat <$> seq 0 n) = (n `min` b)%nat.
Proof.
  induction n as [|n IH]; [done|].
  rewrite seq_S, fmap_snoc, sum_list_snoc, IH. cbn [Nat.add].
  destruct (n <? b)%nat eqn:Hn; [apply Nat.ltb_lt in Hn|apply Nat.ltb_ge in Hn]; lia.
Qed.

Lemma grid_row_cells (i cols : nat) :
  (seq 0 cols ≫= λ j, [(i, j)]) = (fun j => (i, j)) <$> seq 0 cols.
Proof.
  induction cols as [|cols IH]; [done|].
  by rewrite seq_S, bind_app, fmap_snoc, IH.
Qed.

Lemma grid_row_out rows cols i :
  sum_list (cell_out rows cols <$> (seq 0 cols ≫= λ j, [(i, j)]))
  = ((cols - 1) + cols * (if (i <? rows - 1)%nat then 1 else 0))%nat.
Proof.
  rewrite grid_row_cells, <- list_fmap_compose.
  pose proof (sum_below_seq (cols - 1) cols) as Hright.
  assert (∀ l : list nat,
            sum_list ((cell_out rows cols ∘ (fun j => (i, j))) <$> l)
            = (sum_list ((fun j => if (j <? cols - 1)%nat then 1 else 0)%nat <$> l)
               + length l * (if (i <? rows - 1)%nat then 1 else 0))%nat) as Hsum.
  { induction l as [|j l IH]; [done|]. rewrite !fmap_cons. cbn [sum_list_with sum_list].
    simpl in IH |- *. rewrite IH. unfold cell_out. simpl. lia. }
  rewrite Hsum, Hright, length_seq. lia.
Qed.

Lemma grid_cells_out rows cols :
  sum_list (cell_out rows cols <$> grid_cells rows cols)
  = (rows * (cols - 1) + (rows - 1) * cols)%nat.
Proof.
  unfold grid_cells.
  assert (∀ n, sum_list (cell_out rows cols <$>
                           (seq 0 n ≫= λ i, seq 0 cols ≫= λ j, [(i, j)]))
               = (n * (cols - 1) + cols * (n `min` (rows - 1)))%nat) as Hn.
  { induction n as [|n IH]; [simpl; lia|].
    rewrite seq_S, bind_app, fmap_app, sum_list_append, IH.
    change ([0 + n] ≫= λ i, seq 0 cols ≫= λ j, [(i, j)])%nat
      with ((seq 0 cols ≫= λ j, [(n, j)]) ++ []).
    rewrite app_nil_r, grid_row_out.
    destruct (n <? rows - 1)%nat eqn:Hlt;
      [apply Nat.ltb_lt in Hlt|apply Nat.ltb_ge in Hlt]; nia. }
  rewrite Hn. nia.
Qed.

(** *** The generated grid *)

Section grid_facts.
Variable random : nat → Q.
Variables rows cols : nat.

Local Abbreviation grid := (generateGridGraph random rows cols).

Lemma grid_ids :
  Node.id <$> (Labelled.node <$> grid.1) = (fun c => grid_id c.1 c.2) <$> grid_cells rows cols.
Proof.
  unfold generateGridGraph. cbn [fst]. rewrite <- !list_fmap_compose.
  apply list_fmap_ext. by intros _ [i j] _.
Qed.

Lemma grid_node_ids x :
  x ∈ node_ids (graph_of grid)
  ↔ ∃ i j, (i < rows)%nat ∧ (j < cols)%nat ∧ x = grid_id i j.
Proof.
  unfold node_ids, graph_of. cbn [Graph.nodes]. rewrite elem_of_list_to_set, grid_ids.
  rewrite list_elem_of_fmap. split.
  - intros ([i j] & -> & [Hi Hj]%grid_cells_elem). by exists i, j.
  - intros (i & j & Hi & Hj & ->). exists (i, j). split; [done|]. by apply grid_cells_elem.
Qed.

Lemma grid_edges_spec :
  length grid.2 = (rows * (cols - 1) + (rows - 1) * cols)%nat ∧
  (∀ e, e ∈ grid.2 →
        ∃ i j, (i < rows)%nat ∧ (j < cols)%nat ∧ grid_edge_of random rows cols i j e) ∧
  ∀ i j, (i < rows)%nat → (j < cols)%nat →
    ((j + 1 < cols)%nat → ∃ w, Edge.mk (grid_id i j) (grid_id i (j + 1)) w ∈ grid.2) ∧
    ((i + 1 < rows)%nat → ∃ w, Edge.mk (grid_id i j) (grid_id (i + 1) j) w ∈ grid.2).
Proof.
  unfold generateGridGraph. cbn [snd].
  destruct (grid_edges_fold random rows cols (grid_cells rows cols) [] 0)
    as (es & -> & Hlen & Hfrom & Hall).
  cbn [fst app]. split; [by rewrite Hlen, grid_cells_out|]. split.
  - intros e He. destruct (Hfrom e He) as (i & j & [Hi Hj]%grid_cells_elem & Hedge).
    by exists i, j.
  - intros i j Hi Hj. apply Hall, grid_cells_elem. done.
Qed.

Lemma grid_closed : edges_closed (graph_of grid).
Proof.
  intros e He. destruct grid_edges_spec as (_ & Hfrom & _).
  destruct (Hfrom e He) as (i & j & Hi & Hj & n & [[Hlt ->]|[Hlt ->]]); simpl;
    split; apply grid_node_ids.
  - by exists i, j.
  - exists i, (j + 1)%nat. split; [done|]. split; [lia|done].
  - by exists i, j.
  - exists (i + 1)%nat, j. split; [lia|]. done.
Qed.

(** Every cell is reachable from the first one. *)
Lemma grid_reachable i j :
  (i < rows)%nat → (j < cols)%nat →
  reachable (graph_of grid) (grid_id 0 0) (grid_id i j).
Proof.
  intros Hi Hj. destruct grid_edges_spec as (_ & _ & Hall).
  assert (reachable (graph_of grid) (grid_id 0 0) (grid_id i 0)) as Hcol.
  { assert (0 < cols)%nat as H0 by lia. clear Hj. revert Hi.
    induction i as [|i IH]; intros Hi.
    - apply reachable_refl, grid_node_ids. exists 0%nat, 0%nat. split; [lia|]. split; [lia|done].
    - destruct (Hall i 0%nat) as [_ Hd]; [lia..|]. destruct Hd as [w Hw]; [lia|].
      eapply reachable_step; [apply IH; lia|exact Hw| |].
      + apply joins_iff. left. split; [done|]. simpl. by rewrite Nat.add_1_r.
      + apply grid_node_ids. exists (S i), 0%nat. split; [lia|]. split; [lia|done]. }
  revert Hj. induction j as [|j IH]; intros Hj; [done|].
  destruct (Hall i j) as [Hr _]; [lia..|]. destruct Hr as [w Hw]; [lia|].
  eapply reachable_step; [apply IH; lia|exact Hw| |].
  - apply joins_iff. left. split; [done|]. simpl. by rewrite Nat.add_1_r.
  - apply grid_node_ids. exists i, (S j). split; [lia|]. split; [lia|done].
Qed.

End grid_facts.

(** X15: [generateGridGraph(rows, cols)] returns [rows * cols] nodes, whose
    ids [node-i-j] are pairwise distinct and not empty, and
    [rows * (cols - 1) + (rows - 1) * cols] edges, each from a cell to its
    right or bottom neighbour, so every edge joins two nodes of the grid. *)
Theorem generateGridGraph_shape random rows cols :
  let g := generateGridGraph random rows cols in
  length g.1 = (rows * cols)%nat ∧
  length g.2 = (rows * (cols - 1) + (rows - 1) * cols)%nat ∧
  NoDup (Node.id <$> Graph.nodes (graph_of g)) ∧
  (∀ x, x ∈ node_ids (graph_of g)
        ↔ ∃ i j, (i < rows)%nat ∧ (j < cols)%nat ∧ x = grid_id i j) ∧
  ("" ∉ node_ids (graph_of g)) ∧
  (∀ e, e ∈ g.2 →
        ∃ i j, (i < rows)%nat ∧ (j < cols)%nat ∧ Edge.from e = grid_id i j ∧
               (((j + 1 < cols)%nat ∧ Edge.to e = grid_id i (j + 1)) ∨
                ((i + 1 < rows)%nat ∧ Edge.to e = grid_id (i + 1) j))) ∧
  edges_closed (graph_of g).
Proof.
  cbv zeta. destruct (grid_edges_spec random rows cols) as (Hlen & Hfrom & _).
  split. { unfold generateGridGraph. cbn [fst]. by rewrite length_fmap, grid_cells_length. }
  split; [done|]. split.
  { unfold graph_of. cbn [Graph.nodes]. rewrite grid_ids.
    apply NoDup_fmap_2_strong; [|apply grid_cells_NoDup].
    intros [i j] [i' j'] _ _ Heq. simpl in Heq. by apply grid_id_inj in Heq as [-> ->]. }
  split; [apply grid_node_ids|]. split.
  { intros (i & j & _ & _ & Heq)%grid_node_ids. by apply eq_sym, grid_id_not_empty in Heq. }
  split; [|apply grid_closed].
  intros e He. destruct (Hfrom e He) as (i & j & Hi & Hj & n & [[Hlt ->]|[Hlt ->]]);
    exists i, j; simpl; split; try done; split; try done; split; try done; [left|right]; done.
Qed.

Lemma random_weight_range r :
  (0 <= r)%Q → (r < 1)%Q →
  ∃ k : positive, random_weight r = inject_Z (Zpos k) ∧ (Zpos k <= 10)%Z.
Proof.
  intros H0 H1. unfold random_weight.
  assert (0 <= Qfloor (r * 10))%Z as Hlo.
  { change 0%Z with (Qfloor 0). apply Qfloor_resp_le. lra. }
  assert (Qfloor (r * 10) < 10)%Z as Hhi.
  { apply Z.lt_nge. intros Hge.
    pose proof (Qfloor_le (r * 10)) as Hfl.
    assert (inject_Z 10 <= inject_Z (Qfloor (r * 10)))%Q as Hq by (by rewrite <- Zle_Qle).
    change (inject_Z 10) with 10%Q in Hq. lra. }
  destruct (Qfloor (r * 10) + 1)%Z as [|k|k] eqn:Hz; [lia| |lia].
  exists k. split; [done|]. lia.
Qed.

Lemma grid_weights random rows cols :
  (∀ n, (0 <= random n)%Q ∧ (random n < 1)%Q) →
  ∀ e, e ∈ (generateGridGraph random rows cols).2 →
       ∃ k : positive, Edge.weight e = inject_Z (Zpos k) ∧ (Zpos k <= 10)%Z.
Proof.
  intros Hrandom e He. destruct (grid_edges_spec random rows cols) as (_ & Hfrom & _).
  destruct (Hfrom e He) as (i & j & _ & _ & n & [[_ ->]|[_ ->]]); simpl;
    apply random_weight_range; apply Hrandom.
Qed.

(** X16: when [Math.random] returns numbers from 0 (included) to 1
    (excluded), every edge of the generated grid has an integer weight
    between 1 and 10. *)
Theorem generateGridGraph_weights random rows cols :
  (∀ n, (0 <= random n)%Q ∧ (random n < 1)%Q) →
  Forall (fun e => ∃ k : positive, Edge.weight e = inject_Z (Zpos k) ∧ (Zpos k <= 10)%Z)
         (generateGridGraph random rows cols).2.
Proof. intros Hrandom. apply Forall_forall. by apply grid_weights. Qed.

(** A source of random numbers that always returns one half. *)
Definition one_half : nat → Q := fun _ => (1 # 2)%Q.

Lemma one_half_range n : (0 <= one_half n)%Q ∧ (one_half n < 1)%Q.
Proof. unfold one_half. split; lra. Defined.

Lemma generateGridGraph_weights_witness :
  Forall (fun e => ∃ k : positive, Edge.weight e = inject_Z (Zpos k) ∧ (Zpos k <= 10)%Z)
         (generateGridGraph one_half 2 2).2.
Proof. apply (generateGridGraph_weights one_half 2 2), one_half_range. Defined.

(** X17: the generated grid is connected, and [dijkstra] searches it well:
    when [Math.random] returns numbers from 0 to 1, for any two nodes of
    the grid [dijkstra] returns a path from the one to the other along
    edges of the grid, and no walk between them is lighter. *)
Theorem dijkstra_on_grid {H : MinHeap} random rows cols s t :
  (∀ n, (0 <= random n)%Q ∧ (random n < 1)%Q) →
  let g := graph_of (generateGridGraph random rows cols) in
  s ∈ node_ids g → t ∈ node_ids g →
  reachable g s t ∧
  ∃ r, Dijkstra.dijkstra (mkConfig s t g) = Some r ∧
    head (AlgorithmResult.path r) = Some s ∧
    last (AlgorithmResult.path r) = Some t ∧
    walk g s t (AlgorithmResult.path r) (path_weight g (AlgorithmResult.path r)) ∧
    ∀ p' W', walk g s t p' W' → (path_weight g (AlgorithmResult.path r) <= W')%Q.
Proof.
  intros Hrandom g Hs Ht.
  assert (reachable g s t) as Hst.
  { apply grid_node_ids in Hs as (i & j & Hi & Hj & ->).
    apply grid_node_ids in Ht as (i' & j' & Hi' & Hj' & ->).
    eapply reachable_trans; [apply reachable_sym|]; by apply grid_reachable. }
  split; [done|].
  apply (dijkstra_finds_shortest (mkConfig s t g)); [| |done].
  - intros (i & j & _ & _ & Heq)%grid_node_ids. by apply eq_sym, grid_id_not_empty in Heq.
  - apply positive_integer_nonneg. intros e He.
    destruct (grid_weights random rows cols Hrandom e He) as (k & Hk & _).
    by exists k.
Qed.

Lemma dijkstra_on_grid_witness :
  let g := graph_of (generateGridGraph one_half 2 2) in
  reachable g (grid_id 0 0) (grid_id 1 1) ∧
  ∃ r, Dijkstra.dijkstra (mkConfig (grid_id 0 0) (grid_id 1 1) g) = Some r ∧
    head (AlgorithmResult.path r) = Some (grid_id 0 0) ∧
    last (AlgorithmResult.path r) = Some (grid_id 1 1) ∧
    walk g (grid_id 0 0) (grid_id 1 1) (AlgorithmResult.path r)
      (path_weight g (AlgorithmResult.path r)) ∧
    ∀ p' W', walk g (grid_id 0 0) (grid_id 1 1) p' W' →
             (path_weight g (AlgorithmResult.path r) <= W')%Q.
Proof.
  apply (dijkstra_on_grid one_half 2 2 (grid_id 0 0) (grid_id 1 1) one_half_range).
  - apply grid_node_ids. exists 0%nat, 0%nat. split; [lia|]. split; [lia|done].
  - apply grid_node_ids. exists 1%nat, 1%nat. split; [lia|]. split; [lia|done].
Defined.

(** * The step that completes a run *)

Definition incomplete (s : PathStep.t) : Prop := PathStep.isComplete s = false.

(** What a loop returns: steps that are all incomplete, or incomplete steps
    followed by the step of the end node, taken in the final state. *)
Definition ends_with (pre_final : PathStep.t → Prop) (steps : list PathStep.t) : Prop :=
  Forall incomplete steps ∨
  ∃ pre s, steps = pre ++ [s] ∧ Forall incomplete pre ∧ pre_final s.

Lemma BFS_loop_last cfg adj fuel :
  ∀ acc v steps v',
    BFS.loop fuel cfg adj acc v = Some (steps, v') → Forall incomplete acc →
    ends_with (fun s => BFS.snapshot cfg v' (endNode cfg) = Some s) steps.
Proof.
  induction fuel as [|fuel IH]; intros acc v steps v' Hloop Hacc; [done|].
  cbn [BFS.loop] in Hloop.
  destruct (BFS.queue v) as [|cur rest]; [injection Hloop as <- <-; by left|].
  destruct (BFS.snapshot cfg _ cur) as [s|] eqn:Hs; [|done]. simpl in Hloop.
  destruct (str_eq cur (endNode cfg)) eqn:Hend.
  - injection Hloop as <- <-. apply str_eq_true in Hend as ->. right. by exists acc, s.
  - eapply IH; [done|]. apply Forall_app. split; [done|]. apply Forall_singleton.
    apply BFS_snapshot_fields in Hs as (_ & _ & _ & _ & Hc). unfold incomplete. congruence.
Qed.

Lemma DFS_loop_last cfg adj fuel :
  ∀ acc v steps v',
    DFS.loop fuel cfg adj acc v = Some (steps, v') → Forall incomplete acc →
    ends_with (fun s => DFS.snapshot cfg v' (endNode cfg) = Some s) steps.
Proof.
  induction fuel as [|fuel IH]; intros acc v steps v' Hloop Hacc; [done|].
  cbn [DFS.loop] in Hloop.
  destruct (DFS.stack v) as [|cur rest]; [injection Hloop as <- <-; by left|].
  destruct (decide (cur ∈ DFS.visitedNodes v)); [by eapply IH|].
  destruct (DFS.snapshot cfg _ cur) as [s|] eqn:Hs; [|done]. simpl in Hloop.
  destruct (str_eq cur (endNode cfg)) eqn:Hend.
  - injection Hloop as <- <-. apply str_eq_true in Hend as ->. right. by exists acc, s.
  - eapply IH; [done|]. apply Forall_app. split; [done|]. apply Forall_singleton.
    apply DFS_snapshot_fields in Hs as (_ & _ & _ & _ & Hc). unfold incomplete. congruence.
Qed.

Lemma Dijkstra_loop_last {H : MinHeap} cfg adj fuel :
  ∀ acc v steps v',
    Dijkstra.loop fuel cfg adj acc v = Some (steps, v') → Forall incomplete acc →
    ends_with (fun s => Dijkstra.snapshot cfg v' (endNode cfg) = Some s) steps.
Proof.
  induction fuel as [|fuel IH]; intros acc v steps v' Hloop Hacc; [done|].
  cbn [Dijkstra.loop] in Hloop.
  destruct (heap_isEmpty (Dijkstra.pq v)); [injection Hloop as <- <-; by left|].
  destruct (heap_pop (Dijkstra.pq v)) as [[[f n] q]|]; [|injection Hloop as <- <-; by left].
  destruct (decide _); [by eapply IH|].
  destruct (Dijkstra.snapshot cfg _ n) as [s|] eqn:Hs; [|done]. simpl in Hloop.
  destruct (str_eq n (endNode cfg)) eqn:Hend.
  - injection Hloop as <- <-. apply str_eq_true in Hend as ->. right. by exists acc, s.
  - assert (Forall incomplete (acc ++ [s])) as Hacc'.
    { apply Forall_app. split; [done|]. apply Forall_singleton.
      apply Dijkstra_snapshot_fields in Hs as (_ & _ & _ & _ & Hc).
      unfold incomplete. congruence. }
    destruct (num_gt _ _); by eapply IH.
Qed.

Lemma AStar_loop_last {H : MinHeap} h cfg adj fuel :
  ∀ acc v steps v',
    AStar.loop h fuel cfg adj acc v = Some (steps, v') → Forall incomplete acc →
    ends_with (fun s => AStar.snapshot cfg v' (endNode cfg) = Some s) steps.
Proof.
  induction fuel as [|fuel IH]; intros acc v steps v' Hloop Hacc; [done|].
  cbn [AStar.loop] in Hloop.
  destruct (heap_isEmpty (AStar.openSet v)); [injection Hloop as <- <-; by left|].
  destruct (heap_pop (AStar.openSet v)) as [[[f n] q]|]; [|injection Hloop as <- <-; by left].
  destruct (decide _); [by eapply IH|].
  destruct (AStar.snapshot cfg _ n) as [s|] eqn:Hs; [|done]. simpl in Hloop.
  destruct (str_eq n (endNode cfg)) eqn:Hend.
  - injection Hloop as <- <-. apply str_eq_true in Hend as ->. right. by exists acc, s.
  - assert (Forall incomplete (acc ++ [s])) as Hacc'.
    { apply Forall_app. split; [done|]. apply Forall_singleton.
      apply AStar_snapshot_fields in Hs as (_ & _ & _ & _ & Hc).
      unfold incomplete. congruence. }
    destruct (num_gt _ _); by eapply IH.
Qed.

(** The step of the end node that closes the result [r]. *)
Definition closing_step (cfg : AlgorithmConfig) (r : AlgorithmResult.t) (s : PathStep.t)
  : Prop :=
  PathStep.currentNode s = endNode cfg ∧
  PathStep.path s = AlgorithmResult.path r ∧
  PathStep.visitedNodes s = AlgorithmResult.visitedNodes r.

Lemma ends_with_last (P : PathStep.t → Prop) steps pre s post :
  ends_with P steps → steps = pre ++ s :: post → PathStep.isComplete s = true →
  post = [] ∧ P s.
Proof.
  intros [Hall|(pre' & s' & -> & Hpre & Hs)] Heq Hc.
  - subst steps. apply Forall_app in Hall as [_ Hall]. apply Forall_cons in Hall as [Hs _].
    unfold incomplete in Hs. congruence.
  - destruct post as [|x post _] using rev_ind.
    + apply app_inj_tail in Heq as [_ ->]. done.
    + change (pre ++ s :: post ++ [x]) with (pre ++ (s :: post) ++ [x]) in Heq.
      rewrite (assoc_L (++)) in Heq. apply app_inj_tail in Heq as [-> _].
      apply Forall_app in Hpre as [_ Hpre]. apply Forall_cons in Hpre as [Hs' _].
      unfold incomplete in Hs'. congruence.
Qed.

Section closing.
Context {H : MinHeap}.
Variable sqrt : Q → Q.

Lemma algorithmMap_ends a cfg :
  ∃ r, algorithmMap sqrt a cfg = Some r ∧
       ends_with (closing_step cfg r) (AlgorithmResult.steps r).
Proof.
  destruct a; simpl.
  - destruct (Dijkstra_dijkstra_spec cfg) as (r & Hr & _). exists r. split; [done|].
    unfold Dijkstra.dijkstra in Hr.
    destruct (Dijkstra.loop _ _ _ _ _) as [[steps v]|] eqn:Hloop; [|done].
    simpl in Hr. destruct (reconstructPath _ _ _) as [p|] eqn:Hp; [|done]. injection Hr as <-.
    destruct (Dijkstra_loop_last _ _ _ _ _ _ _ Hloop (Forall_nil_2 _))
      as [Hall|(pre & s & -> & Hpre & Hs)]; [by left|].
    right. exists pre, s. split; [done|]. split; [done|].
    apply Dijkstra_snapshot_fields in Hs as (Hc & Hv & _ & Hpath & _).
    split; [done|]. split; [simpl; congruence|done].
  - destruct (AStar_astar_with_spec (AStar.h_of sqrt cfg) cfg) as (r & Hr & _).
    exists r. split; [done|]. unfold AStar.astar_with in Hr.
    destruct (AStar.loop _ _ _ _ _ _) as [[steps v]|] eqn:Hloop; [|done].
    simpl in Hr. destruct (reconstructPath _ _ _) as [p|] eqn:Hp; [|done]. injection Hr as <-.
    destruct (AStar_loop_last _ _ _ _ _ _ _ _ Hloop (Forall_nil_2 _))
      as [Hall|(pre & s & -> & Hpre & Hs)]; [by left|].
    right. exists pre, s. split; [done|]. split; [done|].
    apply AStar_snapshot_fields in Hs as (Hc & Hv & _ & Hpath & _).
    split; [done|]. split; [simpl; congruence|done].
  - destruct (BFS_bfs_spec cfg) as (r & Hr & _). exists r. split; [done|].
    unfold BFS.bfs in Hr.
    destruct (BFS.loop _ _ _ _ _) as [[steps v]|] eqn:Hloop; [|done].
    simpl in Hr. destruct (reconstructPath _ _ _) as [p|] eqn:Hp; [|done]. injection Hr as <-.
    destruct (BFS_loop_last _ _ _ _ _ _ _ Hloop (Forall_nil_2 _))
      as [Hall|(pre & s & -> & Hpre & Hs)]; [by left|].
    right. exists pre, s. split; [done|]. split; [done|].
    apply BFS_snapshot_fields in Hs as (Hc & Hv & _ & Hpath & _).
    split; [done|]. split; [simpl; congruence|done].
  - destruct (DFS_dfs_spec cfg) as (r & Hr & _). exists r. split; [done|].
    unfold DFS.dfs in Hr.
    destruct (DFS.loop _ _ _ _ _) as [[steps v]|] eqn:Hloop; [|done].
    simpl in Hr. destruct (reconstructPath _ _ _) as [p|] eqn:Hp; [|done]. injection Hr as <-.
    destruct (DFS_loop_last _ _ _ _ _ _ _ Hloop (Forall_nil_2 _))
      as [Hall|(pre & s & -> & Hpre & Hs)]; [by left|].
    right. exists pre, s. split; [done|]. split; [done|].
    apply DFS_snapshot_fields in Hs as (Hc & Hv & _ & Hpath & _).
    split; [done|]. split; [simpl; congruence|done].
Qed.

(** X18: in the result of each of the four batch functions at most one step
    has [isComplete] set, and it is the last step: its current node is the
    end node, its path is the final path of the result and its visited set
    is the visited set of the result.  So [findIndex(step =>
    step.isComplete)] is the index of the last step or [-1]. *)
Theorem complete_step_is_last a cfg :
  ∃ r, algorithmMap sqrt a cfg = Some r ∧
    (∀ pre s post,
       AlgorithmResult.steps r = pre ++ s :: post → PathStep.isComplete s = true →
       post = [] ∧ PathStep.currentNode s = endNode cfg ∧
       PathStep.path s = AlgorithmResult.path r ∧
       PathStep.visitedNodes s = AlgorithmResult.visitedNodes r) ∧
    (findIndex PathStep.isComplete (AlgorithmResult.steps r) = None ∨
     findIndex PathStep.isComplete (AlgorithmResult.steps r)
     = Some (length (AlgorithmResult.steps r) - 1)%nat).
Proof.
  destruct (algorithmMap_ends a cfg) as (r & Hr & Hends). exists r. split; [done|]. split.
  - intros pre s post Heq Hc.
    destruct (ends_with_last _ _ _ _ _ Hends Heq Hc) as [-> (? & ? & ?)]. done.
  - assert (∀ l : list PathStep.t, Forall incomplete l →
              findIndex PathStep.isComplete l = None) as Hnone.
    { induction l as [|x l IH]; [done|]. intros [Hx Hl]%Forall_cons. simpl.
      unfold incomplete in Hx. rewrite Hx, (IH Hl). done. }
    destruct Hends as [Hall|(pre & s & -> & Hpre & Hs)]; [left; by apply Hnone|].
    destruct (PathStep.isComplete s) eqn:Hc.
    + right. rewrite length_app. simpl. replace (length pre + 1 - 1)%nat with (length pre) by lia.
      clear Hs. induction pre as [|x pre IH]; simpl; [by rewrite Hc|].
      apply Forall_cons in Hpre as [Hx Hpre]. unfold incomplete in Hx.
      rewrite Hx, (IH Hpre). done.
    + left. apply Hnone, Forall_app. split; [done|]. by apply Forall_singleton.
Qed.

End closing.

(** * The length of a run *)

Lemma NoDup_length_size (l : list string) (V : gset string) :
  NoDup l → (∀ x, x ∈ l → x ∈ V) → (length l ≤ size V)%nat.
Proof.
  intros Hnd Hsub. rewrite <- (size_list_to_set (C := gset string) l Hnd).
  apply subseteq_size. intros x Hx%elem_of_list_to_set. by apply Hsub.
Qed.

Lemma trace_inv_length steps V : trace_inv steps V → (length steps ≤ size V)%nat.
Proof.
  intros [_ _ Hu Hc]. rewrite <- (length_fmap PathStep.currentNode).
  by apply NoDup_length_size.
Qed.

Lemma universe_size cfg : (size (universe cfg) ≤ length (Graph.nodes (graph cfg)) + 1)%nat.
Proof.
  unfold universe. rewrite size_union_alt.
  pose proof (size_list_to_set_le (Node.id <$> Graph.nodes (graph cfg))) as Hn.
  rewrite length_fmap in Hn. fold (node_ids (graph cfg)) in Hn.
  assert (({[startNode cfg]} : gset string) ∖ node_ids (graph cfg) ⊆ {[startNode cfg]}) as Hs
    by set_solver.
  apply subseteq_size in Hs. rewrite size_singleton in Hs. lia.
Qed.

Section run_length.
Context {H : MinHeap}.
Variable sqrt : Q → Q.

(** X19: a run never has more steps than visited nodes: in the result of
    each of the four batch functions the number of steps is at most the
    size of the visited set; for Dijkstra and A* it is at most the number
    of nodes of the graph plus one (the start id, when it is not a node). *)
Theorem steps_bounded a cfg :
  ∃ r, algorithmMap sqrt a cfg = Some r ∧
    (length (AlgorithmResult.steps r) ≤ size (AlgorithmResult.visitedNodes r))%nat ∧
    (a = dijkstraT ∨ a = astarT →
     (length (AlgorithmResult.steps r) ≤ length (Graph.nodes (graph cfg)) + 1)%nat).
Proof.
  destruct a; simpl.
  - destruct (Dijkstra_dijkstra_spec cfg) as (r & Hr & [Ht Hv _ _]). exists r.
    split; [done|]. pose proof (trace_inv_length _ _ Ht) as Hlen. split; [done|].
    intros _. apply subseteq_size in Hv. pose proof (universe_size cfg). lia.
  - destruct (AStar_astar_with_spec (AStar.h_of sqrt cfg) cfg) as (r & Hr & [Ht Hv _ _]).
    exists r. split; [done|]. pose proof (trace_inv_length _ _ Ht) as Hlen. split; [done|].
    intros _. apply subseteq_size in Hv. pose proof (universe_size cfg). lia.
  - destruct (BFS_bfs_spec cfg) as (r & Hr & Ht). exists r. split; [done|].
    split; [by apply trace_inv_length|]. by intros [|].
  - destruct (DFS_dfs_spec cfg) as (r & Hr & Ht). exists r. split; [done|].
    split; [by apply trace_inv_length|]. by intros [|].
Qed.

End run_length.

(** * Shortest paths *)

Lemma dijkstra_shortest_path_witness :
  ∃ r, Dijkstra.dijkstra triangle_config = Some r ∧
    head (AlgorithmResult.path r) = Some "a" ∧
    last (AlgorithmResult.path r) = Some "c" ∧
    walk triangle "a" "c" (AlgorithmResult.path r)
      (path_weight triangle (AlgorithmResult.path r)) ∧
    ∀ p' W', walk triangle "a" "c" p' W' →
             (path_weight triangle (AlgorithmResult.path r) <= W')%Q.
Proof.
  apply (dijkstra_shortest_path triangle_config).
  - by vm_compute.
  - apply triangle_safe.
  - apply triangle_reachable.
Defined.


Lemma line_reachable : reachable (graph line_config) "a" "c".
Proof.
  exists (["a"] ++ ["c"]), 5%Q.
  apply (walk_edge (graph line_config) "a" "a" "c" ["a"] 0 5 (edge "a" "c" 5)).
  - apply walk_start; [by vm_compute|reflexivity].
  - simpl. rewrite !elem_of_cons. tauto.
  - reflexivity.
  - by vm_compute.
  - reflexivity.
Defined.


(** * A* without a target among the nodes *)

Section astar_ext.
Context {H : MinHeap}.
Variables h h' : string → number.
Hypothesis Hh : ∀ n, h n = h' n.

Lemma AStar_relax_ext cur v nb : AStar.relax h cur v nb = AStar.relax h' cur v nb.
Proof. unfold AStar.relax. destruct nb as [c w]. by rewrite Hh. Qed.

Lemma AStar_relax_fold_ext cur nb :
  ∀ v, foldl (AStar.relax h cur) v nb = foldl (AStar.relax h' cur) v nb.
Proof.
  induction nb as [|x nb IH]; intros v; [done|]. simpl. by rewrite AStar_relax_ext, IH.
Qed.

Lemma AStar_loop_ext cfg adj fuel :
  ∀ acc v, AStar.loop h fuel cfg adj acc v = AStar.loop h' fuel cfg adj acc v.
Proof.
  induction fuel as [|fuel IH]; intros acc v; [done|].
  cbn [AStar.loop]. destruct (heap_isEmpty _); [done|].
  destruct (heap_pop _) as [[[f n] q]|]; [|done].
  destruct (decide _); [apply IH|].
  destruct (AStar.snapshot cfg _ n) as [s|]; [|done]. simpl.
  destruct (str_eq n (endNode cfg)); [done|].
  destruct (num_gt _ _); [apply IH|]. by rewrite AStar_relax_fold_ext, IH.
Qed.

Lemma AStar_fScore_init_ext cfg : AStar.fScore_init h cfg = AStar.fScore_init h' cfg.
Proof.
  unfold AStar.fScore_init. generalize (∅ : gmap string number).
  induction (Graph.nodes (graph cfg)) as [|n l IH]; intros m; [done|].
  simpl. by rewrite Hh, IH.
Qed.

Lemma AStar_astar_with_ext cfg : AStar.astar_with h cfg = AStar.astar_with h' cfg.
Proof.
  unfold AStar.astar_with, AStar.init_vars. by rewrite AStar_fScore_init_ext, AStar_loop_ext.
Qed.

End astar_ext.

Lemma find_missing (nodes : list Node.t) (k : string) :
  k ∉ (list_to_set (Node.id <$> nodes) : gset string) →
  find (fun n => str_eq (Node.id n) k) nodes = None.
Proof.
  induction nodes as [|n nodes IH]; [done|]. simpl. intros Hk.
  destruct (str_eq (Node.id n) k) eqn:Hn; [apply str_eq_true in Hn; set_solver|].
  apply IH. set_solver.
Qed.

(** X22: when the end id is not a node of the graph, the heuristic is 0 for
    every node, and [astar] returns exactly what [dijkstra] returns from a
    start node of the graph, with the same heap: the same steps, the same
    visited set and the same final path. *)
Theorem astar_without_target {H : MinHeap} sqrt cfg :
  endNode cfg ∉ node_ids (graph cfg) → startNode cfg ∈ node_ids (graph cfg) →
  (∀ n, AStar.heuristic sqrt n (endNode cfg) (graph cfg) = Fin 0) ∧
  AStar.astar sqrt cfg = Dijkstra.dijkstra cfg.
Proof.
  intros He Hs.
  assert (∀ n, AStar.heuristic sqrt n (endNode cfg) (graph cfg) = Fin 0) as Hzero.
  { intros n. unfold AStar.heuristic. rewrite (find_missing _ (endNode cfg) He).
    by destruct (find _ _). }
  split; [done|]. unfold AStar.astar.
  rewrite (AStar_astar_with_ext (AStar.h_of sqrt cfg) h0); [by apply dijkstra_astar|].
  intros n. apply Hzero.
Qed.

Lemma astar_without_target_witness :
  (∀ n, AStar.heuristic int_sqrt n "z" (graph dangling_config) = Fin 0) ∧
  AStar.astar int_sqrt dangling_config = Dijkstra.dijkstra dangling_config.
Proof. apply (astar_without_target int_sqrt dangling_config); by vm_compute. Defined.

(** * What the searches find *)

(** ** Breadth-first search finds a path with the fewest edges

    [lev] gives every visited id its level: the number of edges of its chain
    of parents.  The queue holds ids of at most two consecutive levels, in
    increasing order, and a visited node that has left the queue has all its
    neighbours visited. *)

Definition queue_levels (lev : string → nat) (q : list string) : Prop :=
  ∀ i j x y, q !! i = Some x → q !! j = Some y → (i ≤ j)%nat →
             (lev x ≤ lev y)%nat ∧ (lev y ≤ S (lev x))%nat.

Section bfs_levels.
Variable g : Graph.t.
Variable s : string.

Definition chained (lev : string → nat) (v : BFS.vars) : Prop :=
  ∀ x, x ∈ BFS.visitedNodes v → x ∈ node_ids g →
       ∃ p W, pchain g (BFS.previousNodes v) s x p W ∧ length p = S (lev x) ∧
              ∀ z, z ∈ p → z ∈ BFS.visitedNodes v.

Definition levelled (lev : string → nat) (V : gset string) : Prop :=
  ∀ x p W, x ∈ V → walk g s x p W → (S (lev x) ≤ length p)%nat.

Definition untouched (v : BFS.vars) : Prop :=
  ∀ x, x ∉ BFS.visitedNodes v → parent_of (BFS.previousNodes v) x = None.

(** Between two iterations of the [while] loop. *)
Record BFS_levels (lev : string → nat) (v : BFS.vars) : Prop := {
  bl_start : s ∈ BFS.visitedNodes v;
  bl_chain : chained lev v;
  bl_min : levelled lev (BFS.visitedNodes v);
  bl_out : untouched v;
  bl_queue : ∀ x, x ∈ BFS.queue v → x ∈ BFS.visitedNodes v;
  bl_levels : queue_levels lev (BFS.queue v);
  bl_done : ∀ x y, x ∈ BFS.visitedNodes v → y ∈ default [] (adjacency g !! x) →
                   x ∈ BFS.queue v ∨ y ∈ BFS.visitedNodes v
}.

(** Inside [neighbors.forEach], for the node [u] of level [L] that was taken
    from the queue when the visited set was [V0]. *)
Record BFS_expanding (V0 : gset string) (u : string) (L : nat)
    (lev : string → nat) (v : BFS.vars) : Prop := {
  be_grow : V0 ⊆ BFS.visitedNodes v;
  be_cur : lev u = L;
  be_start : s ∈ BFS.visitedNodes v;
  be_chain : chained lev v;
  be_min : levelled lev (BFS.visitedNodes v);
  be_out : untouched v;
  be_queue : ∀ x, x ∈ BFS.queue v → x ∈ BFS.visitedNodes v;
  be_bounds : ∀ x, x ∈ BFS.queue v → (L ≤ lev x)%nat ∧ (lev x ≤ S L)%nat;
  be_sorted : ∀ i j x y, BFS.queue v !! i = Some x → BFS.queue v !! j = Some y →
                         (i ≤ j)%nat → (lev x ≤ lev y)%nat;
  be_done : ∀ x y, x ∈ BFS.visitedNodes v → y ∈ default [] (adjacency g !! x) →
                   x = u ∨ x ∈ BFS.queue v ∨ y ∈ BFS.visitedNodes v
}.

(** What the loop leaves behind, for the end id [e]. *)
Definition BFS_levels_final (e : string) (lev : string → nat) (v : BFS.vars) : Prop :=
  s ∈ BFS.visitedNodes v ∧ chained lev v ∧ levelled lev (BFS.visitedNodes v) ∧
  untouched v ∧
  (e ∈ BFS.visitedNodes v ∨
   ∀ x y, x ∈ BFS.visitedNodes v → y ∈ default [] (adjacency g !! x) →
          y ∈ BFS.visitedNodes v).

End bfs_levels.

Lemma parent_of_insert_ne prev x y p :
  x ≠ y → parent_of (<[y := p]> prev) x = parent_of prev x.
Proof. intros Hxy. unfold parent_of. by rewrite lookup_insert_ne. Qed.

Lemma walk_length g s c p W : walk g s c p W → (1 ≤ length p)%nat.
Proof. destruct 1; [simpl; lia|]. rewrite length_app. simpl. lia. Qed.

(** Every node within the level of the head of the queue is visited. *)
Lemma BFS_frontier g s lev v u rest :
  BFS_levels g s lev v → BFS.queue v = u :: rest →
  ∀ y p W, walk g s y p W → (length p ≤ S (lev u))%nat → y ∈ BFS.visitedNodes v.
Proof.
  intros Hinv Hq y p W Hw.
  induction Hw as [W Hs H0|b c p W W1 e Hw IH He Hj Hc HW]; intros Hlen.
  { apply Hinv. }
  rewrite length_app in Hlen. simpl in Hlen.
  assert (b ∈ BFS.visitedNodes v) as Hb by (apply IH; lia).
  destruct (decide (c ∈ BFS.visitedNodes v)) as [|Hc']; [done|]. exfalso.
  assert (c ∈ default [] (adjacency g !! b)) as Hadj.
  { apply adjacency_spec. split; [by eapply walk_node|]. eauto. }
  destruct (bl_done _ _ _ _ Hinv b c Hb Hadj) as [Hbq|]; [|done].
  rewrite Hq in Hbq. apply list_elem_of_lookup in Hbq as [i Hi].
  pose proof (bl_levels _ _ _ _ Hinv) as Hlv. rewrite Hq in Hlv.
  destruct (Hlv 0%nat i u b eq_refl Hi ltac:(lia)) as [Hle _].
  pose proof (bl_min _ _ _ _ Hinv b p W Hb Hw). lia.
Qed.

(** One neighbour. *)
Lemma BFS_expand_one g s V0 u L lev v y :
  (∀ y p W, walk g s y p W → (length p ≤ S L)%nat → y ∈ V0) →
  u ∈ V0 → y ∈ default [] (adjacency g !! u) →
  BFS_expanding g s V0 u L lev v →
  ∃ lev', BFS_expanding g s V0 u L lev' (BFS.relax u v y) ∧
          y ∈ BFS.visitedNodes (BFS.relax u v y) ∧
          BFS.visitedNodes v ⊆ BFS.visitedNodes (BFS.relax u v y) ∧
          ∀ x, x ∈ BFS.visitedNodes v → lev' x = lev x.
Proof.
  intros Hfront Hu Hy Hinv. unfold BFS.relax.
  destruct (decide (y ∈ BFS.visitedNodes v)) as [Hyv|Hyv]; [by exists lev|].
  destruct Hinv as [Hgrow Hcur Hstart Hchain Hmin Hout Hqueue Hbounds Hsorted Hdone].
  set (lev' := fun x => if decide (x = y) then S L else lev x).
  assert (∀ x, x ∈ BFS.visitedNodes v → lev' x = lev x) as Hold.
  { intros x Hx. unfold lev'. destruct (decide (x = y)) as [->|]; done. }
  assert (lev' y = S L) as Hnew by (unfold lev'; by rewrite decide_True).
  assert (u ∈ BFS.visitedNodes v) as Huv by set_solver.
  assert (∀ x p W, pchain g (BFS.previousNodes v) s x p W →
                   (∀ z, z ∈ p → z ∈ BFS.visitedNodes v) →
                   pchain g (<[y := Some u]> (BFS.previousNodes v)) s x p W) as Hkeep.
  { intros x p W Hp Hin. eapply pchain_ext; [done|]. intros z Hz.
    rewrite lookup_insert_ne; [done|]. intros <-. by apply Hin in Hz. }
  assert (∀ x, x ∈ BFS.queue v ++ [y] → (L ≤ lev' x)%nat ∧ (lev' x ≤ S L)%nat) as Hb'.
  { intros x [Hx| ->%list_elem_of_singleton]%elem_of_app; [|rewrite Hnew; lia].
    rewrite Hold by auto. auto. }
  exists lev'. split; [|simpl; split; [set_solver|]; split; [set_solver|done]].
  split; unfold chained, levelled, untouched; simpl.
  - set_solver.
  - by rewrite Hold.
  - set_solver.
  - intros x Hx Hxn. destruct (decide (x = y)) as [->|Hxy].
    + apply adjacency_spec in Hy as (Hun & e & He & Hj).
      destruct (Hchain u Huv Hun) as (p & W & Hp & Hlen & Hin).
      exists (p ++ [y]), (W + Edge.weight e)%Q. split; [|split].
      * eapply pchain_step; [| |by apply Hkeep|done|done|done|reflexivity].
        -- intros ->. done.
        -- by rewrite lookup_insert_eq.
      * rewrite length_app, Hlen, Hnew, Hcur. simpl. lia.
      * intros z [Hz| ->%list_elem_of_singleton]%elem_of_app; [|set_solver].
        apply Hin in Hz. set_solver.
    + assert (x ∈ BFS.visitedNodes v) as Hxv by set_solver.
      destruct (Hchain x Hxv Hxn) as (p & W & Hp & Hlen & Hin).
      exists p, W. split; [by apply Hkeep|]. split; [by rewrite Hold|].
      intros z Hz. apply Hin in Hz. set_solver.
  - intros x p W Hx Hw. destruct (decide (x = y)) as [->|Hxy].
    + rewrite Hnew. destruct (decide (length p ≤ S L)%nat) as [Hle|]; [|lia].
      exfalso. apply Hyv, Hgrow. by eapply Hfront.
    + assert (x ∈ BFS.visitedNodes v) as Hxv by set_solver.
      rewrite Hold by done. by eapply Hmin.
  - intros x Hx. rewrite parent_of_insert_ne by set_solver. apply Hout. set_solver.
  - intros x [Hx| ->%list_elem_of_singleton]%elem_of_app; [|set_solver].
    apply Hqueue in Hx. set_solver.
  - done.
  - intros i j x z Hi Hj Hij. apply lookup_app_Some in Hj as [Hj|[Hlen Hj]].
    + pose proof (lookup_lt_Some _ _ _ Hj) as Hjlt.
      rewrite lookup_app_l in Hi by lia.
      rewrite !Hold by (apply Hqueue; by eapply list_elem_of_lookup_2).
      by eapply Hsorted.
    + apply list_lookup_singleton_Some in Hj as [_ <-]. rewrite Hnew.
      apply Hb'. by eapply list_elem_of_lookup_2.
  - intros x z Hx Hz. destruct (decide (x = y)) as [->|Hxy].
    + right. left. apply elem_of_app. right. by apply list_elem_of_singleton.
    + assert (x ∈ BFS.visitedNodes v) as Hxv by set_solver.
      destruct (Hdone x z Hxv Hz) as [->|[Hq|Hv]]; [by left| |].
      * right. left. apply elem_of_app. by left.
      * right. right. set_solver.
Qed.

(** All the neighbours. *)
Lemma BFS_expand_all g s V0 u L nb :
  (∀ y p W, walk g s y p W → (length p ≤ S L)%nat → y ∈ V0) →
  u ∈ V0 → (∀ y, y ∈ nb → y ∈ default [] (adjacency g !! u)) →
  ∀ lev v, BFS_expanding g s V0 u L lev v →
    ∃ lev', BFS_expanding g s V0 u L lev' (foldl (BFS.relax u) v nb) ∧
            (∀ y, y ∈ nb → y ∈ BFS.visitedNodes (foldl (BFS.relax u) v nb)) ∧
            ∀ x, x ∈ BFS.visitedNodes v → lev' x = lev x.
Proof.
  intros Hfront Hu. induction nb as [|y nb IH]; intros Hnb lev v Hinv.
  { exists lev. split; [done|]. split; [|done]. intros y Hy. by apply elem_of_nil in Hy. }
  cbn [foldl].
  destruct (BFS_expand_one g s V0 u L lev v y Hfront Hu)
    as (lev1 & Hinv1 & Hy1 & Hsub1 & Hsame1);
    [apply Hnb, elem_of_cons; by left|done|].
  destruct (IH (fun z Hz => Hnb z (proj2 (elem_of_cons _ _ _) (or_intror Hz))) lev1 _ Hinv1)
    as (lev' & Hinv' & Hall & Hsame').
  exists lev'. split; [done|]. split; [|intros x Hx; rewrite Hsame' by set_solver; auto].
  intros z [->|Hz]%elem_of_cons; [|by apply Hall].
  assert (∀ nb' w, BFS.visitedNodes w ⊆ BFS.visitedNodes (foldl (BFS.relax u) w nb')) as Hmono.
  { clear. induction nb' as [|a nb' IH']; intros w; [done|]. cbn [foldl].
    etrans; [|apply IH']. unfold BFS.relax. destruct (decide _); simpl; set_solver. }
  by apply Hmono.
Qed.

Lemma BFS_levels_init cfg :
  BFS_levels (graph cfg) (startNode cfg) (fun _ => 0%nat) (BFS.init_vars cfg).
Proof.
  split; unfold chained, levelled, untouched; simpl.
  - set_solver.
  - intros x ->%elem_of_singleton Hx. exists [startNode cfg], 0%Q.
    split; [by apply pchain_start|]. split; [done|].
    intros z ->%list_elem_of_singleton. set_solver.
  - intros x p W _ Hw. by eapply walk_length.
  - intros x _. apply prev_init_parent.
  - intros x ->%list_elem_of_singleton. set_solver.
  - intros i j x y Hi Hj _. lia.
  - intros x y ->%elem_of_singleton _. left. by apply list_elem_of_singleton.
Qed.

(** The steps recorded so far come by increasing level, and the path of a
    step has as many edges as the level of its node. *)
Definition steps_levelled (g : Graph.t) (s : string) (lev : string → nat)
    (steps : list PathStep.t) : Prop :=
  (∀ i j si sj, steps !! i = Some si → steps !! j = Some sj → (i ≤ j)%nat →
     (lev (PathStep.currentNode si) ≤ lev (PathStep.currentNode sj))%nat) ∧
  (∀ st, st ∈ steps → PathStep.currentNode st ∈ node_ids g →
     ∃ W, walk g s (PathStep.currentNode st) (PathStep.path st) W ∧
          length (PathStep.path st) = S (lev (PathStep.currentNode st))).

Lemma steps_levelled_snoc g s lev steps st :
  steps_levelled g s lev steps →
  (∀ so, so ∈ steps →
         (lev (PathStep.currentNode so) ≤ lev (PathStep.currentNode st))%nat) →
  (PathStep.currentNode st ∈ node_ids g →
   ∃ W, walk g s (PathStep.currentNode st) (PathStep.path st) W ∧
        length (PathStep.path st) = S (lev (PathStep.currentNode st))) →
  steps_levelled g s lev (steps ++ [st]).
Proof.
  intros [Hsorted Hwalks] Hle Hst. split.
  - intros i j si sj Hi Hj Hij. apply lookup_app_Some in Hj as [Hj|[Hlen Hj]].
    + pose proof (lookup_lt_Some _ _ _ Hj). rewrite lookup_app_l in Hi by lia.
      by eapply Hsorted.
    + apply list_lookup_singleton_Some in Hj as [_ <-].
      apply lookup_app_Some in Hi as [Hi|[_ Hi]].
      * apply Hle. by eapply list_elem_of_lookup_2.
      * by apply list_lookup_singleton_Some in Hi as [_ <-].
  - intros so [Hso| ->%list_elem_of_singleton]%elem_of_app; auto.
Qed.

Lemma steps_levelled_ext g s lev lev' steps :
  steps_levelled g s lev steps →
  (∀ so, so ∈ steps → lev' (PathStep.currentNode so) = lev (PathStep.currentNode so)) →
  steps_levelled g s lev' steps.
Proof.
  intros [Hsorted Hwalks] Hsame. split.
  - intros i j si sj Hi Hj Hij.
    rewrite !Hsame by (by eapply list_elem_of_lookup_2). by eapply Hsorted.
  - intros so Hso Hn. rewrite Hsame by done. by apply Hwalks.
Qed.

Lemma steps_levelled_nil g s lev : steps_levelled g s lev [].
Proof.
  split.
  - intros i j si sj Hi. by rewrite lookup_nil in Hi.
  - intros st Hst. by apply elem_of_nil in Hst.
Qed.

Lemma steps_below_nil (lev : string → nat) (v : BFS.vars) :
  ∀ so : PathStep.t, so ∈ [] →
    PathStep.currentNode so ∈ BFS.visitedNodes v ∧
    ∀ x, x ∈ BFS.queue v → (lev (PathStep.currentNode so) ≤ lev x)%nat.
Proof. intros so Hso. by apply elem_of_nil in Hso. Qed.

Lemma BFS_loop_levels cfg fuel :
  "" ∉ node_ids (graph cfg) →
  ∀ steps v lev steps' v',
    BFS_levels (graph cfg) (startNode cfg) lev v →
    steps_levelled (graph cfg) (startNode cfg) lev steps →
    (∀ so, so ∈ steps →
       PathStep.currentNode so ∈ BFS.visitedNodes v ∧
       ∀ x, x ∈ BFS.queue v → (lev (PathStep.currentNode so) ≤ lev x)%nat) →
    BFS.loop fuel cfg (adjacency (graph cfg)) steps v = Some (steps', v') →
    ∃ lev', BFS_levels_final (graph cfg) (startNode cfg) (endNode cfg) lev' v' ∧
            steps_levelled (graph cfg) (startNode cfg) lev' steps' ∧
            ∀ so, so ∈ steps' → PathStep.currentNode so ∈ BFS.visitedNodes v'.
Proof.
  intros Hne.
  induction fuel as [|fuel IH]; intros steps v lev steps' v' Hinv Hsteps Hbelow Hloop;
    [done|].
  cbn [BFS.loop] in Hloop.
  destruct (BFS.queue v) as [|u rest] eqn:Hq.
  { injection Hloop as <- <-. exists lev. destruct Hinv as [? ? ? ? ? ? Hdone].
    split; [|split; [done|by intros so [? _]%Hbelow]].
    do 4 (split; [done|]). right. intros x y Hx Hy.
    destruct (Hdone x y Hx Hy) as [Hin|]; [|done].
    rewrite Hq in Hin. by apply elem_of_nil in Hin. }
  destruct (BFS.snapshot cfg _ u) as [st|] eqn:Hs; [|done]. simpl in Hloop.
  pose proof (BFS_frontier _ _ _ _ _ _ Hinv Hq) as Hfront.
  destruct Hinv as [Hstart Hchain Hmin Hout Hqueue Hlevels Hdone]. rewrite Hq in *.
  assert (u ∈ BFS.visitedNodes v) as Hu by (apply Hqueue, elem_of_cons; by left).
  apply BFS_snapshot_fields in Hs as (Hcur & _ & _ & Hpath & _). simpl in Hpath.
  assert (steps_levelled (graph cfg) (startNode cfg) lev (steps ++ [st])) as Hsteps1.
  { apply steps_levelled_snoc; [done| |]; rewrite Hcur.
    - intros so [_ Hle]%Hbelow. apply Hle, elem_of_cons. by left.
    - intros Hun. destruct (Hchain u Hu Hun) as (p & W & Hp & Hlen & _).
      rewrite (pchain_reconstructPath _ _ _ _ _ _ _ Hne Hp Hpath).
      exists W. split; [by eapply pchain_walk|done]. }
  destruct (str_eq u (endNode cfg)) eqn:Hend.
  { injection Hloop as <- <-. apply str_eq_true in Hend as <-. exists lev.
    split; [|split; [done|]].
    - do 4 (split; [done|]). by left.
    - intros so [[? _]%Hbelow| ->%list_elem_of_singleton]%elem_of_app; [done|].
      by rewrite Hcur. }
  set (v1 := {| BFS.previousNodes := BFS.previousNodes v;
                BFS.visitedNodes := BFS.visitedNodes v; BFS.queue := rest |}) in *.
  assert (BFS_expanding (graph cfg) (startNode cfg) (BFS.visitedNodes v) u (lev u) lev v1)
    as Hexp.
  { split; simpl; try done.
    - intros x Hx. apply Hqueue, elem_of_cons. by right.
    - intros x [i Hi]%list_elem_of_lookup.
      apply (Hlevels 0%nat (S i) u x eq_refl Hi). lia.
    - intros i j x y Hi Hj Hij.
      apply (Hlevels (S i) (S j) x y Hi Hj). lia.
    - intros x y Hx Hy. destruct (Hdone x y Hx Hy) as [[->|Hin]%elem_of_cons|Hv]; auto. }
  destruct (BFS_expand_all _ _ _ _ _ (default [] (adjacency (graph cfg) !! u))
              Hfront Hu (fun y Hy => Hy) lev v1 Hexp) as (lev' & Hexp' & Hall & Hsame).
  simpl in Hsame.
  destruct Hexp' as [Hgrow' Hcur' Hstart' Hchain' Hmin' Hout' Hqueue' Hbounds' Hsorted' Hdone'].
  assert (∀ so, so ∈ steps ++ [st] →
            PathStep.currentNode so ∈ BFS.visitedNodes v ∧
            (lev (PathStep.currentNode so) ≤ lev u)%nat) as Hold.
  { intros so [[? Hle]%Hbelow| ->%list_elem_of_singleton]%elem_of_app.
    - split; [done|]. apply Hle, elem_of_cons. by left.
    - by rewrite Hcur. }
  eapply (IH _ _ lev'); [| | |exact Hloop].
  - split; try done.
    + intros i j x y Hi Hj Hij. split; [by eapply Hsorted'|].
      apply list_elem_of_lookup_2 in Hi, Hj.
      apply Hbounds' in Hi, Hj. lia.
    + intros x y Hx Hy. destruct (Hdone' x y Hx Hy) as [->|[Hin|Hv]]; auto.
  - eapply steps_levelled_ext; [done|]. intros so [Hso _]%Hold. by apply Hsame.
  - intros so [Hso Hle]%Hold. split; [by apply Hgrow'|].
    intros x [Hx _]%Hbounds'. rewrite Hsame by done. lia.
Qed.

Lemma reconstructPath_no_parent prev s e :
  parent_of prev e = None → e ≠ s → reconstructPath prev s e = Some [].
Proof.
  intros Hp Hes. unfold reconstructPath, reconstructPath_fuel.
  rewrite walk_back_S. apply str_eq_false in Hes. rewrite Hes, Hp. simpl.
  by rewrite Hes.
Qed.

(** X26: on a graph without empty id, for an end node of the graph: when the
    end node is reachable from the start node, [bfs] returns a path from the
    start node to the end node along edges of the graph, and no walk from
    the start node to the end node has fewer nodes (so none has fewer
    edges); when the end node is not reachable, [bfs] returns the empty
    path.  Edges to ids that are not nodes are allowed. *)
Theorem bfs_fewest_edges cfg :
  "" ∉ node_ids (graph cfg) → endNode cfg ∈ node_ids (graph cfg) →
  ∃ r, BFS.bfs cfg = Some r ∧
    (reachable (graph cfg) (startNode cfg) (endNode cfg) →
     ∃ W, walk (graph cfg) (startNode cfg) (endNode cfg) (AlgorithmResult.path r) W ∧
          ∀ p' W', walk (graph cfg) (startNode cfg) (endNode cfg) p' W' →
                   (length (AlgorithmResult.path r) ≤ length p')%nat) ∧
    (¬ reachable (graph cfg) (startNode cfg) (endNode cfg) →
     AlgorithmResult.path r = []).
Proof.
  intros Hne He. destruct (BFS_bfs_spec cfg) as (r & Hr & _). exists r. split; [done|].
  unfold BFS.bfs in Hr.
  destruct (BFS.loop _ cfg _ [] (BFS.init_vars cfg)) as [[steps v]|] eqn:Hloop; [|done].
  simpl in Hr.
  destruct (reconstructPath (BFS.previousNodes v) (startNode cfg) (endNode cfg))
    as [fp|] eqn:Hrec; [|done].
  injection Hr as <-. simpl.
  destruct (BFS_loop_levels _ _ Hne _ _ _ _ _ (BFS_levels_init cfg)
              (steps_levelled_nil _ _ _) (steps_below_nil _ _) Hloop)
    as (lev & (Hs & Hchain & Hmin & Hout & Hend) & _).
  split.
  - intros (p0 & W0 & Hw0).
    assert (endNode cfg ∈ BFS.visitedNodes v) as Hev.
    { destruct Hend as [|Hclosed]; [done|]. clear -Hw0 Hs Hclosed.
      induction Hw0 as [|b c p W W1 e Hw IH He Hj Hc HW]; [done|].
      eapply Hclosed; [exact IH|]. apply adjacency_spec.
      split; [by eapply walk_node|eauto]. }
    destruct (Hchain _ Hev He) as (p & W & Hp & Hlen & _).
    pose proof (pchain_reconstructPath _ _ _ _ _ _ _ Hne Hp Hrec) as ->.
    exists W. split; [by eapply pchain_walk|].
    intros p' W' Hw'. pose proof (Hmin _ _ _ Hev Hw'). lia.
  - intros Hnr. destruct (decide (endNode cfg ∈ BFS.visitedNodes v)) as [Hev|Hev].
    + exfalso. apply Hnr. destruct (Hchain _ Hev He) as (p & W & Hp & _).
      exists p, W. by eapply pchain_walk.
    + rewrite reconstructPath_no_parent in Hrec; [by injection Hrec as <-|by apply Hout|].
      intros Heq. apply Hev. by rewrite Heq.
Qed.

Lemma bfs_fewest_edges_witness :
  ∃ r, BFS.bfs triangle_config = Some r ∧
    (reachable triangle "a" "c" →
     ∃ W, walk triangle "a" "c" (AlgorithmResult.path r) W ∧
          ∀ p' W', walk triangle "a" "c" p' W' →
                   (length (AlgorithmResult.path r) ≤ length p')%nat) ∧
    (¬ reachable triangle "a" "c" → AlgorithmResult.path r = []).
Proof.
  apply (bfs_fewest_edges triangle_config); by vm_compute.
Defined.

(** X28: [bfs] explores by distance.  On a graph without empty id, the path
    of every step whose current node is a node of the graph goes from the
    start node to that node along edges of the graph, and no walk from the
    start node to that node has fewer nodes; and the steps come by
    increasing distance: of two such steps, the later one has a path at
    least as long as the earlier one. *)
Theorem bfs_steps_by_distance cfg :
  "" ∉ node_ids (graph cfg) →
  ∃ r, BFS.bfs cfg = Some r ∧
    (∀ st, st ∈ AlgorithmResult.steps r →
       PathStep.currentNode st ∈ node_ids (graph cfg) →
       ∃ W, walk (graph cfg) (startNode cfg) (PathStep.currentNode st) (PathStep.path st) W ∧
            ∀ p' W', walk (graph cfg) (startNode cfg) (PathStep.currentNode st) p' W' →
                     (length (PathStep.path st) ≤ length p')%nat) ∧
    (∀ i j si sj,
       AlgorithmResult.steps r !! i = Some si → AlgorithmResult.steps r !! j = Some sj →
       (i ≤ j)%nat →
       PathStep.currentNode si ∈ node_ids (graph cfg) →
       PathStep.currentNode sj ∈ node_ids (graph cfg) →
       (length (PathStep.path si) ≤ length (PathStep.path sj))%nat).
Proof.
  intros Hne. destruct (BFS_bfs_spec cfg) as (r & Hr & _). exists r. split; [done|].
  unfold BFS.bfs in Hr.
  destruct (BFS.loop _ cfg _ [] (BFS.init_vars cfg)) as [[steps v]|] eqn:Hloop; [|done].
  simpl in Hr.
  destruct (reconstructPath (BFS.previousNodes v) (startNode cfg) (endNode cfg))
    as [fp|]; [|done].
  injection Hr as <-. simpl.
  destruct (BFS_loop_levels _ _ Hne _ _ _ _ _ (BFS_levels_init cfg)
              (steps_levelled_nil _ _ _) (steps_below_nil _ _) Hloop)
    as (lev & (_ & _ & Hmin & _) & [Hsorted Hwalks] & Hin).
  split.
  - intros st Hst Hn. destruct (Hwalks st Hst Hn) as (W & Hw & Hlen).
    exists W. split; [done|]. intros p' W' Hw'.
    pose proof (Hmin _ _ _ (Hin st Hst) Hw'). lia.
  - intros i j si sj Hi Hj Hij Hni Hnj.
    pose proof (Hsorted i j si sj Hi Hj Hij).
    destruct (Hwalks si (list_elem_of_lookup_2 _ _ _ Hi) Hni) as (_ & _ & ->).
    destruct (Hwalks sj (list_elem_of_lookup_2 _ _ _ Hj) Hnj) as (_ & _ & ->). lia.
Qed.

Lemma bfs_steps_by_distance_witness :
  ∃ r, BFS.bfs triangle_config = Some r ∧
    (∀ st, st ∈ AlgorithmResult.steps r →
       PathStep.currentNode st ∈ node_ids triangle →
       ∃ W, walk triangle "a" (PathStep.currentNode st) (PathStep.path st) W ∧
            ∀ p' W', walk triangle "a" (PathStep.currentNode st) p' W' →
                     (length (PathStep.path st) ≤ length p')%nat) ∧
    (∀ i j si sj,
       AlgorithmResult.steps r !! i = Some si → AlgorithmResult.steps r !! j = Some sj →
       (i ≤ j)%nat →
       PathStep.currentNode si ∈ node_ids triangle →
       PathStep.currentNode sj ∈ node_ids triangle →
       (length (PathStep.path si) ≤ length (PathStep.path sj))%nat).
Proof.
  apply (bfs_steps_by_distance triangle_config). by vm_compute.
Defined.

(** ** Depth-first search, step by step

    [DFSStepByStep] gives a node its parent when it pushes it, and pushes a
    node only while its parent is [null]: a node is pushed at most once, and
    stays on the stack until it is visited.  [open] holds of the node whose
    neighbours are being scanned. *)

Section dfs_search.
Variable g : Graph.t.
Variable s : string.

Record DFS_searching (open : string → Prop)
    (prev : gmap string (option string)) (V : gset string) (stk : list string)
  : Prop := {
  ds_ranked : ranked prev V;
  ds_start : s ∈ V ∨ (V = ∅ ∧ stk = [s]);
  ds_dom : ∀ y, y ∈ node_ids g ↔ is_Some (prev !! y);
  ds_chain : ∀ x, x ∈ V ∨ x ∈ stk → x ∈ node_ids g → ∃ p W, pchain g prev s x p W;
  ds_pushed : ∀ y p, prev !! y = Some (Some p) → y ∈ V ∨ y ∈ stk;
  ds_univ : ∀ x, x ∈ V ∨ x ∈ stk → x ∈ node_ids g ∨ x = s;
  ds_closed : ∀ x y, x ∈ V → y ∈ default [] (adjacency g !! x) → y ∈ node_ids g →
                     open x ∨ y ∈ V ∨ y ∈ stk
}.

End dfs_search.

(** What calling [step] until it returns [null] leaves behind. *)
Definition DFS_final (cfg : AlgorithmConfig) (outs : list PathStep.t) (st : DFS.state)
  : Prop :=
  (DFS.complete st = true ∧
   ∃ fin, last outs = Some fin ∧ PathStep.currentNode fin = endNode cfg ∧
          PathStep.isComplete fin = true ∧
          reconstructPath (DFS.previousNodes (DFS.vars_of st)) (startNode cfg) (endNode cfg)
          = Some (PathStep.path fin) ∧
          (endNode cfg ∈ node_ids (graph cfg) →
           ∃ p W, pchain (graph cfg) (DFS.previousNodes (DFS.vars_of st))
                    (startNode cfg) (endNode cfg) p W)) ∨
  (DFS.complete st = false ∧
   DFS_searching (graph cfg) (startNode cfg) (fun _ => False)
     (DFS.previousNodes (DFS.vars_of st)) (DFS.visitedNodes (DFS.vars_of st)) [] ∧
   endNode cfg ∉ DFS.visitedNodes (DFS.vars_of st)).

Lemma pchain_links g prev s x p W :
  pchain g prev s x p W → ∀ z, z ∈ p → z = s ∨ ∃ u, prev !! z = Some (Some u).
Proof.
  induction 1 as [W Hs H0|u n p W W1 e Hn Hu Hp IH He Hj Hc HW]; intros z Hz.
  - apply list_elem_of_singleton in Hz. by left.
  - apply elem_of_app in Hz as [Hz|Hz]; [by apply IH|].
    apply list_elem_of_singleton in Hz as ->. right. by exists u.
Qed.

(** Giving a parent to a node that has none keeps the chains. *)
Lemma pchain_set_parent g prev s x p W y q :
  pchain g prev s x p W → prev !! y = Some None → y ≠ s →
  pchain g (<[y := q]> prev) s x p W.
Proof.
  intros Hp Hy Hys. eapply pchain_ext; [done|]. intros z Hz.
  rewrite lookup_insert_ne; [done|]. intros <-.
  destruct (pchain_links _ _ _ _ _ _ Hp y Hz) as [->|[u Hu]]; [done|congruence].
Qed.

(** One neighbour in [DFSStepByStep.step]. *)
Lemma DFS_relax_step_one g s u v y :
  DFS_searching g s (fun x => x = u) (DFS.previousNodes v) (DFS.visitedNodes v) (DFS.stack v) →
  u ∈ DFS.visitedNodes v → s ∈ DFS.visitedNodes v →
  y ∈ default [] (adjacency g !! u) →
  let v' := DFS.relax_step u v y in
  DFS_searching g s (fun x => x = u)
    (DFS.previousNodes v') (DFS.visitedNodes v') (DFS.stack v') ∧
  DFS.visitedNodes v' = DFS.visitedNodes v ∧
  (∀ x, x ∈ DFS.stack v → x ∈ DFS.stack v') ∧
  (y ∈ node_ids g → y ∈ DFS.visitedNodes v' ∨ y ∈ DFS.stack v').
Proof.
  intros Hinv Hu Hs Hy. unfold DFS.relax_step.
  destruct (decide (y ∈ DFS.visitedNodes v)) as [Hyv|Hyv]; [by auto|].
  destruct (DFS.previousNodes v !! y) as [[p|]|] eqn:Hprev; simpl.
  - split; [done|]. split; [done|]. split; [done|]. intros _.
    by eapply ds_pushed.
  - destruct Hinv as [Hrank Hstart Hdom Hchain Hpushed Huniv Hclosed].
    assert (y ≠ s) as Hys by (intros ->; done).
    assert (y ∈ node_ids g) as Hyn by (apply Hdom; by rewrite Hprev).
    split; [|split; [done|]; split; [|intros _]].
    + split.
      * by apply ranked_set_parent.
      * by left.
      * intros z. rewrite Hdom. destruct (decide (z = y)) as [->|Hzy].
        -- rewrite lookup_insert_eq, Hprev. split; eauto.
        -- by rewrite lookup_insert_ne.
      * intros x Hx Hxn. destruct (decide (x = y)) as [->|Hxy].
        -- apply adjacency_spec in Hy as (Hun & e & He & Hj).
           destruct (Hchain u (or_introl Hu) Hun) as (p & W & Hp).
           exists (p ++ [y]), (W + Edge.weight e)%Q.
           eapply pchain_step; [done| |by apply pchain_set_parent|done|done|done|reflexivity].
           by rewrite lookup_insert_eq.
        -- destruct (Hchain x) as (p & W & Hp); [|done|].
           { destruct Hx as [|[->|]%elem_of_cons]; auto. done. }
           exists p, W. by apply pchain_set_parent.
      * intros z p Hz. destruct (decide (z = y)) as [->|Hzy].
        -- right. apply elem_of_cons. by left.
        -- rewrite lookup_insert_ne in Hz by done.
           destruct (Hpushed z p Hz) as [|]; [by left|]. right. apply elem_of_cons. by right.
      * intros x [Hx|[->|Hx]%elem_of_cons]; auto.
      * intros x z Hx Hz Hzn. destruct (Hclosed x z Hx Hz Hzn) as [|[|]]; auto.
        right. right. apply elem_of_cons. by right.
    + intros x Hx. apply elem_of_cons. by right.
    + right. apply elem_of_cons. by left.
  - split; [done|]. split; [done|]. split; [done|]. intros Hyn.
    apply (ds_dom _ _ _ _ _ _ Hinv) in Hyn. rewrite Hprev in Hyn. by destruct Hyn.
Qed.

(** All the neighbours. *)
Lemma DFS_relax_step_fold g s u nb :
  (∀ y, y ∈ nb → y ∈ default [] (adjacency g !! u)) →
  ∀ v,
    DFS_searching g s (fun x => x = u)
      (DFS.previousNodes v) (DFS.visitedNodes v) (DFS.stack v) →
    u ∈ DFS.visitedNodes v → s ∈ DFS.visitedNodes v →
    let v' := foldl (DFS.relax_step u) v nb in
    DFS_searching g s (fun x => x = u)
      (DFS.previousNodes v') (DFS.visitedNodes v') (DFS.stack v') ∧
    DFS.visitedNodes v' = DFS.visitedNodes v ∧
    (∀ x, x ∈ DFS.stack v → x ∈ DFS.stack v') ∧
    (∀ y, y ∈ nb → y ∈ node_ids g → y ∈ DFS.visitedNodes v' ∨ y ∈ DFS.stack v').
Proof.
  induction nb as [|y nb IH]; intros Hnb v Hinv Hu Hs.
  { simpl. do 3 (split; [done|]). intros y Hy. by apply elem_of_nil in Hy. }
  cbn [foldl].
  destruct (DFS_relax_step_one g s u v y Hinv Hu Hs) as (Hinv1 & HV1 & Hstk1 & Hy1).
  { apply Hnb, elem_of_cons. by left. }
  destruct (IH (fun z Hz => Hnb z (proj2 (elem_of_cons _ _ _) (or_intror Hz)))
               (DFS.relax_step u v y) Hinv1) as (Hinv' & HV' & Hstk' & Hall).
  { by rewrite HV1. }
  { by rewrite HV1. }
  cbv zeta. split; [done|]. split; [by rewrite HV'|]. split; [by auto|].
  intros z [->|Hz]%elem_of_cons Hzn; [|by apply Hall].
  destruct (Hy1 Hzn) as [Hv|Hk].
  - left. by rewrite HV', HV1 in *.
  - right. by apply Hstk'.
Qed.

Lemma DFS_searching_init cfg :
  DFS_searching (graph cfg) (startNode cfg) (fun _ => False)
    (prev_init (graph cfg)) ∅ [startNode cfg].
Proof.
  split.
  - apply ranked_prev_init.
  - by right.
  - intros y. by rewrite <- prev_init_dom, elem_of_dom.
  - intros x [Hx|Hx] Hxn; [set_solver|]. apply list_elem_of_singleton in Hx as ->.
    exists [startNode cfg], 0%Q. by apply pchain_start.
  - intros y p Hy. by apply prev_init_lookup in Hy.
  - intros x [Hx|Hx]; [set_solver|]. apply list_elem_of_singleton in Hx. by right.
  - intros x y Hx. set_solver.
Qed.

(** One call of [step] on a state that is not complete: the ids at the top
    of the stack that are visited already are dropped, and the first one
    that is not is visited. *)
Lemma DFS_step_from_search cfg st v :
  DFS.adjacencyList st = adjacency (graph cfg) → DFS.complete st = false →
  endNode cfg ∉ DFS.visitedNodes v →
  ∀ stk,
    DFS_searching (graph cfg) (startNode cfg) (fun _ => False)
      (DFS.previousNodes v) (DFS.visitedNodes v) stk →
    ∃ r st', DFS.step_from cfg st v stk = Some (r, st') ∧
      DFS.config st' = DFS.config st ∧ DFS.adjacencyList st' = DFS.adjacencyList st ∧
      match r with
      | None =>
          DFS.complete st' = false ∧
          DFS.visitedNodes (DFS.vars_of st') = DFS.visitedNodes v ∧
          DFS_searching (graph cfg) (startNode cfg) (fun _ => False)
            (DFS.previousNodes (DFS.vars_of st')) (DFS.visitedNodes (DFS.vars_of st')) []
      | Some fin =>
          ∃ cur, (cur ∉ DFS.visitedNodes v) ∧
            (cur ∈ node_ids (graph cfg) ∨ cur = startNode cfg) ∧
            DFS.visitedNodes (DFS.vars_of st') = DFS.visitedNodes v ∪ {[cur]} ∧
            PathStep.currentNode fin = cur ∧
            PathStep.isComplete fin = str_eq cur (endNode cfg) ∧
            if str_eq cur (endNode cfg) then
              DFS.complete st' = true ∧
              reconstructPath (DFS.previousNodes (DFS.vars_of st')) (startNode cfg) cur
              = Some (PathStep.path fin) ∧
              (cur ∈ node_ids (graph cfg) →
               ∃ p W, pchain (graph cfg) (DFS.previousNodes (DFS.vars_of st'))
                        (startNode cfg) cur p W)
            else
              DFS.complete st' = false ∧
              DFS_searching (graph cfg) (startNode cfg) (fun _ => False)
                (DFS.previousNodes (DFS.vars_of st')) (DFS.visitedNodes (DFS.vars_of st'))
                (DFS.stack (DFS.vars_of st'))
      end.
Proof.
  intros Hadj Hc He. induction stk as [|cur rest IH]; intros Hinv.
  { eexists _, _. split; [reflexivity|]. simpl. by rewrite Hc. }
  cbn [DFS.step_from].
  destruct Hinv as [Hrank Hstart Hdom Hchain Hpushed Huniv Hclosed].
  destruct (decide (cur ∈ DFS.visitedNodes v)) as [Hcur|Hcur].
  { apply IH. split; try done.
    - left. destruct Hstart as [|[HV _]]; [done|]. rewrite HV in Hcur. set_solver.
    - intros x Hx. apply Hchain. set_solver.
    - intros y p Hy. destruct (Hpushed y p Hy) as [|[->|]%elem_of_cons]; auto.
    - intros x Hx. apply Huniv. set_solver.
    - intros x y Hx Hy Hyn.
      destruct (Hclosed x y Hx Hy Hyn) as [[]|[|[->|]%elem_of_cons]]; auto. }
  assert (startNode cfg ∈ DFS.visitedNodes v ∪ {[cur]}) as Hs1.
  { destruct Hstart as [|[_ [= <- _]]]; set_solver. }
  pose proof (ranked_visit _ _ cur Hrank) as Hr1.
  destruct (ranked_snapshot _ _ (startNode cfg) cur Hr1) as [p Hp].
  unfold DFS.snapshot. simpl. rewrite Hp. simpl.
  destruct (str_eq cur (endNode cfg)) eqn:Hend.
  { eexists _, _. split; [reflexivity|]. simpl. do 2 (split; [done|]).
    exists cur. rewrite Hend. split; [done|]. split; [apply Huniv; set_solver|].
    do 3 (split; [done|]). split; [done|]. split; [done|].
    apply Hchain. set_solver. }
  rewrite Hadj.
  set (v1 := DFS.visit v cur rest).
  destruct (DFS_relax_step_fold (graph cfg) (startNode cfg) cur
              (rev (default [] (adjacency (graph cfg) !! cur)))
              (fun y Hy => proj1 (elem_of_rev_list _ _) Hy) v1)
    as (Hinv' & HV' & Hstk' & Hall); [|simpl; set_solver|done|].
  { split; simpl; try done.
    - by left.
    - intros x Hx. apply Hchain. set_solver.
    - intros y q Hy. destruct (Hpushed y q Hy) as [|[->|]%elem_of_cons]; set_solver.
    - intros x Hx. apply Huniv. set_solver.
    - intros x y [Hx| ->%elem_of_singleton]%elem_of_union Hy Hyn; [|by left].
      destruct (Hclosed x y Hx Hy Hyn) as [[]|[|[->|]%elem_of_cons]]; set_solver. }
  eexists _, _. split; [reflexivity|]. simpl. do 2 (split; [done|]).
  exists cur. rewrite Hend. split; [done|]. split; [apply Huniv; set_solver|].
  split; [by rewrite HV'|]. do 2 (split; [done|]). split; [done|].
  destruct Hinv' as [Hrank' Hstart' Hdom' Hchain' Hpushed' Huniv' Hclosed'].
  split; try done.
  intros x y Hx Hy Hyn. destruct (Hclosed' x y Hx Hy Hyn) as [->|[|]]; auto.
  right. apply Hall; [|done]. by apply elem_of_rev_list.
Qed.

Lemma DFS_step_mk cfg p V stk adj :
  DFS.step (DFS.mkState (Some cfg) (DFS.mkVars p V stk) adj false)
  = DFS.step_from cfg (DFS.mkState (Some cfg) (DFS.mkVars p V stk) adj false)
      (DFS.mkVars p V stk) stk.
Proof. by destruct stk. Qed.

Lemma size_visit (U V : gset string) cur :
  cur ∈ U → cur ∉ V → (size (U ∖ (V ∪ {[cur]})) < size (U ∖ V))%nat.
Proof. intros HU HV. apply subset_size. set_solver. Qed.

(** Calling [step] until it returns [null]. *)
Lemma DFS_steps_run cfg v :
  DFS_searching (graph cfg) (startNode cfg) (fun _ => False)
    (DFS.previousNodes v) (DFS.visitedNodes v) (DFS.stack v) →
  endNode cfg ∉ DFS.visitedNodes v →
  ∃ fuel outs st',
    step_until_null DFS.step fuel
      (DFS.mkState (Some cfg) v (adjacency (graph cfg)) false) = Some (outs, st') ∧
    DFS_final cfg outs st'.
Proof.
  remember (size ((node_ids (graph cfg) ∪ {[startNode cfg]}) ∖ DFS.visitedNodes v)) as m
    eqn:Hm.
  revert v Hm. induction m as [m IH] using lt_wf_ind. intros [p V stk] Hm Hinv He.
  simpl in *.
  destruct (DFS_step_from_search cfg
              (DFS.mkState (Some cfg) (DFS.mkVars p V stk) (adjacency (graph cfg)) false)
              (DFS.mkVars p V stk) eq_refl eq_refl He stk Hinv)
    as (r & st' & Hstep & Hcfg & Hadj & Hpost).
  rewrite <- DFS_step_mk in Hstep. simpl in Hcfg, Hadj.
  destruct r as [fin|].
  - destruct Hpost as (cur & Hcur & Hcu & HV' & Hfc & Hfi & Hrest).
    destruct (str_eq cur (endNode cfg)) eqn:Hend.
    + destruct Hrest as (Hdone & Hrec & Hchain). apply str_eq_true in Hend. subst cur.
      exists 2%nat, [fin], st'. split.
      * rewrite step_until_null_S, Hstep. simpl. unfold DFS.step.
        by rewrite Hcfg, Hdone.
      * left. split; [done|]. exists fin. rewrite Hend in *. done.
    + destruct Hrest as (Hgo & Hinv').
      destruct st' as [c v' a b]. simpl in *. subst c a b.
      pose proof (size_visit (node_ids (graph cfg) ∪ {[startNode cfg]}) V cur
                    ltac:(set_solver) Hcur) as Hlt.
      rewrite <- Hm in Hlt.
      destruct (IH _ Hlt v') as (fuel & outs & st'' & Hrun & Hfinal);
        [by rewrite HV'|done| |].
      { rewrite HV'. apply str_eq_false in Hend. set_solver. }
      exists (S fuel), (fin :: outs), st''. split.
      * rewrite step_until_null_S, Hstep. cbn [mbind option_bind]. by rewrite Hrun.
      * destruct Hfinal as [(Hdone & fin' & Hlast & Hrest')|Hstop]; [|by right].
        left. split; [done|]. exists fin'. split; [|done].
        by rewrite last_cons, Hlast.
  - destruct Hpost as (Hgo & HV' & Hinv').
    exists 1%nat, [], st'. split.
    + by rewrite step_until_null_S, Hstep.
    + right. split; [done|]. split; [done|]. by rewrite HV'.
Qed.

(** X27: [DFSStepByStep], on a graph without empty id and for an end node
    of the graph: calling [step] until it returns [null] ends; when the end
    node is reachable from the start node, the walker is then complete and
    the last step returned is the one of the end node, whose path goes from
    the start node to the end node along edges of the graph and is the
    path of the parent map at the end; when the end node is not reachable,
    the walker is not complete and the parent map gives the empty path. *)
Theorem dfs_steps_find_path cfg :
  "" ∉ node_ids (graph cfg) → endNode cfg ∈ node_ids (graph cfg) →
  ∃ fuel outs st,
    step_until_null DFS.step fuel (DFS.init cfg) = Some (outs, st) ∧
    (reachable (graph cfg) (startNode cfg) (endNode cfg) →
     DFS.isComplete st = true ∧
     ∃ fin W, last outs = Some fin ∧ PathStep.currentNode fin = endNode cfg ∧
              PathStep.isComplete fin = true ∧
              walk (graph cfg) (startNode cfg) (endNode cfg) (PathStep.path fin) W ∧
              reconstructPath (DFS.previousNodes (DFS.vars_of st))
                (startNode cfg) (endNode cfg) = Some (PathStep.path fin)) ∧
    (¬ reachable (graph cfg) (startNode cfg) (endNode cfg) →
     DFS.isComplete st = false ∧
     reconstructPath (DFS.previousNodes (DFS.vars_of st)) (startNode cfg) (endNode cfg)
     = Some []).
Proof.
  intros Hne He.
  destruct (DFS_steps_run cfg (DFS.init_vars cfg) (DFS_searching_init cfg))
    as (fuel & outs & st & Hrun & Hfinal); [set_solver|].
  exists fuel, outs, st. split; [done|].
  destruct Hfinal as [(Hdone & fin & Hlast & Hcur & Hfin & Hrec & Hchain)
                     |(Hgo & Hinv & Hev)].
  - destruct (Hchain He) as (p & W & Hp).
    pose proof (pchain_reconstructPath _ _ _ _ _ _ _ Hne Hp Hrec) as Hpath.
    split.
    + intros _. split; [done|]. exists fin, W. rewrite Hpath.
      do 3 (split; [done|]). split; [by eapply pchain_walk|]. by rewrite <- Hpath.
    + intros Hnr. destruct Hnr. exists p, W. by eapply pchain_walk.
  - destruct Hinv as [Hrank Hstart Hdom _ Hpushed _ Hclosed].
    assert (startNode cfg ∈ DFS.visitedNodes (DFS.vars_of st)) as Hs.
    { by destruct Hstart as [|[_ ?]]. }
    split.
    + intros (p & W & Hw). destruct Hev.
      clear -Hw Hs Hclosed. induction Hw as [|b c p W W1 e Hw IH He Hj Hc HW]; [done|].
      destruct (Hclosed b c IH) as [[]|[|Hin]]; [|done|done|by apply elem_of_nil in Hin].
      apply adjacency_spec. split; [by eapply walk_node|eauto].
    + intros _. split; [done|]. apply reconstructPath_no_parent.
      * unfold parent_of.
        destruct (DFS.previousNodes (DFS.vars_of st) !! endNode cfg) as [[q|]|] eqn:Hq;
          try done.
        destruct (Hpushed _ _ Hq) as [|Hin]; [done|by apply elem_of_nil in Hin].
      * intros Heq. apply Hev. by rewrite Heq.
Qed.

Lemma dfs_steps_find_path_witness :
  ∃ fuel outs st,
    step_until_null DFS.step fuel (DFS.init triangle_config) = Some (outs, st) ∧
    (reachable triangle "a" "c" →
     DFS.isComplete st = true ∧
     ∃ fin W, last outs = Some fin ∧ PathStep.currentNode fin = "c" ∧
              PathStep.isComplete fin = true ∧
              walk triangle "a" "c" (PathStep.path fin) W ∧
              reconstructPath (DFS.previousNodes (DFS.vars_of st)) "a" "c"
              = Some (PathStep.path fin)) ∧
    (¬ reachable triangle "a" "c" →
     DFS.isComplete st = false ∧
     reconstructPath (DFS.previousNodes (DFS.vars_of st)) "a" "c" = Some []).
Proof.
  apply (dfs_steps_find_path triangle_config); by vm_compute.
Defined.

(** ** Every step of Dijkstra and A* shows a lightest path *)

(** The path of a step goes from the start node to the current node of the
    step along edges of the graph, and no walk between them is lighter. *)
Definition lightest_path (g : Graph.t) (s : string) (st : PathStep.t) : Prop :=
  walk g s (PathStep.currentNode st) (PathStep.path st)
    (path_weight g (PathStep.path st)) ∧
  ∀ p' W', walk g s (PathStep.currentNode st) p' W' →
           (path_weight g (PathStep.path st) <= W')%Q.

Section steps_lightest.
Context {H : MinHeap}.
Variable h : string → number.
Variable hq : string → Q.
Variable cfg : AlgorithmConfig.

Hypothesis Hh : ∀ n, h n = Fin (hq n).
Hypothesis Hs : startNode cfg ∈ node_ids (graph cfg).
Hypothesis Hcons : ∀ e u c,
  e ∈ Graph.edges (graph cfg) → joins e u c = true →
  u ∈ node_ids (graph cfg) → c ∈ node_ids (graph cfg) →
  (hq u <= Edge.weight e + hq c)%Q.
Hypothesis Hne : "" ∉ node_ids (graph cfg).

Lemma AStar_loop_lightest fuel :
  ∀ steps v steps' v',
    AOpt hq cfg (full cfg) v →
    Forall (lightest_path (graph cfg) (startNode cfg)) steps →
    AStar.loop h fuel cfg (weighted_adjacency (graph cfg)) steps v = Some (steps', v') →
    Forall (lightest_path (graph cfg) (startNode cfg)) steps'.
Proof.
  induction fuel as [|fuel IH]; intros steps v steps' v' Hinv Hsteps Hloop; [done|].
  simpl in Hloop. destruct (heap_isEmpty _) eqn:Hemp.
  { by injection Hloop as <- <-. }
  destruct (heap_pop _) as [[[p cur] q]|] eqn:Hpop; [|by injection Hloop as <- <-].
  simpl in Hloop. destruct (decide (cur ∈ AStar.visitedNodes v)) as [Hcur|Hcur].
  { eapply IH; [|done|done]. by eapply AOpt_pop_visited. }
  pose proof (AOpt_visit h hq cfg Hh Hs Hcons v p cur q Hinv Hpop Hcur) as Hinv1.
  destruct (AStar.snapshot _ _ _) as [st|] eqn:Hsnap; [|done]. simpl in Hloop.
  assert (Forall (lightest_path (graph cfg) (startNode cfg)) (steps ++ [st])) as Hsteps1.
  { apply Forall_app. split; [done|]. apply Forall_singleton.
    apply AStar_snapshot_fields in Hsnap as (Hc & _ & _ & Hpath & _).
    destruct (ao_opt _ _ _ _ Hinv1 cur) as (d & Hd & Hmin); [simpl; set_solver|].
    destruct (ao_chain _ _ _ _ Hinv1 cur d Hd) as (pc & W & Hpc & HW & _).
    rewrite <- (pchain_reconstructPath _ _ _ _ _ _ _ Hne Hpc Hpath) in Hpc.
    apply pchain_walk in Hpc.
    assert (∀ p' W', walk (graph cfg) (startNode cfg) cur p' W' → (W <= W')%Q) as Hmin'.
    { intros p' W' Hw'. specialize (Hmin _ _ Hw'). lra. }
    unfold lightest_path. rewrite Hc.
    destruct (walk_path_weight _ _ _ _ _ Hpc) as [_ Hw'].
    pose proof (optimal_path_weight _ _ _ _ _ Hpc Hmin') as HWp.
    split; [done|]. intros p' W' Hw2. specialize (Hmin' _ _ Hw2). lra. }
  destruct (str_eq cur (endNode cfg)) eqn:Hend.
  { by injection Hloop as <- <-. }
  destruct (num_gt _ _) eqn:Hstale.
  { exfalso.
    destruct (popped_score _ _ _ _ _ _ _ Hinv Hpop Hcur) as (pq & d & -> & Hd & Hpq).
    destruct (ao_F _ _ _ _ Hinv cur d Hd) as (f & Hf & Hfd).
    simpl in Hstale. unfold num_get in Hstale. rewrite Hf in Hstale.
    apply num_lt_Fin in Hstale. lra. }
  eapply IH; [|done|done]. apply AOpt_expand; [done|done|]. simpl. set_solver.
Qed.

Lemma astar_with_lightest :
  ∃ r, AStar.astar_with h cfg = Some r ∧
       Forall (lightest_path (graph cfg) (startNode cfg)) (AlgorithmResult.steps r).
Proof.
  destruct (astar_with_optimal h hq cfg Hh Hs Hcons Hne) as (r & Hr & _).
  exists r. split; [done|]. unfold AStar.astar_with in Hr.
  destruct (AStar.loop h _ cfg _ [] (AStar.init_vars h cfg)) as [[steps v]|] eqn:Hloop;
    [|done].
  simpl in Hr. destruct (reconstructPath _ _ _); [|done]. injection Hr as <-. simpl.
  eapply AStar_loop_lightest; [|apply Forall_nil_2|exact Hloop].
  by apply AOpt_init.
Qed.

End steps_lightest.

(** X29: on a graph without empty id, with positive integer weights whose
    sum is a safe integer (so that every distance the code computes is
    exact), from a start node of the graph, every step of [dijkstra] shows
    a lightest path: the path of the step goes from the start node to the
    current node of the step along edges of the graph, and no walk between
    them is lighter. *)
Theorem dijkstra_steps_lightest {H : MinHeap} cfg :
  "" ∉ node_ids (graph cfg) → safe_weights (graph cfg) →
  startNode cfg ∈ node_ids (graph cfg) →
  ∃ r, Dijkstra.dijkstra cfg = Some r ∧
       Forall (lightest_path (graph cfg) (startNode cfg)) (AlgorithmResult.steps r).
Proof.
  intros Hne [Hint _] Hs. pose proof (positive_integer_nonneg _ Hint) as Hpos. rewrite <- (dijkstra_astar cfg Hs).
  apply (astar_with_lightest h0 (fun _ => 0%Q) cfg); try done.
  intros e u c He _ _ _. specialize (Hpos e He). lra.
Qed.


Lemma dijkstra_steps_lightest_witness :
  ∃ r, Dijkstra.dijkstra triangle_config = Some r ∧
       Forall (lightest_path triangle "a") (AlgorithmResult.steps r).
Proof.
  apply (dijkstra_steps_lightest triangle_config).
  - by vm_compute.
  - apply triangle_safe.
  - by vm_compute.
Defined.

